(** * The sequencer engine coordinator (src/apps/sequencer/engine/Engine.cpp)

    A shallow embedding of [Engine::update] and of the functions it calls:
    the lock protocol, play-state arbitration, track-engine set-up, track
    output wiring, output overrides and the external clock input handlers.

    The coordinator is stateful and can fail (a null track engine is
    dereferenced, an array is indexed out of range, a modulus is zero), so it
    is embedded in a state-and-fault monad over the [Engine] record.  Every
    call the coordinator makes on a collaborator (track engines, Clock, gate
    and CV outputs, routing) is appended to a call log, which is what the
    theorems about "which method is invoked, and in which order" talk about. *)

From stdpp Require Import base list sorting gmap.
From Stdlib Require Import ZArith Lia.

Open Scope Z_scope.

(** ** Enumerations of the model *)

(** [Track::TrackMode]; [Last] is the sentinel closing the enumeration. *)
Inductive TrackMode := Note | Curve | MidiCv | TrackModeLast.

(** [ClockSetup::Mode], [ClockSetup::ClockInputMode], [ClockSetup::ClockOutputMode]. *)
Inductive ClockSetupMode := ModeAuto | ModeMaster | ModeSlave | ModeLast.
Inductive ClockInputMode := InputReset | InputRun | InputStartStop | InputLast.
Inductive ClockOutputMode := OutputReset | OutputRun | OutputLast.

(** [Clock::Event] without [None]: the event queue holds the real events,
    and an empty queue is the falsy [None] that ends the loop of [update]. *)
Inductive ClockEvent := EventStart | EventStop | EventContinue | EventReset.

Inductive ClockSource := ClockSourceExternal | ClockSourceMidi | ClockSourceUsbMidi.

Inductive MidiPort := PortMidi | PortUsbMidi.

#[global] Instance TrackMode_eq_dec : EqDecision TrackMode.
Proof. solve_decision. Defined.
#[global] Instance ClockSource_eq_dec : EqDecision ClockSource.
Proof. solve_decision. Defined.
#[global] Instance ClockSetupMode_eq_dec : EqDecision ClockSetupMode.
Proof. solve_decision. Defined.

(** ** Constants of Config.h and of PlayState.h

    Neither header is part of the sources at hand: the constants are taken
    as parameters.  The request flags are the bit masks that
    [hasRequests] and [clearRequests] are called with. *)
Class Config := {
  CONFIG_PPQN : Z;
  CONFIG_TRACK_COUNT : Z;
  ImmediateMuteRequest : Z;
  SyncedMuteRequest : Z;
  LatchedMuteRequest : Z;
  ImmediatePatternRequest : Z;
  SyncedPatternRequest : Z;
  LatchedPatternRequest : Z;
  ImmediatePlayRequest : Z;
  SyncedPlayRequest : Z;
  LatchedPlayRequest : Z;
  ImmediateStopRequest : Z;
  SyncedStopRequest : Z;
  LatchedStopRequest : Z
}.

(** ** The model side: play state, song, tracks, clock set-up *)

(** [PlayState::TrackState]: the request bits live in [ts_state]. *)
Record TrackState := {
  ts_state : Z;
  ts_mute : bool;
  ts_requestedMute : bool;
  ts_fill : bool;
  ts_pattern : Z;
  ts_requestedPattern : Z
}.

(** [PlayState::SongState]. *)
Record SongState := {
  ss_state : Z;
  ss_currentSlot : Z;
  ss_currentRepeat : Z;
  ss_requestedSlot : Z;
  ss_playing : bool
}.

Record PlayState := {
  ps_trackStates : list TrackState;
  ps_songState : SongState;
  ps_hasImmediateRequests : bool;
  ps_hasSyncedRequests : bool;
  ps_executeLatchedRequests : bool
}.

(** One entry of the song: a pattern per track and a repeat count. *)
Record SongSlot := {
  slot_patterns : list Z;
  slot_repeats : Z
}.

(** The song: the slot array and the number of slots in use. *)
Record Song := {
  song_slots : list SongSlot;
  song_slotCount : Z
}.

Record Track := {
  trackMode : TrackMode;
  linkTrack : Z
}.

Record ClockSetup := {
  cs_dirty : bool;
  cs_mode : ClockSetupMode;
  cs_clockInputMode : ClockInputMode;
  cs_clockOutputMode : ClockOutputMode;
  cs_clockInputDivisor : Z;
  cs_clockOutputDivisor : Z;
  cs_clockOutputPulse : Z;
  cs_midiRx : bool;
  cs_usbRx : bool
}.

Record Project := {
  syncMeasure : Z;
  swing : Z;
  selectedTrackIndex : Z;
  tracks : list Track;
  gateOutputTracks : list Z;
  cvOutputTracks : list Z;
  playState : PlayState;
  song : Song;
  clockSetup : ClockSetup
}.

(** ** Collaborators *)

(** [Clock::OutputState]. *)
Record OutputState := {
  os_clock : bool;
  os_reset : bool;
  os_run : bool
}.

(** Modelled from the spec: the Clock collaborator (Clock.h is missing).
    What the coordinator reads from it: the queue of pending ticks
    ([checkTick]), the queue of pending transport events ([checkEvent]),
    [isRunning], [isIdle] and [outputState]. *)
Record Clock := {
  clk_ticks : list Z;
  clk_events : list ClockEvent;
  clk_isRunning : bool;
  clk_isIdle : bool;
  clk_outputState : OutputState
}.

(** [Clock::Mode]. *)
Inductive ClockMode := ClockAuto | ClockMaster | ClockSlave.

#[global] Instance ClockMode_eq_dec : EqDecision ClockMode.
Proof. solve_decision. Defined.

(** The commands the coordinator sends to the Clock. *)
Inductive ClockCommand :=
| masterStart | masterStop | masterContinue | masterReset
| setMasterBpm
| setMode (m : ClockMode)
| slaveConfigure (src : ClockSource) (divisor : Z) (enabled : bool)
| slaveStart (src : ClockSource)
| slaveStop (src : ClockSource)
| slaveContinue (src : ClockSource)
| slaveReset (src : ClockSource)
| slaveTick (src : ClockSource)
| outputConfigure (divisor pulse : Z).

#[global] Instance ClockCommand_eq_dec : EqDecision ClockCommand.
Proof. solve_decision. Defined.

(** The state-changing methods of the [TrackEngine] interface. *)
Inductive TrackEngineCall {Msg : Type} :=
| TEreset
| TEtick (tick : Z)
| TEupdate (elapsed : Z)
| TEsetMute (mute : bool)
| TEsetFill (fill : bool)
| TEsetPattern (pattern : Z)
| TEsetSwing (swing : Z)
| TEreceiveMidi (port : MidiPort) (channel : Z) (message : Msg)
| TEclearIdleOutput.
Arguments TrackEngineCall : clear implicits.

(** The collaborators whose code is outside the coordinator: the values
    they carry are abstract types, their methods abstract functions.
    [TrackEngine] is the virtual interface that [NoteTrackEngine],
    [CurveTrackEngine] and [MidiCvTrackEngine] implement. *)
Class Collaborators := {
  (** a control voltage (a [float] in the source; only moved around) *)
  Cv : Type;
  MidiMessage : Type;
  channel : MidiMessage -> Z;
  (** the state of one track engine object *)
  TrackEngine : Type;
  te_trackMode : TrackEngine -> TrackMode;
  (** [trackContainer.create<...>(track, linkedTrackEngine)]; the linked
      engine is passed as the index of its slot *)
  te_create : TrackMode -> Track -> option Z -> TrackEngine;
  te_call : TrackEngineCall MidiMessage -> TrackEngine -> TrackEngine;
  te_idleOutput : TrackEngine -> bool;
  te_gateOutput : TrackEngine -> Z -> bool;
  te_idleGateOutput : TrackEngine -> Z -> bool;
  te_cvOutput : TrackEngine -> Z -> Cv;
  te_idleCvOutput : TrackEngine -> Z -> Cv;
  (** what a command does to the state the coordinator reads from the Clock *)
  clock_command : ClockCommand -> Clock -> Clock;
  (** the routing engine: its own state, and its update of the model *)
  Routing : Type;
  routing_receiveMidi : MidiPort -> MidiMessage -> Routing -> Routing;
  routing_update : Routing -> Project -> Routing * Project
}.

(** ** The call log *)

Inductive Call `{Collaborators} :=
| CallClock (c : ClockCommand)
| CallTrack (slot : Z) (c : TrackEngineCall MidiMessage)
| CallCreate (slot : Z) (mode : TrackMode) (linked : option Z)
(** [_gateOutput.setGate(chan, _trackEngines[src]->gateOutput(sub))], or
    [idleGateOutput(sub)] when [idle] *)
| CallSetGate (chan src sub : Z) (idle : bool)
| CallSetGates (gates : Z)
(** [_cvOutput.setChannel(chan, _trackEngines[src]->cvOutput(sub))], or
    [idleCvOutput(sub)] when [idle] *)
| CallSetCv (chan src sub : Z) (idle : bool)
(** [_cvOutput.setChannel(chan, value)] of [updateOverrides] *)
| CallSetChannel (chan : Z) (value : Cv)
| CallCvOutputUpdate
| CallCvInputUpdate
| CallNudgeTempoUpdate (elapsed : Z)
| CallMidiLearn (port : MidiPort) (message : MidiMessage)
| CallRoutingMidi (port : MidiPort) (message : MidiMessage)
| CallMidiReceiveHandler (port : MidiPort) (message : MidiMessage)
| CallRoutingUpdate
| CallClockOutput (value : bool)
| CallResetOutput (value : bool).

(** ** The engine *)

(** The fields of [Engine] that the coordinator reads or writes.  The
    collaborators it owns are kept by what the coordinator can observe of
    them: the gate bits held by [GateOutput], the channel values held by
    [CvOutput], the receive queues of the two MIDI ports, the level of the
    reset input pin.  [calls] is the call log. *)
Record Engine `{Collaborators} := {
  _model : Project;
  _trackEngines : list (option TrackEngine);
  _clock : Clock;
  _routingEngine : Routing;
  _gateOutput : Z;
  _cvOutput : gmap Z Cv;
  _midi : list MidiMessage;
  _usbMidi : list MidiMessage;
  _resetInput : bool;
  _midiReceiveHandler : bool;
  _tick : Z;
  _lastSystemTicks : Z;
  _running : bool;
  _locked : Z;
  _requestLock : Z;
  _requestUnlock : Z;
  _gateOutputOverride : bool;
  _gateOutputOverrideValue : Z;
  _cvOutputOverride : bool;
  _cvOutputOverrideValues : list Cv;
  calls : list Call
}.

(** What can go wrong on the realtime path: each is undefined behaviour
    in the source. *)
Inductive Fault :=
| NullTrackEngine (slot : Z)
| IndexOutOfRange
| DivisionByZero.

Inductive Result (A : Type) :=
| Ok (a : A)
| Failed (f : Fault).
Arguments Ok {A} a.
Arguments Failed {A} f.

Section Model.
Context `{Config} `{Collaborators}.

(** *** Field updates *)

Definition set_model (x : Project) (e : Engine) : Engine :=
    {| _model := x; _trackEngines := _trackEngines e; _clock := _clock e; _routingEngine
     := _routingEngine e; _gateOutput := _gateOutput e; _cvOutput := _cvOutput e; _midi
     := _midi e; _usbMidi := _usbMidi e; _resetInput := _resetInput e;
     _midiReceiveHandler := _midiReceiveHandler e; _tick := _tick e; _lastSystemTicks :=
     _lastSystemTicks e; _running := _running e; _locked := _locked e; _requestLock :=
     _requestLock e; _requestUnlock := _requestUnlock e; _gateOutputOverride :=
     _gateOutputOverride e; _gateOutputOverrideValue := _gateOutputOverrideValue e;
     _cvOutputOverride := _cvOutputOverride e; _cvOutputOverrideValues :=
     _cvOutputOverrideValues e; calls := calls e |}.
Definition set_trackEngines (x : list (option TrackEngine)) (e : Engine) : Engine :=
    {| _model := _model e; _trackEngines := x; _clock := _clock e; _routingEngine :=
     _routingEngine e; _gateOutput := _gateOutput e; _cvOutput := _cvOutput e; _midi :=
     _midi e; _usbMidi := _usbMidi e; _resetInput := _resetInput e; _midiReceiveHandler
     := _midiReceiveHandler e; _tick := _tick e; _lastSystemTicks := _lastSystemTicks e;
     _running := _running e; _locked := _locked e; _requestLock := _requestLock e;
     _requestUnlock := _requestUnlock e; _gateOutputOverride := _gateOutputOverride e;
     _gateOutputOverrideValue := _gateOutputOverrideValue e; _cvOutputOverride :=
     _cvOutputOverride e; _cvOutputOverrideValues := _cvOutputOverrideValues e; calls :=
     calls e |}.
Definition set_clock (x : Clock) (e : Engine) : Engine :=
    {| _model := _model e; _trackEngines := _trackEngines e; _clock := x; _routingEngine
     := _routingEngine e; _gateOutput := _gateOutput e; _cvOutput := _cvOutput e; _midi
     := _midi e; _usbMidi := _usbMidi e; _resetInput := _resetInput e;
     _midiReceiveHandler := _midiReceiveHandler e; _tick := _tick e; _lastSystemTicks :=
     _lastSystemTicks e; _running := _running e; _locked := _locked e; _requestLock :=
     _requestLock e; _requestUnlock := _requestUnlock e; _gateOutputOverride :=
     _gateOutputOverride e; _gateOutputOverrideValue := _gateOutputOverrideValue e;
     _cvOutputOverride := _cvOutputOverride e; _cvOutputOverrideValues :=
     _cvOutputOverrideValues e; calls := calls e |}.
Definition set_routingEngine (x : Routing) (e : Engine) : Engine :=
    {| _model := _model e; _trackEngines := _trackEngines e; _clock := _clock e;
     _routingEngine := x; _gateOutput := _gateOutput e; _cvOutput := _cvOutput e; _midi
     := _midi e; _usbMidi := _usbMidi e; _resetInput := _resetInput e;
     _midiReceiveHandler := _midiReceiveHandler e; _tick := _tick e; _lastSystemTicks :=
     _lastSystemTicks e; _running := _running e; _locked := _locked e; _requestLock :=
     _requestLock e; _requestUnlock := _requestUnlock e; _gateOutputOverride :=
     _gateOutputOverride e; _gateOutputOverrideValue := _gateOutputOverrideValue e;
     _cvOutputOverride := _cvOutputOverride e; _cvOutputOverrideValues :=
     _cvOutputOverrideValues e; calls := calls e |}.
Definition set_gateOutput (x : Z) (e : Engine) : Engine :=
    {| _model := _model e; _trackEngines := _trackEngines e; _clock := _clock e;
     _routingEngine := _routingEngine e; _gateOutput := x; _cvOutput := _cvOutput e;
     _midi := _midi e; _usbMidi := _usbMidi e; _resetInput := _resetInput e;
     _midiReceiveHandler := _midiReceiveHandler e; _tick := _tick e; _lastSystemTicks :=
     _lastSystemTicks e; _running := _running e; _locked := _locked e; _requestLock :=
     _requestLock e; _requestUnlock := _requestUnlock e; _gateOutputOverride :=
     _gateOutputOverride e; _gateOutputOverrideValue := _gateOutputOverrideValue e;
     _cvOutputOverride := _cvOutputOverride e; _cvOutputOverrideValues :=
     _cvOutputOverrideValues e; calls := calls e |}.
Definition set_cvOutput (x : gmap Z Cv) (e : Engine) : Engine :=
    {| _model := _model e; _trackEngines := _trackEngines e; _clock := _clock e;
     _routingEngine := _routingEngine e; _gateOutput := _gateOutput e; _cvOutput := x;
     _midi := _midi e; _usbMidi := _usbMidi e; _resetInput := _resetInput e;
     _midiReceiveHandler := _midiReceiveHandler e; _tick := _tick e; _lastSystemTicks :=
     _lastSystemTicks e; _running := _running e; _locked := _locked e; _requestLock :=
     _requestLock e; _requestUnlock := _requestUnlock e; _gateOutputOverride :=
     _gateOutputOverride e; _gateOutputOverrideValue := _gateOutputOverrideValue e;
     _cvOutputOverride := _cvOutputOverride e; _cvOutputOverrideValues :=
     _cvOutputOverrideValues e; calls := calls e |}.
Definition set_midi (x : list MidiMessage) (e : Engine) : Engine :=
    {| _model := _model e; _trackEngines := _trackEngines e; _clock := _clock e;
     _routingEngine := _routingEngine e; _gateOutput := _gateOutput e; _cvOutput :=
     _cvOutput e; _midi := x; _usbMidi := _usbMidi e; _resetInput := _resetInput e;
     _midiReceiveHandler := _midiReceiveHandler e; _tick := _tick e; _lastSystemTicks :=
     _lastSystemTicks e; _running := _running e; _locked := _locked e; _requestLock :=
     _requestLock e; _requestUnlock := _requestUnlock e; _gateOutputOverride :=
     _gateOutputOverride e; _gateOutputOverrideValue := _gateOutputOverrideValue e;
     _cvOutputOverride := _cvOutputOverride e; _cvOutputOverrideValues :=
     _cvOutputOverrideValues e; calls := calls e |}.
Definition set_usbMidi (x : list MidiMessage) (e : Engine) : Engine :=
    {| _model := _model e; _trackEngines := _trackEngines e; _clock := _clock e;
     _routingEngine := _routingEngine e; _gateOutput := _gateOutput e; _cvOutput :=
     _cvOutput e; _midi := _midi e; _usbMidi := x; _resetInput := _resetInput e;
     _midiReceiveHandler := _midiReceiveHandler e; _tick := _tick e; _lastSystemTicks :=
     _lastSystemTicks e; _running := _running e; _locked := _locked e; _requestLock :=
     _requestLock e; _requestUnlock := _requestUnlock e; _gateOutputOverride :=
     _gateOutputOverride e; _gateOutputOverrideValue := _gateOutputOverrideValue e;
     _cvOutputOverride := _cvOutputOverride e; _cvOutputOverrideValues :=
     _cvOutputOverrideValues e; calls := calls e |}.
Definition set_tick (x : Z) (e : Engine) : Engine :=
    {| _model := _model e; _trackEngines := _trackEngines e; _clock := _clock e;
     _routingEngine := _routingEngine e; _gateOutput := _gateOutput e; _cvOutput :=
     _cvOutput e; _midi := _midi e; _usbMidi := _usbMidi e; _resetInput := _resetInput
     e; _midiReceiveHandler := _midiReceiveHandler e; _tick := x; _lastSystemTicks :=
     _lastSystemTicks e; _running := _running e; _locked := _locked e; _requestLock :=
     _requestLock e; _requestUnlock := _requestUnlock e; _gateOutputOverride :=
     _gateOutputOverride e; _gateOutputOverrideValue := _gateOutputOverrideValue e;
     _cvOutputOverride := _cvOutputOverride e; _cvOutputOverrideValues :=
     _cvOutputOverrideValues e; calls := calls e |}.
Definition set_lastSystemTicks (x : Z) (e : Engine) : Engine :=
    {| _model := _model e; _trackEngines := _trackEngines e; _clock := _clock e;
     _routingEngine := _routingEngine e; _gateOutput := _gateOutput e; _cvOutput :=
     _cvOutput e; _midi := _midi e; _usbMidi := _usbMidi e; _resetInput := _resetInput
     e; _midiReceiveHandler := _midiReceiveHandler e; _tick := _tick e; _lastSystemTicks
     := x; _running := _running e; _locked := _locked e; _requestLock := _requestLock e;
     _requestUnlock := _requestUnlock e; _gateOutputOverride := _gateOutputOverride e;
     _gateOutputOverrideValue := _gateOutputOverrideValue e; _cvOutputOverride :=
     _cvOutputOverride e; _cvOutputOverrideValues := _cvOutputOverrideValues e; calls :=
     calls e |}.
Definition set_running (x : bool) (e : Engine) : Engine :=
    {| _model := _model e; _trackEngines := _trackEngines e; _clock := _clock e;
     _routingEngine := _routingEngine e; _gateOutput := _gateOutput e; _cvOutput :=
     _cvOutput e; _midi := _midi e; _usbMidi := _usbMidi e; _resetInput := _resetInput
     e; _midiReceiveHandler := _midiReceiveHandler e; _tick := _tick e; _lastSystemTicks
     := _lastSystemTicks e; _running := x; _locked := _locked e; _requestLock :=
     _requestLock e; _requestUnlock := _requestUnlock e; _gateOutputOverride :=
     _gateOutputOverride e; _gateOutputOverrideValue := _gateOutputOverrideValue e;
     _cvOutputOverride := _cvOutputOverride e; _cvOutputOverrideValues :=
     _cvOutputOverrideValues e; calls := calls e |}.
Definition set_locked (x : Z) (e : Engine) : Engine :=
    {| _model := _model e; _trackEngines := _trackEngines e; _clock := _clock e;
     _routingEngine := _routingEngine e; _gateOutput := _gateOutput e; _cvOutput :=
     _cvOutput e; _midi := _midi e; _usbMidi := _usbMidi e; _resetInput := _resetInput
     e; _midiReceiveHandler := _midiReceiveHandler e; _tick := _tick e; _lastSystemTicks
     := _lastSystemTicks e; _running := _running e; _locked := x; _requestLock :=
     _requestLock e; _requestUnlock := _requestUnlock e; _gateOutputOverride :=
     _gateOutputOverride e; _gateOutputOverrideValue := _gateOutputOverrideValue e;
     _cvOutputOverride := _cvOutputOverride e; _cvOutputOverrideValues :=
     _cvOutputOverrideValues e; calls := calls e |}.
Definition set_requestLock (x : Z) (e : Engine) : Engine :=
    {| _model := _model e; _trackEngines := _trackEngines e; _clock := _clock e;
     _routingEngine := _routingEngine e; _gateOutput := _gateOutput e; _cvOutput :=
     _cvOutput e; _midi := _midi e; _usbMidi := _usbMidi e; _resetInput := _resetInput
     e; _midiReceiveHandler := _midiReceiveHandler e; _tick := _tick e; _lastSystemTicks
     := _lastSystemTicks e; _running := _running e; _locked := _locked e; _requestLock
     := x; _requestUnlock := _requestUnlock e; _gateOutputOverride :=
     _gateOutputOverride e; _gateOutputOverrideValue := _gateOutputOverrideValue e;
     _cvOutputOverride := _cvOutputOverride e; _cvOutputOverrideValues :=
     _cvOutputOverrideValues e; calls := calls e |}.
Definition set_requestUnlock (x : Z) (e : Engine) : Engine :=
    {| _model := _model e; _trackEngines := _trackEngines e; _clock := _clock e;
     _routingEngine := _routingEngine e; _gateOutput := _gateOutput e; _cvOutput :=
     _cvOutput e; _midi := _midi e; _usbMidi := _usbMidi e; _resetInput := _resetInput
     e; _midiReceiveHandler := _midiReceiveHandler e; _tick := _tick e; _lastSystemTicks
     := _lastSystemTicks e; _running := _running e; _locked := _locked e; _requestLock
     := _requestLock e; _requestUnlock := x; _gateOutputOverride := _gateOutputOverride
     e; _gateOutputOverrideValue := _gateOutputOverrideValue e; _cvOutputOverride :=
     _cvOutputOverride e; _cvOutputOverrideValues := _cvOutputOverrideValues e; calls :=
     calls e |}.
Definition set_calls (x : list Call) (e : Engine) : Engine :=
    {| _model := _model e; _trackEngines := _trackEngines e; _clock := _clock e;
     _routingEngine := _routingEngine e; _gateOutput := _gateOutput e; _cvOutput :=
     _cvOutput e; _midi := _midi e; _usbMidi := _usbMidi e; _resetInput := _resetInput
     e; _midiReceiveHandler := _midiReceiveHandler e; _tick := _tick e; _lastSystemTicks
     := _lastSystemTicks e; _running := _running e; _locked := _locked e; _requestLock
     := _requestLock e; _requestUnlock := _requestUnlock e; _gateOutputOverride :=
     _gateOutputOverride e; _gateOutputOverrideValue := _gateOutputOverrideValue e;
     _cvOutputOverride := _cvOutputOverride e; _cvOutputOverrideValues :=
     _cvOutputOverrideValues e; calls := x |}.

Definition set_playState (x : PlayState) (p : Project) : Project :=
  {| syncMeasure := syncMeasure p; swing := swing p;
     selectedTrackIndex := selectedTrackIndex p; tracks := tracks p;
     gateOutputTracks := gateOutputTracks p; cvOutputTracks := cvOutputTracks p;
     playState := x; song := song p; clockSetup := clockSetup p |}.

Definition set_clockSetup (x : ClockSetup) (p : Project) : Project :=
  {| syncMeasure := syncMeasure p; swing := swing p;
     selectedTrackIndex := selectedTrackIndex p; tracks := tracks p;
     gateOutputTracks := gateOutputTracks p; cvOutputTracks := cvOutputTracks p;
     playState := playState p; song := song p; clockSetup := x |}.

Definition set_trackStates (x : list TrackState) (p : PlayState) : PlayState :=
  {| ps_trackStates := x; ps_songState := ps_songState p;
     ps_hasImmediateRequests := ps_hasImmediateRequests p;
     ps_hasSyncedRequests := ps_hasSyncedRequests p;
     ps_executeLatchedRequests := ps_executeLatchedRequests p |}.

Definition set_songState (x : SongState) (p : PlayState) : PlayState :=
  {| ps_trackStates := ps_trackStates p; ps_songState := x;
     ps_hasImmediateRequests := ps_hasImmediateRequests p;
     ps_hasSyncedRequests := ps_hasSyncedRequests p;
     ps_executeLatchedRequests := ps_executeLatchedRequests p |}.

(** *** The state-and-fault monad *)

Definition M (A : Type) : Type := Engine -> Result (A * Engine).

#[global] Instance M_ret : MRet M := fun A a e => Ok (a, e).

#[global] Instance M_bind : MBind M := fun A B k m e =>
  match m e with
  | Ok (a, e') => k a e'
  | Failed f => Failed f
  end.

Definition fault {A} (f : Fault) : M A := fun _ => Failed f.

Definition gets {A} (f : Engine -> A) : M A := fun e => Ok (f e, e).

Definition modify (f : Engine -> Engine) : M unit := fun e => Ok (tt, f e).

Definition when (b : bool) (m : M unit) : M unit := if b then m else mret tt.

(** [for (x : l) body], threading the loop's local variables [s]. *)
Fixpoint foldM {A S} (body : A -> S -> M S) (l : list A) (s : S) : M S :=
  match l with
  | [] => mret s
  | x :: l' => s' ← body x s; foldM body l' s'
  end.

Definition forM {A} (l : list A) (body : A -> M unit) : M unit :=
  foldM (fun x _ => body x) l tt.

(** The indices [0 .. CONFIG_TRACK_COUNT - 1] of the per-track loops. *)
Definition trackIndices : list Z := seqZ 0 CONFIG_TRACK_COUNT.

(** Array access with a [Z] index; [None] when out of range. *)
Definition at_ {A} (l : list A) (i : Z) : option A :=
  if decide (0 <= i) then l !! Z.to_nat i else None.

Definition index {A} (l : list A) (i : Z) : M A :=
  match at_ l i with
  | Some x => mret x
  | None => fault IndexOutOfRange
  end.

Definition emit (c : Call) : M unit :=
  modify (fun e => set_calls (calls e ++ [c]) e).

(** [_trackEngines[slot]->...]: the slot must hold an engine. *)
Definition trackEngineAt (slot : Z) : M TrackEngine :=
  engines ← gets _trackEngines;
  o ← index engines slot;
  match o with
  | Some te => mret te
  | None => fault (NullTrackEngine slot)
  end.

(** [_trackEngines[slot]->method(args)] for a state-changing method. *)
Definition callTrack (slot : Z) (c : TrackEngineCall MidiMessage) : M unit :=
  te ← trackEngineAt slot;
  modify (fun e => set_trackEngines (<[Z.to_nat slot := Some (te_call c te)]> (_trackEngines e)) e);;
  emit (CallTrack slot c).

(** [for (auto trackEngine : _trackEngines) trackEngine->method(args)]. *)
Definition forEachTrackEngine (c : TrackEngineCall MidiMessage) : M unit :=
  forM trackIndices (fun slot => callTrack slot c).

(** [_clock.command(args)]. *)
Definition clockDo (c : ClockCommand) : M unit :=
  modify (fun e => set_clock (clock_command c (_clock e)) e);;
  emit (CallClock c).

(** *** Track engines: reset, set-up *)

(** [Engine::resetTrackEngines], lines 334-338. *)
Definition resetTrackEngines : M unit := forEachTrackEngine TEreset.

(** The [switch (track.trackMode())] of lines 266-278: the slot's container
    is reconstructed with the variant of the mode; [Last] leaves the slot
    as it is. *)
Definition createTrackEngine (trackIndex : Z) (track : Track) (linked : option Z) : M unit :=
  match trackMode track with
  | TrackModeLast => mret tt
  | mode =>
      modify (fun e => set_trackEngines
                (<[Z.to_nat trackIndex := Some (te_create mode track linked)]> (_trackEngines e)) e);;
      emit (CallCreate trackIndex mode linked)
  end.

(** Line 260: [!_trackEngines[trackIndex] || _trackEngines[trackIndex]->trackMode() != track.trackMode()]. *)
Definition needsSetup (slot : option TrackEngine) (track : Track) : bool :=
  match slot with
  | None => true
  | Some te => negb (bool_decide (te_trackMode te = trackMode track))
  end.

(** Line 262: [linkTrack >= 0 ? &trackEngine(linkTrack) : nullptr]; the
    reference to the linked engine is kept as the index of its slot. *)
Definition linkedTrackEngine (engines : list (option TrackEngine)) (track : Track) : M (option Z) :=
  if decide (0 <= linkTrack track)
  then (_ ← index engines (linkTrack track); mret (Some (linkTrack track)))
  else mret None.

(** The body of the loop of [Engine::updateTrackSetups], lines 258-286. *)
Definition updateTrackSetup (trackIndex : Z) : M unit :=
  project ← gets _model;
  track ← index (tracks project) trackIndex;
  engines ← gets _trackEngines;
  slot ← index engines trackIndex;
  when (needsSetup slot track)
    (linked ← linkedTrackEngine engines track;
     createTrackEngine trackIndex track linked;;
     trackState ← index (ps_trackStates (playState project)) trackIndex;
     callTrack trackIndex (TEsetMute (ts_mute trackState));;
     callTrack trackIndex (TEsetFill (ts_fill trackState));;
     callTrack trackIndex (TEsetPattern (ts_pattern trackState)));;
  callTrack trackIndex (TEsetSwing (swing project)).

(** [Engine::updateTrackSetups], lines 256-288. *)
Definition updateTrackSetups : M unit := forM trackIndices updateTrackSetup.

(** [Engine::updateTrackSequences], lines 290-296. *)
Definition updateTrackSequences : M unit :=
  forM trackIndices (fun trackIndex =>
    project ← gets _model;
    trackState ← index (ps_trackStates (playState project)) trackIndex;
    callTrack trackIndex (TEsetPattern (ts_pattern trackState))).

(** *** Track outputs *)

(** Modelled from the spec: [GateOutput::setGate(index, value)]
    (GateOutput.h is missing) sets or clears bit [index] of the gate
    bit field. *)
Definition setGate (chan : Z) (value : bool) (gates : Z) : Z :=
  if value then Z.setbit gates chan else Z.clearbit gates chan.

(** Lines 315-322: the gate of physical output [trackIndex].  The counter
    of the source track is read, then incremented ([...++]). *)
Definition updateGateOutput (isIdle : bool) (trackIndex : Z) (trackGateIndex : list Z) : M (list Z) :=
  project ← gets _model;
  gateOutputTrack ← index (gateOutputTracks project) trackIndex;
  override ← gets _gateOutputOverride;
  if (override : bool) then mret trackGateIndex
  else
    te ← trackEngineAt gateOutputTrack;
    sub ← index trackGateIndex gateOutputTrack;
    let idle := isIdle && te_idleOutput te in
    let value := if idle then te_idleGateOutput te sub else te_gateOutput te sub in
    modify (fun e => set_gateOutput (setGate trackIndex value (_gateOutput e)) e);;
    emit (CallSetGate trackIndex gateOutputTrack sub idle);;
    mret (<[Z.to_nat gateOutputTrack := sub + 1]> trackGateIndex).

(** Lines 323-330: the CV of physical output [trackIndex]. *)
Definition updateCvOutput (isIdle : bool) (trackIndex : Z) (trackCvIndex : list Z) : M (list Z) :=
  project ← gets _model;
  cvOutputTrack ← index (cvOutputTracks project) trackIndex;
  override ← gets _cvOutputOverride;
  if (override : bool) then mret trackCvIndex
  else
    te ← trackEngineAt cvOutputTrack;
    sub ← index trackCvIndex cvOutputTrack;
    let idle := isIdle && te_idleOutput te in
    let value := if idle then te_idleCvOutput te sub else te_cvOutput te sub in
    modify (fun e => set_cvOutput (<[trackIndex := value]> (_cvOutput e)) e);;
    emit (CallSetCv trackIndex cvOutputTrack sub idle);;
    mret (<[Z.to_nat cvOutputTrack := sub + 1]> trackCvIndex).

(** The body of the second loop of [Engine::updateTrackOutputs], lines
    312-330; the loop's local arrays are [trackGateIndex] and [trackCvIndex]. *)
Definition updateTrackOutput (isIdle : bool) (trackIndex : Z)
    (counters : list Z * list Z) : M (list Z * list Z) :=
  project ← gets _model;
  when (negb (bool_decide (trackIndex = selectedTrackIndex project)))
    (callTrack trackIndex TEclearIdleOutput);;
  trackGateIndex ← updateGateOutput isIdle trackIndex (fst counters);
  trackCvIndex ← updateCvOutput isIdle trackIndex (snd counters);
  mret (trackGateIndex, trackCvIndex).

(** The counters after the first loop, lines 306-309: all zero. *)
Definition zeroCounters : list Z := replicate (Z.to_nat CONFIG_TRACK_COUNT) 0.

(** [Engine::updateTrackOutputs], lines 298-332. *)
Definition updateTrackOutputs : M unit :=
  isIdle ← gets (fun e => clk_isIdle (_clock e));
  _ ← foldM (updateTrackOutput isIdle) trackIndices (zeroCounters, zeroCounters);
  mret tt.

(** *** Overrides *)

(** Lines 478-482: [_cvOutput.setChannel(i, _cvOutputOverrideValues[i])]
    for every [i] below the size of the array. *)
Fixpoint setOverrideChannels (i : Z) (values : list Cv) : M unit :=
  match values with
  | [] => mret tt
  | value :: values' =>
      modify (fun e => set_cvOutput (<[i := value]> (_cvOutput e)) e);;
      emit (CallSetChannel i value);;
      setOverrideChannels (i + 1) values'
  end.

(** [Engine::updateOverrides], lines 473-483. *)
Definition updateOverrides : M unit :=
  gateOverride ← gets _gateOutputOverride;
  when gateOverride
    (gates ← gets _gateOutputOverrideValue;
     modify (set_gateOutput gates);;
     emit (CallSetGates gates));;
  cvOverride ← gets _cvOutputOverride;
  when cvOverride
    (values ← gets _cvOutputOverrideValues;
     setOverrideChannels 0 values).

(** *** Play-state arbitration *)

(** A [uint32_t] value. *)
Definition u32 (x : Z) : Z := x mod 2 ^ 32.

(** Modelled from the spec: [TrackState::hasRequests(requests)] and
    [SongState::hasRequests(requests)] (PlayState.h is missing) test the
    request bits of the state against the mask. *)
Definition hasRequests (state requests : Z) : bool :=
  negb (Z.land state requests =? 0).

(** Modelled from the spec: [clearRequests(requests)] clears just the
    flags of the mask. *)
Definition clearRequests (state requests : Z) : Z :=
  Z.land state (Z.lnot requests).

Definition ts_setMute (mute : bool) (t : TrackState) : TrackState :=
  {| ts_state := ts_state t; ts_mute := mute; ts_requestedMute := ts_requestedMute t;
     ts_fill := ts_fill t; ts_pattern := ts_pattern t;
     ts_requestedPattern := ts_requestedPattern t |}.

Definition ts_setPattern (pattern : Z) (t : TrackState) : TrackState :=
  {| ts_state := ts_state t; ts_mute := ts_mute t; ts_requestedMute := ts_requestedMute t;
     ts_fill := ts_fill t; ts_pattern := pattern;
     ts_requestedPattern := ts_requestedPattern t |}.

Definition ts_clearRequests (requests : Z) (t : TrackState) : TrackState :=
  {| ts_state := clearRequests (ts_state t) requests; ts_mute := ts_mute t;
     ts_requestedMute := ts_requestedMute t; ts_fill := ts_fill t;
     ts_pattern := ts_pattern t; ts_requestedPattern := ts_requestedPattern t |}.

Definition ss_setCurrentSlot (slot : Z) (s : SongState) : SongState :=
  {| ss_state := ss_state s; ss_currentSlot := slot; ss_currentRepeat := ss_currentRepeat s;
     ss_requestedSlot := ss_requestedSlot s; ss_playing := ss_playing s |}.

Definition ss_setCurrentRepeat (repeat : Z) (s : SongState) : SongState :=
  {| ss_state := ss_state s; ss_currentSlot := ss_currentSlot s; ss_currentRepeat := repeat;
     ss_requestedSlot := ss_requestedSlot s; ss_playing := ss_playing s |}.

Definition ss_setPlaying (playing : bool) (s : SongState) : SongState :=
  {| ss_state := ss_state s; ss_currentSlot := ss_currentSlot s;
     ss_currentRepeat := ss_currentRepeat s;
     ss_requestedSlot := ss_requestedSlot s; ss_playing := playing |}.

Definition ss_clearRequests (requests : Z) (s : SongState) : SongState :=
  {| ss_state := clearRequests (ss_state s) requests; ss_currentSlot := ss_currentSlot s;
     ss_currentRepeat := ss_currentRepeat s;
     ss_requestedSlot := ss_requestedSlot s; ss_playing := ss_playing s |}.

(** Modelled from the spec: [PlayState::clearImmediateRequests],
    [clearSyncedRequests] and [clearLatchedRequests] empty the global
    request buckets. *)
Definition clearPending (handleSynced handleLatched : bool) (p : PlayState) : PlayState :=
  {| ps_trackStates := ps_trackStates p; ps_songState := ps_songState p;
     ps_hasImmediateRequests := false;
     ps_hasSyncedRequests := if handleSynced then false else ps_hasSyncedRequests p;
     ps_executeLatchedRequests :=
       if handleLatched then false else ps_executeLatchedRequests p |}.

Definition getPlayState : M PlayState := gets (fun e => playState (_model e)).

Definition modifyPlayState (f : PlayState -> PlayState) : M unit :=
  modify (fun e => set_model (set_playState (f (playState (_model e))) (_model e)) e).

Definition modifySongState (f : SongState -> SongState) : M unit :=
  modifyPlayState (fun p => set_songState (f (ps_songState p)) p).

(** [playState.trackState(trackIndex)], read and written in place. *)
Definition getTrackState (trackIndex : Z) : M TrackState :=
  p ← getPlayState;
  index (ps_trackStates p) trackIndex.

Definition modifyTrackState (trackIndex : Z) (f : TrackState -> TrackState) : M unit :=
  t ← getTrackState trackIndex;
  modifyPlayState (fun p =>
    set_trackStates (<[Z.to_nat trackIndex := f t]> (ps_trackStates p)) p).

(** Line 350: [uint32_t measureDivisor = syncMeasure() * CONFIG_PPQN * 4]. *)
Definition measureDivisor (p : Project) : Z :=
  u32 (syncMeasure p * CONFIG_PPQN * 4).

(** Line 351, on [uint32_t]. *)
Definition handleSyncedRequests (tick divisor : Z) : bool :=
  (tick mod divisor =? 0) || (tick mod divisor =? u32 (divisor - 1)).

(** Line 352, the initial value of [switchToNextSlot]. *)
Definition switchToNextSlot (ticked : bool) (tick divisor : Z) : bool :=
  ticked && (tick mod divisor =? u32 (divisor - 1)).

(** The request masks of lines 359-365 and 389-395. *)
Definition requestMask (immediate synced latched : Z) (handleSynced handleLatched : bool) : Z :=
  Z.lor (Z.lor immediate (if handleSynced then synced else 0))
        (if handleLatched then latched else 0).

Definition muteRequests : bool -> bool -> Z :=
  requestMask ImmediateMuteRequest SyncedMuteRequest LatchedMuteRequest.
Definition patternRequests : bool -> bool -> Z :=
  requestMask ImmediatePatternRequest SyncedPatternRequest LatchedPatternRequest.
Definition playRequests : bool -> bool -> Z :=
  requestMask ImmediatePlayRequest SyncedPlayRequest LatchedPlayRequest.
Definition stopRequests : bool -> bool -> Z :=
  requestMask ImmediateStopRequest SyncedStopRequest LatchedStopRequest.

(** Lines 368-382, what the loop body does to one track state; the second
    component is the new value of [changedPatterns]. *)
Definition applyTrackRequests (muteMask patternMask : Z) (changedPatterns : bool)
    (t : TrackState) : TrackState * bool :=
  let t1 := if hasRequests (ts_state t) muteMask
            then ts_setMute (ts_requestedMute t) t else t in
  let t2 := if hasRequests (ts_state t1) patternMask
            then ts_setPattern (ts_requestedPattern t1) t1 else t1 in
  (ts_clearRequests (Z.lor muteMask patternMask) t2,
   if hasRequests (ts_state t1) patternMask then true else changedPatterns).

(** The loop of lines 367-383. *)
Definition handleTrackRequests (muteMask patternMask : Z) : M bool :=
  foldM (fun trackIndex changedPatterns =>
           t ← getTrackState trackIndex;
           let r := applyTrackRequests muteMask patternMask changedPatterns t in
           modifyTrackState trackIndex (fun _ => fst r);;
           mret (snd r))
        trackIndices false.

(** The loops of lines 401-403 and 454-457 write the patterns of a song
    slot into the track states; the second one also resets each engine. *)
Definition applySlotPatterns (slot : SongSlot) (reset : bool) : M unit :=
  forM trackIndices (fun trackIndex =>
    pattern ← index (slot_patterns slot) trackIndex;
    modifyTrackState trackIndex (ts_setPattern pattern);;
    when reset (callTrack trackIndex TEreset)).

(** Lines 397-410, the Play request; the result is the new value of
    [switchToNextSlot]. *)
Definition handlePlayRequest (playMask : Z) (switch : bool) : M bool :=
  project ← gets _model;
  let songState := ps_songState (playState project) in
  if hasRequests (ss_state songState) playMask then
    let requestedSlot := ss_requestedSlot songState in
    if (0 <=? requestedSlot) && (requestedSlot <? song_slotCount (song project)) then
      slot ← index (song_slots (song project)) requestedSlot;
      applySlotPatterns slot false;;
      modifySongState (ss_setCurrentSlot requestedSlot);;
      modifySongState (ss_setCurrentRepeat 0);;
      modifySongState (ss_setPlaying true);;
      mret false
    else mret switch
  else mret switch.

(** Lines 412-416. *)
Definition handleStopRequest (playMask stopMask : Z) (changedPatterns : bool) : M unit :=
  p ← getPlayState;
  when (changedPatterns || hasRequests (ss_state (ps_songState p)) stopMask)
    (modifySongState (ss_setPlaying false));;
  modifySongState (ss_clearRequests (Z.lor playMask stopMask)).

(** Lines 433-459, the body of [if (songState.playing() && switchToNextSlot)]. *)
Definition songSlotChange : M unit :=
  project ← gets _model;
  let songState := ps_songState (playState project) in
  slot ← index (song_slots (song project)) (ss_currentSlot songState);
  let currentSlot := ss_currentSlot songState in
  let currentRepeat := ss_currentRepeat songState in
  (if currentRepeat + 1 <? slot_repeats slot then
     modifySongState (ss_setCurrentRepeat (currentRepeat + 1))
   else
     modifySongState (ss_setCurrentRepeat 0);;
     if currentSlot + 1 <? song_slotCount (song project)
     then modifySongState (ss_setCurrentSlot (currentSlot + 1))
     else modifySongState (ss_setCurrentSlot 0));;
  p ← getPlayState;
  slot' ← index (song_slots (song project)) (ss_currentSlot (ps_songState p));
  applySlotPatterns slot' true.

(** Lines 461-470: mute, fill and pattern of every track state are pushed
    into its engine. *)
Definition pushTrackStates : M unit :=
  forM trackIndices (fun trackIndex =>
    t ← getTrackState trackIndex;
    callTrack trackIndex (TEsetMute (ts_mute t));;
    callTrack trackIndex (TEsetFill (ts_fill t));;
    callTrack trackIndex (TEsetPattern (ts_pattern t))).

(** Lines 354-470 of [Engine::updatePlayState], with the four booleans
    computed in lines 345-352: [hasRequests], [handleSyncedRequests],
    [handleLatchedRequests] and the initial [switchToNextSlot]. *)
Definition arbitrate (hasAnyRequests handleSynced handleLatched switch : bool) : M unit :=
  changedPatterns ←
    (if hasAnyRequests
     then handleTrackRequests (muteRequests handleSynced handleLatched)
                              (patternRequests handleSynced handleLatched)
     else mret false);
  switch ←
    (if hasAnyRequests
     then
       switch ← handlePlayRequest (playRequests handleSynced handleLatched) switch;
       handleStopRequest (playRequests handleSynced handleLatched)
                         (stopRequests handleSynced handleLatched) changedPatterns;;
       mret switch
     else mret switch);
  when hasAnyRequests (modifyPlayState (clearPending handleSynced handleLatched));;
  p ← getPlayState;
  when (ss_playing (ps_songState p) && (switch : bool)) songSlotChange;;
  when (hasAnyRequests || switch) pushTrackStates.

(** Line 348. *)
Definition hasAnyRequests (p : PlayState) : bool :=
  ps_hasImmediateRequests p || ps_hasSyncedRequests p || ps_executeLatchedRequests p.

(** [Engine::updatePlayState], lines 340-471.  [_tick % measureDivisor]
    is undefined for a zero divisor.  The signed [int] counters (slot,
    repeat) stay far below 2^31 and are plain integers. *)
Definition updatePlayState (ticked : bool) : M unit :=
  project ← gets _model;
  tick ← gets _tick;
  let divisor := measureDivisor project in
  if decide (divisor = 0) then fault DivisionByZero else
  arbitrate (hasAnyRequests (playState project))
            (handleSyncedRequests tick divisor)
            (ps_executeLatchedRequests (playState project))
            (switchToNextSlot ticked tick divisor).

(** *** MIDI ingress *)

(** [Engine::receiveMidi(port, message)], lines 507-519. *)
Definition receiveMidiMessage (port : MidiPort) (message : MidiMessage) : M unit :=
  emit (CallMidiLearn port message);;
  modify (fun e => set_routingEngine (routing_receiveMidi port message (_routingEngine e)) e);;
  emit (CallRoutingMidi port message);;
  handler ← gets _midiReceiveHandler;
  when handler (emit (CallMidiReceiveHandler port message));;
  forEachTrackEngine (TEreceiveMidi port (channel message) message).

(** [while (_midi.recv(&message)) body]: one message is taken from the
    receive queue per iteration.  The queue is the one found at loop entry:
    the transport's interrupt side is not part of the model. *)
Fixpoint recvLoop (setQueue : list MidiMessage -> Engine -> Engine)
    (pending : list MidiMessage) (body : MidiMessage -> M unit) : M unit :=
  match pending with
  | [] => mret tt
  | message :: pending' =>
      modify (setQueue pending');;
      body message;;
      recvLoop setQueue pending' body
  end.

Definition recvMidi (body : MidiMessage -> M unit) : M unit :=
  pending ← gets _midi;
  recvLoop set_midi pending body.

Definition recvUsbMidi (body : MidiMessage -> M unit) : M unit :=
  pending ← gets _usbMidi;
  recvLoop set_usbMidi pending body.

(** [Engine::receiveMidi()], lines 497-505. *)
Definition receiveMidi : M unit :=
  recvMidi (receiveMidiMessage PortMidi);;
  recvUsbMidi (receiveMidiMessage PortUsbMidi).

(** *** Clock integration *)

Definition set_clk_ticks (x : list Z) (c : Clock) : Clock :=
  {| clk_ticks := x; clk_events := clk_events c; clk_isRunning := clk_isRunning c;
     clk_isIdle := clk_isIdle c; clk_outputState := clk_outputState c |}.

Definition set_clk_events (x : list ClockEvent) (c : Clock) : Clock :=
  {| clk_ticks := clk_ticks c; clk_events := x; clk_isRunning := clk_isRunning c;
     clk_isIdle := clk_isIdle c; clk_outputState := clk_outputState c |}.

(** [Engine::onClockOutput], lines 231-243. *)
Definition onClockOutput (state : OutputState) : M unit :=
  emit (CallClockOutput (os_clock state));;
  project ← gets _model;
  match cs_clockOutputMode (clockSetup project) with
  | OutputReset => emit (CallResetOutput (os_reset state))
  | OutputRun => emit (CallResetOutput (os_run state))
  | OutputLast => mret tt
  end.

Definition clearDirty (c : ClockSetup) : ClockSetup :=
  {| cs_dirty := false; cs_mode := cs_mode c; cs_clockInputMode := cs_clockInputMode c;
     cs_clockOutputMode := cs_clockOutputMode c;
     cs_clockInputDivisor := cs_clockInputDivisor c;
     cs_clockOutputDivisor := cs_clockOutputDivisor c;
     cs_clockOutputPulse := cs_clockOutputPulse c;
     cs_midiRx := cs_midiRx c; cs_usbRx := cs_usbRx c |}.

(** [Engine::updateClockSetup], lines 588-652. *)
Definition updateClockSetup : M unit :=
  project ← gets _model;
  let setup := clockSetup project in
  if negb (cs_dirty setup) then mret tt else
  match cs_mode setup with
  | ModeAuto => clockDo (setMode ClockAuto)
  | ModeMaster => clockDo (setMode ClockMaster)
  | ModeSlave => clockDo (setMode ClockSlave)
  | ModeLast => mret tt
  end;;
  clockDo (slaveConfigure ClockSourceExternal (cs_clockInputDivisor setup) true);;
  clockDo (slaveConfigure ClockSourceMidi (CONFIG_PPQN ÷ 24) (cs_midiRx setup));;
  clockDo (slaveConfigure ClockSourceUsbMidi (CONFIG_PPQN ÷ 24) (cs_usbRx setup));;
  resetInput ← gets _resetInput;
  running ← gets (fun e => clk_isRunning (_clock e));
  match cs_clockInputMode setup with
  | InputReset =>
      if (resetInput : bool) && (running : bool) then clockDo (slaveReset ClockSourceExternal)
      else if negb resetInput && negb running then clockDo (slaveStart ClockSourceExternal)
      else mret tt
  | InputRun =>
      if resetInput && negb running then clockDo (slaveContinue ClockSourceExternal)
      else if negb resetInput && running then clockDo (slaveStop ClockSourceExternal)
      else mret tt
  | InputStartStop =>
      if resetInput && negb running then clockDo (slaveStart ClockSourceExternal)
      else if negb resetInput && running then clockDo (slaveReset ClockSourceExternal)
      else mret tt
  | InputLast => mret tt
  end;;
  clockDo (outputConfigure (cs_clockOutputDivisor setup) (cs_clockOutputPulse setup));;
  state ← gets (fun e => clk_outputState (_clock e));
  onClockOutput state;;
  modify (fun e => set_model (set_clockSetup (clearDirty (clockSetup (_model e))) (_model e)) e).

(** The handler installed on [_dio.clockInput] by [Engine::initClock],
    lines 527-537. *)
Definition clockInputHandler (value : bool) : M unit :=
  project ← gets _model;
  running ← gets (fun e => clk_isRunning (_clock e));
  resetInput ← gets _resetInput;
  when (match cs_clockInputMode (clockSetup project) with InputReset => true | _ => false end
        && negb running && negb resetInput)
    (clockDo (slaveStart ClockSourceExternal));;
  when value (clockDo (slaveTick ClockSourceExternal)).

(** The handler installed on [_dio.resetInput], lines 540-568. *)
Definition resetInputHandler (value : bool) : M unit :=
  project ← gets _model;
  match cs_clockInputMode (clockSetup project) with
  | InputReset =>
      if value then clockDo (slaveReset ClockSourceExternal)
      else clockDo (slaveStart ClockSourceExternal)
  | InputRun =>
      if value then clockDo (slaveContinue ClockSourceExternal)
      else clockDo (slaveStop ClockSourceExternal)
  | InputStartStop =>
      if value then clockDo (slaveStart ClockSourceExternal)
      else clockDo (slaveStop ClockSourceExternal);;
           clockDo (slaveReset ClockSourceExternal)
  | InputLast => mret tt
  end.

(** *** The update loop *)

(** Lines 50-58. *)
Definition lockTransition : M unit :=
  requestLock ← gets _requestLock;
  when (negb (requestLock =? 0))
    (clockDo masterStop;;
     modify (set_requestLock 0);;
     modify (set_locked 1));;
  requestUnlock ← gets _requestUnlock;
  when (negb (requestUnlock =? 0))
    (modify (set_requestUnlock 0);;
     modify (set_locked 0)).

(** [while (_clock.checkTick(&tick)) body]: one tick is taken from the
    Clock's queue per iteration.  The queue is the one found at loop entry:
    the loop bodies of [update] send no command to the Clock, and its
    interrupt side is not part of the model.  The result is [updateOutputs]. *)
Fixpoint tickLoop (pending : list Z) (body : Z -> M unit) (updateOutputs : bool) : M bool :=
  match pending with
  | [] => mret updateOutputs
  | tick :: pending' =>
      modify (fun e => set_clock (set_clk_ticks pending' (_clock e)) e);;
      body tick;;
      tickLoop pending' body false
  end.

Definition whileCheckTick (body : Z -> M unit) : M bool :=
  pending ← gets (fun e => clk_ticks (_clock e));
  tickLoop pending body true.

(** Lines 60-73, the body of [if (_locked)]. *)
Definition updateLocked : M unit :=
  _ ← whileCheckTick (fun _ => mret tt);
  recvMidi (fun _ => mret tt);;
  recvUsbMidi (fun _ => mret tt);;
  updateOverrides;;
  emit CallCvOutputUpdate.

(** [while (Clock::Event event = _clock.checkEvent()) switch (event) ...],
    lines 76-97. *)
Fixpoint eventLoop (pending : list ClockEvent) : M unit :=
  match pending with
  | [] => mret tt
  | event :: pending' =>
      modify (fun e => set_clock (set_clk_events pending' (_clock e)) e);;
      match event with
      | EventStart => modify (set_running true);; resetTrackEngines
      | EventStop => modify (set_running false)
      | EventContinue => modify (set_running true)
      | EventReset => modify (set_running false);; resetTrackEngines
      end;;
      eventLoop pending'
  end.

Definition processClockEvents : M unit :=
  pending ← gets (fun e => clk_events (_clock e));
  eventLoop pending.

(** [_routingEngine.update()], line 118. *)
Definition updateRouting : M unit :=
  modify (fun e =>
    let r := routing_update (_routingEngine e) (_model e) in
    set_routingEngine (fst r) (set_model (snd r) e));;
  emit CallRoutingUpdate.

(** The body of the tick loop, lines 123-133. *)
Definition onTick (tick : Z) : M unit :=
  modify (set_tick tick);;
  updatePlayState true;;
  forEachTrackEngine (TEtick tick);;
  updateTrackOutputs.

(** Lines 75-142, the cycle when not locked, up to the continuous update
    of the track engines.  [elapsed] is the difference of the system ticks,
    of which [dt] is a [float] multiple. *)
Definition updateEngines (elapsed : Z) : M unit :=
  processClockEvents;;
  receiveMidi;;
  emit (CallNudgeTempoUpdate elapsed);;
  clockDo setMasterBpm;;
  updateClockSetup;;
  updateTrackSetups;;
  updatePlayState false;;
  emit CallCvInputUpdate;;
  updateRouting;;
  updateOutputs ← whileCheckTick onTick;
  when updateOutputs updateTrackOutputs;;
  forEachTrackEngine (TEupdate elapsed).

(** Lines 75-147, the whole cycle when not locked. *)
Definition updateUnlocked (elapsed : Z) : M unit :=
  updateEngines elapsed;;
  updateOverrides;;
  emit CallCvOutputUpdate.

(** [Engine::update], lines 44-148; [systemTicks] is what [os::ticks()]
    returns. *)
Definition update (systemTicks : Z) : M unit :=
  lastSystemTicks ← gets _lastSystemTicks;
  let elapsed := u32 (systemTicks - lastSystemTicks) in
  modify (set_lastSystemTicks systemTicks);;
  lockTransition;;
  locked ← gets _locked;
  if negb (locked =? 0) then updateLocked else updateUnlocked elapsed.

End Model.

(** ** Statements about runs *)

Section Runs.
Context `{Config} `{Collaborators}.

(** [post d m e Q]: the run of [m] from [e] returns a result and a state
    that satisfy [Q]; a run that fails satisfies [d]. *)
Definition post {A} (d : Prop) (m : M A) (e : Engine) (Q : A -> Engine -> Prop) : Prop :=
  match m e with
  | Ok (a, e') => Q a e'
  | Failed _ => d
  end.

(** The run returns, and [Q] holds of what it returns. *)
Definition returns {A} : M A -> Engine -> (A -> Engine -> Prop) -> Prop := post False.

(** If the run returns, [Q] holds of what it returns. *)
Definition ensures {A} : M A -> Engine -> (A -> Engine -> Prop) -> Prop := post True.

(** *** Well-formed engines

    What the coordinator relies on and never checks: every array has an
    element for each track, every slot holds an engine (as after [init]),
    every index kept in the model points into its array, the sync measure
    is not zero. *)

Definition covers {A} (l : list A) : Prop :=
  CONFIG_TRACK_COUNT <= Z.of_nat (length l).

Definition enginesReady (engines : list (option TrackEngine)) : Prop :=
  forall i, 0 <= i < CONFIG_TRACK_COUNT -> exists te, at_ engines i = Some (Some te).

(** An output routing table: an entry per physical output, each the index
    of a track. *)
Definition routed (table : list Z) : Prop :=
  covers table /\ Forall (fun T => 0 <= T < CONFIG_TRACK_COUNT) table.

Definition songOk (s : Song) (currentSlot : Z) : Prop :=
  Forall (fun slot => covers (slot_patterns slot)) (song_slots s)
  /\ song_slotCount s <= Z.of_nat (length (song_slots s))
  /\ 0 <= currentSlot < Z.of_nat (length (song_slots s)).

Record ProjectOk (p : Project) : Prop := {
  ok_tracks : covers (tracks p);
  ok_links : Forall (fun t => linkTrack t < CONFIG_TRACK_COUNT) (tracks p);
  ok_gates : routed (gateOutputTracks p);
  ok_cvs : routed (cvOutputTracks p);
  ok_trackStates : covers (ps_trackStates (playState p));
  ok_divisor : measureDivisor p <> 0;
  ok_song : songOk (song p) (ss_currentSlot (ps_songState (playState p)))
}.

Definition WF (e : Engine) : Prop :=
  enginesReady (_trackEngines e) /\ ProjectOk (_model e).

(** The routing engine is outside the coordinator; it is expected to keep
    the project well formed. *)
Definition routingKeepsProjectOk : Prop :=
  forall r p, ProjectOk p -> ProjectOk (snd (routing_update r p)).

(** *** What a cycle leaves alone *)

(** The fields only [lockTransition] and the host write. *)
Definition frameOf (e : Engine) : Z * Z * Z * (bool * Z) * (bool * list Cv) :=
  (_locked e, _requestLock e, _requestUnlock e,
   (_gateOutputOverride e, _gateOutputOverrideValue e),
   (_cvOutputOverride e, _cvOutputOverrideValues e)).

Definition isMasterStop (c : Call) : bool :=
  match c with CallClock masterStop => true | _ => false end.

Definition isTrackCall (c : Call) : bool :=
  match c with CallTrack _ _ | CallCreate _ _ _ => true | _ => false end.

(** The per-track write paths of [updateTrackOutputs]. *)
Definition isSetGate (c : Call) : bool :=
  match c with CallSetGate _ _ _ _ => true | _ => false end.

Definition isSetCv (c : Call) : bool :=
  match c with CallSetCv _ _ _ _ => true | _ => false end.

(** A call the unlocked cycle may make: never [masterStop], and no
    per-track write of an output kind that is overridden. *)
Definition quiet (gateOverride cvOverride : bool) (c : Call) : Prop :=
  isMasterStop c = false
  /\ (gateOverride = true -> isSetGate c = false)
  /\ (cvOverride = true -> isSetCv c = false).

(** [e] is reached from [e0] with the lock and override fields as they
    were and only quiet calls made in between. *)
Definition Frame (e0 e : Engine) : Prop :=
  frameOf e = frameOf e0
  /\ exists new, calls e = calls e0 ++ new
       /\ Forall (quiet (_gateOutputOverride e0) (_cvOutputOverride e0)) new.

(** [proj] has in [e] the value it had in [e0]. *)
Definition kept {X} (proj : Engine -> X) (e0 e : Engine) : Prop :=
  proj e = proj e0.

(** What the Play handling reads of the song state, and the song. *)
Definition songRequestOf (e : Engine) : Z * Z * Song :=
  (ss_state (ps_songState (playState (_model e))),
   ss_requestedSlot (ps_songState (playState (_model e))),
   song (_model e)).

(** *** Output passes *)

(** The physical output a call of the per-track write paths draws for. *)
Definition drawChannel (c : Call) : option Z :=
  match c with
  | CallSetGate chan _ _ _ | CallSetCv chan _ _ _ => Some chan
  | _ => None
  end.

(** The outputs below [chan] that the routing table sources from [track]. *)
Definition countBefore (table : list Z) (chan track : Z) : Z :=
  Z.of_nat (length (filter (fun T => T = track) (take (Z.to_nat chan) table))).

(** The calls of the loop of [updateOverrides]. *)
Fixpoint channelCalls (i : Z) (values : list Cv) : list Call :=
  match values with
  | [] => []
  | value :: values' => CallSetChannel i value :: channelCalls (i + 1) values'
  end.

(** The calls of [updateOverrides]. *)
Definition overrideCalls (e : Engine) : list Call :=
  (if _gateOutputOverride e then [CallSetGates (_gateOutputOverrideValue e)] else [])
  ++ (if _cvOutputOverride e then channelCalls 0 (_cvOutputOverrideValues e) else []).

(** Arbitration never writes the song: [e] is well formed and its song
    is [s]. *)
Definition WFsong (s : Song) (e : Engine) : Prop :=
  WF e /\ song (_model e) = s.

(** The song state holds no request of [playMask]. *)
Definition playCleared (playMask : Z) (e : Engine) : Prop :=
  hasRequests (ss_state (ps_songState (playState (_model e)))) playMask = false.

(** The number of iterations of a loop over the tracks. *)
Definition trackCount : Z := Z.max 0 CONFIG_TRACK_COUNT.

(** What arbitration's slot steps read of the model and never write:
    the request buckets, the song, the sync measure. *)
Definition arbitrationOf (e : Engine) : bool * bool * bool * Song * Z :=
  (ps_hasImmediateRequests (playState (_model e)),
   ps_hasSyncedRequests (playState (_model e)),
   ps_executeLatchedRequests (playState (_model e)),
   song (_model e),
   syncMeasure (_model e)).

(** The song state after the slot change of lines 438-449, in the spec's
    words: the next repeat of [slot], or the next slot of the song, the
    first one after the last. *)
Definition advanceSong (s : Song) (slot : SongSlot) (st : SongState) : SongState :=
  if ss_currentRepeat st + 1 <? slot_repeats slot
  then ss_setCurrentRepeat (ss_currentRepeat st + 1) st
  else ss_setCurrentSlot
         (if ss_currentSlot st + 1 <? song_slotCount s then ss_currentSlot st + 1 else 0)
         (ss_setCurrentRepeat 0 st).

(** [reset()] on every track engine, in slot order. *)
Definition resetCalls (upTo : Z) : list Call :=
  (fun i => CallTrack i TEreset) <$> seqZ 0 upTo.

(** Every track state below [upTo] carries the pattern [slot] has for it. *)
Definition patternsApplied (slot : SongSlot) (upTo : Z) (e : Engine) : Prop :=
  forall i, 0 <= i < upTo ->
    exists t p, at_ (ps_trackStates (playState (_model e))) i = Some t
                /\ at_ (slot_patterns slot) i = Some p
                /\ ts_pattern t = p.

(** The song of [e] is [s], it plays, its measure is [divisor] ticks
    long and nothing is requested. *)
Definition songPlays (s : Song) (divisor : Z) (e : Engine) : Prop :=
  WFsong s e
  /\ measureDivisor (_model e) = divisor
  /\ hasAnyRequests (playState (_model e)) = false
  /\ ss_playing (ps_songState (playState (_model e))) = true.

(** The number of ticks of [ticks] that precede a measure boundary. *)
Definition boundaryTicks (divisor : Z) (ticks : list Z) : Z :=
  Z.of_nat (length (filter (fun t => t mod divisor = divisor - 1) ticks)).

(** The song of scenario S5: two slots, each played once. *)
Definition twoSlotSong (s : Song) : Prop :=
  song_slotCount s = 2
  /\ forall i slot, at_ (song_slots s) i = Some slot -> 0 <= i < 2 -> slot_repeats slot = 1.

(** *** The phases of [update] *)

(** The engine after lines 50-54, the lock request. *)
Definition afterLock (e : Engine) : Engine :=
  if negb (_requestLock e =? 0)
  then set_locked 1
         (set_requestLock 0
            (set_calls (calls e ++ [CallClock masterStop])
               (set_clock (clock_command masterStop (_clock e)) e)))
  else e.

(** The engine after lines 55-58, the unlock request. *)
Definition afterUnlock (e : Engine) : Engine :=
  if negb (_requestUnlock e =? 0)
  then set_locked 0 (set_requestUnlock 0 e)
  else e.

(** The engine after the three draining loops of the locked branch. *)
Definition drainedTicks (e : Engine) : Engine :=
  match clk_ticks (_clock e) with
  | [] => e
  | _ => set_clock (set_clk_ticks [] (_clock e)) e
  end.

Definition drainedMidi (e : Engine) : Engine :=
  match _midi e with
  | [] => e
  | _ => set_midi [] e
  end.

Definition drainedUsbMidi (e : Engine) : Engine :=
  match _usbMidi e with
  | [] => e
  | _ => set_usbMidi [] e
  end.

(** What [updateOverrides] and the draining loops leave alone. *)
Definition restOf (e : Engine) :=
  (_model e, _trackEngines e, _tick e, _running e, frameOf e).

(** The override values are the last values written to the outputs. *)
Definition overridesApplied (e e' : Engine) : Prop :=
  (if _gateOutputOverride e
   then _gateOutput e' = _gateOutputOverrideValue e
   else _gateOutput e' = _gateOutput e)
  /\ (if _cvOutputOverride e
      then forall i value,
             _cvOutputOverrideValues e !! i = Some value ->
             _cvOutput e' !! Z.of_nat i = Some value
      else _cvOutput e' = _cvOutput e).

(** Where an override is on, its value is what the output holds. *)
Definition overridesWin (e e' : Engine) : Prop :=
  (_gateOutputOverride e = true -> _gateOutput e' = _gateOutputOverrideValue e)
  /\ (_cvOutputOverride e = true ->
      forall i value,
        _cvOutputOverrideValues e !! i = Some value ->
        _cvOutput e' !! Z.of_nat i = Some value).

(** The calls of lines 50-54. *)
Definition lockCalls (e : Engine) : list Call :=
  if negb (_requestLock e =? 0) then [CallClock masterStop] else [].

(** *** The order of an output pass *)

(** Where a call of the output loop stands in the pass: iteration [i]
    clears the idle output of track [i], then draws the gate of output
    [i], then its CV. *)
Definition passKey (c : Call) : Z :=
  match c with
  | CallTrack t TEclearIdleOutput => 3 * t
  | CallSetGate chan _ _ _ => 3 * chan + 1
  | CallSetCv chan _ _ _ => 3 * chan + 2
  | _ => -1
  end.

(** What a call of the output loop is: the clearing of a track that is
    not selected, or a draw for an output from the track its table names,
    with the sub-index the earlier outputs leave. *)
Definition passCall (gateTable cvTable : list Z) (selected : Z) (c : Call) : Prop :=
  match c with
  | CallTrack t TEclearIdleOutput => t <> selected
  | CallSetGate chan src sub _ =>
      at_ gateTable chan = Some src /\ sub = countBefore gateTable chan src
  | CallSetCv chan src sub _ =>
      at_ cvTable chan = Some src /\ sub = countBefore cvTable chan src
  | _ => False
  end.

(** The calls of a pass come in the order of their keys. *)
Definition passOrdered (new : list Call) : Prop :=
  StronglySorted (fun c c' => passKey c < passKey c') new.

(** What the output pass reads and never writes. *)
Definition passOf (e : Engine) : Project * bool * bool :=
  (_model e, _gateOutputOverride e, _cvOutputOverride e).

(** C7 as the spec words it: before any gate or CV value is drawn, every
    track other than the selected one has had its idle output cleared. *)
Definition clearsPrecedeDraws (selected : Z) (new : list Call) : Prop :=
  forall before c after,
    new = before ++ c :: after ->
    is_Some (drawChannel c) ->
    forall t, 0 <= t < CONFIG_TRACK_COUNT -> t <> selected ->
      In (CallTrack t TEclearIdleOutput) before.

(** The calls of a pass made so far: pass calls, in order, with keys
    below [bound]. *)
Definition passSoFar (gateTable cvTable : list Z) (selected bound : Z)
    (new : list Call) : Prop :=
  Forall (passCall gateTable cvTable selected) new
  /\ passOrdered new
  /\ Forall (fun c => 0 <= passKey c < bound) new.

(** The counters of an output kind that is not overridden hold, for each
    source track, the number of outputs below [chan] it feeds. *)
Definition countersAt (table : list Z) (override : bool) (chan : Z)
    (counters : list Z) : Prop :=
  override = false ->
  forall T sub, at_ counters T = Some sub -> sub = countBefore table chan T.

(** Every iteration below [chan] has made its calls. *)
Definition passComplete (selected : Z) (gateOverride cvOverride : bool) (chan : Z)
    (new : list Call) : Prop :=
  forall i, 0 <= i < chan ->
    (i <> selected -> In (CallTrack i TEclearIdleOutput) new)
    /\ (gateOverride = false -> exists src sub idle, In (CallSetGate i src sub idle) new)
    /\ (cvOverride = false -> exists src sub idle, In (CallSetCv i src sub idle) new).

End Runs.

(** ** Locking from the host *)

Section ModelExtras.
Context `{Config} `{Collaborators}.

(** [Engine::isLocked], lines 169-171. *)
Definition isLocked (e : Engine) : bool := _locked e =? 1.

(** [Engine::lock], lines 150-158, as built for the simulator
    ([PLATFORM_SIM]), where the loop runs the cycle itself; on the
    hardware the loop waits for the engine task, which is outside the
    model.  [systemTicks] lists what [os::ticks()] returns in the
    successive cycles.  The result is [false] when the readings run out
    before the loop has ended. *)
Fixpoint lock (systemTicks : list Z) : M bool :=
  locked ← gets isLocked;
  if (locked : bool) then mret true else
  match systemTicks with
  | [] => mret false
  | ticks :: systemTicks' =>
      modify (set_requestLock 1);;
      update ticks;;
      lock systemTicks'
  end.

(** [Engine::unlock], lines 160-167, as built for the simulator. *)
Fixpoint unlock (systemTicks : list Z) : M bool :=
  locked ← gets isLocked;
  if (locked : bool) then
    match systemTicks with
    | [] => mret false
    | ticks :: systemTicks' =>
        modify (set_requestUnlock 1);;
        update ticks;;
        unlock systemTicks'
    end
  else mret true.

End ModelExtras.

(** ** Statements about the other operations *)

Section Extras.
Context `{Config} `{Collaborators}.

Definition builtBelow (upTo : Z) (engines : list (option TrackEngine)) : Prop :=
  forall j, 0 <= j < upTo -> exists te, at_ engines j = Some (Some te).

(** The state of slot [i] and of the slots below it, carried through the
    calls on slot [i]. *)
Definition builtAt (i : Z) (e0 e : Engine) : Prop :=
  covers (_trackEngines e) /\ _model e = _model e0
  /\ builtBelow i (_trackEngines e)
  /\ exists te, at_ (_trackEngines e) i = Some (Some te).

Definition swingCalls (swing upTo : Z) : list Call :=
  (fun i => CallTrack i (TEsetSwing swing)) <$> seqZ 0 upTo.

(** Every slot below [CONFIG_TRACK_COUNT] holds an engine of the mode of
    its track. *)
Definition modesMatch (e : Engine) : Prop :=
  forall i t te, 0 <= i < CONFIG_TRACK_COUNT ->
    at_ (tracks (_model e)) i = Some t ->
    at_ (_trackEngines e) i = Some (Some te) ->
    te_trackMode te = trackMode t.

(** The slots from [i] on are those of [e0]; the engines below [i] have
    been given the swing. *)
Definition swungBelow (i : Z) (e0 e : Engine) : Prop :=
  _model e = _model e0
  /\ calls e = calls e0 ++ swingCalls (swing (_model e0)) i
  /\ (forall j, i <= j -> at_ (_trackEngines e) j = at_ (_trackEngines e0) j)
  /\ (forall j te, 0 <= j < i -> at_ (_trackEngines e0) j = Some (Some te) ->
        at_ (_trackEngines e) j = Some (Some (te_call (TEsetSwing (swing (_model e0))) te))).

(** [method(args)] on every track engine, in slot order. *)
Definition eachTrack (c : TrackEngineCall MidiMessage) (upTo : Z) : list Call :=
  (fun i => CallTrack i c) <$> seqZ 0 upTo.

(** [e'] is [e] but for the track engines and the call log. *)
Definition onlyEngines (e e' : Engine) : Prop :=
  e' = set_calls (calls e') (set_trackEngines (_trackEngines e') e).

(** The engines of [e] below [upTo] after the call [c]; the slots from
    [upTo] on as they were. *)
Definition calledBelow (c : TrackEngineCall MidiMessage) (upTo : Z) (e e' : Engine) : Prop :=
  (forall j, upTo <= j -> at_ (_trackEngines e') j = at_ (_trackEngines e) j)
  /\ (forall j te, 0 <= j < upTo -> at_ (_trackEngines e) j = Some (Some te) ->
        at_ (_trackEngines e') j = Some (Some (te_call c te))).

(** Lines 36-39 of [Engine::init], the block that sets up the track
    engines. *)
Definition initTrackEngines : M unit :=
  updateTrackSetups;;
  updateTrackSequences;;
  resetTrackEngines.

(** [setPattern] of the pattern of its track state on every engine. *)
Definition sequenceCalls (states : list TrackState) (upTo : Z) : list Call :=
  (fun i => CallTrack i (TEsetPattern (from_option ts_pattern 0 (at_ states i))))
    <$> seqZ 0 upTo.

(** What a transport event makes of [_running]. *)
Definition runsAfter (event : ClockEvent) : bool :=
  match event with
  | EventStart | EventContinue => true
  | EventStop | EventReset => false
  end.

(** [_running] once the events are processed: decided by the last one. *)
Definition runningAfter (events : list ClockEvent) (running : bool) : bool :=
  from_option runsAfter running (last events).

(** The calls of the event loop: every engine is reset on Start and on
    Reset. *)
Definition eventCalls (events : list ClockEvent) : list Call :=
  concat ((fun event =>
             match event with
             | EventStart | EventReset => resetCalls CONFIG_TRACK_COUNT
             | EventStop | EventContinue => []
             end) <$> events).

(** What the event loop leaves alone. *)
Definition besidesEvents (e : Engine) :=
  (_model e, clk_ticks (_clock e), clk_isRunning (_clock e), clk_isIdle (_clock e),
   clk_outputState (_clock e), _routingEngine e, (_gateOutput e, _cvOutput e),
   (_midi e, _usbMidi e), (_tick e, _lastSystemTicks e), frameOf e).

(** The calls of [receiveMidi(port, message)]: MIDI learn, routing, the
    receive handler if one is installed, then every track engine in slot
    order. *)
Definition midiCalls (handler : bool) (port : MidiPort) (message : MidiMessage) : list Call :=
  [CallMidiLearn port message; CallRoutingMidi port message]
  ++ (if handler then [CallMidiReceiveHandler port message] else [])
  ++ eachTrack (TEreceiveMidi port (channel message) message) CONFIG_TRACK_COUNT.

(** The routing engine after the messages of a port. *)
Definition routedMidi (port : MidiPort) (messages : list MidiMessage) (r : Routing) : Routing :=
  foldl (fun r message => routing_receiveMidi port message r) r messages.

(** What MIDI ingress leaves alone. *)
Definition besidesMidi (e : Engine) :=
  (_model e, _clock e, (_gateOutput e, _cvOutput e), (_resetInput e, _midiReceiveHandler e),
   (_tick e, _lastSystemTicks e, _running e), frameOf e).

(** What [updateClockSetup] may call: the configuration of the Clock and
    of its slaves, a transport command for the External source, and the
    two clock output pins. *)
Definition isSetupCall (c : Call) : bool :=
  match c with
  | CallClock (setMode _) | CallClock (slaveConfigure _ _ _)
  | CallClock (outputConfigure _ _) => true
  | CallClock (slaveStart ClockSourceExternal) | CallClock (slaveStop ClockSourceExternal)
  | CallClock (slaveContinue ClockSourceExternal)
  | CallClock (slaveReset ClockSourceExternal) => true
  | CallClockOutput _ | CallResetOutput _ => true
  | _ => false
  end.

(** What [updateClockSetup] leaves alone. *)
Definition besidesClock (e : Engine) :=
  (_trackEngines e, _routingEngine e, (_gateOutput e, _cvOutput e), (_midi e, _usbMidi e),
   (_resetInput e, _midiReceiveHandler e), (_tick e, _lastSystemTicks e, _running e),
   frameOf e).

(** The model with the dirty flag of the clock set-up cleared. *)
Definition cleanModel (p : Project) : Project :=
  set_clockSetup (clearDirty (clockSetup p)) p.

(** [e] is reached from [e0] with [proj] as it was and only calls that
    satisfy [P] made in between. *)
Definition steady {X} (proj : Engine -> X) (P : Call -> Prop) (e0 e : Engine) : Prop :=
  proj e = proj e0
  /\ exists new, calls e = calls e0 ++ new /\ Forall P new.

(** The track state after lines 368-382: a mute request of [muteMask]
    makes the requested mute the mute, a pattern request of
    [patternMask] makes the requested pattern the pattern, and the
    requests of both masks are cleared. *)
Definition requestsApplied (muteMask patternMask : Z) (t : TrackState) : TrackState :=
  {| ts_state := clearRequests (ts_state t) (Z.lor muteMask patternMask);
     ts_mute := if hasRequests (ts_state t) muteMask then ts_requestedMute t else ts_mute t;
     ts_requestedMute := ts_requestedMute t;
     ts_fill := ts_fill t;
     ts_pattern := if hasRequests (ts_state t) patternMask
                   then ts_requestedPattern t else ts_pattern t;
     ts_requestedPattern := ts_requestedPattern t |}.

(** Some track below [upTo] has a pattern request of [patternMask]. *)
Definition patternRequested (patternMask : Z) (states : list TrackState) (upTo : Z) : bool :=
  existsb (fun t => hasRequests (ts_state t) patternMask) (take (Z.to_nat upTo) states).

(** [setMute], [setFill] and [setPattern] of its track state on every
    engine, in slot order. *)
Definition pushCalls (states : list TrackState) (upTo : Z) : list Call :=
  concat ((fun i => match at_ states i with
                    | Some t => [ CallTrack i (TEsetMute (ts_mute t));
                                  CallTrack i (TEsetFill (ts_fill t));
                                  CallTrack i (TEsetPattern (ts_pattern t)) ]
                    | None => []
                    end) <$> seqZ 0 upTo).

(** [e'] is [e] but for the track states. *)
Definition onlyTrackStates (e e' : Engine) : Prop :=
  e' = set_model
         (set_playState
            (set_trackStates (ps_trackStates (playState (_model e'))) (playState (_model e)))
            (_model e)) e.

(** The track states of [e] below [upTo] after [f]; those from [upTo] on
    as they were. *)
Definition statesMapped (f : TrackState -> TrackState) (upTo : Z) (e e' : Engine) : Prop :=
  length (ps_trackStates (playState (_model e')))
  = length (ps_trackStates (playState (_model e)))
  /\ (forall j, upTo <= j ->
        at_ (ps_trackStates (playState (_model e'))) j
        = at_ (ps_trackStates (playState (_model e))) j)
  /\ (forall j t, 0 <= j < upTo ->
        at_ (ps_trackStates (playState (_model e))) j = Some t ->
        at_ (ps_trackStates (playState (_model e'))) j = Some (f t)).

(** A track state without its pattern. *)
Definition trackView (t : TrackState) : Z * bool * bool * bool * Z :=
  (ts_state t, ts_mute t, ts_requestedMute t, ts_fill t, ts_requestedPattern t).

(** What the song part of arbitration leaves alone in the play state:
    the track states but for their patterns, and the request buckets. *)
Definition besidesPatterns (e : Engine) :=
  (trackView <$> ps_trackStates (playState (_model e)),
   (ps_hasImmediateRequests (playState (_model e)),
    ps_hasSyncedRequests (playState (_model e)),
    ps_executeLatchedRequests (playState (_model e)))).

Definition isResetCall (c : Call) : bool :=
  match c with CallTrack _ TEreset => true | _ => false end.

(** The engine after lines 412-431, the Stop handling and the clearing of
    the requests: a Stop request of [stopMask] or a pattern change stops
    the song; the song requests of both masks and the handled request
    buckets are cleared. *)
Definition afterSongRequests (handleSynced handleLatched changedPatterns : bool)
    (e : Engine) : Engine :=
  let playMask := playRequests handleSynced handleLatched in
  let stopMask := stopRequests handleSynced handleLatched in
  let p := playState (_model e) in
  let st := ps_songState p in
  let stopped := if changedPatterns || hasRequests (ss_state st) stopMask
                 then ss_setPlaying false st else st in
  set_model
    (set_playState
       (clearPending handleSynced handleLatched
          (set_songState (ss_clearRequests (Z.lor playMask stopMask) stopped) p))
       (_model e)) e.

(** The engine of track [src] as the draws of output [chan] find it in a
    pass: its idle output has been cleared when [src] is not the selected
    track and is not above [chan]. *)
Definition engineAtDraw (selected chan src : Z) (te : TrackEngine) : TrackEngine :=
  if decide (src <> selected /\ src <= chan) then te_call TEclearIdleOutput te else te.

(** The engine output [chan] is drawn from, and the sub-index of the
    draw, for a routing table. *)
Definition drawOf (table : list Z) (e : Engine) (chan : Z) : option (TrackEngine * Z) :=
  src ← at_ table chan;
  slot ← at_ (_trackEngines e) src;
  te ← slot;
  Some (engineAtDraw (selectedTrackIndex (_model e)) chan src te, countBefore table chan src).

(** The gate that a pass over [e] draws for output [chan]. *)
Definition gateDrawn (e : Engine) (chan : Z) : option bool :=
  (fun d : TrackEngine * Z =>
     if clk_isIdle (_clock e) && te_idleOutput (fst d)
     then te_idleGateOutput (fst d) (snd d) else te_gateOutput (fst d) (snd d))
    <$> drawOf (gateOutputTracks (_model e)) e chan.

(** The CV that a pass over [e] draws for output [chan]. *)
Definition cvDrawn (e : Engine) (chan : Z) : option Cv :=
  (fun d : TrackEngine * Z =>
     if clk_isIdle (_clock e) && te_idleOutput (fst d)
     then te_idleCvOutput (fst d) (snd d) else te_cvOutput (fst d) (snd d))
    <$> drawOf (cvOutputTracks (_model e)) e chan.

(** What an output pass leaves alone. *)
Definition besidesOutputs (e : Engine) :=
  (_model e, _clock e, _routingEngine e, (_midi e, _usbMidi e),
   (_resetInput e, _midiReceiveHandler e), (_tick e, _lastSystemTicks e, _running e),
   frameOf e).

(** The engines in a pass that has cleared the tracks below [chan]. *)
Definition clearedBelow (chan : Z) (e e' : Engine) : Prop :=
  length (_trackEngines e') = length (_trackEngines e)
  /\ forall k te, at_ (_trackEngines e) k = Some (Some te) ->
       at_ (_trackEngines e') k
       = Some (Some (if decide (k <> selectedTrackIndex (_model e) /\ k < chan)
                     then te_call TEclearIdleOutput te else te)).

(** The gate bits in a pass that has drawn the outputs below [chan]. *)
Definition gatesBelow (chan : Z) (e e' : Engine) : Prop :=
  (_gateOutputOverride e = false ->
   forall j v, 0 <= j < chan -> gateDrawn e j = Some v -> Z.testbit (_gateOutput e') j = v)
  /\ (_gateOutputOverride e = true -> _gateOutput e' = _gateOutput e)
  /\ forall j, ~ 0 <= j < chan -> Z.testbit (_gateOutput e') j = Z.testbit (_gateOutput e) j.

(** The CV channels in a pass that has drawn the outputs below [chan]. *)
Definition cvsBelow (chan : Z) (e e' : Engine) : Prop :=
  (_cvOutputOverride e = false ->
   forall j v, 0 <= j < chan -> cvDrawn e j = Some v -> _cvOutput e' !! j = Some v)
  /\ (_cvOutputOverride e = true -> _cvOutput e' = _cvOutput e)
  /\ forall j, ~ 0 <= j < chan -> _cvOutput e' !! j = _cvOutput e !! j.

Definition isTickCall (c : Call) : bool :=
  match c with CallTrack _ (TEtick _) => true | _ => false end.

(** What the body of the tick loop reads and never writes. *)
Definition tickOf (e : Engine) := (_clock e, _tick e, frameOf e).

(** The [tick] calls of a call log. *)
Definition tickCallsOf (log : list Call) : list Call :=
  filter (fun c => isTickCall c = true) log.

(** [tick(t)] on every engine for each tick of [ticks], in order. *)
Definition tickCalls (ticks : list Z) : list Call :=
  concat ((fun t => eachTrack (TEtick t) CONFIG_TRACK_COUNT) <$> ticks).

(** A transport command for the External slave of the Clock. *)
Definition isExternalTransport (c : Call) : bool :=
  match c with
  | CallClock (slaveStart ClockSourceExternal) | CallClock (slaveStop ClockSourceExternal)
  | CallClock (slaveContinue ClockSourceExternal)
  | CallClock (slaveReset ClockSourceExternal) => true
  | _ => false
  end.

(** The condition of line 531: the clock input starts the Clock. *)
Definition startsOnPulse (e : Engine) : bool :=
  match cs_clockInputMode (clockSetup (_model e)) with InputReset => true | _ => false end
  && negb (clk_isRunning (_clock e)) && negb (_resetInput e).

(** What the input handlers leave alone: everything but the Clock. *)
Definition besidesTheClock (e : Engine) := (_model e, besidesClock e).

(** [update(dt)] on a track engine. *)
Definition isUpdateCall (c : Call) : bool :=
  match c with CallTrack _ (TEupdate _) => true | _ => false end.

(** The time of the last cycle, and the fields of the host. *)
Definition timeOf (e : Engine) := (_lastSystemTicks e, frameOf e).

(** What the locked branch of the cycle leaves alone: everything but the
    three queues, the outputs and the call log. *)
Definition besidesQueues (e : Engine) :=
  (_model e, _trackEngines e, _routingEngine e, (_resetInput e, _midiReceiveHandler e),
   (_tick e, _lastSystemTicks e, _running e), frameOf e,
   (clk_events (_clock e), clk_isRunning (_clock e), clk_isIdle (_clock e),
    clk_outputState (_clock e))).

End Extras.


(** ** Test doubles

    Concrete collaborators for the examples: a track engine that records
    what it was told, a Clock whose master commands queue the transport
    event they cause, a routing engine that leaves the model alone. *)
Module Fixture.

Record ToyEngine := {
  toy_mode : TrackMode;
  toy_mute : bool;
  toy_fill : bool;
  toy_pattern : Z;
  toy_idle : bool;
  toy_resets : Z;
  toy_ticks : list Z
}.

Definition toyCreate (mode : TrackMode) (_ : Track) (_ : option Z) : ToyEngine :=
  {| toy_mode := mode; toy_mute := false; toy_fill := false; toy_pattern := 0;
     toy_idle := false; toy_resets := 0; toy_ticks := [] |}.

Definition toyCall (c : TrackEngineCall Z) (t : ToyEngine) : ToyEngine :=
  match c with
  | TEreset =>
      {| toy_mode := toy_mode t; toy_mute := toy_mute t; toy_fill := toy_fill t;
         toy_pattern := toy_pattern t; toy_idle := toy_idle t;
         toy_resets := toy_resets t + 1; toy_ticks := toy_ticks t |}
  | TEtick tick =>
      {| toy_mode := toy_mode t; toy_mute := toy_mute t; toy_fill := toy_fill t;
         toy_pattern := toy_pattern t; toy_idle := toy_idle t;
         toy_resets := toy_resets t; toy_ticks := toy_ticks t ++ [tick] |}
  | TEsetMute mute =>
      {| toy_mode := toy_mode t; toy_mute := mute; toy_fill := toy_fill t;
         toy_pattern := toy_pattern t; toy_idle := toy_idle t;
         toy_resets := toy_resets t; toy_ticks := toy_ticks t |}
  | TEsetFill fill =>
      {| toy_mode := toy_mode t; toy_mute := toy_mute t; toy_fill := fill;
         toy_pattern := toy_pattern t; toy_idle := toy_idle t;
         toy_resets := toy_resets t; toy_ticks := toy_ticks t |}
  | TEsetPattern pattern =>
      {| toy_mode := toy_mode t; toy_mute := toy_mute t; toy_fill := toy_fill t;
         toy_pattern := pattern; toy_idle := toy_idle t;
         toy_resets := toy_resets t; toy_ticks := toy_ticks t |}
  | TEclearIdleOutput =>
      {| toy_mode := toy_mode t; toy_mute := toy_mute t; toy_fill := toy_fill t;
         toy_pattern := toy_pattern t; toy_idle := false;
         toy_resets := toy_resets t; toy_ticks := toy_ticks t |}
  | TEupdate _ | TEsetSwing _ | TEreceiveMidi _ _ _ => t
  end.

Definition toyClock (c : ClockCommand) (k : Clock) : Clock :=
  match c with
  | masterStart =>
      {| clk_ticks := clk_ticks k; clk_events := clk_events k ++ [EventStart];
         clk_isRunning := true; clk_isIdle := false;
         clk_outputState := clk_outputState k |}
  | masterStop =>
      {| clk_ticks := clk_ticks k; clk_events := clk_events k ++ [EventStop];
         clk_isRunning := false; clk_isIdle := true;
         clk_outputState := clk_outputState k |}
  | _ => k
  end.

#[global] Instance toyCollaborators : Collaborators := {|
  Cv := Z;
  MidiMessage := Z;
  channel := fun m => Z.land m 15;
  TrackEngine := ToyEngine;
  te_trackMode := toy_mode;
  te_create := toyCreate;
  te_call := toyCall;
  te_idleOutput := toy_idle;
  te_gateOutput := fun t _ => negb (toy_mute t);
  te_idleGateOutput := fun _ _ => true;
  te_cvOutput := fun t sub => toy_pattern t + sub;
  te_idleCvOutput := fun _ _ => 99;
  clock_command := toyClock;
  Routing := unit;
  routing_receiveMidi := fun _ _ r => r;
  routing_update := fun r p => (r, p)
|}.

(** The constants of the sequencer with [tracks] tracks: 192 PPQN, one
    bit per request flag. *)
Definition config (tracks : Z) : Config := {|
  CONFIG_PPQN := 192;
  CONFIG_TRACK_COUNT := tracks;
  ImmediateMuteRequest := 1;
  SyncedMuteRequest := 2;
  LatchedMuteRequest := 4;
  ImmediatePatternRequest := 8;
  SyncedPatternRequest := 16;
  LatchedPatternRequest := 32;
  ImmediatePlayRequest := 1;
  SyncedPlayRequest := 2;
  LatchedPlayRequest := 4;
  ImmediateStopRequest := 8;
  SyncedStopRequest := 16;
  LatchedStopRequest := 32
|}.

Definition idleTrackState : TrackState :=
  {| ts_state := 0; ts_mute := false; ts_requestedMute := false; ts_fill := false;
     ts_pattern := 0; ts_requestedPattern := 0 |}.

Definition stoppedSong : SongState :=
  {| ss_state := 0; ss_currentSlot := 0; ss_currentRepeat := 0;
     ss_requestedSlot := 0; ss_playing := false |}.

Definition playingSong : SongState :=
  {| ss_state := 0; ss_currentSlot := 0; ss_currentRepeat := 0;
     ss_requestedSlot := 0; ss_playing := true |}.

Definition cleanSetup : ClockSetup :=
  {| cs_dirty := false; cs_mode := ModeAuto; cs_clockInputMode := InputReset;
     cs_clockOutputMode := OutputReset; cs_clockInputDivisor := 12;
     cs_clockOutputDivisor := 12; cs_clockOutputPulse := 1;
     cs_midiRx := true; cs_usbRx := true |}.

(** A project of two tracks in the given modes, outputs wired as given,
    track 0 selected, a song of two slots played [repeats] times each. *)
Definition project2 (mode0 mode1 : TrackMode) (outputs : list Z)
    (songState : SongState) (repeats : Z) : Project :=
  {| syncMeasure := 1; swing := 50; selectedTrackIndex := 0;
     tracks := [ {| trackMode := mode0; linkTrack := -1 |};
                 {| trackMode := mode1; linkTrack := -1 |} ];
     gateOutputTracks := outputs;
     cvOutputTracks := outputs;
     playState := {| ps_trackStates := [idleTrackState; idleTrackState];
                     ps_songState := songState;
                     ps_hasImmediateRequests := false;
                     ps_hasSyncedRequests := false;
                     ps_executeLatchedRequests := false |};
     song := {| song_slots := [ {| slot_patterns := [3; 4]; slot_repeats := repeats |};
                                {| slot_patterns := [5; 6]; slot_repeats := repeats |} ];
                song_slotCount := 2 |};
     clockSetup := cleanSetup |}.

Definition stoppedClock : Clock :=
  {| clk_ticks := []; clk_events := []; clk_isRunning := false; clk_isIdle := true;
     clk_outputState := {| os_clock := false; os_reset := false; os_run := false |} |}.

(** The engine as its constructor leaves it (lines 10-26): every slot
    null, the CV override values zero, nothing requested. *)
Definition constructed (p : Project) : Engine :=
  {| _model := p; _trackEngines := [None; None]; _clock := stoppedClock;
     _routingEngine := tt; _gateOutput := 0; _cvOutput := ∅;
     _midi := []; _usbMidi := []; _resetInput := false;
     _midiReceiveHandler := false; _tick := 0; _lastSystemTicks := 0;
     _running := false; _locked := 0; _requestLock := 0; _requestUnlock := 0;
     _gateOutputOverride := false; _gateOutputOverrideValue := 0;
     _cvOutputOverride := false; _cvOutputOverrideValues := [0; 0];
     calls := [] |}.

(** The same engine once both slots hold a Note engine. *)
Definition ready (p : Project) : Engine :=
  set_trackEngines
    [Some (toyCreate Note {| trackMode := Note; linkTrack := -1 |} None);
     Some (toyCreate Note {| trackMode := Note; linkTrack := -1 |} None)]
    (constructed p).

(** The constants used by the examples: two tracks. *)
Definition twoTracks : Config := config 2.

(** A song of two slots played twice each, on its first repeat, at the
    tick before the boundary of the first measure (768 ticks). *)
Definition firstRepeat : Engine :=
  set_tick 767 (ready (project2 Note Note [0; 1] playingSong 2)).

(** Scenario S5: a song of two slots played once each, playing from slot 0. *)
Definition songStart : Engine :=
  ready (project2 Note Note [0; 1] playingSong 1).

(** An immediate Play request for slot 5 of a song of two slots. *)
Definition staleRequest : Engine :=
  let p := project2 Note Note [0; 1] stoppedSong 1 in
  ready (set_playState
           {| ps_trackStates := [idleTrackState; idleTrackState];
              ps_songState := {| ss_state := 1; ss_currentSlot := 0; ss_currentRepeat := 0;
                                 ss_requestedSlot := 5; ss_playing := false |};
              ps_hasImmediateRequests := true;
              ps_hasSyncedRequests := false;
              ps_executeLatchedRequests := false |} p).

(** Scenario S3: a locked engine whose track 0 carries an immediate mute
    request, with a tick and a MIDI message waiting. *)
Definition lockedEngine : Engine :=
  let p := project2 Note Note [0; 1] stoppedSong 1 in
  let pending := {| ts_state := 1; ts_mute := false; ts_requestedMute := true;
                    ts_fill := false; ts_pattern := 0; ts_requestedPattern := 0 |} in
  let e := ready (set_playState
                    {| ps_trackStates := [pending; idleTrackState];
                       ps_songState := stoppedSong;
                       ps_hasImmediateRequests := true;
                       ps_hasSyncedRequests := false;
                       ps_executeLatchedRequests := false |} p) in
  set_locked 1 (set_midi [144] (set_clock (set_clk_ticks [7] (_clock e)) e)).

(** An engine with both overrides on. *)
Definition overridden : Engine :=
  let e := ready (project2 Note Note [0; 1] stoppedSong 1) in
  {| _model := _model e; _trackEngines := _trackEngines e; _clock := _clock e;
     _routingEngine := _routingEngine e; _gateOutput := _gateOutput e;
     _cvOutput := _cvOutput e; _midi := _midi e; _usbMidi := _usbMidi e;
     _resetInput := _resetInput e; _midiReceiveHandler := _midiReceiveHandler e;
     _tick := _tick e; _lastSystemTicks := _lastSystemTicks e; _running := _running e;
     _locked := _locked e; _requestLock := _requestLock e;
     _requestUnlock := _requestUnlock e;
     _gateOutputOverride := true; _gateOutputOverrideValue := 2;
     _cvOutputOverride := true; _cvOutputOverrideValues := [10; 20];
     calls := calls e |}.

(** Both physical outputs sourced from track 0. *)
Definition doubled : Engine :=
  ready (project2 Note Note [0; 0] stoppedSong 1).

(** Output 0 sourced from track 1, which is not selected and whose engine
    has raised its idle output since the last pass; the Clock is idle. *)
Definition idlePreview : Engine :=
  let e := ready (project2 Note Note [1; 0] stoppedSong 1) in
  set_trackEngines
    [Some (toyCreate Note {| trackMode := Note; linkTrack := -1 |} None);
     Some {| toy_mode := Note; toy_mute := false; toy_fill := false; toy_pattern := 0;
             toy_idle := true; toy_resets := 0; toy_ticks := [] |}] e.

(** A lock and an unlock request pending at once. *)
Definition lockAndUnlock : Engine :=
  set_requestUnlock 1 (set_requestLock 1 (ready (project2 Note Note [0; 1] stoppedSong 1))).

End Fixture.

Module Fixture2.
Import Fixture.

(** The engine of the constructor over a project of two Note tracks. *)
Definition fresh : Engine := constructed (project2 Note Note [0; 1] stoppedSong 1).

(** Track 0 asks to be muted at once. *)
Definition muteRequest : Engine :=
  let p := project2 Note Note [0; 1] stoppedSong 1 in
  let pending := {| ts_state := 1; ts_mute := false; ts_requestedMute := true;
                    ts_fill := false; ts_pattern := 0; ts_requestedPattern := 0 |} in
  ready (set_playState
           {| ps_trackStates := [pending; idleTrackState];
              ps_songState := stoppedSong;
              ps_hasImmediateRequests := true;
              ps_hasSyncedRequests := false;
              ps_executeLatchedRequests := false |} p).

(** An immediate Play request for slot 1 of a song of two slots. *)
Definition playRequest : Engine :=
  let p := project2 Note Note [0; 1] stoppedSong 1 in
  ready (set_playState
           {| ps_trackStates := [idleTrackState; idleTrackState];
              ps_songState := {| ss_state := 1; ss_currentSlot := 0; ss_currentRepeat := 0;
                                 ss_requestedSlot := 1; ss_playing := false |};
              ps_hasImmediateRequests := true;
              ps_hasSyncedRequests := false;
              ps_executeLatchedRequests := false |} p).

(** An immediate Stop request while the song plays, at the last tick of
    a measure. *)
Definition stopRequest : Engine :=
  let p := project2 Note Note [0; 1] stoppedSong 1 in
  set_tick 767
    (ready (set_playState
              {| ps_trackStates := [idleTrackState; idleTrackState];
                 ps_songState := {| ss_state := 8; ss_currentSlot := 1; ss_currentRepeat := 0;
                                    ss_requestedSlot := 0; ss_playing := true |};
                 ps_hasImmediateRequests := true;
                 ps_hasSyncedRequests := false;
                 ps_executeLatchedRequests := false |} p)).

(** A Start and a Stop event waiting in the Clock. *)
Definition startStop : Engine :=
  let e := ready (project2 Note Note [0; 1] stoppedSong 1) in
  set_clock (set_clk_events [EventStart; EventStop] (_clock e)) e.

(** Two messages waiting on the MIDI port and one on the USB port. *)
Definition midiWaiting : Engine :=
  set_usbMidi [130] (set_midi [144; 145] (ready (project2 Note Note [0; 1] stoppedSong 1))).

(** Ticks 5 and 6 waiting in the Clock. *)
Definition twoTicks : Engine :=
  let e := ready (project2 Note Note [0; 1] stoppedSong 1) in
  set_clock (set_clk_ticks [5; 6] (_clock e)) e.

(** Outputs wired straight; the engine of track 1, which is not
    selected, has raised its idle output; the Clock is idle. *)
Definition idleStraight : Engine :=
  let e := ready (project2 Note Note [0; 1] stoppedSong 1) in
  set_trackEngines
    [Some (toyCreate Note {| trackMode := Note; linkTrack := -1 |} None);
     Some {| toy_mode := Note; toy_mute := false; toy_fill := false; toy_pattern := 7;
             toy_idle := true; toy_resets := 0; toy_ticks := [] |}] e.

(** The song plays the only repeat of slot 0, at the last tick of the
    measure, while track 0 asks to be muted at once. *)
Definition muteAtBoundary : Engine :=
  let p := project2 Note Note [0; 1] playingSong 1 in
  let pending := {| ts_state := 1; ts_mute := false; ts_requestedMute := true;
                    ts_fill := false; ts_pattern := 0; ts_requestedPattern := 0 |} in
  set_tick 767
    (ready (set_playState
              {| ps_trackStates := [pending; idleTrackState];
                 ps_songState := playingSong;
                 ps_hasImmediateRequests := true;
                 ps_hasSyncedRequests := false;
                 ps_executeLatchedRequests := false |} p)).

(** The locked engine of scenario S3 with a lock request set again. *)
Definition lockRequested : Engine := set_requestLock 1 lockedEngine.

End Fixture2.

(** * Proofs *)

(** ** Rules for runs *)

Section Rules.
Context `{Config} `{Collaborators}.
Context {d : Prop}.

Lemma post_ret {A} (a : A) e (Q : A -> Engine -> Prop) :
  Q a e -> post d (mret a) e Q.
Proof. intros HQ. exact HQ. Qed.

Lemma post_bind {A B} (m : M A) (k : A -> M B) e (Q : B -> Engine -> Prop) :
  post d m e (fun a e' => post d (k a) e' Q) -> post d (m ≫= k) e Q.
Proof.
  unfold post, mbind, M_bind. destruct (m e) as [[a e']|f]; auto.
Qed.

Lemma post_gets {A} (f : Engine -> A) e (Q : A -> Engine -> Prop) :
  Q (f e) e -> post d (gets f) e Q.
Proof. intros HQ. exact HQ. Qed.

Lemma post_modify (f : Engine -> Engine) e (Q : unit -> Engine -> Prop) :
  Q tt (f e) -> post d (modify f) e Q.
Proof. intros HQ. exact HQ. Qed.

Lemma post_fault {A} (f : Fault) e (Q : A -> Engine -> Prop) :
  d -> post d (fault f) e Q.
Proof. intros Hd. exact Hd. Qed.

Lemma post_mono {A} (m : M A) e (Q Q' : A -> Engine -> Prop) :
  post d m e Q -> (forall a e', Q a e' -> Q' a e') -> post d m e Q'.
Proof.
  unfold post. destruct (m e) as [[a e']|f]; auto.
Qed.

Lemma post_emit (c : Call) e (Q : unit -> Engine -> Prop) :
  Q tt (set_calls (calls e ++ [c]) e) -> post d (emit c) e Q.
Proof. intros HQ. exact HQ. Qed.

Lemma post_index {A} (l : list A) i e (Q : A -> Engine -> Prop) :
  (forall x, at_ l i = Some x -> Q x e) ->
  (at_ l i = None -> d) ->
  post d (index l i) e Q.
Proof.
  intros Hsome Hnone. unfold index.
  destruct (at_ l i) as [x|]; [apply post_ret | apply post_fault]; auto.
Qed.

Lemma post_trackEngineAt slot e (Q : TrackEngine -> Engine -> Prop) :
  (forall te, at_ (_trackEngines e) slot = Some (Some te) -> Q te e) ->
  (at_ (_trackEngines e) slot = Some None -> d) ->
  (at_ (_trackEngines e) slot = None -> d) ->
  post d (trackEngineAt slot) e Q.
Proof.
  intros Hsome Hnull Hnone. unfold trackEngineAt.
  apply post_bind, post_gets, post_bind, post_index; [|exact Hnone].
  intros [te|] Hat; [apply post_ret | apply post_fault]; auto.
Qed.

Lemma post_callTrack slot c e (Q : unit -> Engine -> Prop) :
  (forall te, at_ (_trackEngines e) slot = Some (Some te) ->
     Q tt (set_calls (calls e ++ [CallTrack slot c])
             (set_trackEngines (<[Z.to_nat slot := Some (te_call c te)]> (_trackEngines e)) e))) ->
  (at_ (_trackEngines e) slot = Some None -> d) ->
  (at_ (_trackEngines e) slot = None -> d) ->
  post d (callTrack slot c) e Q.
Proof.
  intros Hsome Hnull Hnone. unfold callTrack.
  apply post_bind, post_trackEngineAt; [|exact Hnull|exact Hnone].
  intros te Hat. apply post_bind, post_modify, post_emit. exact (Hsome te Hat).
Qed.

Lemma post_clockDo c e (Q : unit -> Engine -> Prop) :
  Q tt (set_calls (calls e ++ [CallClock c]) (set_clock (clock_command c (_clock e)) e)) ->
  post d (clockDo c) e Q.
Proof.
  intros HQ. unfold clockDo. apply post_bind, post_modify, post_emit. exact HQ.
Qed.

Lemma post_when (b : bool) (m : M unit) e (Q : unit -> Engine -> Prop) :
  (b = true -> post d m e Q) -> (b = false -> Q tt e) -> post d (when b m) e Q.
Proof.
  intros Ht Hf. destruct b; simpl; [apply Ht | apply post_ret, Hf]; reflexivity.
Qed.

(** The loop rule: [I rest s e] holds when [rest] is still to be visited. *)
Lemma post_foldM {A S} (body : A -> S -> M S) (I : list A -> S -> Engine -> Prop)
    (l : list A) (s : S) e :
  I l s e ->
  (forall x rest s e, I (x :: rest) s e ->
     post d (body x s) e (fun s' e' => I rest s' e')) ->
  post d (foldM body l s) e (fun s' e' => I [] s' e').
Proof.
  intros HI Hbody. revert s e HI.
  induction l as [|x rest IH]; intros s e HI; simpl.
  - apply post_ret, HI.
  - apply post_bind. eapply post_mono; [apply Hbody, HI|].
    intros s' e' HI'. apply IH, HI'.
Qed.

(** The loop rule for an invariant that does not depend on the position. *)
Lemma post_forM {A} (l : list A) (body : A -> M unit) (I : Engine -> Prop) e :
  I e ->
  (forall x e, x ∈ l -> I e -> post d (body x) e (fun _ e' => I e')) ->
  post d (forM l body) e (fun _ e' => I e').
Proof.
  intros HI Hbody. unfold forM.
  eapply post_mono.
  - apply (post_foldM _ (fun rest _ e => I e /\ forall x, x ∈ rest -> x ∈ l)).
    + split; auto.
    + intros x rest [] e1 [HI1 Hsub].
      eapply post_mono; [apply Hbody; [apply Hsub; left | exact HI1]|].
      intros [] e2 HI2. split; [exact HI2|]. intros y Hy. apply Hsub. right. exact Hy.
  - intros [] e' [HI' _]. exact HI'.
Qed.

End Rules.

(** One step of a run: the rule of the construct at the head of the goal. *)
Ltac run_step :=
  unfold ensures, returns; cbv beta;
  lazymatch goal with
  | |- post _ (mbind _ _) _ _ => apply post_bind
  | |- post _ (mret _) _ _ => apply post_ret
  | |- post _ (gets _) _ _ => apply post_gets
  | |- post _ getPlayState _ _ => apply post_gets
  | |- post _ (modify _) _ _ => apply post_modify
  | |- post _ (modifyPlayState _) _ _ => apply post_modify
  | |- post _ (modifySongState _) _ _ => apply post_modify
  | |- post _ (emit _) _ _ => apply post_emit
  | |- post _ (clockDo _) _ _ => apply post_clockDo
  | |- post _ (fault _) _ _ => apply post_fault
  | |- post _ (when _ _) _ _ => apply post_when; intros ?
  | |- post _ (index _ _) _ _ => apply post_index; [intros ? ?|intros ?]
  | |- post _ (callTrack _ _) _ _ => apply post_callTrack; [intros ? ?|intros ?|intros ?]
  | |- post _ (trackEngineAt _) _ _ => apply post_trackEngineAt; [intros ? ?|intros ?|intros ?]
  | |- post _ (if ?b then _ else _) _ _ => destruct b eqn:?
  | |- post _ (match ?x with _ => _ end) _ _ => destruct x eqn:?
  end.

(** ** The frame of the unlocked cycle *)

Section FrameFacts.
Context `{Config} `{Collaborators}.

Lemma Frame_refl e : Frame e e.
Proof.
  split; [reflexivity|]. exists []. split; [symmetry; apply app_nil_r | constructor].
Qed.

Lemma Frame_step e0 e e' new :
  Frame e0 e ->
  frameOf e' = frameOf e ->
  calls e' = calls e ++ new ->
  Forall (quiet (_gateOutputOverride e0) (_cvOutputOverride e0)) new ->
  Frame e0 e'.
Proof.
  intros [Hf (old & Hcalls & Hold)] Hf' Hcalls' Hnew. split; [congruence|].
  exists (old ++ new). split.
  - rewrite Hcalls', Hcalls, app_assoc. reflexivity.
  - apply Forall_app. split; assumption.
Qed.

Lemma Frame_same e0 e e' :
  Frame e0 e -> frameOf e' = frameOf e -> calls e' = calls e -> Frame e0 e'.
Proof.
  intros HF Hf Hc. apply (Frame_step e0 e e' []); auto.
  rewrite app_nil_r. exact Hc.
Qed.

Lemma Frame_trans e0 e1 e2 : Frame e0 e1 -> Frame e1 e2 -> Frame e0 e2.
Proof.
  intros HF1 [Hf2 (new & Hc & Hq)].
  apply (Frame_step e0 e1 e2 new); auto.
  destruct HF1 as [Hf1 _]. unfold frameOf in Hf1.
  injection Hf1 as _ _ _ Hg _ Hc' _. rewrite <- Hg, <- Hc'. exact Hq.
Qed.

Lemma Frame_gateOverride e0 e : Frame e0 e -> _gateOutputOverride e = _gateOutputOverride e0.
Proof. intros [Hf _]. unfold frameOf in Hf. congruence. Qed.

Lemma Frame_cvOverride e0 e : Frame e0 e -> _cvOutputOverride e = _cvOutputOverride e0.
Proof. intros [Hf _]. unfold frameOf in Hf. congruence. Qed.

End FrameFacts.

(** Closes a goal [Frame e0 e'] where [e'] is the current state after
    field updates and logged calls that are quiet whatever the overrides. *)
Ltac frame_done :=
  cbv beta;
  lazymatch goal with
  | HF : Frame ?e0 _ |- Frame ?e0 _ =>
      first
        [ exact HF
        | apply (Frame_same _ _ _ HF); reflexivity
        | eapply (Frame_step _ _ _ _ HF);
          [ reflexivity | reflexivity
          | repeat constructor; first [ discriminate | intros; simpl; congruence ] ] ]
  end.

(** Once the state has changed, only its frame is remembered. *)
Ltac frame_advance :=
  cbv beta;
  lazymatch goal with
  | HF : Frame ?e0 _ |- post _ _ ?s _ =>
      tryif is_var s then fail else
        (let e' := fresh "e" in
         let Heq := fresh "Heq" in
         let HF' := fresh "HF" in
         remember s as e' eqn:Heq;
         assert (HF' : Frame e0 e') by (subst e'; frame_done);
         clear Heq HF)
  end.

Ltac head_of t :=
  lazymatch t with
  | ?f _ => head_of f
  | _ => t
  end.

(** Runs the sub-operation [op] by its frame lemma. *)
Ltac frame_call op lem :=
  unfold ensures, returns; cbv beta;
  lazymatch goal with
  | |- post _ (mbind _ _) _ _ => apply post_bind
  | |- _ => idtac
  end;
  lazymatch goal with
  | HF : Frame ?e0 _ |- post _ ?m _ _ =>
      let h := head_of m in
      constr_eq h op;
      eapply post_mono; [ eapply lem; exact HF | clear HF; cbv beta; intros ? ? HF ]
  end.

(** An override flag read in the current state is the flag of the start. *)
Ltac frame_flags :=
  repeat match goal with
  | HF : Frame ?e0 ?e, Hb : _gateOutputOverride ?e = _ |- _ =>
      progress rewrite (Frame_gateOverride _ _ HF) in Hb
  | HF : Frame ?e0 ?e, Hb : _cvOutputOverride ?e = _ |- _ =>
      progress rewrite (Frame_cvOverride _ _ HF) in Hb
  end.

Ltac frame_run_with ops :=
  repeat first [ frame_done | exact I | frame_advance | ops | run_step; frame_flags ].

Ltac frame_run := frame_run_with fail.

Abbreviation keepsFrame m :=
  (forall e0 e, Frame e0 e -> ensures m e (fun _ e' => Frame e0 e')).

Section FrameOps.
Context `{Config} `{Collaborators}.

Lemma callTrack_frame slot c : keepsFrame (callTrack slot c).
Proof. intros e0 e HF. frame_run. Qed.

Lemma forEachTrackEngine_frame c : keepsFrame (forEachTrackEngine c).
Proof.
  intros e0 e HF. unfold forEachTrackEngine.
  apply post_forM; [exact HF|]. intros slot e1 _ HF1. apply callTrack_frame, HF1.
Qed.

Lemma updateTrackSetup_frame trackIndex : keepsFrame (updateTrackSetup trackIndex).
Proof.
  intros e0 e HF. unfold updateTrackSetup, linkedTrackEngine, createTrackEngine.
  frame_run.
Qed.

Lemma updateTrackSetups_frame : keepsFrame updateTrackSetups.
Proof.
  intros e0 e HF. unfold updateTrackSetups.
  apply post_forM; [exact HF|]. intros i e1 _ HF1. apply updateTrackSetup_frame, HF1.
Qed.

Lemma updateGateOutput_frame isIdle trackIndex counters :
  keepsFrame (updateGateOutput isIdle trackIndex counters).
Proof. intros e0 e HF. unfold updateGateOutput. frame_run. Qed.

Lemma updateCvOutput_frame isIdle trackIndex counters :
  keepsFrame (updateCvOutput isIdle trackIndex counters).
Proof. intros e0 e HF. unfold updateCvOutput. frame_run. Qed.

Lemma updateTrackOutput_frame isIdle trackIndex counters :
  keepsFrame (updateTrackOutput isIdle trackIndex counters).
Proof.
  intros e0 e HF. unfold updateTrackOutput.
  frame_run_with ltac:(first [ frame_call (@updateGateOutput) updateGateOutput_frame
                             | frame_call (@updateCvOutput) updateCvOutput_frame ]).
Qed.

Lemma updateTrackOutputs_frame : keepsFrame updateTrackOutputs.
Proof.
  intros e0 e HF. unfold updateTrackOutputs. do 3 run_step.
  eapply post_mono.
  - apply (post_foldM _ (fun _ _ e' => Frame e0 e')); [exact HF|].
    intros i rest counters e1 HF1. apply updateTrackOutput_frame, HF1.
  - cbv beta. intros _ e' HF'. frame_run.
Qed.

Lemma setOverrideChannels_frame values : forall i, keepsFrame (setOverrideChannels i values).
Proof.
  induction values as [|v values IH]; intros i e0 e HF; simpl; [frame_run|].
  frame_run_with ltac:(frame_call (@setOverrideChannels) IH).
Qed.

Lemma updateOverrides_frame : keepsFrame updateOverrides.
Proof.
  intros e0 e HF. unfold updateOverrides.
  frame_run_with ltac:(frame_call (@setOverrideChannels) setOverrideChannels_frame).
Qed.

Lemma modifyTrackState_frame trackIndex f : keepsFrame (modifyTrackState trackIndex f).
Proof. intros e0 e HF. unfold modifyTrackState, getTrackState. frame_run. Qed.

Lemma handleTrackRequests_frame muteMask patternMask :
  keepsFrame (handleTrackRequests muteMask patternMask).
Proof.
  intros e0 e HF. unfold handleTrackRequests.
  apply (post_foldM _ (fun _ _ e' => Frame e0 e')); [exact HF|].
  intros i rest changed e1 HF1. unfold getTrackState.
  frame_run_with ltac:(frame_call (@modifyTrackState) modifyTrackState_frame).
Qed.

Lemma applySlotPatterns_frame slot reset : keepsFrame (applySlotPatterns slot reset).
Proof.
  intros e0 e HF. unfold applySlotPatterns.
  apply post_forM; [exact HF|]. intros i e1 _ HF1.
  frame_run_with ltac:(frame_call (@modifyTrackState) modifyTrackState_frame).
Qed.

Lemma handlePlayRequest_frame playMask switch :
  keepsFrame (handlePlayRequest playMask switch).
Proof.
  intros e0 e HF. unfold handlePlayRequest.
  frame_run_with ltac:(frame_call (@applySlotPatterns) applySlotPatterns_frame).
Qed.

Lemma handleStopRequest_frame playMask stopMask changed :
  keepsFrame (handleStopRequest playMask stopMask changed).
Proof. intros e0 e HF. unfold handleStopRequest. frame_run. Qed.

Lemma songSlotChange_frame : keepsFrame songSlotChange.
Proof.
  intros e0 e HF. unfold songSlotChange.
  frame_run_with ltac:(frame_call (@applySlotPatterns) applySlotPatterns_frame).
Qed.

Lemma pushTrackStates_frame : keepsFrame pushTrackStates.
Proof.
  intros e0 e HF. unfold pushTrackStates.
  apply post_forM; [exact HF|]. intros i e1 _ HF1. unfold getTrackState. frame_run.
Qed.

Lemma arbitrate_frame hasAny handleSynced handleLatched switch :
  keepsFrame (arbitrate hasAny handleSynced handleLatched switch).
Proof.
  intros e0 e HF. unfold arbitrate.
  frame_run_with ltac:(first
    [ frame_call (@handleTrackRequests) handleTrackRequests_frame
    | frame_call (@handlePlayRequest) handlePlayRequest_frame
    | frame_call (@handleStopRequest) handleStopRequest_frame
    | frame_call (@songSlotChange) songSlotChange_frame
    | frame_call (@pushTrackStates) pushTrackStates_frame ]).
Qed.

Lemma updatePlayState_frame ticked : keepsFrame (updatePlayState ticked).
Proof.
  intros e0 e HF. unfold updatePlayState.
  frame_run_with ltac:(frame_call (@arbitrate) arbitrate_frame).
Qed.

Lemma receiveMidiMessage_frame port message : keepsFrame (receiveMidiMessage port message).
Proof.
  intros e0 e HF. unfold receiveMidiMessage.
  frame_run_with ltac:(frame_call (@forEachTrackEngine) forEachTrackEngine_frame).
Qed.

Lemma recvLoop_frame setQueue pending body :
  (forall q e, frameOf (setQueue q e) = frameOf e /\ calls (setQueue q e) = calls e) ->
  (forall message, keepsFrame (body message)) ->
  keepsFrame (recvLoop setQueue pending body).
Proof.
  intros Hset Hbody. induction pending as [|message pending IH]; intros e0 e HF; simpl.
  - frame_run.
  - do 2 run_step.
    assert (HF1 : Frame e0 (setQueue pending e))
      by (apply (Frame_same _ _ _ HF); apply Hset).
    clear HF. run_step. eapply post_mono; [apply Hbody, HF1|].
    cbv beta. intros _ e2 HF2. apply IH, HF2.
Qed.

Lemma receiveMidi_frame : keepsFrame receiveMidi.
Proof.
  intros e0 e HF. unfold receiveMidi, recvMidi, recvUsbMidi.
  do 3 run_step. eapply post_mono.
  { apply recvLoop_frame; [split; reflexivity | apply receiveMidiMessage_frame | exact HF]. }
  cbv beta. intros _ e1 HF1. do 2 run_step.
  apply recvLoop_frame; [split; reflexivity | apply receiveMidiMessage_frame | exact HF1].
Qed.

Lemma onClockOutput_frame state : keepsFrame (onClockOutput state).
Proof. intros e0 e HF. unfold onClockOutput. frame_run. Qed.

Lemma updateClockSetup_frame : keepsFrame updateClockSetup.
Proof.
  intros e0 e HF. unfold updateClockSetup.
  frame_run_with ltac:(frame_call (@onClockOutput) onClockOutput_frame).
Qed.

Lemma resetTrackEngines_frame : keepsFrame resetTrackEngines.
Proof. apply forEachTrackEngine_frame. Qed.

Lemma eventLoop_frame pending : keepsFrame (eventLoop pending).
Proof.
  induction pending as [|event pending IH]; intros e0 e HF; simpl.
  - frame_run.
  - frame_run_with ltac:(first
      [ frame_call (@resetTrackEngines) resetTrackEngines_frame
      | frame_call (@eventLoop) IH ]).
Qed.

Lemma processClockEvents_frame : keepsFrame processClockEvents.
Proof.
  intros e0 e HF. unfold processClockEvents. do 2 run_step. apply eventLoop_frame, HF.
Qed.

Lemma updateRouting_frame : keepsFrame updateRouting.
Proof. intros e0 e HF. unfold updateRouting. frame_run. Qed.

Lemma tickLoop_frame pending body updateOutputs :
  (forall tick, keepsFrame (body tick)) ->
  keepsFrame (tickLoop pending body updateOutputs).
Proof.
  intros Hbody. revert updateOutputs.
  induction pending as [|tick pending IH]; intros updateOutputs e0 e HF; simpl.
  - frame_run.
  - do 2 run_step. frame_advance. run_step.
    eapply post_mono; [apply Hbody; eassumption|].
    cbv beta. intros _ e2 HF2. apply IH, HF2.
Qed.

Lemma onTick_frame tick : keepsFrame (onTick tick).
Proof.
  intros e0 e HF. unfold onTick.
  frame_run_with ltac:(first
    [ frame_call (@updatePlayState) updatePlayState_frame
    | frame_call (@forEachTrackEngine) forEachTrackEngine_frame
    | frame_call (@updateTrackOutputs) updateTrackOutputs_frame ]).
Qed.

Lemma whileCheckTick_frame body :
  (forall tick, keepsFrame (body tick)) -> keepsFrame (whileCheckTick body).
Proof.
  intros Hbody e0 e HF. unfold whileCheckTick. do 2 run_step.
  apply tickLoop_frame; assumption.
Qed.

Lemma updateEngines_frame elapsed : keepsFrame (updateEngines elapsed).
Proof.
  intros e0 e HF. unfold updateEngines.
  frame_call (@processClockEvents) processClockEvents_frame.
  frame_call (@receiveMidi) receiveMidi_frame.
  do 2 run_step. frame_advance. do 2 run_step. frame_advance.
  frame_call (@updateClockSetup) updateClockSetup_frame.
  frame_call (@updateTrackSetups) updateTrackSetups_frame.
  frame_call (@updatePlayState) updatePlayState_frame.
  do 2 run_step. frame_advance.
  frame_call (@updateRouting) updateRouting_frame.
  run_step.
  lazymatch goal with
  | HF : Frame _ _ |- _ =>
      eapply post_mono;
      [ apply whileCheckTick_frame; [apply onTick_frame | exact HF]
      | clear HF; cbv beta; intros ? ? HF ]
  end.
  frame_run_with ltac:(first
    [ frame_call (@updateTrackOutputs) updateTrackOutputs_frame
    | frame_call (@forEachTrackEngine) forEachTrackEngine_frame ]).
Qed.

Lemma updateUnlocked_frame elapsed : keepsFrame (updateUnlocked elapsed).
Proof.
  intros e0 e HF. unfold updateUnlocked.
  frame_run_with ltac:(first
    [ frame_call (@updateEngines) updateEngines_frame
    | frame_call (@updateOverrides) updateOverrides_frame ]).
Qed.

End FrameOps.

(** ** Well-formed engines run to the end *)

Section Arrays.
Context `{Config}.

Lemma at_Some {A} (l : list A) i x :
  at_ l i = Some x -> 0 <= i < Z.of_nat (length l).
Proof.
  unfold at_. destruct (decide (0 <= i)) as [Hi|Hi]; [|discriminate].
  intros Hl. apply lookup_lt_Some in Hl. lia.
Qed.

Lemma at_in_range {A} (l : list A) i :
  0 <= i < Z.of_nat (length l) -> exists x, at_ l i = Some x.
Proof.
  intros Hi. unfold at_. destruct (decide (0 <= i)) as [_|Hn]; [|lia].
  destruct (lookup_lt_is_Some_2 l (Z.to_nat i)) as [x Hx]; [lia|]. eauto.
Qed.

Lemma at_covers {A} (l : list A) i :
  covers l -> 0 <= i < CONFIG_TRACK_COUNT -> exists x, at_ l i = Some x.
Proof. unfold covers. intros Hc Hi. apply at_in_range. lia. Qed.

Lemma at_None_covers {A} (l : list A) i :
  covers l -> 0 <= i < CONFIG_TRACK_COUNT -> at_ l i = None -> False.
Proof.
  intros Hc Hi Hnone. destruct (at_covers l i Hc Hi) as [x Hx]. congruence.
Qed.

Lemma at_elem {A} (l : list A) i x : at_ l i = Some x -> x ∈ l.
Proof.
  unfold at_. destruct (decide (0 <= i)); [|discriminate].
  intros Hl. apply list_elem_of_lookup. eauto.
Qed.

Lemma at_insert_eq {A} (l : list A) i x :
  0 <= i < Z.of_nat (length l) -> at_ (<[Z.to_nat i := x]> l) i = Some x.
Proof.
  intros Hi. unfold at_. destruct (decide (0 <= i)); [|lia].
  apply list_lookup_insert_eq. lia.
Qed.

Lemma at_insert_ne {A} (l : list A) i j x :
  0 <= i -> i <> j -> at_ (<[Z.to_nat i := x]> l) j = at_ l j.
Proof.
  intros Hi Hne. unfold at_. destruct (decide (0 <= j)); [|reflexivity].
  apply list_lookup_insert_ne. lia.
Qed.

Lemma covers_insert {A} (l : list A) n x : covers l -> covers (<[n := x]> l).
Proof. unfold covers. rewrite length_insert. auto. Qed.

Lemma trackIndices_range i : i ∈ trackIndices -> 0 <= i < CONFIG_TRACK_COUNT.
Proof. unfold trackIndices. rewrite elem_of_seqZ. lia. Qed.

Lemma routed_at table i T :
  routed table -> at_ table i = Some T -> 0 <= T < CONFIG_TRACK_COUNT.
Proof.
  intros [_ Hall] Hat. rewrite Forall_forall in Hall. apply Hall.
  eapply at_elem, Hat.
Qed.

Lemma covers_zeroCounters : covers zeroCounters.
Proof. unfold covers, zeroCounters. rewrite length_replicate. lia. Qed.

End Arrays.

Section ReadyFacts.
Context `{Config} `{Collaborators}.

Lemma enginesReady_insert engines n te :
  enginesReady engines -> enginesReady (<[n := Some te]> engines).
Proof.
  intros Hready i Hi. destruct (Hready i Hi) as [te' Hat].
  unfold at_ in *. destruct (decide (0 <= i)); [|discriminate].
  destruct (decide (n = Z.to_nat i)) as [->|Hne].
  - exists te. apply list_lookup_insert_eq. eapply lookup_lt_Some, Hat.
  - exists te'. rewrite list_lookup_insert_ne; auto.
Qed.

Lemma enginesReady_null engines i :
  enginesReady engines -> 0 <= i < CONFIG_TRACK_COUNT -> at_ engines i = Some None -> False.
Proof. intros Hready Hi Hat. destruct (Hready i Hi) as [te Hte]. congruence. Qed.

Lemma enginesReady_none engines i :
  enginesReady engines -> 0 <= i < CONFIG_TRACK_COUNT -> at_ engines i = None -> False.
Proof. intros Hready Hi Hat. destruct (Hready i Hi) as [te Hte]. congruence. Qed.

End ReadyFacts.

(** Closes a goal [WF e'] where [e'] is a state in the context, known to
    be well formed, after updates that leave the model alone. *)
Ltac wf_done :=
  cbv beta;
  match goal with
  | HW : WF ?e |- WF _ =>
      first
        [ exact HW
        | split; [ cbn; repeat apply enginesReady_insert; exact (proj1 HW)
                 | exact (proj2 HW) ] ]
  end.

Ltac wf_advance :=
  cbv beta;
  lazymatch goal with
  | |- post _ _ ?s _ =>
      tryif is_var s then fail else
        (let e' := fresh "e" in
         let Heq := fresh "Heq" in
         let HW' := fresh "HW" in
         remember s as e' eqn:Heq;
         assert (HW' : WF e') by (subst e'; wf_done);
         clear Heq)
  end.

(** A failing branch cannot be taken from a well-formed engine. *)
Ltac wf_absurd :=
  lazymatch goal with
  | |- False =>
      cbv beta in *;
      match goal with
      | HW : WF ?e, Hat : at_ (_trackEngines ?e) ?i = Some None |- _ =>
          apply (enginesReady_null _ i (proj1 HW)); [|exact Hat]
      | HW : WF ?e, Hat : at_ (_trackEngines ?e) ?i = None |- _ =>
          apply (enginesReady_none _ i (proj1 HW)); [|exact Hat]
      | HW : WF ?e, Hat : at_ (tracks (_model ?e)) ?i = None |- _ =>
          apply (at_None_covers _ i (ok_tracks _ (proj2 HW))); [|exact Hat]
      | HW : WF ?e, Hat : at_ (gateOutputTracks (_model ?e)) ?i = None |- _ =>
          apply (at_None_covers _ i (proj1 (ok_gates _ (proj2 HW)))); [|exact Hat]
      | HW : WF ?e, Hat : at_ (cvOutputTracks (_model ?e)) ?i = None |- _ =>
          apply (at_None_covers _ i (proj1 (ok_cvs _ (proj2 HW)))); [|exact Hat]
      | HW : WF ?e, Hat : at_ (ps_trackStates (playState (_model ?e))) ?i = None |- _ =>
          apply (at_None_covers _ i (ok_trackStates _ (proj2 HW))); [|exact Hat]
      end
  end.

Ltac wf_call op lem :=
  unfold ensures, returns; cbv beta;
  lazymatch goal with
  | |- post _ (mbind _ _) _ _ => apply post_bind
  | |- _ => idtac
  end;
  lazymatch goal with
  | |- post _ ?m ?e _ =>
      let h := head_of m in
      constr_eq h op;
      eapply post_mono; [ eapply lem; try eassumption | cbv beta; intros ? ? ? ]
  end.

Ltac wf_run_with ops :=
  repeat first [ wf_done | wf_advance | ops | run_step ].

Ltac wf_run := wf_run_with fail.

Abbreviation keepsWF m :=
  (forall e, WF e -> returns m e (fun _ e' => WF e')).

Section WellFormedOps.
Context `{Config} `{Collaborators}.

Lemma callTrack_wf slot c :
  0 <= slot < CONFIG_TRACK_COUNT -> keepsWF (callTrack slot c).
Proof. intros Hslot e HW. wf_run; wf_absurd; exact Hslot. Qed.

Lemma forEachTrackEngine_wf c : keepsWF (forEachTrackEngine c).
Proof.
  intros e HW. unfold forEachTrackEngine.
  apply post_forM; [exact HW|]. intros slot e1 Hslot HW1.
  apply callTrack_wf; [apply trackIndices_range, Hslot | exact HW1].
Qed.

Lemma linkTrack_range (p : Project) i t :
  ProjectOk p -> at_ (tracks p) i = Some t -> 0 <= linkTrack t ->
  0 <= linkTrack t < CONFIG_TRACK_COUNT.
Proof.
  intros Hok Hat Hpos. split; [exact Hpos|].
  pose proof (ok_links _ Hok) as Hall. rewrite Forall_forall in Hall.
  apply Hall. eapply at_elem, Hat.
Qed.

Lemma updateTrackSetup_wf trackIndex :
  0 <= trackIndex < CONFIG_TRACK_COUNT -> keepsWF (updateTrackSetup trackIndex).
Proof.
  intros Hi e HW. unfold updateTrackSetup, linkedTrackEngine, createTrackEngine.
  wf_run;
    wf_absurd;
    first [ exact Hi
          | eapply linkTrack_range; [exact (proj2 HW) | eassumption | assumption] ].
Qed.

Lemma updateTrackSetups_wf : keepsWF updateTrackSetups.
Proof.
  intros e HW. unfold updateTrackSetups.
  apply post_forM; [exact HW|]. intros i e1 Hi HW1.
  apply updateTrackSetup_wf; [apply trackIndices_range, Hi | exact HW1].
Qed.

Lemma updateGateOutput_wf isIdle trackIndex counters e :
  0 <= trackIndex < CONFIG_TRACK_COUNT -> WF e -> covers counters ->
  returns (updateGateOutput isIdle trackIndex counters) e
    (fun counters' e' => WF e' /\ covers counters').
Proof.
  intros Hi HW Hc. unfold updateGateOutput.
  wf_run; try (split; [wf_done | first [assumption | apply covers_insert; assumption]]).
  - eapply (at_None_covers counters); [exact Hc | | eassumption].
    eapply routed_at; [exact (ok_gates _ (proj2 HW)) | eassumption].
  - wf_absurd. eapply routed_at; [exact (ok_gates _ (proj2 HW)) | eassumption].
  - wf_absurd. eapply routed_at; [exact (ok_gates _ (proj2 HW)) | eassumption].
  - wf_absurd. exact Hi.
Qed.

Lemma updateCvOutput_wf isIdle trackIndex counters e :
  0 <= trackIndex < CONFIG_TRACK_COUNT -> WF e -> covers counters ->
  returns (updateCvOutput isIdle trackIndex counters) e
    (fun counters' e' => WF e' /\ covers counters').
Proof.
  intros Hi HW Hc. unfold updateCvOutput.
  wf_run; try (split; [wf_done | first [assumption | apply covers_insert; assumption]]).
  - eapply (at_None_covers counters); [exact Hc | | eassumption].
    eapply routed_at; [exact (ok_cvs _ (proj2 HW)) | eassumption].
  - wf_absurd. eapply routed_at; [exact (ok_cvs _ (proj2 HW)) | eassumption].
  - wf_absurd. eapply routed_at; [exact (ok_cvs _ (proj2 HW)) | eassumption].
  - wf_absurd. exact Hi.
Qed.

Lemma updateTrackOutput_wf isIdle trackIndex counters e :
  0 <= trackIndex < CONFIG_TRACK_COUNT -> WF e ->
  covers (fst counters) -> covers (snd counters) ->
  returns (updateTrackOutput isIdle trackIndex counters) e
    (fun counters' e' => WF e' /\ covers (fst counters') /\ covers (snd counters')).
Proof.
  intros Hi HW Hg Hc. unfold updateTrackOutput. do 3 run_step.
  eapply (post_mono _ _ (fun _ e' => WF e')).
  { apply post_when; intros _; [apply callTrack_wf; assumption | exact HW]. }
  cbv beta. intros _ e1 HW1. run_step.
  eapply post_mono; [apply updateGateOutput_wf; assumption|].
  cbv beta. intros g e2 [HW2 Hg2]. run_step.
  eapply post_mono; [apply updateCvOutput_wf; assumption|].
  cbv beta. intros c e3 [HW3 Hc3]. run_step. auto.
Qed.

Lemma updateTrackOutputs_wf : keepsWF updateTrackOutputs.
Proof.
  intros e HW. unfold updateTrackOutputs. do 3 run_step.
  eapply post_mono.
  - apply (post_foldM _ (fun rest counters e' =>
             WF e' /\ covers (fst counters) /\ covers (snd counters)
             /\ forall i, i ∈ rest -> 0 <= i < CONFIG_TRACK_COUNT)).
    + split; [exact HW|]. split; [apply covers_zeroCounters|].
      split; [apply covers_zeroCounters|]. intros i. apply trackIndices_range.
    + intros i rest counters e1 (HW1 & Hg & Hc & Hrest).
      eapply post_mono.
      * apply updateTrackOutput_wf; auto. apply Hrest. left.
      * cbv beta. intros counters' e2 (HW2 & Hg2 & Hc2).
        split; [exact HW2|]. split; [exact Hg2|]. split; [exact Hc2|].
        intros j Hj. apply Hrest. right. exact Hj.
  - cbv beta. intros _ e' [HW' _]. run_step. exact HW'.
Qed.

Lemma setOverrideChannels_wf values : forall i, keepsWF (setOverrideChannels i values).
Proof.
  induction values as [|v values IH]; intros i e HW; simpl; [wf_run|].
  wf_run_with ltac:(wf_call (@setOverrideChannels) IH).
Qed.

Lemma updateOverrides_wf : keepsWF updateOverrides.
Proof.
  intros e HW. unfold updateOverrides.
  wf_run_with ltac:(wf_call (@setOverrideChannels) setOverrideChannels_wf).
Qed.

End WellFormedOps.

Section PlayStateFacts.
Context `{Config} `{Collaborators}.

Lemma ProjectOk_set_playState p ps :
  ProjectOk p ->
  covers (ps_trackStates ps) ->
  songOk (song p) (ss_currentSlot (ps_songState ps)) ->
  ProjectOk (set_playState ps p).
Proof.
  intros Hok Hc Hs. destruct Hok. constructor; assumption.
Qed.

Lemma WFsong_WF s e : WFsong s e -> WF e.
Proof. intros [HW _]. exact HW. Qed.

Lemma WFsong_playState s e ps :
  WFsong s e ->
  covers (ps_trackStates ps) ->
  songOk s (ss_currentSlot (ps_songState ps)) ->
  WFsong s (set_model (set_playState ps (_model e)) e).
Proof.
  intros [[Hready Hok] Hsong] Hc Hs. split; [split|]; cbn.
  - exact Hready.
  - apply ProjectOk_set_playState; [exact Hok | exact Hc | rewrite Hsong; exact Hs].
  - exact Hsong.
Qed.

Lemma WFsong_covers s e : WFsong s e -> covers (ps_trackStates (playState (_model e))).
Proof. intros [[_ Hok] _]. apply ok_trackStates, Hok. Qed.

Lemma WFsong_slot s e :
  WFsong s e -> songOk s (ss_currentSlot (ps_songState (playState (_model e)))).
Proof. intros [[_ Hok] Hsong]. rewrite <- Hsong. apply ok_song, Hok. Qed.

End PlayStateFacts.

(** Closes [WFsong s e'] for a state reached by updates that keep the
    current slot. *)
Ltac ws_done :=
  cbv beta;
  match goal with
  | HS : WFsong ?s ?e |- WFsong ?s _ =>
      first
        [ exact HS
        | split; [ split; [ cbn; repeat apply enginesReady_insert; exact (proj1 (proj1 HS))
                          | exact (proj2 (proj1 HS)) ]
                 | exact (proj2 HS) ]
        | apply (WFsong_playState _ _ _ HS); cbn;
          [ first [ exact (WFsong_covers _ _ HS)
                  | apply covers_insert; exact (WFsong_covers _ _ HS) ]
          | exact (WFsong_slot _ _ HS) ] ]
  end.

Ltac ws_advance :=
  cbv beta;
  lazymatch goal with
  | HS : WFsong ?sg _ |- post _ _ ?s _ =>
      tryif is_var s then fail else
        (let e' := fresh "e" in
         let Heq := fresh "Heq" in
         let HS' := fresh "HS" in
         let HW' := fresh "HW" in
         remember s as e' eqn:Heq;
         assert (HS' : WFsong sg e') by (subst e'; ws_done);
         pose proof (WFsong_WF _ _ HS') as HW';
         clear Heq)
  end.

Ltac ws_call op lem :=
  unfold ensures, returns; cbv beta;
  lazymatch goal with
  | |- post _ (mbind _ _) _ _ => apply post_bind
  | |- _ => idtac
  end;
  lazymatch goal with
  | |- post _ ?m ?e _ =>
      let h := head_of m in
      constr_eq h op;
      eapply post_mono;
      [ eapply lem; try eassumption
      | let HS := fresh "HS" in let HW := fresh "HW" in
        cbv beta; intros ? ? HS; pose proof (WFsong_WF _ _ HS) as HW ]
  end.

Ltac ws_run_with ops :=
  repeat first [ ws_done | ws_advance | ops | run_step ].

Ltac ws_run := ws_run_with fail.

Abbreviation keepsSong m :=
  (forall s e, WFsong s e -> returns m e (fun _ e' => WFsong s e')).

Section PlayStateOps.
Context `{Config} `{Collaborators}.

Lemma callTrack_ws slot c :
  0 <= slot < CONFIG_TRACK_COUNT -> keepsSong (callTrack slot c).
Proof.
  intros Hslot s e HS. pose proof (WFsong_WF _ _ HS) as HW.
  ws_run; wf_absurd; exact Hslot.
Qed.

Lemma modifyTrackState_ws trackIndex f :
  0 <= trackIndex < CONFIG_TRACK_COUNT -> keepsSong (modifyTrackState trackIndex f).
Proof.
  intros Hi s e HS. pose proof (WFsong_WF _ _ HS) as HW.
  unfold modifyTrackState, getTrackState. ws_run. wf_absurd. exact Hi.
Qed.

Lemma handleTrackRequests_ws muteMask patternMask :
  keepsSong (handleTrackRequests muteMask patternMask).
Proof.
  intros s e HS. unfold handleTrackRequests.
  eapply post_mono.
  - apply (post_foldM _ (fun rest _ e' =>
             WFsong s e' /\ forall i, i ∈ rest -> 0 <= i < CONFIG_TRACK_COUNT)).
    + split; [exact HS|]. intros i. apply trackIndices_range.
    + intros i rest changed e1 [HS1 Hrest].
      pose proof (WFsong_WF _ _ HS1) as HW1.
      assert (Hi : 0 <= i < CONFIG_TRACK_COUNT) by (apply Hrest; left).
      unfold getTrackState. do 4 run_step; [|wf_absurd; exact Hi].
      ws_call (@modifyTrackState) modifyTrackState_ws.
      run_step. split; [assumption|]. intros j Hj. apply Hrest. right. exact Hj.
  - cbv beta. intros _ e' [HS' _]. exact HS'.
Qed.

Lemma applySlotPatterns_ws slot reset :
  covers (slot_patterns slot) -> keepsSong (applySlotPatterns slot reset).
Proof.
  intros Hc s e HS. unfold applySlotPatterns.
  apply post_forM; [exact HS|]. intros i e1 Hi HS1.
  apply trackIndices_range in Hi. pose proof (WFsong_WF _ _ HS1) as HW1.
  do 2 run_step; [|eapply at_None_covers; eassumption].
  ws_call (@modifyTrackState) modifyTrackState_ws.
  run_step; [|assumption]. apply callTrack_ws; assumption.
Qed.

Lemma songOk_slot (s : Song) currentSlot i slot :
  songOk s currentSlot -> at_ (song_slots s) i = Some slot -> covers (slot_patterns slot).
Proof.
  intros (Hall & _) Hat. rewrite Forall_forall in Hall. apply Hall. eapply at_elem, Hat.
Qed.

Lemma WFsong_currentSlot s e slot :
  WFsong s e ->
  songOk s slot ->
  WFsong s (set_model (set_playState
              (set_songState (ss_setCurrentSlot slot (ps_songState (playState (_model e))))
                 (playState (_model e))) (_model e)) e).
Proof.
  intros HS Hslot. apply WFsong_playState; [exact HS | exact (WFsong_covers _ _ HS) | exact Hslot].
Qed.

Lemma handlePlayRequest_ws playMask switch : keepsSong (handlePlayRequest playMask switch).
Proof.
  intros s e HS. pose proof (WFsong_WF _ _ HS) as HW.
  pose proof (WFsong_slot _ _ HS) as Hok. pose proof (proj2 HS) as Hsong.
  unfold handlePlayRequest. do 3 run_step; [|ws_run]. run_step; [|ws_run].
  apply andb_prop in Heqb0 as [Hlo Hhi].
  apply Z.leb_le in Hlo. apply Z.ltb_lt in Hhi. rewrite Hsong in *.
  assert (Hin : 0 <= ss_requestedSlot (ps_songState (playState (_model e)))
                < Z.of_nat (length (song_slots s))).
  { destruct Hok as (_ & Hcount & _). lia. }
  do 2 run_step; [|destruct (at_in_range _ _ Hin); congruence].
  ws_call (@applySlotPatterns) applySlotPatterns_ws;
    [eapply songOk_slot; eassumption |].
  do 2 run_step.
  lazymatch goal with
  | |- post _ _ ?st _ =>
      assert (HS1 : WFsong s st)
  end.
  { apply WFsong_currentSlot; [assumption|].
    destruct Hok as (Hall & Hcount & _). repeat split; auto; lia. }
  ws_run.
Qed.

Lemma handleStopRequest_ws playMask stopMask changed :
  keepsSong (handleStopRequest playMask stopMask changed).
Proof. intros s e HS. unfold handleStopRequest. ws_run. Qed.

Lemma pushTrackStates_ws : keepsSong pushTrackStates.
Proof.
  intros s e HS. unfold pushTrackStates.
  apply post_forM; [exact HS|]. intros i e1 Hi HS1.
  apply trackIndices_range in Hi. pose proof (WFsong_WF _ _ HS1) as HW1.
  unfold getTrackState. ws_run; wf_absurd; exact Hi.
Qed.

Lemma songSlotChange_ws : keepsSong songSlotChange.
Proof.
  intros s e HS. pose proof (WFsong_WF _ _ HS) as HW.
  pose proof (WFsong_slot _ _ HS) as Hok. pose proof (proj2 HS) as Hsong.
  unfold songSlotChange. do 2 run_step. rewrite Hsong.
  destruct Hok as (Hall & Hcount & Hcur).
  do 2 run_step; [|destruct (at_in_range _ _ Hcur); congruence].
  run_step.
  eapply (post_mono _ _ (fun _ e' => WFsong s e')).
  { run_step; [ws_run|]. do 2 run_step. ws_advance.
    run_step; run_step; apply WFsong_currentSlot; try assumption;
      (split; [exact Hall | split; [exact Hcount | lia]]). }
  cbv beta. intros _ e1 HS1. pose proof (WFsong_slot _ _ HS1) as (_ & _ & Hcur1).
  do 4 run_step; [|destruct (at_in_range _ _ Hcur1); congruence].
  apply applySlotPatterns_ws; [|exact HS1].
  eapply songOk_slot; [split; [exact Hall | split; [exact Hcount | exact Hcur]] | eassumption].
Qed.

Lemma arbitrate_ws hasAny handleSynced handleLatched switch :
  keepsSong (arbitrate hasAny handleSynced handleLatched switch).
Proof.
  intros s e HS. unfold arbitrate.
  ws_run_with ltac:(first
    [ ws_call (@handleTrackRequests) handleTrackRequests_ws
    | ws_call (@handlePlayRequest) handlePlayRequest_ws
    | ws_call (@handleStopRequest) handleStopRequest_ws
    | ws_call (@songSlotChange) songSlotChange_ws
    | ws_call (@pushTrackStates) pushTrackStates_ws ]).
Qed.

Lemma updatePlayState_wf ticked e :
  WF e -> returns (updatePlayState ticked) e (fun _ e' => WF e').
Proof.
  intros HW. unfold updatePlayState. do 5 run_step.
  - exact (ok_divisor _ (proj2 HW) e0).
  - eapply post_mono; [apply (arbitrate_ws _ _ _ _ (song (_model e))); split; auto|].
    cbv beta. intros _ e' HS. exact (WFsong_WF _ _ HS).
Qed.

End PlayStateOps.

Section CycleOps.
Context `{Config} `{Collaborators}.

Lemma receiveMidiMessage_wf port message : keepsWF (receiveMidiMessage port message).
Proof.
  intros e HW. unfold receiveMidiMessage.
  wf_run_with ltac:(wf_call (@forEachTrackEngine) forEachTrackEngine_wf).
Qed.

Lemma recvLoop_wf setQueue pending body :
  (forall q e, WF e -> WF (setQueue q e)) ->
  (forall message, keepsWF (body message)) ->
  keepsWF (recvLoop setQueue pending body).
Proof.
  intros Hset Hbody. induction pending as [|message pending IH]; intros e HW; simpl.
  - wf_run.
  - do 3 run_step. eapply post_mono; [apply Hbody, Hset, HW|].
    cbv beta. intros _ e2 HW2. apply IH, HW2.
Qed.

Lemma receiveMidi_wf : keepsWF receiveMidi.
Proof.
  intros e HW. unfold receiveMidi, recvMidi, recvUsbMidi.
  do 3 run_step. eapply post_mono.
  { apply recvLoop_wf; [intros q e1 HW1; exact HW1 | apply receiveMidiMessage_wf | exact HW]. }
  cbv beta. intros _ e1 HW1. do 2 run_step.
  apply recvLoop_wf; [intros q e2 HW2; exact HW2 | apply receiveMidiMessage_wf | exact HW1].
Qed.

Lemma onClockOutput_wf state : keepsWF (onClockOutput state).
Proof. intros e HW. unfold onClockOutput. wf_run. Qed.

Lemma WF_clearDirty e :
  WF e -> WF (set_model (set_clockSetup (clearDirty (clockSetup (_model e))) (_model e)) e).
Proof.
  intros [Hready Hok]. split; [exact Hready|]. destruct Hok. constructor; assumption.
Qed.

Lemma updateClockSetup_wf : keepsWF updateClockSetup.
Proof.
  intros e HW. unfold updateClockSetup.
  repeat first [ wf_done | wf_advance | wf_call (@onClockOutput) onClockOutput_wf
               | apply WF_clearDirty; assumption | run_step ].
Qed.

Lemma resetTrackEngines_wf : keepsWF resetTrackEngines.
Proof. apply forEachTrackEngine_wf. Qed.

Lemma eventLoop_wf pending : keepsWF (eventLoop pending).
Proof.
  induction pending as [|event pending IH]; intros e HW; simpl.
  - wf_run.
  - wf_run_with ltac:(first
      [ wf_call (@resetTrackEngines) resetTrackEngines_wf
      | wf_call (@eventLoop) IH ]).
Qed.

Lemma processClockEvents_wf : keepsWF processClockEvents.
Proof.
  intros e HW. unfold processClockEvents. do 2 run_step. apply eventLoop_wf, HW.
Qed.

Lemma updateRouting_wf : routingKeepsProjectOk -> keepsWF updateRouting.
Proof.
  intros Hrouting e HW. unfold updateRouting. do 2 run_step.
  assert (HW1 : WF (set_routingEngine (fst (routing_update (_routingEngine e) (_model e)))
                      (set_model (snd (routing_update (_routingEngine e) (_model e))) e))).
  { split; [exact (proj1 HW) | apply Hrouting, (proj2 HW)]. }
  wf_run.
Qed.

Lemma tickLoop_wf pending body updateOutputs :
  (forall tick, keepsWF (body tick)) ->
  keepsWF (tickLoop pending body updateOutputs).
Proof.
  intros Hbody. revert updateOutputs.
  induction pending as [|tick pending IH]; intros updateOutputs e HW; simpl.
  - wf_run.
  - do 2 run_step. wf_advance. run_step.
    eapply post_mono; [apply Hbody; eassumption|].
    cbv beta. intros _ e2 HW2. apply IH, HW2.
Qed.

Lemma onTick_wf tick : keepsWF (onTick tick).
Proof.
  intros e HW. unfold onTick.
  wf_run_with ltac:(first
    [ wf_call (@updatePlayState) updatePlayState_wf
    | wf_call (@forEachTrackEngine) forEachTrackEngine_wf
    | wf_call (@updateTrackOutputs) updateTrackOutputs_wf ]).
Qed.

Lemma whileCheckTick_wf body :
  (forall tick, keepsWF (body tick)) -> keepsWF (whileCheckTick body).
Proof.
  intros Hbody e HW. unfold whileCheckTick. do 2 run_step.
  apply tickLoop_wf; assumption.
Qed.

Lemma updateEngines_wf elapsed :
  routingKeepsProjectOk -> keepsWF (updateEngines elapsed).
Proof.
  intros Hrouting e HW. unfold updateEngines.
  wf_call (@processClockEvents) processClockEvents_wf.
  wf_call (@receiveMidi) receiveMidi_wf.
  do 2 run_step. wf_advance. do 2 run_step. wf_advance.
  wf_call (@updateClockSetup) updateClockSetup_wf.
  wf_call (@updateTrackSetups) updateTrackSetups_wf.
  wf_call (@updatePlayState) updatePlayState_wf.
  do 2 run_step. wf_advance.
  wf_call (@updateRouting) updateRouting_wf.
  run_step.
  eapply post_mono; [apply whileCheckTick_wf; [apply onTick_wf | eassumption] |].
  cbv beta. intros ? ? ?.
  wf_run_with ltac:(first
    [ wf_call (@updateTrackOutputs) updateTrackOutputs_wf
    | wf_call (@forEachTrackEngine) forEachTrackEngine_wf ]).
Qed.

Lemma updateUnlocked_wf elapsed :
  routingKeepsProjectOk -> keepsWF (updateUnlocked elapsed).
Proof.
  intros Hrouting e HW. unfold updateUnlocked.
  wf_run_with ltac:(first
    [ wf_call (@updateEngines) updateEngines_wf
    | wf_call (@updateOverrides) updateOverrides_wf ]).
Qed.

End CycleOps.

(** ** Play-state arbitration: the windows of a measure *)

Section Windows.
Context `{Config} `{Collaborators}.

Lemma u32_small x : 0 <= x < 2 ^ 32 -> u32 x = x.
Proof. intros Hx. unfold u32. apply Z.mod_small. exact Hx. Qed.

Lemma measureDivisor_exact (p : Project) :
  0 < syncMeasure p * CONFIG_PPQN * 4 < 2 ^ 32 ->
  measureDivisor p = syncMeasure p * CONFIG_PPQN * 4.
Proof. intros Hm. unfold measureDivisor. apply u32_small. lia. Qed.

Lemma handleSyncedRequests_spec tick divisor :
  0 < divisor < 2 ^ 32 ->
  handleSyncedRequests tick divisor
  = bool_decide (tick mod divisor = 0 \/ tick mod divisor = divisor - 1).
Proof.
  intros Hd. unfold handleSyncedRequests. rewrite u32_small by lia.
  destruct (Z.eqb_spec (tick mod divisor) 0) as [Hfirst|Hfirst];
    destruct (Z.eqb_spec (tick mod divisor) (divisor - 1)) as [Hlast|Hlast]; simpl;
    symmetry; first [ apply bool_decide_eq_true; tauto
                    | apply bool_decide_eq_false; tauto ].
Qed.

Lemma switchToNextSlot_spec ticked tick divisor :
  0 < divisor < 2 ^ 32 ->
  switchToNextSlot ticked tick divisor
  = ticked && bool_decide (tick mod divisor = divisor - 1).
Proof.
  intros Hd. unfold switchToNextSlot. rewrite u32_small by lia. f_equal.
  destruct (Z.eqb_spec (tick mod divisor) (divisor - 1)) as [Hlast|Hlast];
    symmetry; [apply bool_decide_eq_true | apply bool_decide_eq_false]; assumption.
Qed.

(** C1. In every invocation of [updatePlayState], with
    [M = syncMeasure * CONFIG_PPQN * 4] (a non-zero [uint32_t]), the
    arbitration runs with [handleSyncedRequests] true exactly when
    [tick mod M = 0] or [tick mod M = M - 1], and with [switchToNextSlot]
    true exactly when [ticked] and [tick mod M = M - 1]; the masks of the
    mute, pattern, play and stop requests contain the Synced flag exactly
    under [handleSyncedRequests]. *)
Theorem C1_synced_windows (ticked : bool) (e : Engine) :
  let M := syncMeasure (_model e) * CONFIG_PPQN * 4 in
  let tick := _tick e in
  0 < M < 2 ^ 32 ->
  updatePlayState ticked e
  = arbitrate (hasAnyRequests (playState (_model e)))
              (bool_decide (tick mod M = 0 \/ tick mod M = M - 1))
              (ps_executeLatchedRequests (playState (_model e)))
              (ticked && bool_decide (tick mod M = M - 1)) e
  /\ (handleSyncedRequests tick (measureDivisor (_model e)) = true
      <-> tick mod M = 0 \/ tick mod M = M - 1)
  /\ (switchToNextSlot ticked tick (measureDivisor (_model e)) = true
      <-> ticked = true /\ tick mod M = M - 1)
  /\ (forall synced latched,
        muteRequests synced latched
        = Z.lor (Z.lor ImmediateMuteRequest (if synced then SyncedMuteRequest else 0))
                (if latched then LatchedMuteRequest else 0)
        /\ patternRequests synced latched
        = Z.lor (Z.lor ImmediatePatternRequest (if synced then SyncedPatternRequest else 0))
                (if latched then LatchedPatternRequest else 0)
        /\ playRequests synced latched
        = Z.lor (Z.lor ImmediatePlayRequest (if synced then SyncedPlayRequest else 0))
                (if latched then LatchedPlayRequest else 0)
        /\ stopRequests synced latched
        = Z.lor (Z.lor ImmediateStopRequest (if synced then SyncedStopRequest else 0))
                (if latched then LatchedStopRequest else 0)).
Proof.
  intros M tick HM.
  assert (Hdiv : measureDivisor (_model e) = M) by (apply measureDivisor_exact, HM).
  split; [|split; [|split]].
  - unfold updatePlayState, mbind, M_bind, gets. rewrite Hdiv.
    destruct (decide (M = 0)) as [Hz|_]; [lia|].
    rewrite handleSyncedRequests_spec, switchToNextSlot_spec by exact HM. reflexivity.
  - rewrite Hdiv, handleSyncedRequests_spec by exact HM. apply bool_decide_eq_true.
  - rewrite Hdiv, switchToNextSlot_spec by exact HM.
    rewrite andb_true_iff, bool_decide_eq_true. reflexivity.
  - intros synced latched. repeat split.
Qed.

End Windows.

(** ** Fields an operation leaves alone *)

Lemma kept_refl `{Collaborators} {X} (proj : Engine -> X) e : kept proj e e.
Proof. reflexivity. Qed.

Lemma kept_step `{Collaborators} {X} (proj : Engine -> X) e0 e e' :
  kept proj e0 e -> proj e' = proj e -> kept proj e0 e'.
Proof. unfold kept. congruence. Qed.

Ltac kept_done :=
  cbv beta;
  lazymatch goal with
  | HK : kept ?proj ?e0 _ |- kept ?proj ?e0 _ =>
      first [ exact HK | apply (kept_step _ _ _ _ HK); reflexivity ]
  end.

Ltac kept_advance :=
  cbv beta;
  lazymatch goal with
  | HK : kept ?proj ?e0 _ |- post _ _ ?s _ =>
      tryif is_var s then fail else
        (let e' := fresh "e" in
         let Heq := fresh "Heq" in
         let HK' := fresh "HK" in
         remember s as e' eqn:Heq;
         assert (HK' : kept proj e0 e') by (subst e'; kept_done);
         clear Heq HK)
  end.

Ltac kept_call op lem :=
  unfold ensures, returns; cbv beta;
  lazymatch goal with
  | |- post _ (mbind _ _) _ _ => apply post_bind
  | |- _ => idtac
  end;
  lazymatch goal with
  | HK : kept _ _ _ |- post _ ?m _ _ =>
      let h := head_of m in
      constr_eq h op;
      eapply post_mono; [ eapply lem; exact HK | clear HK; cbv beta; intros ? ? HK ]
  end.

Ltac kept_run_with ops :=
  repeat first [ kept_done | exact I | kept_advance | ops | run_step ].

Ltac kept_run := kept_run_with fail.

Abbreviation keeps proj m :=
  (forall e0 e, kept proj e0 e -> ensures m e (fun _ e' => kept proj e0 e')).

Section ModelKept.
Context {cfg : Config} {col : Collaborators}.

(** The output pass and the per-engine calls leave the model alone. *)

Lemma callTrack_model slot c : keeps _model (callTrack slot c).
Proof. intros e0 e HK. kept_run. Qed.

Lemma forEachTrackEngine_model c : keeps _model (forEachTrackEngine c).
Proof.
  intros e0 e HK. unfold forEachTrackEngine.
  apply post_forM; [exact HK|]. intros slot e1 _ HK1. apply callTrack_model, HK1.
Qed.

Lemma updateTrackOutput_model isIdle trackIndex counters :
  keeps _model (updateTrackOutput isIdle trackIndex counters).
Proof.
  intros e0 e HK. unfold updateTrackOutput, updateGateOutput, updateCvOutput. kept_run.
Qed.

Lemma updateTrackOutputs_model : keeps _model updateTrackOutputs.
Proof.
  intros e0 e HK. unfold updateTrackOutputs. do 3 run_step.
  eapply post_mono.
  - apply (post_foldM _ (fun _ _ e' => kept _model e0 e')); [exact HK|].
    intros i rest counters e1 HK1. apply updateTrackOutput_model, HK1.
  - cbv beta. intros _ e' HK'. kept_run.
Qed.

(** Arbitration leaves the request bits of the song state to
    [handleStopRequest], and the requested slot and the song to nobody. *)

Lemma modifyTrackState_request trackIndex f : keeps songRequestOf (modifyTrackState trackIndex f).
Proof. intros e0 e HK. unfold modifyTrackState, getTrackState. kept_run. Qed.

Lemma handleTrackRequests_request muteMask patternMask :
  keeps songRequestOf (handleTrackRequests muteMask patternMask).
Proof.
  intros e0 e HK. unfold handleTrackRequests.
  apply (post_foldM _ (fun _ _ e' => kept songRequestOf e0 e')); [exact HK|].
  intros i rest changed e1 HK1. unfold getTrackState.
  kept_run_with ltac:(kept_call (@modifyTrackState) modifyTrackState_request).
Qed.

Lemma applySlotPatterns_request slot reset : keeps songRequestOf (applySlotPatterns slot reset).
Proof.
  intros e0 e HK. unfold applySlotPatterns.
  apply post_forM; [exact HK|]. intros i e1 _ HK1.
  kept_run_with ltac:(kept_call (@modifyTrackState) modifyTrackState_request).
Qed.

Lemma songSlotChange_request : keeps songRequestOf songSlotChange.
Proof.
  intros e0 e HK. unfold songSlotChange.
  kept_run_with ltac:(kept_call (@applySlotPatterns) applySlotPatterns_request).
Qed.

Lemma pushTrackStates_request : keeps songRequestOf pushTrackStates.
Proof.
  intros e0 e HK. unfold pushTrackStates.
  apply post_forM; [exact HK|]. intros i e1 _ HK1. unfold getTrackState. kept_run.
Qed.

End ModelKept.

(** ** Play requests for a slot that does not exist *)

Section InvalidSlot.
Context {cfg : Config} {col : Collaborators}.

Lemma post_conj {A} (m : M A) e (Q1 Q2 : A -> Engine -> Prop) :
  returns m e Q1 -> ensures m e Q2 -> returns m e (fun a e' => Q1 a e' /\ Q2 a e').
Proof.
  unfold returns, ensures, post. destruct (m e) as [[a e']|f]; auto.
Qed.

Lemma returns_Ok {A} (m : M A) e (Q : A -> Engine -> Prop) :
  returns m e Q -> exists a e', m e = Ok (a, e') /\ Q a e'.
Proof.
  unfold returns, post. destruct (m e) as [[a e']|f]; [eauto | contradiction].
Qed.

Lemma ensures_Ok {A} (m : M A) e (Q : A -> Engine -> Prop) a e' :
  ensures m e Q -> m e = Ok (a, e') -> Q a e'.
Proof. unfold ensures, post. intros HQ Hrun. rewrite Hrun in HQ. exact HQ. Qed.

Lemma hasRequests_cleared state a b :
  hasRequests (clearRequests state (Z.lor a b)) a = false.
Proof.
  unfold hasRequests, clearRequests. apply negb_false_iff, Z.eqb_eq.
  apply Z.bits_inj'. intros n Hn.
  rewrite !Z.land_spec, Z.lnot_spec, Z.lor_spec, Z.bits_0 by exact Hn.
  destruct (Z.testbit state n), (Z.testbit a n), (Z.testbit b n); reflexivity.
Qed.

(** Lines 397-410 with a requested slot outside [0, slotCount): nothing
    is written, [switchToNextSlot] keeps its value. *)
Lemma handlePlayRequest_ignored playMask switch e :
  ~ (0 <= ss_requestedSlot (ps_songState (playState (_model e)))
     < song_slotCount (song (_model e))) ->
  handlePlayRequest playMask switch e = Ok (switch, e).
Proof.
  intros Hout. unfold handlePlayRequest, mbind, M_bind, gets.
  destruct (hasRequests _ playMask); [|reflexivity].
  destruct (Z.leb_spec 0 (ss_requestedSlot (ps_songState (playState (_model e)))));
    destruct (Z.ltb_spec (ss_requestedSlot (ps_songState (playState (_model e))))
                (song_slotCount (song (_model e)))); simpl; try reflexivity.
  lia.
Qed.

Lemma playCleared_kept playMask e0 e :
  kept songRequestOf e0 e -> playCleared playMask e0 -> playCleared playMask e.
Proof.
  unfold kept, songRequestOf, playCleared. intros HK Hc.
  injection HK as Hstate _ _. rewrite Hstate. exact Hc.
Qed.

Lemma arbitrate_invalid_slot s e handleSynced handleLatched switch :
  WFsong s e ->
  ~ (0 <= ss_requestedSlot (ps_songState (playState (_model e)))
     < song_slotCount (song (_model e))) ->
  returns (arbitrate true handleSynced handleLatched switch) e
    (fun _ e' => playCleared (playRequests handleSynced handleLatched) e').
Proof.
  intros HS Hout. unfold arbitrate. run_step.
  eapply post_mono.
  { apply post_conj;
      [apply handleTrackRequests_ws, HS | apply handleTrackRequests_request, kept_refl]. }
  cbv beta. intros changed e1 [HS1 HK1].
  assert (Hout1 : ~ (0 <= ss_requestedSlot (ps_songState (playState (_model e1)))
                     < song_slotCount (song (_model e1)))).
  { unfold kept, songRequestOf in HK1. injection HK1 as _ Hslot Hsong.
    rewrite Hslot, Hsong. exact Hout. }
  do 2 run_step.
  unfold post at 1. rewrite (handlePlayRequest_ignored _ _ _ Hout1).
  run_step. unfold handleStopRequest. do 3 run_step.
  eapply (post_mono _ _ (fun _ e' => WFsong s e'
            /\ ss_state (ps_songState (playState (_model e')))
               = ss_state (ps_songState (playState (_model e1))))).
  { run_step; [|auto]. run_step. split; [ws_done | reflexivity]. }
  cbv beta. intros _ e2 [HS2 Hstate2]. run_step. cbv beta.
  lazymatch goal with
  | |- post _ _ ?st _ =>
      assert (HS3 : WFsong s st) by ws_done;
      assert (Hc3 : playCleared (playRequests handleSynced handleLatched) st)
        by (unfold playCleared; cbn; rewrite Hstate2; apply hasRequests_cleared);
      generalize dependent st
  end.
  intros e3 HS3 Hc3. do 3 run_step; [|discriminate]. run_step. cbv beta.
  lazymatch goal with
  | |- post _ _ ?st _ =>
      assert (HS4 : WFsong s st) by ws_done;
      assert (Hc4 : playCleared (playRequests handleSynced handleLatched) st)
        by exact Hc3;
      generalize dependent st
  end.
  intros e4 HS4 Hc4. do 3 run_step.
  eapply (post_mono _ _ (fun _ e' => WFsong s e'
            /\ playCleared (playRequests handleSynced handleLatched) e')).
  { run_step; [|auto].
    eapply post_mono;
      [apply post_conj; [apply songSlotChange_ws, HS4
                        | apply songSlotChange_request, kept_refl]|].
    cbv beta. intros _ e5 [HS5 HK5]. split; [exact HS5|].
    eapply playCleared_kept; eassumption. }
  cbv beta. intros _ e5 [HS5 Hc5]. run_step; [|discriminate].
  eapply post_mono;
    [apply post_conj; [apply pushTrackStates_ws, HS5
                      | apply pushTrackStates_request, kept_refl]|].
  cbv beta. intros _ e6 [HS6 HK6]. eapply playCleared_kept; eassumption.
Qed.

(** C3. A Play request that fires for a slot outside [0, slotCount) is
    ignored: the Play handling returns the engine as it found it (current
    slot, repeat, playing flag, every track state), and the same
    arbitration call still clears the play request bits. *)
Theorem C3_invalid_slot_request (ticked : bool) (e : Engine) :
  let songState := ps_songState (playState (_model e)) in
  let synced := handleSyncedRequests (_tick e) (measureDivisor (_model e)) in
  let latched := ps_executeLatchedRequests (playState (_model e)) in
  WF e ->
  hasAnyRequests (playState (_model e)) = true ->
  hasRequests (ss_state songState) (playRequests synced latched) = true ->
  ~ (0 <= ss_requestedSlot songState < song_slotCount (song (_model e))) ->
  (forall switch, handlePlayRequest (playRequests synced latched) switch e = Ok (switch, e))
  /\ exists e',
       updatePlayState ticked e = Ok (tt, e')
       /\ hasRequests (ss_state (ps_songState (playState (_model e'))))
                      (playRequests synced latched) = false.
Proof.
  intros songState synced latched HW Hany Hfires Hout. split.
  - intros switch. apply handlePlayRequest_ignored, Hout.
  - assert (Hrun : returns (updatePlayState ticked) e
                     (fun _ e' => playCleared (playRequests synced latched) e')).
    { unfold updatePlayState. do 5 run_step.
      - exact (ok_divisor _ (proj2 HW) e0).
      - rewrite Hany. apply (arbitrate_invalid_slot (song (_model e))); [split; auto | exact Hout]. }
    apply returns_Ok in Hrun as ([] & e' & Hrun & Hc). exists e'. split; assumption.
Qed.

End InvalidSlot.

(** ** The per-track loops, by index *)

Section TrackLoops.
Context {cfg : Config} {col : Collaborators}.
Context {d : Prop}.

(** [I i s e] holds when the tracks below [i] have been visited. *)
Lemma post_foldTracks {S} (body : Z -> S -> M S) (I : Z -> S -> Engine -> Prop) s e :
  I 0 s e ->
  (forall i s e, 0 <= i < CONFIG_TRACK_COUNT -> I i s e ->
     post d (body i s) e (fun s' e' => I (i + 1) s' e')) ->
  post d (foldM body trackIndices s) e (fun s' e' => I trackCount s' e').
Proof.
  intros Hinit Hbody. unfold trackCount.
  eapply post_mono.
  - apply (post_foldM body (fun rest s e =>
             exists i, 0 <= i <= Z.max 0 CONFIG_TRACK_COUNT
                       /\ rest = seqZ i (CONFIG_TRACK_COUNT - i) /\ I i s e)).
    + exists 0. split; [lia|]. split; [|exact Hinit].
      unfold trackIndices. f_equal. lia.
    + intros x rest s1 e1 (i & Hi & Hrest & HI).
      assert (Hlt : i < CONFIG_TRACK_COUNT).
      { destruct (Z.lt_ge_cases i CONFIG_TRACK_COUNT) as [Hlt|Hge]; [exact Hlt|].
        rewrite seqZ_nil in Hrest by lia. discriminate. }
      rewrite seqZ_cons in Hrest by lia. injection Hrest as -> ->.
      eapply post_mono; [apply Hbody; [lia | exact HI]|].
      cbv beta. intros s2 e2 HI2. exists (i + 1). split; [lia|]. split; [|exact HI2].
      f_equal; lia.
  - cbv beta. intros s' e' (i & Hi & Hrest & HI).
    assert (Hge : CONFIG_TRACK_COUNT - i <= 0).
    { destruct (Z.lt_ge_cases 0 (CONFIG_TRACK_COUNT - i)) as [Hlt|Hge]; [|lia].
      rewrite seqZ_cons in Hrest by lia. discriminate. }
    replace (Z.max 0 CONFIG_TRACK_COUNT) with i by lia. exact HI.
Qed.

Lemma post_forTracks (body : Z -> M unit) (I : Z -> Engine -> Prop) e :
  I 0 e ->
  (forall i e, 0 <= i < CONFIG_TRACK_COUNT -> I i e ->
     post d (body i) e (fun _ e' => I (i + 1) e')) ->
  post d (forM trackIndices body) e (fun _ e' => I trackCount e').
Proof.
  intros Hinit Hbody. unfold forM.
  apply (post_foldTracks (fun x _ => body x) (fun i _ e => I i e)); [exact Hinit|].
  intros i [] e1 Hi HI. apply Hbody; assumption.
Qed.

End TrackLoops.

(** ** Song slot change *)

Section SlotChange.
Context {cfg : Config} {col : Collaborators}.

Lemma resetCalls_succ i : 0 <= i -> resetCalls (i + 1) = resetCalls i ++ [CallTrack i TEreset].
Proof.
  intros Hi. unfold resetCalls. rewrite seqZ_app by lia. rewrite fmap_app.
  f_equal.
Qed.

Lemma applySlotPatterns_spec s slot reset e :
  covers (slot_patterns slot) -> WFsong s e ->
  returns (applySlotPatterns slot reset) e (fun _ e' =>
    WFsong s e'
    /\ kept arbitrationOf e e'
    /\ ps_songState (playState (_model e')) = ps_songState (playState (_model e))
    /\ calls e' = calls e ++ (if reset then resetCalls CONFIG_TRACK_COUNT else [])
    /\ patternsApplied slot CONFIG_TRACK_COUNT e').
Proof.
  intros Hc HS. unfold applySlotPatterns.
  eapply post_mono.
  - apply (post_forTracks _ (fun idx e' =>
      WFsong s e'
      /\ kept arbitrationOf e e'
      /\ ps_songState (playState (_model e')) = ps_songState (playState (_model e))
      /\ calls e' = calls e ++ (if reset then resetCalls idx else [])
      /\ patternsApplied slot idx e')).
    + split; [exact HS|]. split; [reflexivity|]. split; [reflexivity|]. split.
      * destruct reset; symmetry; apply app_nil_r.
      * intros i Hi. lia.
    + clear HS. intros idx e1 Hidx (HS & HK & Hst & Hcalls & Hpat).
      pose proof (WFsong_WF _ _ HS) as HW.
      run_step. run_step; [|eapply at_None_covers; eassumption].
      rename x into p. rename H into Hp.
      unfold modifyTrackState, getTrackState.
      do 5 run_step; [|wf_absurd; exact Hidx]. rename x into t. rename H into Ht.
      run_step. cbv beta.
      lazymatch goal with
      | |- post _ _ ?st _ =>
          assert (HS2 : WFsong s st) by ws_done;
          assert (HK2 : kept arbitrationOf e st) by (apply (kept_step _ _ _ _ HK); reflexivity);
          assert (Hst2 : ps_songState (playState (_model st))
                         = ps_songState (playState (_model e))) by exact Hst;
          assert (Hcalls2 : calls st = calls e ++ (if reset then resetCalls idx else []))
            by exact Hcalls;
          assert (Hpat2 : patternsApplied slot (idx + 1) st)
      end.
      { intros i Hi. cbn. destruct (decide (i = idx)) as [->|Hne].
        - exists (ts_setPattern p t), p. split; [|split; [exact Hp | reflexivity]].
          apply at_insert_eq. eapply at_Some, Ht.
        - rewrite at_insert_ne by lia. apply Hpat. lia. }
      lazymatch goal with |- post _ _ ?st _ => generalize dependent st end.
      intros e2 HS2 HK2 Hst2 Hcalls2 Hpat2. pose proof (WFsong_WF _ _ HS2) as HW2.
      run_step.
      * run_step; [|wf_absurd; exact Hidx|wf_absurd; exact Hidx].
        split; [ws_done|]. split; [apply (kept_step _ _ _ _ HK2); reflexivity|].
        split; [exact Hst2|]. split; [|exact Hpat2].
        cbn. rewrite Hcalls2. subst reset. rewrite resetCalls_succ by lia.
        rewrite app_assoc. reflexivity.
      * subst reset. repeat (split; [assumption|]). exact Hpat2.
  - cbv beta. unfold trackCount. intros _ e' (HS' & HK' & Hst' & Hcalls' & Hpat').
    split; [exact HS'|]. split; [exact HK'|]. split; [exact Hst'|]. split.
    + rewrite Hcalls'. destruct reset; [|reflexivity]. f_equal. unfold resetCalls.
      destruct (Z.le_ge_cases 0 CONFIG_TRACK_COUNT).
      * rewrite Z.max_r by lia. reflexivity.
      * rewrite Z.max_l by lia. rewrite !seqZ_nil by lia. reflexivity.
    + intros i Hi. apply Hpat'. lia.
Qed.

End SlotChange.

Section SlotChangeSpec.
Context {cfg : Config} {col : Collaborators}.

Lemma songOk_advance s slot st :
  songOk s (ss_currentSlot st) ->
  songOk s (ss_currentSlot (advanceSong s slot st)).
Proof.
  intros (Hall & Hcount & Hcur). unfold advanceSong.
  destruct (ss_currentRepeat st + 1 <? slot_repeats slot); cbn.
  - split; [exact Hall|]. split; [exact Hcount | exact Hcur].
  - split; [exact Hall|]. split; [exact Hcount|].
    destruct (Z.ltb_spec (ss_currentSlot st + 1) (song_slotCount s)); lia.
Qed.

(** Lines 433-459: the song state advances as [advanceSong] says, and in
    every case the patterns of the slot now current are written to the
    track states and every track engine is reset. *)
Lemma songSlotChange_spec s e slot :
  WFsong s e ->
  at_ (song_slots s) (ss_currentSlot (ps_songState (playState (_model e)))) = Some slot ->
  returns songSlotChange e (fun _ e' =>
    WFsong s e'
    /\ kept arbitrationOf e e'
    /\ ps_songState (playState (_model e'))
       = advanceSong s slot (ps_songState (playState (_model e)))
    /\ calls e' = calls e ++ resetCalls CONFIG_TRACK_COUNT
    /\ forall slot',
         at_ (song_slots s)
             (ss_currentSlot (advanceSong s slot (ps_songState (playState (_model e)))))
         = Some slot' ->
         patternsApplied slot' CONFIG_TRACK_COUNT e').
Proof.
  intros HS Hslot. pose proof (proj2 HS) as Hsong.
  pose proof (WFsong_slot _ _ HS) as Hok.
  set (st := ps_songState (playState (_model e))) in *.
  set (e1 := set_model (set_playState (set_songState (advanceSong s slot st)
                                         (playState (_model e))) (_model e)) e).
  assert (HS1 : WFsong s e1).
  { apply WFsong_playState; [exact HS | exact (WFsong_covers _ _ HS)|].
    apply songOk_advance, Hok. }
  assert (Hrest : returns
            (p ← getPlayState;
             slot' ← index (song_slots s) (ss_currentSlot (ps_songState p));
             applySlotPatterns slot' true) e1
            (fun _ e' =>
               WFsong s e' /\ kept arbitrationOf e e'
               /\ ps_songState (playState (_model e')) = advanceSong s slot st
               /\ calls e' = calls e ++ resetCalls CONFIG_TRACK_COUNT
               /\ forall slot',
                    at_ (song_slots s) (ss_currentSlot (advanceSong s slot st)) = Some slot' ->
                    patternsApplied slot' CONFIG_TRACK_COUNT e')).
  { do 2 run_step. cbn.
    do 2 run_step.
    - rename x into slot'. rename H into Hslot'.
      eapply post_mono;
        [apply (applySlotPatterns_spec s); [eapply songOk_slot; eassumption | exact HS1]|].
      cbv beta. intros _ e' (HS' & HK' & Hst' & Hcalls' & Hpat').
      split; [exact HS'|]. split; [apply (kept_step _ _ _ _ HK'); reflexivity|].
      split; [exact Hst'|]. split; [exact Hcalls'|].
      intros slot'' Hslot''. rewrite Hslot' in Hslot''. injection Hslot'' as <-. exact Hpat'.
    - destruct (songOk_advance s slot st Hok) as (_ & _ & Hcur).
      destruct (at_in_range _ _ Hcur). congruence. }
  unfold songSlotChange. do 2 run_step. rewrite Hsong. fold st.
  do 2 run_step; [|congruence].
  rename x into slot0. assert (slot0 = slot) as -> by congruence.
  run_step. unfold advanceSong in e1.
  destruct (ss_currentRepeat st + 1 <? slot_repeats slot) eqn:Hrepeat.
  - run_step. exact Hrest.
  - do 2 run_step.
    destruct (ss_currentSlot st + 1 <? song_slotCount s) eqn:Hnext;
      run_step; exact Hrest.
Qed.

End SlotChangeSpec.

Section SongRun.
Context {cfg : Config} {col : Collaborators}.

Lemma pushTrackStates_model : keeps _model pushTrackStates.
Proof.
  intros e0 e HK. unfold pushTrackStates.
  apply post_forM; [exact HK|]. intros i e1 _ HK1. unfold getTrackState. kept_run.
Qed.

Lemma advanceSong_playing s slot st : ss_playing (advanceSong s slot st) = ss_playing st.
Proof.
  unfold advanceSong. destruct (ss_currentRepeat st + 1 <? slot_repeats slot); reflexivity.
Qed.

Lemma songPlays_model s divisor e e' :
  songPlays s divisor e -> WF e' -> _model e' = _model e -> songPlays s divisor e'.
Proof.
  intros ((HW & Hsong) & Hdiv & Hany & Hplay) HW' Hmodel.
  unfold songPlays, WFsong. rewrite Hmodel.
  split; [split; assumption|]. split; [assumption|]. split; assumption.
Qed.

Lemma songPlays_divisor s divisor e : songPlays s divisor e -> 0 < divisor < 2 ^ 32.
Proof.
  intros ((HW & _) & Hdiv & _). pose proof (ok_divisor _ (proj2 HW)) as Hnz.
  rewrite Hdiv in Hnz. subst divisor. unfold measureDivisor, u32 in *.
  pose proof (Z.mod_pos_bound (syncMeasure (_model e) * CONFIG_PPQN * 4) (2 ^ 32)). lia.
Qed.

(** Without requests and away from the tick before the boundary,
    arbitration does nothing at all. *)
Lemma updatePlayState_inside s divisor ticked e :
  songPlays s divisor e ->
  switchToNextSlot ticked (_tick e) divisor = false ->
  updatePlayState ticked e = Ok (tt, e).
Proof.
  intros Hplays Hswitch. pose proof (songPlays_divisor _ _ _ Hplays) as Hd.
  destruct Hplays as (HS & Hdiv & Hany & Hplay).
  unfold updatePlayState, mbind, M_bind, gets. rewrite Hdiv.
  destruct (decide (divisor = 0)); [lia|]. rewrite Hany, Hswitch.
  unfold arbitrate, when, mbind, M_bind, mret, M_ret, getPlayState, gets.
  cbv beta iota. rewrite andb_false_r. reflexivity.
Qed.

(** Without requests, with the song playing, on the tick before the
    boundary, arbitration is the slot change followed by the push of the
    track states. *)
Lemma updatePlayState_boundary s divisor e :
  songPlays s divisor e ->
  switchToNextSlot true (_tick e) divisor = true ->
  updatePlayState true e = (songSlotChange;; pushTrackStates) e.
Proof.
  intros Hplays Hswitch. pose proof (songPlays_divisor _ _ _ Hplays) as Hd.
  destruct Hplays as (HS & Hdiv & Hany & Hplay).
  unfold updatePlayState, mbind, M_bind, gets. rewrite Hdiv.
  destruct (decide (divisor = 0)); [lia|]. rewrite Hany, Hswitch.
  unfold arbitrate, when, mbind, M_bind, mret, M_ret, getPlayState, gets.
  cbv beta iota. rewrite Hplay. reflexivity.
Qed.

End SongRun.

Section TickRun.
Context {cfg : Config} {col : Collaborators}.

Lemma tick_tail tick e :
  WF e ->
  returns (forEachTrackEngine (TEtick tick);; updateTrackOutputs) e
    (fun _ e' => WF e' /\ _model e' = _model e).
Proof.
  intros HW. run_step.
  eapply post_mono;
    [apply post_conj; [apply forEachTrackEngine_wf, HW
                      | apply forEachTrackEngine_model, kept_refl]|].
  cbv beta. intros _ e1 [HW1 HK1].
  eapply post_mono;
    [apply post_conj; [apply updateTrackOutputs_wf, HW1
                      | apply updateTrackOutputs_model, kept_refl]|].
  cbv beta. intros _ e2 [HW2 HK2]. split; [exact HW2|].
  unfold kept in *. congruence.
Qed.

Lemma onTick_inside s divisor tick e :
  songPlays s divisor e ->
  switchToNextSlot true tick divisor = false ->
  returns (onTick tick) e (fun _ e' =>
    songPlays s divisor e'
    /\ ps_songState (playState (_model e')) = ps_songState (playState (_model e))).
Proof.
  intros Hplays Hswitch. unfold onTick. do 2 run_step.
  assert (Hplays0 : songPlays s divisor (set_tick tick e))
    by (apply (songPlays_model _ _ e); [exact Hplays | exact (proj1 (proj1 Hplays)) | reflexivity]).
  run_step. unfold post at 1.
  rewrite (updatePlayState_inside s divisor true _ Hplays0) by exact Hswitch.
  eapply post_mono; [apply tick_tail, (proj1 (proj1 Hplays0))|].
  cbv beta. intros _ e' [HW' Hmodel]. split.
  - apply (songPlays_model _ _ _ _ Hplays0 HW' Hmodel).
  - rewrite Hmodel. reflexivity.
Qed.

Lemma onTick_boundary s divisor tick e slot :
  songPlays s divisor e ->
  switchToNextSlot true tick divisor = true ->
  at_ (song_slots s) (ss_currentSlot (ps_songState (playState (_model e)))) = Some slot ->
  returns (onTick tick) e (fun _ e' =>
    songPlays s divisor e'
    /\ ps_songState (playState (_model e'))
       = advanceSong s slot (ps_songState (playState (_model e)))).
Proof.
  intros Hplays Hswitch Hslot. unfold onTick. do 2 run_step.
  assert (Hplays0 : songPlays s divisor (set_tick tick e))
    by (apply (songPlays_model _ _ e); [exact Hplays | exact (proj1 (proj1 Hplays)) | reflexivity]).
  run_step. unfold post at 1.
  rewrite (updatePlayState_boundary s divisor _ Hplays0) by exact Hswitch.
  change (post False (songSlotChange;; pushTrackStates) (set_tick tick e)
            (fun _ e' => post False (forEachTrackEngine (TEtick tick);; updateTrackOutputs) e'
               (fun _ e'' => songPlays s divisor e''
                  /\ ps_songState (playState (_model e''))
                     = advanceSong s slot (ps_songState (playState (_model e)))))).
  run_step.
  eapply post_mono; [apply (songSlotChange_spec s _ slot); [exact (proj1 Hplays0) | exact Hslot]|].
  cbv beta. intros _ e1 (HS1 & HK1 & Hst1 & _ & _).
  eapply post_mono;
    [apply post_conj; [apply pushTrackStates_ws, HS1 | apply pushTrackStates_model, kept_refl]|].
  cbv beta. intros _ e2 [HS2 HK2].
  eapply post_mono; [apply tick_tail, (proj1 HS2)|].
  cbv beta. intros _ e3 [HW3 Hmodel3]. unfold kept in HK2.
  assert (Hmodel : _model e3 = _model e1) by congruence.
  destruct Hplays0 as (_ & Hdiv & Hany & Hplay).
  unfold kept, arbitrationOf in HK1. cbn in HK1. injection HK1 as Hi Hs Hl Hsong Hsync.
  assert (Hplays1 : songPlays s divisor e1).
  { split; [exact HS1|]. split; [|split].
    - unfold measureDivisor in *. rewrite Hsync. exact Hdiv.
    - unfold hasAnyRequests in *. rewrite Hi, Hs, Hl. exact Hany.
    - rewrite Hst1, advanceSong_playing. exact Hplay. }
  split; [exact (songPlays_model _ _ _ _ Hplays1 HW3 Hmodel)|].
  rewrite Hmodel. exact Hst1.
Qed.

End TickRun.

Section Boundaries.
Context {cfg : Config} {col : Collaborators}.

Lemma boundaryTicks_cons divisor t ticks :
  boundaryTicks divisor (t :: ticks)
  = (if decide (t mod divisor = divisor - 1) then 1 else 0) + boundaryTicks divisor ticks.
Proof.
  unfold boundaryTicks. rewrite filter_cons.
  destruct (decide (t mod divisor = divisor - 1)); cbn [length]; lia.
Qed.

Lemma boundaryTicks_app divisor ticks1 ticks2 :
  boundaryTicks divisor (ticks1 ++ ticks2)
  = boundaryTicks divisor ticks1 + boundaryTicks divisor ticks2.
Proof.
  unfold boundaryTicks. rewrite filter_app, length_app. lia.
Qed.

Lemma filter_none {A} (P : A -> Prop) `{forall x, Decision (P x)} (l : list A) :
  (forall x, x ∈ l -> ~ P x) -> filter P l = [].
Proof.
  induction l as [|x l IH]; intros Hall; [reflexivity|].
  rewrite filter_cons_False by (apply Hall; left).
  apply IH. intros y Hy. apply Hall. right. exact Hy.
Qed.

Lemma boundaryTicks_inside divisor k n :
  0 < divisor -> 0 <= n <= divisor - 1 ->
  boundaryTicks divisor (seqZ (k * divisor) n) = 0.
Proof.
  intros Hd Hn. unfold boundaryTicks.
  rewrite filter_none; [reflexivity|]. intros t Ht Hlast.
  apply elem_of_seqZ in Ht.
  replace t with ((t - k * divisor) + k * divisor) in Hlast by lia.
  rewrite Z.mod_add in Hlast by lia. rewrite Z.mod_small in Hlast by lia. lia.
Qed.

Lemma boundaryTicks_measure divisor k :
  0 < divisor -> boundaryTicks divisor (seqZ (k * divisor) divisor) = 1.
Proof.
  intros Hd. replace divisor with ((divisor - 1) + 1) at 3 by lia.
  rewrite seqZ_app by lia. rewrite boundaryTicks_app.
  rewrite boundaryTicks_inside by lia.
  replace (seqZ (k * divisor + (divisor - 1)) 1) with [k * divisor + (divisor - 1)]
    by (cbn; f_equal; lia).
  rewrite boundaryTicks_cons.
  destruct (decide ((k * divisor + (divisor - 1)) mod divisor = divisor - 1)) as [_|Hne].
  - reflexivity.
  - exfalso. apply Hne. rewrite Z.add_comm, Z.mod_add by lia. apply Z.mod_small. lia.
Qed.

(** [k] measures of ticks hold [k] ticks that precede a boundary. *)
Lemma boundaryTicks_measures divisor (k : nat) :
  0 < divisor -> boundaryTicks divisor (seqZ 0 (Z.of_nat k * divisor)) = Z.of_nat k.
Proof.
  intros Hd. induction k as [|k IH]; [reflexivity|].
  replace (Z.of_nat (S k) * divisor) with (Z.of_nat k * divisor + divisor) by lia.
  rewrite seqZ_app by lia. rewrite boundaryTicks_app, IH.
  rewrite Z.add_0_l, boundaryTicks_measure by lia. lia.
Qed.

End Boundaries.

Section Scenario.
Context {cfg : Config} {col : Collaborators}.

Lemma twoSlot_advance s slot st :
  twoSlotSong s ->
  at_ (song_slots s) (ss_currentSlot st) = Some slot ->
  0 <= ss_currentSlot st < 2 ->
  ss_currentRepeat st = 0 ->
  ss_currentRepeat (advanceSong s slot st) = 0
  /\ ss_currentSlot (advanceSong s slot st) = (ss_currentSlot st + 1) mod 2.
Proof.
  intros [Hcount Hrepeats] Hslot Hcur Hrep. unfold advanceSong.
  rewrite (Hrepeats _ _ Hslot Hcur), Hrep, Hcount. cbn.
  split; [reflexivity|].
  assert (Hcases : ss_currentSlot st = 0 \/ ss_currentSlot st = 1) by lia.
  destruct Hcases as [-> | ->]; reflexivity.
Qed.

(** Over any run of ticks, a playing song of two slots played once each
    changes slot at each tick that precedes a measure boundary, and at no
    other tick. *)
Lemma tickLoop_slots s divisor ticks : forall updateOutputs e,
  twoSlotSong s ->
  songPlays s divisor e ->
  ss_currentRepeat (ps_songState (playState (_model e))) = 0 ->
  0 <= ss_currentSlot (ps_songState (playState (_model e))) < 2 ->
  returns (tickLoop ticks onTick updateOutputs) e (fun _ e' =>
    songPlays s divisor e'
    /\ ss_currentRepeat (ps_songState (playState (_model e'))) = 0
    /\ ss_currentSlot (ps_songState (playState (_model e')))
       = (ss_currentSlot (ps_songState (playState (_model e)))
          + boundaryTicks divisor ticks) mod 2).
Proof.
  induction ticks as [|tick ticks IH]; intros updateOutputs e Htwo Hplays Hrep Hcur; simpl.
  - run_step. split; [exact Hplays|]. split; [exact Hrep|].
    unfold boundaryTicks. cbn. rewrite Z.add_0_r, Z.mod_small by lia. reflexivity.
  - pose proof (songPlays_divisor _ _ _ Hplays) as Hd.
    do 2 run_step. cbv beta.
    lazymatch goal with
    | |- post _ _ ?st _ =>
        assert (Hplays1 : songPlays s divisor st)
          by (apply (songPlays_model _ _ e);
              [exact Hplays | exact (proj1 (proj1 Hplays)) | reflexivity]);
        assert (Hst1 : ps_songState (playState (_model st))
                       = ps_songState (playState (_model e))) by reflexivity;
        generalize dependent st
    end.
    intros e1 Hplays1 Hst1. run_step.
    rewrite boundaryTicks_cons.
    destruct (switchToNextSlot true tick divisor) eqn:Hswitch.
    + pose proof Hswitch as Hlast. rewrite switchToNextSlot_spec in Hlast by exact Hd.
      apply bool_decide_eq_true in Hlast.
      destruct (decide (tick mod divisor = divisor - 1)) as [_|Hne]; [|contradiction].
      destruct (at_in_range (song_slots s)
                  (ss_currentSlot (ps_songState (playState (_model e1))))) as [slot Hslot].
      { pose proof (WFsong_slot _ _ (proj1 Hplays1)) as (_ & _ & Hrange). exact Hrange. }
      eapply post_mono; [apply (onTick_boundary s divisor tick e1 slot); assumption|].
      cbv beta. intros _ e2 [Hplays2 Hst2].
      destruct (twoSlot_advance s slot (ps_songState (playState (_model e1))) Htwo Hslot)
        as [Hrep2 Hcur2]; [rewrite Hst1; exact Hcur | rewrite Hst1; exact Hrep|].
      rewrite <- Hst2 in Hrep2, Hcur2.
      eapply post_mono.
      * apply IH; [exact Htwo | exact Hplays2 | exact Hrep2|].
        rewrite Hcur2. apply Z.mod_pos_bound. lia.
      * cbv beta. intros _ e3 (Hplays3 & Hrep3 & Hcur3).
        split; [exact Hplays3|]. split; [exact Hrep3|].
        rewrite Hcur3, Hcur2, Hst1. rewrite Zplus_mod_idemp_l. f_equal. lia.
    + pose proof Hswitch as Hlast. rewrite switchToNextSlot_spec in Hlast by exact Hd.
      apply bool_decide_eq_false in Hlast.
      destruct (decide (tick mod divisor = divisor - 1)) as [Heq|_]; [contradiction|].
      eapply post_mono; [apply (onTick_inside s divisor tick e1); assumption|].
      cbv beta. intros _ e2 [Hplays2 Hst2].
      eapply post_mono.
      * apply IH; [exact Htwo | exact Hplays2 | |]; rewrite Hst2, Hst1; assumption.
      * cbv beta. intros _ e3 (Hplays3 & Hrep3 & Hcur3).
        split; [exact Hplays3|]. split; [exact Hrep3|].
        rewrite Hcur3, Hst2, Hst1. f_equal.
Qed.

End Scenario.

(** ** The update cycle *)

Section Overrides.
Context {cfg : Config} {col : Collaborators}.

Lemma setOverrideChannels_spec values : forall i e,
  returns (setOverrideChannels i values) e (fun _ e' =>
    calls e' = calls e ++ channelCalls i values
    /\ restOf e' = restOf e
    /\ (_clock e', _midi e', _usbMidi e') = (_clock e, _midi e, _usbMidi e)
    /\ _gateOutput e' = _gateOutput e
    /\ (forall k value, values !! k = Some value ->
          _cvOutput e' !! (i + Z.of_nat k) = Some value)
    /\ (forall j, j < i -> _cvOutput e' !! j = _cvOutput e !! j)).
Proof.
  induction values as [|value values IH]; intros i e; simpl.
  - run_step. split; [symmetry; apply app_nil_r|]. repeat split; auto.
    intros k v Hk. discriminate.
  - do 4 run_step. eapply post_mono; [apply IH|].
    cbv beta. intros _ e' (Hcalls & Hrest & Hqueues & Hgate & Hset & Hkeep).
    cbn in Hcalls, Hrest, Hqueues, Hgate, Hkeep.
    split; [rewrite Hcalls, <- app_assoc; reflexivity|].
    split; [exact Hrest|]. split; [exact Hqueues|]. split; [exact Hgate|]. split.
    + intros [|k] v Hk.
      * injection Hk as ->. rewrite Z.add_0_r, Hkeep by lia. apply lookup_insert_eq.
      * replace (i + Z.of_nat (S k)) with (i + 1 + Z.of_nat k) by lia. apply Hset, Hk.
    + intros j Hj. rewrite Hkeep by lia. apply lookup_insert_ne. lia.
Qed.

(** Lines 478-482. *)
Lemma cvOverride_spec (flag : bool) e :
  returns (when flag (values ← gets _cvOutputOverrideValues; setOverrideChannels 0 values)) e
    (fun _ e' =>
       calls e' = calls e ++ (if flag then channelCalls 0 (_cvOutputOverrideValues e) else [])
       /\ restOf e' = restOf e
       /\ (_clock e', _midi e', _usbMidi e') = (_clock e, _midi e, _usbMidi e)
       /\ _gateOutput e' = _gateOutput e
       /\ (if flag
           then forall i value,
                  _cvOutputOverrideValues e !! i = Some value ->
                  _cvOutput e' !! Z.of_nat i = Some value
           else _cvOutput e' = _cvOutput e)).
Proof.
  destruct flag; simpl.
  - do 2 run_step. eapply post_mono; [apply setOverrideChannels_spec|].
    cbv beta. intros _ e' (Hcalls & Hrest & Hqueues & Hg & Hset & _).
    repeat (split; [assumption|]).
    intros i v Hi. rewrite <- (Z.add_0_l (Z.of_nat i)). apply Hset, Hi.
  - run_step. split; [symmetry; apply app_nil_r|]. repeat split.
Qed.

Lemma updateOverrides_spec e :
  returns updateOverrides e (fun _ e' =>
    calls e' = calls e ++ overrideCalls e
    /\ restOf e' = restOf e
    /\ (_clock e', _midi e', _usbMidi e') = (_clock e, _midi e, _usbMidi e)
    /\ overridesApplied e e').
Proof.
  unfold updateOverrides, overrideCalls, overridesApplied. do 2 run_step.
  destruct (_gateOutputOverride e) eqn:Hgate.
  - run_step. run_step; [|discriminate]. do 7 run_step. cbn.
    eapply post_mono; [apply cvOverride_spec|].
    cbv beta. intros _ e' (Hcalls & Hrest & Hqueues & Hg & Hcv).
    cbn in Hcalls, Hrest, Hqueues, Hg, Hcv.
    split; [rewrite Hcalls, <- app_assoc; reflexivity|].
    repeat (split; [assumption|]). exact Hcv.
  - run_step. run_step; [discriminate|]. do 2 run_step.
    eapply post_mono; [apply cvOverride_spec|].
    cbv beta. intros _ e' (Hcalls & Hrest & Hqueues & Hg & Hcv).
    repeat (split; [assumption|]). exact Hcv.
Qed.

Lemma channelCalls_quiet values : forall i,
  Forall (fun c => isTrackCall c = false /\ isMasterStop c = false
                   /\ isSetGate c = false /\ isSetCv c = false)
         (channelCalls i values).
Proof.
  induction values as [|v values IH]; intros i; simpl; constructor; auto.
Qed.

Lemma overrideCalls_quiet e :
  Forall (fun c => isTrackCall c = false /\ isMasterStop c = false
                   /\ isSetGate c = false /\ isSetCv c = false)
         (overrideCalls e).
Proof.
  unfold overrideCalls. apply Forall_app. split.
  - destruct (_gateOutputOverride e); repeat constructor.
  - destruct (_cvOutputOverride e); [apply channelCalls_quiet | constructor].
Qed.

End Overrides.

Section LockProtocol.
Context {cfg : Config} {col : Collaborators}.

Lemma lockTransition_spec e : lockTransition e = Ok (tt, afterUnlock (afterLock e)).
Proof.
  unfold lockTransition, afterUnlock, afterLock, clockDo, emit, when,
    mbind, M_bind, gets, modify, mret, M_ret.
  destruct (_requestLock e =? 0); cbn;
    destruct (_requestUnlock e =? 0); reflexivity.
Qed.

Lemma tickLoop_drain rest : forall tick updateOutputs e,
  tickLoop (tick :: rest) (fun _ => mret tt) updateOutputs e
  = Ok (false, set_clock (set_clk_ticks [] (_clock e)) e).
Proof.
  induction rest as [|tick' rest IH]; intros tick updateOutputs e.
  - reflexivity.
  - change (tickLoop (tick :: tick' :: rest) (fun _ => mret tt) updateOutputs e)
      with (tickLoop (tick' :: rest) (fun _ => mret tt) false
              (set_clock (set_clk_ticks (tick' :: rest) (_clock e)) e)).
    rewrite IH. reflexivity.
Qed.

Lemma recvLoop_drain_midi rest : forall message e,
  recvLoop set_midi (message :: rest) (fun _ => mret tt) e = Ok (tt, set_midi [] e).
Proof.
  induction rest as [|message' rest IH]; intros message e.
  - reflexivity.
  - change (recvLoop set_midi (message :: message' :: rest) (fun _ => mret tt) e)
      with (recvLoop set_midi (message' :: rest) (fun _ => mret tt)
              (set_midi (message' :: rest) e)).
    rewrite IH. reflexivity.
Qed.

Lemma recvLoop_drain_usbMidi rest : forall message e,
  recvLoop set_usbMidi (message :: rest) (fun _ => mret tt) e = Ok (tt, set_usbMidi [] e).
Proof.
  induction rest as [|message' rest IH]; intros message e.
  - reflexivity.
  - change (recvLoop set_usbMidi (message :: message' :: rest) (fun _ => mret tt) e)
      with (recvLoop set_usbMidi (message' :: rest) (fun _ => mret tt)
              (set_usbMidi (message' :: rest) e)).
    rewrite IH. reflexivity.
Qed.

(** Lines 62-68: the three queues are emptied, nothing else happens. *)
Lemma drain_spec e :
  (_ ← whileCheckTick (fun _ => mret tt);
   recvMidi (fun _ => mret tt);;
   recvUsbMidi (fun _ => mret tt)) e
  = Ok (tt, drainedUsbMidi (drainedMidi (drainedTicks e))).
Proof.
  unfold whileCheckTick, recvMidi, recvUsbMidi, drainedUsbMidi, drainedMidi, drainedTicks,
    mbind, M_bind, gets.
  destruct (clk_ticks (_clock e)) as [|tick ticks] eqn:Hticks.
  - cbn. destruct (_midi e) as [|m ms] eqn:Hmidi.
    + cbn. destruct (_usbMidi e) as [|u us] eqn:Husb; [reflexivity|].
      rewrite recvLoop_drain_usbMidi. reflexivity.
    + rewrite recvLoop_drain_midi. cbn.
      destruct (_usbMidi e) as [|u us] eqn:Husb; [reflexivity|].
      rewrite recvLoop_drain_usbMidi. reflexivity.
  - rewrite tickLoop_drain. cbn. destruct (_midi e) as [|m ms] eqn:Hmidi.
    + cbn. destruct (_usbMidi e) as [|u us] eqn:Husb; [reflexivity|].
      rewrite recvLoop_drain_usbMidi. reflexivity.
    + rewrite recvLoop_drain_midi. cbn.
      destruct (_usbMidi e) as [|u us] eqn:Husb; [reflexivity|].
      rewrite recvLoop_drain_usbMidi. reflexivity.
Qed.

Lemma drained_facts e :
  let q := drainedUsbMidi (drainedMidi (drainedTicks e)) in
  restOf q = restOf e /\ calls q = calls e
  /\ _gateOutput q = _gateOutput e /\ _cvOutput q = _cvOutput e
  /\ clk_ticks (_clock q) = [] /\ _midi q = [] /\ _usbMidi q = [].
Proof.
  unfold drainedUsbMidi, drainedMidi, drainedTicks.
  destruct (clk_ticks (_clock e)) eqn:Hticks; cbn;
    destruct (_midi e) eqn:Hmidi; cbn;
    destruct (_usbMidi e) eqn:Husb; cbn; rewrite ?Hticks, ?Hmidi, ?Husb; repeat split.
Qed.

(** Lines 60-73: the locked branch. *)
Lemma updateLocked_spec e :
  returns updateLocked e (fun _ e' =>
    calls e' = calls e ++ overrideCalls e ++ [CallCvOutputUpdate]
    /\ restOf e' = restOf e
    /\ clk_ticks (_clock e') = [] /\ _midi e' = [] /\ _usbMidi e' = []
    /\ overridesApplied e e').
Proof.
  pose proof (drain_spec e) as Hdrain. pose proof (drained_facts e) as Hq.
  set (q := drainedUsbMidi (drainedMidi (drainedTicks e))) in *. cbv zeta in Hq.
  destruct Hq as (Hrest & Hcalls & Hgate & Hcv & Hticks & Hmidi & Husb).
  assert (Hsplit : updateLocked e = (updateOverrides;; emit CallCvOutputUpdate) q).
  { unfold updateLocked.
    change (updateLocked e) with
      ((_ ← whileCheckTick (fun _ => mret tt);
        recvMidi (fun _ => mret tt);;
        recvUsbMidi (fun _ => mret tt);;
        updateOverrides;; emit CallCvOutputUpdate) e).
    revert Hdrain. unfold mbind, M_bind.
    destruct (whileCheckTick (fun _ => mret tt) e) as [[b e1]|f]; [|discriminate].
    destruct (recvMidi (fun _ => mret tt) e1) as [[[] e2]|f]; [|discriminate].
    destruct (recvUsbMidi (fun _ => mret tt) e2) as [[[] e3]|f]; [|discriminate].
    intros [= ->]. reflexivity. }
  unfold returns, post. rewrite Hsplit.
  change (post False (updateOverrides;; emit CallCvOutputUpdate) q (fun _ e' =>
    calls e' = calls e ++ overrideCalls e ++ [CallCvOutputUpdate]
    /\ restOf e' = restOf e
    /\ clk_ticks (_clock e') = [] /\ _midi e' = [] /\ _usbMidi e' = []
    /\ overridesApplied e e')).
  run_step. eapply post_mono; [apply updateOverrides_spec|].
  cbv beta. intros _ e1 (Hcalls1 & Hrest1 & Hqueues1 & Happlied1). run_step.
  injection Hqueues1 as Hclock1 Hmidi1 Husb1.
  assert (Hflags : overrideCalls q = overrideCalls e
                   /\ _gateOutputOverride q = _gateOutputOverride e
                   /\ _gateOutputOverrideValue q = _gateOutputOverrideValue e
                   /\ _cvOutputOverride q = _cvOutputOverride e
                   /\ _cvOutputOverrideValues q = _cvOutputOverrideValues e).
  { unfold restOf, frameOf in Hrest. injection Hrest as _ _ _ _ _ _ _ Hg Hgv Hc Hcv'.
    unfold overrideCalls. rewrite Hg, Hgv, Hc, Hcv'. repeat split. }
  destruct Hflags as (Hoc & Hg & Hgv & Hc & Hcvs).
  split.
  { change (calls e1 ++ [CallCvOutputUpdate]
            = calls e ++ overrideCalls e ++ [CallCvOutputUpdate]).
    rewrite Hcalls1, Hcalls, Hoc, <- app_assoc. reflexivity. }
  split; [transitivity (restOf e1); [reflexivity | congruence]|].
  split; [change (clk_ticks (_clock e1) = []); congruence|].
  split; [change (_midi e1 = []); congruence|].
  split; [change (_usbMidi e1 = []); congruence|].
  unfold overridesApplied in *. rewrite Hg, Hgv, Hc, Hcvs, Hgate, Hcv in Happlied1.
  exact Happlied1.
Qed.

End LockProtocol.

Section Cycle.
Context {cfg : Config} {col : Collaborators}.

Lemma returns_ensures {A} (m : M A) e (Q : A -> Engine -> Prop) :
  returns m e Q -> ensures m e Q.
Proof. unfold returns, ensures, post. destruct (m e) as [[a e']|f]; tauto. Qed.

Lemma update_unfold systemTicks e :
  update systemTicks e
  = let e1 := afterUnlock (afterLock (set_lastSystemTicks systemTicks e)) in
    if negb (_locked e1 =? 0) then updateLocked e1
    else updateUnlocked (u32 (systemTicks - _lastSystemTicks e)) e1.
Proof.
  unfold update, mbind, M_bind, gets, modify.
  rewrite lockTransition_spec. cbv zeta.
  destruct (negb (_locked (afterUnlock (afterLock (set_lastSystemTicks systemTicks e))) =? 0));
    reflexivity.
Qed.

Lemma overrideCalls_frame e0 e : frameOf e = frameOf e0 -> overrideCalls e = overrideCalls e0.
Proof.
  unfold frameOf, overrideCalls. intros Hf. injection Hf as _ _ _ Hg Hgv Hc Hcv.
  rewrite Hg, Hgv, Hc, Hcv. reflexivity.
Qed.

Lemma overridesWin_applied e0 e e' :
  frameOf e = frameOf e0 -> overridesApplied e e' -> overridesWin e0 e'.
Proof.
  unfold frameOf, overridesApplied, overridesWin.
  intros Hf [Hgate Hcv]. injection Hf as _ _ _ Hg Hgv Hc Hcvs.
  rewrite Hg, Hgv in Hgate. rewrite Hc, Hcvs in Hcv. split.
  - intros Hon. rewrite Hon in Hgate. exact Hgate.
  - intros Hon. rewrite Hon in Hcv. exact Hcv.
Qed.

(** The unlocked cycle: quiet calls, then the overrides, then the flush
    of the CV outputs. *)
Lemma updateUnlocked_shape elapsed e :
  ensures (updateUnlocked elapsed) e (fun _ e' =>
    frameOf e' = frameOf e
    /\ overridesWin e e'
    /\ exists mid,
         calls e' = calls e ++ mid ++ overrideCalls e ++ [CallCvOutputUpdate]
         /\ Forall (quiet (_gateOutputOverride e) (_cvOutputOverride e)) mid).
Proof.
  unfold updateUnlocked. run_step.
  eapply post_mono; [apply updateEngines_frame, Frame_refl|].
  cbv beta. intros _ e1 [Hframe1 (mid & Hcalls1 & Hquiet1)]. run_step.
  eapply post_mono; [apply returns_ensures, updateOverrides_spec|].
  cbv beta. intros _ e2 (Hcalls2 & Hrest2 & _ & Happlied2). run_step.
  assert (Hframe2 : frameOf e2 = frameOf e1)
    by (unfold restOf in Hrest2; congruence).
  split; [change (frameOf e2 = frameOf e); congruence|].
  split.
  - destruct (overridesWin_applied e e1 e2 Hframe1 Happlied2) as [Hg Hc]. split; assumption.
  - exists mid. split; [|exact Hquiet1].
    change (calls e2 ++ [CallCvOutputUpdate]
            = calls e ++ mid ++ overrideCalls e ++ [CallCvOutputUpdate]).
    rewrite Hcalls2, Hcalls1, (overrideCalls_frame e e1 Hframe1), <- !app_assoc. reflexivity.
Qed.

Lemma afterLock_facts e :
  calls (afterLock e) = calls e ++ lockCalls e
  /\ (_model (afterLock e), _trackEngines (afterLock e)) = (_model e, _trackEngines e)
  /\ (_gateOutputOverride (afterLock e), _gateOutputOverrideValue (afterLock e),
      _cvOutputOverride (afterLock e), _cvOutputOverrideValues (afterLock e))
     = (_gateOutputOverride e, _gateOutputOverrideValue e,
        _cvOutputOverride e, _cvOutputOverrideValues e)
  /\ _requestUnlock (afterLock e) = _requestUnlock e
  /\ (_gateOutput (afterLock e), _cvOutput (afterLock e)) = (_gateOutput e, _cvOutput e)
  /\ (if negb (_requestLock e =? 0) then _locked (afterLock e) = 1
      else _locked (afterLock e) = _locked e)
  /\ (_requestLock (afterLock e) = 0).
Proof.
  unfold afterLock, lockCalls. destruct (Z.eqb_spec (_requestLock e) 0) as [Hz|Hnz]; cbn.
  - rewrite app_nil_r. repeat split. exact Hz.
  - repeat split.
Qed.

Lemma afterUnlock_facts e :
  calls (afterUnlock e) = calls e
  /\ (_model (afterUnlock e), _trackEngines (afterUnlock e)) = (_model e, _trackEngines e)
  /\ (_gateOutputOverride (afterUnlock e), _gateOutputOverrideValue (afterUnlock e),
      _cvOutputOverride (afterUnlock e), _cvOutputOverrideValues (afterUnlock e))
     = (_gateOutputOverride e, _gateOutputOverrideValue e,
        _cvOutputOverride e, _cvOutputOverrideValues e)
  /\ _requestLock (afterUnlock e) = _requestLock e
  /\ (_gateOutput (afterUnlock e), _cvOutput (afterUnlock e)) = (_gateOutput e, _cvOutput e)
  /\ (if negb (_requestUnlock e =? 0) then _locked (afterUnlock e) = 0
      else _locked (afterUnlock e) = _locked e)
  /\ (_requestUnlock (afterUnlock e) = 0).
Proof.
  unfold afterUnlock. destruct (Z.eqb_spec (_requestUnlock e) 0) as [Hz|Hnz]; cbn.
  - repeat split. exact Hz.
  - repeat split.
Qed.

Lemma WF_afterLock e : WF e -> WF (afterLock e).
Proof. unfold afterLock. destruct (negb (_requestLock e =? 0)); intros HW; exact HW. Qed.

Lemma WF_afterUnlock e : WF e -> WF (afterUnlock e).
Proof. unfold afterUnlock. destruct (negb (_requestUnlock e =? 0)); intros HW; exact HW. Qed.

(** A cycle of a well-formed engine runs to its end. *)
Lemma update_returns systemTicks e :
  routingKeepsProjectOk -> WF e -> exists e', update systemTicks e = Ok (tt, e').
Proof.
  intros Hrouting HW. rewrite update_unfold. cbv zeta.
  set (e1 := afterUnlock (afterLock (set_lastSystemTicks systemTicks e))).
  assert (HW1 : WF e1) by (apply WF_afterUnlock, WF_afterLock; exact HW).
  destruct (negb (_locked e1 =? 0)).
  - destruct (returns_Ok _ _ _ (updateLocked_spec e1)) as ([] & e' & Hrun & _). eauto.
  - destruct (returns_Ok _ _ _
                (updateUnlocked_wf (u32 (systemTicks - _lastSystemTicks e)) Hrouting e1 HW1))
      as ([] & e' & Hrun & _).
    eauto.
Qed.

End Cycle.

Section CycleClaims.
Context {cfg : Config} {col : Collaborators}.

Lemma lockCalls_quiet e :
  Forall (fun c => isTrackCall c = false /\ isSetGate c = false /\ isSetCv c = false)
         (lockCalls e).
Proof. unfold lockCalls. destruct (negb (_requestLock e =? 0)); repeat constructor. Qed.

End CycleClaims.

Section CycleClaims2.
Context {cfg : Config} {col : Collaborators}.

Lemma quiet_masterStop gateOverride cvOverride (l : list Call) :
  Forall (quiet gateOverride cvOverride) l -> Forall (fun c => isMasterStop c = false) l.
Proof. intros HF. eapply Forall_impl; [exact HF|]. intros c (Hq & _). exact Hq. Qed.

(** C5. In a cycle with the gate override on, no gate is written from a
    track engine and the gate bits are the override value at the end,
    whatever the track engines put out; with the CV override on, no CV
    channel is written from a track engine and channel [i] holds
    [cvOutputOverrideValues[i]] at the end.  The calls of the overrides
    are the last writes of the cycle, before the flush of the CV outputs.
    A cycle of a well-formed engine runs to its end. *)
Theorem C5_override_precedence (systemTicks : Z) (e : Engine) :
  (forall e',
     update systemTicks e = Ok (tt, e') ->
     overridesWin e e'
     /\ exists before,
          calls e' = calls e ++ before ++ overrideCalls e ++ [CallCvOutputUpdate]
          /\ (_gateOutputOverride e = true ->
              Forall (fun c => isSetGate c = false) (before ++ overrideCalls e))
          /\ (_cvOutputOverride e = true ->
              Forall (fun c => isSetCv c = false) (before ++ overrideCalls e)))
  /\ (routingKeepsProjectOk -> WF e -> exists e', update systemTicks e = Ok (tt, e')).
Proof.
  split; [|apply update_returns].
  intros e' Hupdate. rewrite update_unfold in Hupdate. cbv zeta in Hupdate.
  set (e0 := set_lastSystemTicks systemTicks e) in *.
  pose proof (afterLock_facts e0) as (Hlc & _ & Hlo & _ & Hlout & _).
  pose proof (afterUnlock_facts (afterLock e0)) as (Huc & _ & Huo & _ & Huout & _).
  set (e1 := afterUnlock (afterLock e0)) in *.
  injection Hlo as Hl1 Hl2 Hl3 Hl4. injection Huo as Hu1 Hu2 Hu3 Hu4.
  injection Hlout as Hlg Hlcv. injection Huout as Hug Hucv.
  change (_gateOutputOverride e0) with (_gateOutputOverride e) in *.
  change (_gateOutputOverrideValue e0) with (_gateOutputOverrideValue e) in *.
  change (_cvOutputOverride e0) with (_cvOutputOverride e) in *.
  change (_cvOutputOverrideValues e0) with (_cvOutputOverrideValues e) in *.
  assert (Hoc : overrideCalls e1 = overrideCalls e).
  { unfold overrideCalls. rewrite Hu1, Hu2, Hu3, Hu4, Hl1, Hl2, Hl3, Hl4. reflexivity. }
  assert (Hc1 : calls e1 = calls e ++ lockCalls e) by (rewrite Huc, Hlc; reflexivity).
  assert (Hshape : overridesWin e1 e'
            /\ exists mid,
                 calls e' = calls e1 ++ mid ++ overrideCalls e1 ++ [CallCvOutputUpdate]
                 /\ Forall (fun c => (_gateOutputOverride e1 = true -> isSetGate c = false)
                                     /\ (_cvOutputOverride e1 = true -> isSetCv c = false)) mid).
  { destruct (negb (_locked e1 =? 0)).
    - pose proof (ensures_Ok _ _ _ _ _ (returns_ensures _ _ _ (updateLocked_spec e1)) Hupdate)
        as (Hcalls & _ & _ & _ & _ & Happlied).
      split; [apply (overridesWin_applied e1 e1); [reflexivity | exact Happlied]|].
      exists []. split; [exact Hcalls | constructor].
    - pose proof (ensures_Ok _ _ _ _ _ (updateUnlocked_shape _ e1) Hupdate)
        as (_ & Hwin & mid & Hcalls & Hquiet).
      split; [exact Hwin|]. exists mid. split; [exact Hcalls|].
      eapply Forall_impl; [exact Hquiet|]. cbv beta. intros c (_ & Hg & Hc). auto. }
  destruct Hshape as (Hwin & mid & Hcalls & Hmid).
  split.
  - unfold overridesWin in *. rewrite Hu1, Hu2, Hu3, Hu4, Hl1, Hl2, Hl3, Hl4 in Hwin.
    exact Hwin.
  - exists (lockCalls e ++ mid).
    split; [rewrite Hcalls, Hc1, Hoc, <- !app_assoc; reflexivity|].
    rewrite Hu1, Hu3, Hl1, Hl3 in Hmid.
    split; intros Hon; rewrite <- app_assoc; apply Forall_app; split.
    + eapply Forall_impl; [apply lockCalls_quiet|]. cbv beta. tauto.
    + apply Forall_app. split.
      * eapply Forall_impl; [exact Hmid|]. cbv beta. intros c [Hg _]. auto.
      * eapply Forall_impl; [apply overrideCalls_quiet|]. cbv beta. tauto.
    + eapply Forall_impl; [apply lockCalls_quiet|]. cbv beta. tauto.
    + apply Forall_app. split.
      * eapply Forall_impl; [exact Hmid|]. cbv beta. intros c [_ Hc]. auto.
      * eapply Forall_impl; [apply overrideCalls_quiet|]. cbv beta. tauto.
Qed.

(** C10. With both requests set at entry, the lock transition stops the
    master clock and locks, then unlocks: both requests are cleared, the
    engine is unlocked, and the rest of the cycle is the unlocked cycle
    run from there; the cycle ends unlocked and has stopped the master
    clock once.  A cycle of a well-formed engine runs to its end. *)
Theorem C10_lock_and_unlock (systemTicks : Z) (e : Engine) :
  _requestLock e <> 0 ->
  _requestUnlock e <> 0 ->
  let e0 := set_lastSystemTicks systemTicks e in
  let locked := afterLock e0 in
  let e1 := afterUnlock locked in
  lockTransition e0 = Ok (tt, e1)
  /\ (calls locked = calls e ++ [CallClock masterStop]
      /\ _clock locked = clock_command masterStop (_clock e)
      /\ _locked locked = 1 /\ _requestLock locked = 0)
  /\ (calls e1 = calls locked /\ _clock e1 = _clock locked
      /\ _locked e1 = 0 /\ _requestLock e1 = 0 /\ _requestUnlock e1 = 0)
  /\ update systemTicks e = updateUnlocked (u32 (systemTicks - _lastSystemTicks e)) e1
  /\ (forall e',
        update systemTicks e = Ok (tt, e') ->
        _locked e' = 0 /\ _requestLock e' = 0 /\ _requestUnlock e' = 0
        /\ exists rest,
             calls e' = calls e ++ CallClock masterStop :: rest
             /\ Forall (fun c => isMasterStop c = false) rest)
  /\ (routingKeepsProjectOk -> WF e -> exists e', update systemTicks e = Ok (tt, e')).
Proof.
  intros Hlock Hunlock e0 locked e1.
  assert (Hlocked : locked = set_locked 1 (set_requestLock 0
            (set_calls (calls e0 ++ [CallClock masterStop])
               (set_clock (clock_command masterStop (_clock e0)) e0)))).
  { unfold locked, afterLock. change (_requestLock e0) with (_requestLock e).
    destruct (Z.eqb_spec (_requestLock e) 0); [contradiction | reflexivity]. }
  assert (He1 : e1 = set_locked 0 (set_requestUnlock 0 locked)).
  { unfold e1, afterUnlock. rewrite Hlocked at 1. cbn.
    destruct (Z.eqb_spec (_requestUnlock e) 0); [contradiction | reflexivity]. }
  assert (Hupdate : update systemTicks e
                    = updateUnlocked (u32 (systemTicks - _lastSystemTicks e)) e1).
  { rewrite update_unfold. cbv zeta. fold e0. fold locked. fold e1.
    rewrite He1 at 1. reflexivity. }
  split; [apply lockTransition_spec|].
  split; [rewrite Hlocked; repeat split|].
  split; [rewrite He1, Hlocked; repeat split|].
  split; [exact Hupdate|].
  split; [|apply update_returns].
  intros e' Hrun. rewrite Hupdate in Hrun.
  pose proof (ensures_Ok _ _ _ _ _ (updateUnlocked_shape _ e1) Hrun)
    as (Hframe & _ & mid & Hcalls & Hquiet).
  unfold frameOf in Hframe. injection Hframe as Hl Hrl Hru _ _ _ _.
  rewrite Hl, Hrl, Hru, He1, Hlocked. cbn.
  split; [reflexivity|]. split; [reflexivity|]. split; [reflexivity|].
  exists (mid ++ overrideCalls e1 ++ [CallCvOutputUpdate]). split.
  - rewrite Hcalls, He1, Hlocked. cbn. rewrite <- app_assoc. reflexivity.
  - apply Forall_app. split; [eapply quiet_masterStop, Hquiet|].
    apply Forall_app. split; [|repeat constructor].
    eapply Forall_impl; [apply overrideCalls_quiet|]. cbv beta. tauto.
Qed.

End CycleClaims2.

(** ** Track set-up with the [Last] sentinel *)

Section LastMode.
Context {cfg : Config} {col : Collaborators}.

(** C8 (the code at the failing input). For a track whose mode is the
    [Last] sentinel and whose slot holds no engine, the [switch] of
    [updateTrackSetups] leaves the slot empty and line 281 then calls
    [setMute] through the null pointer. *)
Theorem C8_last_mode_empty_slot (trackIndex : Z) (track : Track)
    (trackState : TrackState) (e : Engine) :
  at_ (tracks (_model e)) trackIndex = Some track ->
  trackMode track = TrackModeLast ->
  at_ (_trackEngines e) trackIndex = Some None ->
  linkTrack track < 0 ->
  at_ (ps_trackStates (playState (_model e))) trackIndex = Some trackState ->
  updateTrackSetup trackIndex e = Failed (NullTrackEngine trackIndex).
Proof.
  intros Htrack Hmode Hslot Hlink Hstate.
  unfold updateTrackSetup, linkedTrackEngine, createTrackEngine, callTrack, trackEngineAt,
    index, when, mbind, M_bind, gets, mret, M_ret.
  rewrite Htrack, Hslot. cbn. rewrite Hmode.
  destruct (decide (0 <= linkTrack track)) as [Hpos|_]; [lia|].
  rewrite Hstate, Hslot. reflexivity.
Qed.

(** With an engine in the slot, the [Last] mode reconstructs nothing: the
    engine stays, and is given mute, fill, pattern and swing again. *)
Lemma updateTrackSetup_last_keeps_engine (trackIndex : Z) (track : Track)
    (trackState : TrackState) (te : TrackEngine) (e : Engine) :
  at_ (tracks (_model e)) trackIndex = Some track ->
  trackMode track = TrackModeLast ->
  at_ (_trackEngines e) trackIndex = Some (Some te) ->
  te_trackMode te <> TrackModeLast ->
  linkTrack track < 0 ->
  at_ (ps_trackStates (playState (_model e))) trackIndex = Some trackState ->
  exists e',
    updateTrackSetup trackIndex e = Ok (tt, e')
    /\ at_ (_trackEngines e') trackIndex
       = Some (Some (te_call (TEsetSwing (swing (_model e)))
                      (te_call (TEsetPattern (ts_pattern trackState))
                         (te_call (TEsetFill (ts_fill trackState))
                            (te_call (TEsetMute (ts_mute trackState)) te)))))
    /\ calls e' = calls e ++ [ CallTrack trackIndex (TEsetMute (ts_mute trackState));
                               CallTrack trackIndex (TEsetFill (ts_fill trackState));
                               CallTrack trackIndex (TEsetPattern (ts_pattern trackState));
                               CallTrack trackIndex (TEsetSwing (swing (_model e))) ].
Proof.
  intros Htrack Hmode Hslot Hte Hlink Hstate.
  pose proof (at_Some _ _ _ Hslot) as Hrange.
  unfold updateTrackSetup, linkedTrackEngine, createTrackEngine, callTrack, trackEngineAt,
    index, when, needsSetup, emit, modify, mbind, M_bind, gets, mret, M_ret.
  rewrite Htrack, Hslot. cbn. rewrite Hmode.
  rewrite bool_decide_eq_false_2 by exact Hte. cbn.
  destruct (decide (0 <= linkTrack track)) as [Hpos|_]; [lia|].
  rewrite Hstate, Hslot. cbn.
  repeat (rewrite at_insert_eq by (rewrite ?length_insert; exact Hrange); cbn).
  eexists. split; [reflexivity|]. cbn.
  split; [apply at_insert_eq; rewrite ?length_insert; exact Hrange|].
  rewrite <- !app_assoc. reflexivity.
Qed.

End LastMode.

(** ** The external clock input *)

Section ClockInput.
Context {cfg : Config} {col : Collaborators}.

(** C9. In Reset mode, with the Clock not running and the reset line
    low, the clock input handler called with [true] issues
    [slaveStart(External)] then [slaveTick(External)], once each and
    nothing else; called with [false] it issues [slaveStart(External)]
    only. *)
Theorem C9_clock_input_reset_mode (e : Engine) :
  cs_clockInputMode (clockSetup (_model e)) = InputReset ->
  clk_isRunning (_clock e) = false ->
  _resetInput e = false ->
  (exists e',
     clockInputHandler true e = Ok (tt, e')
     /\ calls e' = calls e ++ [ CallClock (slaveStart ClockSourceExternal);
                                CallClock (slaveTick ClockSourceExternal) ]
     /\ _clock e' = clock_command (slaveTick ClockSourceExternal)
                      (clock_command (slaveStart ClockSourceExternal) (_clock e)))
  /\ (exists e',
        clockInputHandler false e = Ok (tt, e')
        /\ calls e' = calls e ++ [ CallClock (slaveStart ClockSourceExternal) ]
        /\ _clock e' = clock_command (slaveStart ClockSourceExternal) (_clock e)).
Proof.
  intros Hmode Hrunning Hreset.
  unfold clockInputHandler, clockDo, emit, modify, when, mbind, M_bind, gets, mret, M_ret.
  rewrite Hmode, Hrunning, Hreset. cbn. split.
  - eexists. split; [reflexivity|]. cbn. rewrite <- app_assoc. split; reflexivity.
  - eexists. split; [reflexivity|]. cbn. split; reflexivity.
Qed.

End ClockInput.

(** ** The output pass *)

Section Counting.

Lemma countBefore_zero (table : list Z) (T : Z) : countBefore table 0 T = 0.
Proof. reflexivity. Qed.

Lemma countBefore_succ (table : list Z) (i T' T : Z) :
  at_ table i = Some T' ->
  countBefore table (i + 1) T
  = countBefore table i T + (if decide (T' = T) then 1 else 0).
Proof.
  unfold at_, countBefore. destruct (decide (0 <= i)) as [Hi|]; [|discriminate].
  intros Hat. replace (Z.to_nat (i + 1)) with (S (Z.to_nat i)) by lia.
  rewrite (take_S_r _ _ _ Hat), filter_app, length_app, filter_cons, filter_nil.
  destruct (decide (T' = T)); cbn [length]; lia.
Qed.

Lemma countBefore_mono (table : list Z) (i j T : Z) :
  i <= j -> countBefore table i T <= countBefore table j T.
Proof.
  intros Hij. unfold countBefore.
  rewrite <- (take_drop (Z.to_nat i) (take (Z.to_nat j) table)).
  rewrite take_take, filter_app, length_app.
  replace (Z.to_nat i `min` Z.to_nat j)%nat with (Z.to_nat i) by lia. lia.
Qed.

(** Two outputs of one source: the later one draws the greater sub-index. *)
Lemma countBefore_lt (table : list Z) (i j T : Z) :
  i < j -> at_ table i = Some T -> countBefore table i T < countBefore table j T.
Proof.
  intros Hij Hat.
  pose proof (countBefore_succ table i T T Hat) as Hsucc.
  destruct (decide (T = T)) as [_|Hne]; [|contradiction].
  pose proof (countBefore_mono table (i + 1) j T ltac:(lia)). lia.
Qed.

End Counting.

Section Pass.
Context {cfg : Config} {col : Collaborators}.

Lemma passSoFar_snoc gateTable cvTable selected bound bound' new c :
  passSoFar gateTable cvTable selected bound new ->
  passCall gateTable cvTable selected c ->
  bound <= passKey c < bound' ->
  0 <= bound ->
  passSoFar gateTable cvTable selected bound' (new ++ [c]).
Proof.
  intros (Hcalls & Hordered & Hkeys) Hc Hkey Hbound. split; [|split].
  - apply Forall_app. split; [exact Hcalls | repeat constructor; exact Hc].
  - apply StronglySorted_app_2; [|exact Hordered | repeat constructor].
    intros c1 c2 Hc1 Hc2. apply list_elem_of_singleton in Hc2. subst c2.
    rewrite Forall_forall in Hkeys. specialize (Hkeys c1 Hc1). lia.
  - apply Forall_app. split.
    + eapply Forall_impl; [exact Hkeys|]. cbv beta. intros; lia.
    + repeat constructor; lia.
Qed.

Lemma passSoFar_weaken gateTable cvTable selected bound bound' new :
  passSoFar gateTable cvTable selected bound new ->
  bound <= bound' ->
  passSoFar gateTable cvTable selected bound' new.
Proof.
  intros (Hcalls & Hordered & Hkeys) Hle. split; [exact Hcalls|]. split; [exact Hordered|].
  eapply Forall_impl; [exact Hkeys|]. cbv beta. intros; lia.
Qed.

Lemma countersAt_draw table chan src counters sub :
  at_ table chan = Some src ->
  at_ counters src = Some sub ->
  countersAt table false chan counters ->
  countersAt table false (chan + 1) (<[Z.to_nat src := sub + 1]> counters).
Proof.
  intros Htable Hsub Hcounters _ T v Hat.
  pose proof (at_Some _ _ _ Hsub) as Hrange.
  rewrite (countBefore_succ table chan src T Htable).
  destruct (decide (src = T)) as [->|Hne].
  - rewrite at_insert_eq in Hat by exact Hrange. injection Hat as <-.
    rewrite (Hcounters eq_refl T sub Hsub). reflexivity.
  - rewrite at_insert_ne in Hat by lia.
    rewrite (Hcounters eq_refl T v Hat). lia.
Qed.

Lemma countersAt_overridden table chan chan' counters counters' :
  countersAt table true chan counters -> countersAt table true chan' counters'.
Proof. intros _ Hoff. discriminate. Qed.

Lemma kept_pass e0 e :
  kept passOf e0 e ->
  _model e = _model e0
  /\ _gateOutputOverride e = _gateOutputOverride e0
  /\ _cvOutputOverride e = _cvOutputOverride e0.
Proof. unfold kept, passOf. intros Hk. injection Hk as Hm Hg Hc. auto. Qed.

(** Lines 315-322 within a pass. *)
Lemma updateGateOutput_pass e0 isIdle chan counters e new :
  0 <= chan ->
  kept passOf e0 e ->
  calls e = calls e0 ++ new ->
  passSoFar (gateOutputTracks (_model e0)) (cvOutputTracks (_model e0))
            (selectedTrackIndex (_model e0)) (3 * chan + 1) new ->
  countersAt (gateOutputTracks (_model e0)) (_gateOutputOverride e0) chan counters ->
  ensures (updateGateOutput isIdle chan counters) e (fun counters' e' =>
    kept passOf e0 e'
    /\ exists new',
         calls e' = calls e0 ++ new'
         /\ passSoFar (gateOutputTracks (_model e0)) (cvOutputTracks (_model e0))
                      (selectedTrackIndex (_model e0)) (3 * chan + 2) new'
         /\ countersAt (gateOutputTracks (_model e0)) (_gateOutputOverride e0)
                       (chan + 1) counters'
         /\ (forall c, In c new -> In c new')
         /\ (_gateOutputOverride e0 = false ->
             exists src sub idle, In (CallSetGate chan src sub idle) new')).
Proof.
  intros Hchan Hkept Hcalls Hpass Hcounters.
  destruct (kept_pass _ _ Hkept) as (Hmodel & Hgate & Hcv).
  unfold updateGateOutput. do 2 run_step. rewrite Hmodel.
  do 2 run_step; [|exact I]. rename x into src. rename H into Hsrc.
  do 2 run_step. rewrite Hgate.
  destruct (_gateOutputOverride e0) eqn:Hoverride.
  - run_step. split; [exact Hkept|]. exists new. split; [exact Hcalls|].
    split; [eapply passSoFar_weaken; [exact Hpass | lia]|].
    split; [eapply countersAt_overridden; exact Hcounters|].
    split; [auto | discriminate].
  - do 2 run_step; [|exact I|exact I]. do 2 run_step; [|exact I].
    rename x into sub. rename H0 into Hsub.
    do 5 run_step.
    split; [apply (kept_step _ _ _ _ Hkept); reflexivity|].
    exists (new ++ [CallSetGate chan src sub (isIdle && te_idleOutput te)]).
    split; [cbn; rewrite Hcalls, <- app_assoc; reflexivity|].
    split.
    { eapply passSoFar_snoc; [exact Hpass | | cbn; lia | lia].
      cbn. split; [exact Hsrc|]. exact (Hcounters eq_refl src sub Hsub). }
    split; [eapply countersAt_draw; eassumption|].
    split; [intros c Hc; apply in_or_app; left; exact Hc|].
    intros _. exists src, sub, (isIdle && te_idleOutput te).
    apply in_or_app. right. left. reflexivity.
Qed.

(** Lines 323-330 within a pass. *)
Lemma updateCvOutput_pass e0 isIdle chan counters e new :
  0 <= chan ->
  kept passOf e0 e ->
  calls e = calls e0 ++ new ->
  passSoFar (gateOutputTracks (_model e0)) (cvOutputTracks (_model e0))
            (selectedTrackIndex (_model e0)) (3 * chan + 2) new ->
  countersAt (cvOutputTracks (_model e0)) (_cvOutputOverride e0) chan counters ->
  ensures (updateCvOutput isIdle chan counters) e (fun counters' e' =>
    kept passOf e0 e'
    /\ exists new',
         calls e' = calls e0 ++ new'
         /\ passSoFar (gateOutputTracks (_model e0)) (cvOutputTracks (_model e0))
                      (selectedTrackIndex (_model e0)) (3 * (chan + 1)) new'
         /\ countersAt (cvOutputTracks (_model e0)) (_cvOutputOverride e0)
                       (chan + 1) counters'
         /\ (forall c, In c new -> In c new')
         /\ (_cvOutputOverride e0 = false ->
             exists src sub idle, In (CallSetCv chan src sub idle) new')).
Proof.
  intros Hchan Hkept Hcalls Hpass Hcounters.
  destruct (kept_pass _ _ Hkept) as (Hmodel & Hgate & Hcv).
  unfold updateCvOutput. do 2 run_step. rewrite Hmodel.
  do 2 run_step; [|exact I]. rename x into src. rename H into Hsrc.
  do 2 run_step. rewrite Hcv.
  destruct (_cvOutputOverride e0) eqn:Hoverride.
  - run_step. split; [exact Hkept|]. exists new. split; [exact Hcalls|].
    split; [eapply passSoFar_weaken; [exact Hpass | lia]|].
    split; [eapply countersAt_overridden; exact Hcounters|].
    split; [auto | discriminate].
  - do 2 run_step; [|exact I|exact I]. do 2 run_step; [|exact I].
    rename x into sub. rename H0 into Hsub.
    do 5 run_step.
    split; [apply (kept_step _ _ _ _ Hkept); reflexivity|].
    exists (new ++ [CallSetCv chan src sub (isIdle && te_idleOutput te)]).
    split; [cbn; rewrite Hcalls, <- app_assoc; reflexivity|].
    split.
    { eapply passSoFar_snoc; [exact Hpass | | cbn; lia | lia].
      cbn. split; [exact Hsrc|]. exact (Hcounters eq_refl src sub Hsub). }
    split; [eapply countersAt_draw; eassumption|].
    split; [intros c Hc; apply in_or_app; left; exact Hc|].
    intros _. exists src, sub, (isIdle && te_idleOutput te).
    apply in_or_app. right. left. reflexivity.
Qed.

(** Lines 312-314 within a pass. *)
Lemma clearIdleOutput_pass e0 chan e new :
  0 <= chan ->
  kept passOf e0 e ->
  calls e = calls e0 ++ new ->
  passSoFar (gateOutputTracks (_model e0)) (cvOutputTracks (_model e0))
            (selectedTrackIndex (_model e0)) (3 * chan) new ->
  ensures (when (negb (bool_decide (chan = selectedTrackIndex (_model e0))))
             (callTrack chan TEclearIdleOutput)) e (fun _ e' =>
    kept passOf e0 e'
    /\ exists new',
         calls e' = calls e0 ++ new'
         /\ passSoFar (gateOutputTracks (_model e0)) (cvOutputTracks (_model e0))
                      (selectedTrackIndex (_model e0)) (3 * chan + 1) new'
         /\ (forall c, In c new -> In c new')
         /\ (chan <> selectedTrackIndex (_model e0) ->
             In (CallTrack chan TEclearIdleOutput) new')).
Proof.
  intros Hchan Hkept Hcalls Hpass. run_step.
  - apply negb_true_iff, bool_decide_eq_false in H. rename H into Hsel.
    run_step; [|exact I|exact I].
    split; [apply (kept_step _ _ _ _ Hkept); reflexivity|].
    exists (new ++ [CallTrack chan TEclearIdleOutput]).
    split; [cbn; rewrite Hcalls, <- app_assoc; reflexivity|].
    split; [eapply passSoFar_snoc; [exact Hpass | exact Hsel | cbn; lia | lia]|].
    split; [intros c Hc; apply in_or_app; left; exact Hc|].
    intros _. apply in_or_app. right. left. reflexivity.
  - apply negb_false_iff, bool_decide_eq_true in H. rename H into Hsel.
    split; [exact Hkept|]. exists new. split; [exact Hcalls|].
    split; [eapply passSoFar_weaken; [exact Hpass | lia]|].
    split; [auto | contradiction].
Qed.

(** [Engine::updateTrackOutputs]: iteration [i] clears the idle output
    of track [i] unless it is selected, then draws the gate of output [i]
    and then its CV, each from the track its table names and with the
    sub-index the outputs below [i] leave. *)
Lemma updateTrackOutputs_pass e :
  ensures updateTrackOutputs e (fun _ e' =>
    kept passOf e e'
    /\ exists new,
         calls e' = calls e ++ new
         /\ passSoFar (gateOutputTracks (_model e)) (cvOutputTracks (_model e))
                      (selectedTrackIndex (_model e)) (3 * trackCount) new
         /\ passComplete (selectedTrackIndex (_model e)) (_gateOutputOverride e)
                         (_cvOutputOverride e) trackCount new).
Proof.
  unfold updateTrackOutputs. do 3 run_step.
  eapply post_mono.
  - apply (post_foldTracks _ (fun chan counters e' =>
      kept passOf e e'
      /\ exists new,
           calls e' = calls e ++ new
           /\ passSoFar (gateOutputTracks (_model e)) (cvOutputTracks (_model e))
                        (selectedTrackIndex (_model e)) (3 * chan) new
           /\ countersAt (gateOutputTracks (_model e)) (_gateOutputOverride e) chan
                         (fst counters)
           /\ countersAt (cvOutputTracks (_model e)) (_cvOutputOverride e) chan
                         (snd counters)
           /\ passComplete (selectedTrackIndex (_model e)) (_gateOutputOverride e)
                           (_cvOutputOverride e) chan new)).
    + split; [reflexivity|]. exists []. split; [symmetry; apply app_nil_r|].
      split; [repeat split; constructor|].
      split; [|split].
      * intros _ T sub Hat. unfold at_, zeroCounters in Hat.
        destruct (decide (0 <= T)); [|discriminate].
        apply lookup_replicate in Hat as [-> _]. reflexivity.
      * intros _ T sub Hat. unfold at_, zeroCounters in Hat.
        destruct (decide (0 <= T)); [|discriminate].
        apply lookup_replicate in Hat as [-> _]. reflexivity.
      * intros i Hi. lia.
    + intros chan [gates cvs] e1 Hchan (Hkept & new & Hcalls & Hpass & Hg & Hc & Hcomplete).
      cbn [fst snd] in Hg, Hc.
      destruct (kept_pass _ _ Hkept) as (Hmodel & _ & _).
      unfold updateTrackOutput. do 3 run_step. rewrite Hmodel.
      eapply post_mono; [apply (clearIdleOutput_pass e chan e1 new); [lia|assumption..]|].
      cbv beta. intros _ e2 (Hkept2 & new2 & Hcalls2 & Hpass2 & Hin2 & Hclear2).
      run_step. cbn [fst snd].
      eapply post_mono;
        [apply (updateGateOutput_pass e (clk_isIdle (_clock e)) chan gates e2 new2);
         [lia|assumption..]|].
      cbv beta. intros gates' e3 (Hkept3 & new3 & Hcalls3 & Hpass3 & Hg3 & Hin3 & Hgate3).
      run_step.
      eapply post_mono;
        [apply (updateCvOutput_pass e (clk_isIdle (_clock e)) chan cvs e3 new3);
         [lia|assumption..]|].
      cbv beta. intros cvs' e4 (Hkept4 & new4 & Hcalls4 & Hpass4 & Hc4 & Hin4 & Hcv4).
      run_step. split; [exact Hkept4|]. exists new4. split; [exact Hcalls4|].
      split; [exact Hpass4|]. split; [exact Hg3|]. split; [exact Hc4|].
      intros i Hi. destruct (decide (i = chan)) as [->|Hne].
      * split; [intros Hsel; apply Hin4, Hin3, Hclear2, Hsel|].
        split; [intros Hoff|exact Hcv4].
        destruct (Hgate3 Hoff) as (src & sub & idle & Hdraw). exists src, sub, idle.
        apply Hin4, Hdraw.
      * destruct (Hcomplete i ltac:(lia)) as (Hclear & Hgate & Hcv).
        split; [intros Hsel; apply Hin4, Hin3, Hin2, Hclear, Hsel|].
        split; intros Hoff.
        -- destruct (Hgate Hoff) as (src & sub & idle & Hdraw). exists src, sub, idle.
           apply Hin4, Hin3, Hin2, Hdraw.
        -- destruct (Hcv Hoff) as (src & sub & idle & Hdraw). exists src, sub, idle.
           apply Hin4, Hin3, Hin2, Hdraw.
  - cbv beta. intros counters e' (Hkept & new & Hcalls & Hpass & _ & _ & Hcomplete).
    run_step. split; [exact Hkept|]. exists new. auto.
Qed.

End Pass.

Section PassClaims.
Context {cfg : Config} {col : Collaborators}.

Lemma drawChannel_key c chan :
  drawChannel c = Some chan -> passKey c = 3 * chan + 1 \/ passKey c = 3 * chan + 2.
Proof. destruct c; cbn; intros [= <-]; auto. Qed.

Lemma passSoFar_gate gateTable cvTable selected bound new chan src sub idle :
  passSoFar gateTable cvTable selected bound new ->
  In (CallSetGate chan src sub idle) new ->
  at_ gateTable chan = Some src /\ sub = countBefore gateTable chan src.
Proof.
  intros (Hcalls & _) Hin. rewrite Forall_forall in Hcalls.
  apply list_elem_of_In in Hin. exact (Hcalls _ Hin).
Qed.

Lemma passSoFar_cv gateTable cvTable selected bound new chan src sub idle :
  passSoFar gateTable cvTable selected bound new ->
  In (CallSetCv chan src sub idle) new ->
  at_ cvTable chan = Some src /\ sub = countBefore cvTable chan src.
Proof.
  intros (Hcalls & _) Hin. rewrite Forall_forall in Hcalls.
  apply list_elem_of_In in Hin. exact (Hcalls _ Hin).
Qed.

(** C6. Within one pass of [updateTrackOutputs], for gates and for CVs
    alike, the sub-index drawn for output [chan] from its source track is
    the number of outputs below [chan] with the same source: 0, 1, 2, ...
    in the order of the outputs, so of two outputs [i < j] of one source
    the first draws the smaller sub-index.  Every output of a kind that is
    not overridden draws, and the pass of a well-formed engine runs to
    its end. *)
Theorem C6_sub_indices (e : Engine) :
  (WF e -> exists e', updateTrackOutputs e = Ok (tt, e'))
  /\ forall e',
       updateTrackOutputs e = Ok (tt, e') ->
       exists new,
         calls e' = calls e ++ new
         /\ (forall chan src sub idle,
               In (CallSetGate chan src sub idle) new ->
               at_ (gateOutputTracks (_model e)) chan = Some src
               /\ sub = countBefore (gateOutputTracks (_model e)) chan src)
         /\ (forall chan src sub idle,
               In (CallSetCv chan src sub idle) new ->
               at_ (cvOutputTracks (_model e)) chan = Some src
               /\ sub = countBefore (cvOutputTracks (_model e)) chan src)
         /\ (forall i j T subi subj idlei idlej,
               i < j ->
               In (CallSetGate i T subi idlei) new ->
               In (CallSetGate j T subj idlej) new ->
               subi < subj)
         /\ (forall i j T subi subj idlei idlej,
               i < j ->
               In (CallSetCv i T subi idlei) new ->
               In (CallSetCv j T subj idlej) new ->
               subi < subj)
         /\ (_gateOutputOverride e = false ->
             forall chan, 0 <= chan < CONFIG_TRACK_COUNT ->
               exists src sub idle, In (CallSetGate chan src sub idle) new)
         /\ (_cvOutputOverride e = false ->
             forall chan, 0 <= chan < CONFIG_TRACK_COUNT ->
               exists src sub idle, In (CallSetCv chan src sub idle) new).
Proof.
  split.
  - intros HW. destruct (returns_Ok _ _ _ (updateTrackOutputs_wf e HW)) as ([] & e' & Hrun & _).
    eauto.
  - intros e' Hrun.
    pose proof (ensures_Ok _ _ _ _ _ (updateTrackOutputs_pass e) Hrun)
      as (_ & new & Hcalls & Hpass & Hcomplete).
    exists new. split; [exact Hcalls|].
    split; [intros chan src sub idle; apply (passSoFar_gate _ _ _ _ _ _ _ _ _ Hpass)|].
    split; [intros chan src sub idle; apply (passSoFar_cv _ _ _ _ _ _ _ _ _ Hpass)|].
    split; [|split; [|split]].
    + intros i j T subi subj idlei idlej Hij Hi Hj.
      destruct (passSoFar_gate _ _ _ _ _ _ _ _ _ Hpass Hi) as [Hsrc ->].
      destruct (passSoFar_gate _ _ _ _ _ _ _ _ _ Hpass Hj) as [_ ->].
      apply countBefore_lt; assumption.
    + intros i j T subi subj idlei idlej Hij Hi Hj.
      destruct (passSoFar_cv _ _ _ _ _ _ _ _ _ Hpass Hi) as [Hsrc ->].
      destruct (passSoFar_cv _ _ _ _ _ _ _ _ _ Hpass Hj) as [_ ->].
      apply countBefore_lt; assumption.
    + intros Hoff chan Hchan. unfold trackCount in Hcomplete.
      destruct (Hcomplete chan ltac:(lia)) as (_ & Hgate & _). exact (Hgate Hoff).
    + intros Hoff chan Hchan. unfold trackCount in Hcomplete.
      destruct (Hcomplete chan ltac:(lia)) as (_ & _ & Hcv). exact (Hcv Hoff).
Qed.

(** C7 (amended). In an output pass the idle output of each track [t]
    other than the selected one is cleared once, at the start of
    iteration [t] of the loop: after the gates and CVs of the outputs
    below [t] are drawn, before those of the outputs from [t] on.  The
    pass of a well-formed engine runs to its end. *)
Theorem C7_idle_clear_order (e : Engine) :
  (WF e -> exists e', updateTrackOutputs e = Ok (tt, e'))
  /\ forall e',
       updateTrackOutputs e = Ok (tt, e') ->
       exists new,
         calls e' = calls e ++ new
         /\ passOrdered new
         /\ (forall t, 0 <= t < CONFIG_TRACK_COUNT ->
               t <> selectedTrackIndex (_model e) ->
               In (CallTrack t TEclearIdleOutput) new)
         /\ (forall t, In (CallTrack t TEclearIdleOutput) new ->
               0 <= t < CONFIG_TRACK_COUNT /\ t <> selectedTrackIndex (_model e))
         /\ (forall before t after,
               new = before ++ CallTrack t TEclearIdleOutput :: after ->
               Forall (fun c => forall chan, drawChannel c = Some chan -> chan < t) before
               /\ Forall (fun c => forall chan, drawChannel c = Some chan -> t <= chan) after).
Proof.
  split.
  - intros HW. destruct (returns_Ok _ _ _ (updateTrackOutputs_wf e HW)) as ([] & e' & Hrun & _).
    eauto.
  - intros e' Hrun.
    pose proof (ensures_Ok _ _ _ _ _ (updateTrackOutputs_pass e) Hrun)
      as (_ & new & Hcalls & (Hpass & Hordered & Hkeys) & Hcomplete).
    exists new. split; [exact Hcalls|]. split; [exact Hordered|].
    split; [|split].
    + intros t Ht Hsel. unfold trackCount in Hcomplete.
      destruct (Hcomplete t ltac:(lia)) as (Hclear & _). exact (Hclear Hsel).
    + intros t Hin. apply list_elem_of_In in Hin. rewrite Forall_forall in Hpass, Hkeys.
      pose proof (Hpass _ Hin) as Hsel. pose proof (Hkeys _ Hin) as Hkey.
      cbn in Hsel, Hkey. unfold trackCount in Hkey. split; [lia | exact Hsel].
    + intros before t after ->. unfold passOrdered in Hordered.
      apply StronglySorted_app in Hordered as (Hcross & _ & Hafter).
      apply StronglySorted_inv in Hafter as [_ Hafter]. split.
      * apply Forall_forall. intros c Hc chan Hchan.
        pose proof (Hcross c (CallTrack t TEclearIdleOutput) Hc ltac:(left)) as Hlt.
        cbn in Hlt. destruct (drawChannel_key c chan Hchan); lia.
      * eapply Forall_impl; [exact Hafter|]. cbv beta. intros c Hlt chan Hchan.
        cbn in Hlt. destruct (drawChannel_key c chan Hchan); lia.
Qed.

End PassClaims.

(** ** Runs that keep a projection and make only some calls *)

Section SteadyFacts.
Context {cfg : Config} {col : Collaborators}.
Context {X : Type} (proj : Engine -> X) (P : Call -> Prop).

Lemma steady_refl e : steady proj P e e.
Proof.
  split; [reflexivity|]. exists []. split; [symmetry; apply app_nil_r | constructor].
Qed.

Lemma steady_step e0 e e' new :
  steady proj P e0 e ->
  proj e' = proj e ->
  calls e' = calls e ++ new ->
  Forall P new ->
  steady proj P e0 e'.
Proof.
  intros [Hp (old & Hcalls & Hold)] Hp' Hcalls' Hnew. split; [congruence|].
  exists (old ++ new). split.
  - rewrite Hcalls', Hcalls, app_assoc. reflexivity.
  - apply Forall_app. split; assumption.
Qed.

Lemma steady_same e0 e e' :
  steady proj P e0 e -> proj e' = proj e -> calls e' = calls e -> steady proj P e0 e'.
Proof.
  intros HS Hp Hc. apply (steady_step e0 e e' []); auto.
  rewrite app_nil_r. exact Hc.
Qed.

Lemma steady_trans e0 e1 e2 : steady proj P e0 e1 -> steady proj P e1 e2 -> steady proj P e0 e2.
Proof.
  intros HS1 [Hp2 (new & Hc & HP)]. apply (steady_step e0 e1 e2 new); auto.
Qed.

End SteadyFacts.

Lemma steady_weaken `{Collaborators} {X Y} (proj : Engine -> X) (proj' : Engine -> Y)
    (P P' : Call -> Prop) e0 e :
  steady proj P e0 e ->
  (proj e = proj e0 -> proj' e = proj' e0) ->
  (forall c, P c -> P' c) ->
  steady proj' P' e0 e.
Proof.
  intros [Hp (new & Hc & HP)] Hproj HPP'. split; [auto|].
  exists new. split; [exact Hc|]. eapply Forall_impl; [exact HP | exact HPP'].
Qed.

Ltac steady_done :=
  cbv beta;
  lazymatch goal with
  | HS : steady ?proj ?P ?e0 _ |- steady ?proj ?P ?e0 _ =>
      first
        [ exact HS
        | apply (steady_same _ _ _ _ _ HS); reflexivity
        | eapply (steady_step _ _ _ _ _ _ HS);
          [ reflexivity | reflexivity
          | repeat constructor;
            first [ reflexivity | discriminate | assumption | intros; simpl; congruence ] ] ]
  end.

Ltac steady_advance :=
  cbv beta;
  lazymatch goal with
  | HS : steady ?proj ?P ?e0 _ |- post _ _ ?s _ =>
      tryif is_var s then fail else
        (let e' := fresh "e" in
         let Heq := fresh "Heq" in
         let HS' := fresh "HS" in
         remember s as e' eqn:Heq;
         assert (HS' : steady proj P e0 e') by (subst e'; steady_done);
         clear Heq HS)
  end.

Ltac steady_call op lem :=
  unfold ensures, returns; cbv beta;
  lazymatch goal with
  | |- post _ (mbind _ _) _ _ => apply post_bind
  | |- _ => idtac
  end;
  lazymatch goal with
  | HS : steady _ _ _ _ |- post _ ?m _ _ =>
      let h := head_of m in
      constr_eq h op;
      eapply post_mono; [ eapply lem; exact HS | clear HS; cbv beta; intros ? ? HS ]
  end.

Ltac steady_run_with ops :=
  repeat first [ steady_done | exact I | steady_advance | ops | run_step ].

Ltac steady_run := steady_run_with fail.

Abbreviation keepsSteady proj P m :=
  (forall e0 e, steady proj P e0 e -> ensures m e (fun _ e' => steady proj P e0 e')).
Section Setups.
Context {cfg : Config} {col : Collaborators}.

Lemma builtBelow_insert upTo engines n te :
  builtBelow upTo engines -> builtBelow upTo (<[n := Some te]> engines).
Proof.
  intros Hb j Hj. destruct (Hb j Hj) as (te' & Hat).
  unfold at_ in *. destruct (decide (0 <= j)) as [_|]; [|lia].
  destruct (decide (n = Z.to_nat j)) as [->|Hne].
  - exists te. apply list_lookup_insert_eq. apply lookup_lt_Some in Hat. exact Hat.
  - exists te'. rewrite list_lookup_insert_ne by exact Hne. exact Hat.
Qed.

Lemma builtBelow_succ i engines te :
  0 <= i -> builtBelow i engines -> at_ engines i = Some (Some te) ->
  builtBelow (i + 1) engines.
Proof.
  intros Hi Hb Hat j Hj. destruct (decide (j = i)) as [->|Hne]; [eauto|].
  apply Hb. lia.
Qed.

(** A call on a slot known to hold an engine. *)
Lemma post_callTrack_at {d : Prop} slot c e te (Q : unit -> Engine -> Prop) :
  at_ (_trackEngines e) slot = Some (Some te) ->
  Q tt (set_calls (calls e ++ [CallTrack slot c])
          (set_trackEngines (<[Z.to_nat slot := Some (te_call c te)]> (_trackEngines e)) e)) ->
  post d (callTrack slot c) e Q.
Proof.
  intros Hat HQ. apply post_callTrack.
  - intros te' Hat'. rewrite Hat in Hat'. injection Hat' as <-. exact HQ.
  - intros Hnull. rewrite Hat in Hnull. discriminate.
  - intros Hnone. rewrite Hat in Hnone. discriminate.
Qed.

Lemma at_length {A} (l : list A) i x : at_ l i = Some x -> 0 <= i < Z.of_nat (length l).
Proof.
  unfold at_. destruct (decide (0 <= i)); [|discriminate].
  intros Hl. apply lookup_lt_Some in Hl. lia.
Qed.

Lemma callTrack_builtAt i c e0 e :
  0 <= i -> builtAt i e0 e -> returns (callTrack i c) e (fun _ e' => builtAt i e0 e').
Proof.
  intros Hi (Hcov & Hmodel & Hbuilt & te & Hat).
  eapply post_callTrack_at; [exact Hat|]. cbn.
  split; [apply covers_insert, Hcov|]. split; [exact Hmodel|].
  split; [apply builtBelow_insert, Hbuilt|].
  exists (te_call c te). apply at_insert_eq. eapply at_length, Hat.
Qed.

Lemma createTrackEngine_builds i track linked e0 e :
  0 <= i < CONFIG_TRACK_COUNT ->
  trackMode track <> TrackModeLast ->
  covers (_trackEngines e) /\ _model e = _model e0 /\ builtBelow i (_trackEngines e) ->
  returns (createTrackEngine i track linked) e (fun _ e' => builtAt i e0 e').
Proof.
  intros Hi Hmode (Hcov & Hmodel & Hbuilt).
  assert (Hlen : 0 <= i < Z.of_nat (length (_trackEngines e))) by (unfold covers in Hcov; lia).
  unfold createTrackEngine.
  destruct (trackMode track) eqn:Hm; [| | |contradiction];
    do 3 run_step; cbn;
    (split; [apply covers_insert, Hcov|]); (split; [exact Hmodel|]);
    (split; [apply builtBelow_insert, Hbuilt|]);
    eexists; apply at_insert_eq; exact Hlen.
Qed.

Lemma updateTrackSetup_builds i e0 e :
  0 <= i < CONFIG_TRACK_COUNT ->
  ProjectOk (_model e0) ->
  (forall t, at_ (tracks (_model e0)) i = Some t ->
     trackMode t <> TrackModeLast /\ linkTrack t < i) ->
  covers (_trackEngines e) /\ _model e = _model e0 /\ builtBelow i (_trackEngines e) ->
  returns (updateTrackSetup i) e (fun _ e' =>
    covers (_trackEngines e') /\ _model e' = _model e0
    /\ builtBelow (i + 1) (_trackEngines e')).
Proof.
  intros Hi Hok Htrack (Hcov & Hmodel & Hbuilt).
  unfold updateTrackSetup. do 4 run_step.
  2:{ rewrite Hmodel in *. eapply at_None_covers; [apply (ok_tracks _ Hok)| |eassumption]. exact Hi. }
  rename x into track. rename H into Hat. rewrite Hmodel in Hat.
  destruct (Htrack track Hat) as [Hmode Hlink].
  do 4 run_step.
  2:{ eapply at_None_covers; [exact Hcov| |eassumption]. exact Hi. }
  rename x into slot. rename H into Hslot.
  run_step. eapply (post_mono _ _ (fun _ e' => builtAt i e0 e')).
  - run_step.
    + (* the slot is set up *)
      run_step.
      eapply (post_mono _ _ (fun _ e' => e' = e)).
      { unfold linkedTrackEngine.
        run_step; [|run_step; reflexivity].
        do 2 run_step; [run_step; reflexivity|].
        eapply at_None_covers; [exact Hcov| |eassumption]. lia. }
      cbv beta. intros linked e1 ->. run_step.
      eapply post_mono; [apply (createTrackEngine_builds i track linked e0 e); auto|].
      cbv beta. intros _ e2 HB2. do 2 run_step.
      2:{ rewrite Hmodel in *.
          eapply at_None_covers; [apply (ok_trackStates _ Hok)| |eassumption]. exact Hi. }
      run_step. eapply post_mono; [apply callTrack_builtAt; [lia | exact HB2]|].
      cbv beta. intros _ e3 HB3. run_step.
      eapply post_mono; [apply callTrack_builtAt; [lia | exact HB3]|].
      cbv beta. intros _ e4 HB4. apply callTrack_builtAt; [lia | exact HB4].
    + (* the slot holds an engine of the mode of the track *)
      destruct slot as [te|]; [|discriminate].
      split; [exact Hcov|]. split; [exact Hmodel|]. split; [exact Hbuilt|]. eauto.
  - cbv beta. intros _ e1 HB1.
    eapply post_mono; [apply callTrack_builtAt; [lia | exact HB1]|].
    cbv beta. intros _ e2 (Hcov2 & Hmodel2 & Hbuilt2 & te & Hat2).
    split; [exact Hcov2|]. split; [exact Hmodel2|].
    eapply builtBelow_succ; [lia | exact Hbuilt2 | exact Hat2].
Qed.

Lemma updateTrackSetups_builds e :
  covers (_trackEngines e) ->
  ProjectOk (_model e) ->
  (forall i t, 0 <= i < CONFIG_TRACK_COUNT -> at_ (tracks (_model e)) i = Some t ->
     trackMode t <> TrackModeLast /\ linkTrack t < i) ->
  returns updateTrackSetups e (fun _ e' => WF e' /\ _model e' = _model e).
Proof.
  intros Hcov Hok Htracks. unfold updateTrackSetups.
  eapply post_mono.
  - apply (post_forTracks updateTrackSetup (fun i e' =>
             covers (_trackEngines e') /\ _model e' = _model e
             /\ builtBelow i (_trackEngines e'))).
    + split; [exact Hcov|]. split; [reflexivity|]. intros j Hj. lia.
    + intros i e1 Hi HI. apply updateTrackSetup_builds; auto.
  - cbv beta. intros _ e' (Hcov' & Hmodel' & Hbuilt'). split; [|exact Hmodel'].
    split; [|rewrite Hmodel'; exact Hok].
    intros j Hj. apply Hbuilt'. unfold trackCount. lia.
Qed.

End Setups.
Section Settled.
Context {cfg : Config} {col : Collaborators}.

Lemma fmap_seqZ_succ {A} (f : Z -> A) i :
  0 <= i -> f <$> seqZ 0 (i + 1) = (f <$> seqZ 0 i) ++ [f i].
Proof. intros Hi. rewrite seqZ_app by lia. rewrite fmap_app. f_equal. Qed.

Lemma swingCalls_succ sw i :
  0 <= i -> swingCalls sw (i + 1) = swingCalls sw i ++ [CallTrack i (TEsetSwing sw)].
Proof. apply (fmap_seqZ_succ (fun i => CallTrack i (TEsetSwing sw))). Qed.

Lemma updateTrackSetup_settled i e0 e :
  0 <= i < CONFIG_TRACK_COUNT ->
  WF e0 -> modesMatch e0 ->
  swungBelow i e0 e ->
  returns (updateTrackSetup i) e (fun _ e' => swungBelow (i + 1) e0 e').
Proof.
  intros Hi HW Hmatch (Hmodel & Hcalls & Hrest & Hdone).
  destruct (proj1 HW i Hi) as (te & Hte).
  destruct (at_covers _ i (ok_tracks _ (proj2 HW)) Hi) as (track & Htrack).
  assert (Hslot : at_ (_trackEngines e) i = Some (Some te)) by (rewrite Hrest by lia; exact Hte).
  unfold updateTrackSetup. do 4 run_step.
  2:{ rewrite Hmodel, Htrack in *. discriminate. }
  rewrite Hmodel, Htrack in H. injection H as <-.
  do 4 run_step.
  2:{ rewrite Hslot in *. discriminate. }
  rewrite Hslot in H. injection H as <-.
  run_step. run_step.
  { exfalso. cbn in H. rewrite (Hmatch i track te Hi Htrack Hte) in H.
    rewrite bool_decide_eq_true_2 in H by reflexivity. discriminate. }
  eapply post_callTrack_at; [exact Hslot|].
  unfold swungBelow. cbn [_trackEngines _model calls set_calls set_trackEngines].
  split; [exact Hmodel|]. split.
  - rewrite Hcalls, Hmodel, swingCalls_succ by lia. rewrite app_assoc. reflexivity.
  - split.
    + intros j Hj. rewrite at_insert_ne by lia. apply Hrest. lia.
    + intros j te' Hj Hte'. destruct (decide (j = i)) as [->|Hne].
      * rewrite Hte in Hte'. injection Hte' as <-. rewrite Hmodel.
        apply at_insert_eq. eapply at_length, Hslot.
      * rewrite at_insert_ne by lia. apply Hdone; [lia | exact Hte'].
Qed.

Lemma updateTrackSetups_settled e :
  WF e -> modesMatch e ->
  returns updateTrackSetups e (fun _ e' => swungBelow CONFIG_TRACK_COUNT e e').
Proof.
  intros HW Hmatch. unfold updateTrackSetups. eapply post_mono.
  - apply (post_forTracks updateTrackSetup (fun i e' => swungBelow i e e')).
    + split; [reflexivity|]. split; [cbn; rewrite app_nil_r; reflexivity|].
      split; [reflexivity|]. intros j te Hj. lia.
    + intros i e1 Hi HI. apply updateTrackSetup_settled; assumption.
  - cbv beta. intros _ e' HI. unfold trackCount in HI.
    destruct (Z.max_spec 0 CONFIG_TRACK_COUNT) as [[_ Hmax]|[Hle Hmax]];
      rewrite Hmax in HI; [exact HI|].
    destruct HI as (Hmodel & Hcalls & Hrest & Hdone).
    split; [exact Hmodel|]. split.
    + rewrite Hcalls. unfold swingCalls. rewrite !seqZ_nil by lia. reflexivity.
    + split; [|intros j te Hj; lia]. intros j Hj.
      destruct (decide (0 <= j)) as [Hpos|Hneg]; [apply Hrest; lia|].
      unfold at_. destruct (decide (0 <= j)); [lia | reflexivity].
Qed.

End Settled.
Section EachTrack.
Context {cfg : Config} {col : Collaborators}.

Lemma onlyEngines_refl e : onlyEngines e e.
Proof. destruct e. reflexivity. Qed.

Lemma onlyEngines_step e e1 engines log :
  onlyEngines e e1 -> onlyEngines e (set_calls log (set_trackEngines engines e1)).
Proof. unfold onlyEngines. intros ->. reflexivity. Qed.

Lemma onlyEngines_trans e e1 e2 : onlyEngines e e1 -> onlyEngines e1 e2 -> onlyEngines e e2.
Proof. unfold onlyEngines. intros -> ->. reflexivity. Qed.

Lemma eachTrack_succ c i : 0 <= i -> eachTrack c (i + 1) = eachTrack c i ++ [CallTrack i c].
Proof. apply (fmap_seqZ_succ (fun i => CallTrack i c)). Qed.

Lemma eachTrack_none c n : n <= 0 -> eachTrack c n = [].
Proof. intros Hn. unfold eachTrack. rewrite seqZ_nil by lia. reflexivity. Qed.

Lemma at_negative {A} (l : list A) j : j < 0 -> at_ l j = None.
Proof. intros Hj. unfold at_. destruct (decide (0 <= j)); [lia | reflexivity]. Qed.

Lemma calledBelow_none c n e e' :
  n <= 0 -> calledBelow c 0 e e' -> calledBelow c n e e'.
Proof.
  intros Hn [Hrest _]. split; [|intros j te Hj; lia]. intros j Hj.
  destruct (decide (0 <= j)) as [Hpos|Hneg]; [apply Hrest; lia|].
  rewrite !at_negative by lia. reflexivity.
Qed.

Lemma forEachTrackEngine_spec c e :
  enginesReady (_trackEngines e) ->
  returns (forEachTrackEngine c) e (fun _ e' =>
    onlyEngines e e'
    /\ calls e' = calls e ++ eachTrack c CONFIG_TRACK_COUNT
    /\ calledBelow c CONFIG_TRACK_COUNT e e'
    /\ enginesReady (_trackEngines e')).
Proof.
  intros Hready. unfold forEachTrackEngine. eapply post_mono.
  - apply (post_forTracks (fun slot => callTrack slot c) (fun i e' =>
             onlyEngines e e' /\ calls e' = calls e ++ eachTrack c i
             /\ calledBelow c i e e')).
    + split; [apply onlyEngines_refl|]. split; [cbn; rewrite app_nil_r; reflexivity|].
      split; [reflexivity|]. intros j te Hj. lia.
    + intros i e1 Hi (Honly & Hcalls & Hrest & Hdone).
      destruct (Hready i Hi) as (te & Hte).
      assert (Hslot : at_ (_trackEngines e1) i = Some (Some te))
        by (rewrite Hrest by lia; exact Hte).
      eapply post_callTrack_at; [exact Hslot|].
      split; [apply onlyEngines_step, Honly|]. unfold calledBelow.
      cbn [_trackEngines _model calls set_calls set_trackEngines]. split.
      * rewrite Hcalls, eachTrack_succ by lia. rewrite app_assoc. reflexivity.
      * split.
        -- intros j Hj. rewrite at_insert_ne by lia. apply Hrest. lia.
        -- intros j te' Hj Hte'. destruct (decide (j = i)) as [->|Hne].
           ++ rewrite Hte in Hte'. injection Hte' as <-.
              apply at_insert_eq. eapply at_length, Hslot.
           ++ rewrite at_insert_ne by lia. apply Hdone; [lia | exact Hte'].
  - cbv beta. intros _ e' (Honly & Hcalls & Hcalled). unfold trackCount in *.
    assert (Hfinal : calls e' = calls e ++ eachTrack c CONFIG_TRACK_COUNT
                     /\ calledBelow c CONFIG_TRACK_COUNT e e').
    { destruct (Z.max_spec 0 CONFIG_TRACK_COUNT) as [[_ Hmax]|[Hle Hmax]];
        rewrite Hmax in *; [split; assumption|].
      split; [|apply calledBelow_none; [lia | exact Hcalled]].
      rewrite Hcalls, !eachTrack_none by lia. reflexivity. }
    destruct Hfinal as [Hcalls' Hcalled'].
    split; [exact Honly|]. split; [exact Hcalls'|]. split; [exact Hcalled'|].
    intros j Hj. destruct (Hready j Hj) as (te & Hte).
    exists (te_call c te). apply (proj2 Hcalled'); assumption.
Qed.

End EachTrack.
Section Init.
Context {cfg : Config} {col : Collaborators}.

Lemma sequenceCalls_succ states i t :
  0 <= i -> at_ states i = Some t ->
  sequenceCalls states (i + 1)
  = sequenceCalls states i ++ [CallTrack i (TEsetPattern (ts_pattern t))].
Proof.
  intros Hi Hat. unfold sequenceCalls.
  rewrite (fmap_seqZ_succ
             (fun i => CallTrack i (TEsetPattern (from_option ts_pattern 0 (at_ states i)))))
    by lia.
  rewrite Hat. reflexivity.
Qed.

Lemma updateTrackSequences_spec e :
  WF e ->
  returns updateTrackSequences e (fun _ e' =>
    onlyEngines e e'
    /\ calls e' = calls e
                  ++ sequenceCalls (ps_trackStates (playState (_model e))) CONFIG_TRACK_COUNT
    /\ enginesReady (_trackEngines e')).
Proof.
  intros HW. unfold updateTrackSequences. eapply post_mono.
  - apply (post_forTracks _ (fun i e' =>
             onlyEngines e e'
             /\ calls e' = calls e ++ sequenceCalls (ps_trackStates (playState (_model e))) i
             /\ enginesReady (_trackEngines e'))).
    + split; [apply onlyEngines_refl|]. split; [cbn; rewrite app_nil_r; reflexivity|].
      exact (proj1 HW).
    + intros i e1 Hi (Honly & Hcalls & Hready).
      assert (Hmodel : _model e1 = _model e) by (rewrite Honly; reflexivity).
      do 4 run_step.
      2:{ rewrite Hmodel in *.
          eapply at_None_covers; [apply (ok_trackStates _ (proj2 HW))| |eassumption]. exact Hi. }
      rename x into t. rename H into Ht. rewrite Hmodel in Ht.
      destruct (Hready i Hi) as (te & Hte).
      eapply post_callTrack_at; [exact Hte|].
      split; [apply onlyEngines_step, Honly|].
      cbn [_trackEngines _model calls set_calls set_trackEngines]. split.
      * rewrite Hcalls, (sequenceCalls_succ _ i t) by (lia || exact Ht).
        rewrite app_assoc. reflexivity.
      * apply enginesReady_insert, Hready.
  - cbv beta. intros _ e' (Honly & Hcalls & Hready). unfold trackCount in *.
    split; [exact Honly|]. split; [|exact Hready].
    destruct (Z.max_spec 0 CONFIG_TRACK_COUNT) as [[_ Hmax]|[Hle Hmax]];
      rewrite Hmax in *; [exact Hcalls|].
    rewrite Hcalls. unfold sequenceCalls. rewrite !seqZ_nil by lia. reflexivity.
Qed.

Lemma onlyEngines_model e e' : onlyEngines e e' -> _model e' = _model e.
Proof. intros ->. reflexivity. Qed.

Lemma initTrackEngines_spec e :
  covers (_trackEngines e) ->
  ProjectOk (_model e) ->
  (forall i t, 0 <= i < CONFIG_TRACK_COUNT -> at_ (tracks (_model e)) i = Some t ->
     trackMode t <> TrackModeLast /\ linkTrack t < i) ->
  returns initTrackEngines e (fun _ e' =>
    WF e' /\ _model e' = _model e
    /\ exists setup,
         calls e' = calls e ++ setup
                    ++ sequenceCalls (ps_trackStates (playState (_model e))) CONFIG_TRACK_COUNT
                    ++ resetCalls CONFIG_TRACK_COUNT).
Proof.
  intros Hcov Hok Htracks. unfold initTrackEngines. run_step.
  eapply post_mono.
  { apply post_conj; [apply updateTrackSetups_builds; assumption|].
    apply updateTrackSetups_frame, Frame_refl. }
  cbv beta. intros _ e1 [[HW1 Hmodel1] [_ (setup & Hcalls1 & _)]]. run_step.
  eapply post_mono; [apply updateTrackSequences_spec, HW1|].
  cbv beta. intros _ e2 (Honly2 & Hcalls2 & Hready2).
  pose proof (onlyEngines_model _ _ Honly2) as Hmodel2.
  eapply post_mono; [apply forEachTrackEngine_spec, Hready2|].
  cbv beta. intros _ e3 (Honly3 & Hcalls3 & _ & Hready3).
  pose proof (onlyEngines_model _ _ Honly3) as Hmodel3.
  split; [split; [exact Hready3 | rewrite Hmodel3, Hmodel2, Hmodel1; exact Hok]|].
  split; [congruence|]. exists setup.
  rewrite Hcalls3, Hcalls2, Hcalls1, Hmodel1, <- !app_assoc. reflexivity.
Qed.

End Init.
Section ClockEvents.
Context {cfg : Config} {col : Collaborators}.

Lemma runningAfter_cons event events running :
  runningAfter (event :: events) running = runningAfter events (runsAfter event).
Proof.
  unfold runningAfter. destruct events as [|event' events]; [reflexivity|].
  rewrite last_cons. destruct (last (event' :: events)) eqn:Hlast; [reflexivity|].
  apply last_None in Hlast. discriminate.
Qed.

Lemma eventLoop_spec pending : forall e,
  enginesReady (_trackEngines e) ->
  returns (eventLoop pending) e (fun _ e' =>
    _running e' = runningAfter pending (_running e)
    /\ calls e' = calls e ++ eventCalls pending
    /\ clk_events (_clock e') = (if pending is [] then clk_events (_clock e) else [])
    /\ besidesEvents e' = besidesEvents e
    /\ enginesReady (_trackEngines e')).
Proof.
  induction pending as [|event pending IH]; intros e Hready; simpl.
  - run_step. split; [reflexivity|]. split; [cbn; rewrite app_nil_r; reflexivity|].
    split; [reflexivity|]. split; [reflexivity | exact Hready].
  - do 3 run_step.
    eapply (post_mono _ _ (fun _ e1 =>
              _running e1 = runsAfter event
              /\ calls e1 = calls e
                            ++ (match event with
                                | EventStart | EventReset => resetCalls CONFIG_TRACK_COUNT
                                | _ => []
                                end)
              /\ clk_events (_clock e1) = pending
              /\ besidesEvents e1 = besidesEvents e
              /\ enginesReady (_trackEngines e1))).
    + destruct event; simpl.
      * do 2 run_step. unfold resetTrackEngines.
        eapply post_mono; [apply forEachTrackEngine_spec; exact Hready|].
        cbv beta. intros _ e2 (Honly & Hcalls & _ & Hready2).
        rewrite Honly. cbn. split; [reflexivity|]. split; [exact Hcalls|].
        split; [reflexivity|]. split; [reflexivity | exact Hready2].
      * run_step. cbn. rewrite app_nil_r. repeat split; exact Hready.
      * run_step. cbn. rewrite app_nil_r. repeat split; exact Hready.
      * do 2 run_step. unfold resetTrackEngines.
        eapply post_mono; [apply forEachTrackEngine_spec; exact Hready|].
        cbv beta. intros _ e2 (Honly & Hcalls & _ & Hready2).
        rewrite Honly. cbn. split; [reflexivity|]. split; [exact Hcalls|].
        split; [reflexivity|]. split; [reflexivity | exact Hready2].
    + cbv beta. intros _ e1 (Hrun1 & Hcalls1 & Hev1 & Hrest1 & Hready1).
      eapply post_mono; [apply IH, Hready1|].
      cbv beta. intros _ e2 (Hrun2 & Hcalls2 & Hev2 & Hrest2 & Hready2).
      split; [rewrite runningAfter_cons, Hrun2, Hrun1; reflexivity|].
      split; [rewrite Hcalls2, Hcalls1; unfold eventCalls; cbn [fmap list_fmap concat];
              rewrite <- app_assoc; reflexivity|].
      split; [destruct pending; [rewrite Hev2, Hev1; reflexivity | exact Hev2]|].
      split; [congruence | exact Hready2].
Qed.

End ClockEvents.
Section MidiIngress.
Context {cfg : Config} {col : Collaborators}.

Lemma receiveMidiMessage_spec port message e :
  enginesReady (_trackEngines e) ->
  returns (receiveMidiMessage port message) e (fun _ e' =>
    calls e' = calls e ++ midiCalls (_midiReceiveHandler e) port message
    /\ _routingEngine e' = routing_receiveMidi port message (_routingEngine e)
    /\ (_midi e', _usbMidi e') = (_midi e, _usbMidi e)
    /\ besidesMidi e' = besidesMidi e
    /\ enginesReady (_trackEngines e')).
Proof.
  intros Hready. unfold receiveMidiMessage. do 9 run_step.
  eapply (post_mono _ _ (fun _ e1 =>
            calls e1 = calls e ++ [CallMidiLearn port message; CallRoutingMidi port message]
                       ++ (if _midiReceiveHandler e then [CallMidiReceiveHandler port message]
                           else [])
            /\ _routingEngine e1 = routing_receiveMidi port message (_routingEngine e)
            /\ (_midi e1, _usbMidi e1) = (_midi e, _usbMidi e)
            /\ besidesMidi e1 = besidesMidi e
            /\ _trackEngines e1 = _trackEngines e)).
  - run_step.
    + run_step. cbn in *. rewrite H, <- !app_assoc. repeat split.
    + cbn in *. rewrite H, <- !app_assoc. repeat split.
  - cbv beta. intros _ e1 (Hcalls1 & Hroute1 & Hq1 & Hrest1 & Hengines1).
    eapply post_mono; [apply forEachTrackEngine_spec; rewrite Hengines1; exact Hready|].
    cbv beta. intros _ e2 (Honly & Hcalls2 & _ & Hready2).
    split; [rewrite Hcalls2, Hcalls1; unfold midiCalls; rewrite <- !app_assoc; reflexivity|].
    rewrite Honly. cbn. repeat split; assumption.
Qed.

Lemma recvLoop_spec (port : MidiPort) (setQueue : list MidiMessage -> Engine -> Engine)
    (queue : Engine -> list MidiMessage) (other : Engine -> list MidiMessage) pending :
  (forall q e, queue (setQueue q e) = q /\ other (setQueue q e) = other e
               /\ calls (setQueue q e) = calls e
               /\ _routingEngine (setQueue q e) = _routingEngine e
               /\ besidesMidi (setQueue q e) = besidesMidi e
               /\ _trackEngines (setQueue q e) = _trackEngines e) ->
  (forall e e', (_midi e', _usbMidi e') = (_midi e, _usbMidi e) ->
                queue e' = queue e /\ other e' = other e) ->
  forall e,
  enginesReady (_trackEngines e) ->
  returns (recvLoop setQueue pending (receiveMidiMessage port)) e (fun _ e' =>
    calls e' = calls e ++ concat (midiCalls (_midiReceiveHandler e) port <$> pending)
    /\ _routingEngine e' = routedMidi port pending (_routingEngine e)
    /\ queue e' = (if pending is [] then queue e else [])
    /\ other e' = other e
    /\ besidesMidi e' = besidesMidi e
    /\ enginesReady (_trackEngines e')).
Proof.
  intros Hset Hqueues. induction pending as [|message pending IH]; intros e Hready; simpl.
  - run_step. rewrite app_nil_r. repeat split; exact Hready.
  - do 3 run_step.
    destruct (Hset pending e) as (Hq & Ho & Hc & Hr & Hb & Hte).
    eapply post_mono; [apply receiveMidiMessage_spec; rewrite Hte; exact Hready|].
    cbv beta. intros _ e1 (Hcalls1 & Hroute1 & Hq1 & Hrest1 & Hready1).
    destruct (Hqueues _ _ Hq1) as [Hqueue1 Hother1].
    eapply post_mono; [apply IH, Hready1|].
    cbv beta. intros _ e2 (Hcalls2 & Hroute2 & Hq2 & Ho2 & Hrest2 & Hready2).
    assert (Hhandler : _midiReceiveHandler e1 = _midiReceiveHandler e).
    { assert (Heq : besidesMidi e1 = besidesMidi e) by congruence.
      unfold besidesMidi in Heq. congruence. }
    assert (Hhandler0 : _midiReceiveHandler (setQueue pending e) = _midiReceiveHandler e).
    { unfold besidesMidi in Hb. congruence. }
    split.
    { rewrite Hcalls2, Hcalls1, Hc, Hhandler, Hhandler0. cbn [fmap list_fmap concat].
      rewrite <- app_assoc. reflexivity. }
    split; [rewrite Hroute2, Hroute1, Hr; reflexivity|].
    split; [destruct pending; [congruence | exact Hq2]|].
    split; [congruence|]. split; [congruence | exact Hready2].
Qed.

Lemma receiveMidi_spec e :
  enginesReady (_trackEngines e) ->
  returns receiveMidi e (fun _ e' =>
    calls e' = calls e
               ++ concat (midiCalls (_midiReceiveHandler e) PortMidi <$> _midi e)
               ++ concat (midiCalls (_midiReceiveHandler e) PortUsbMidi <$> _usbMidi e)
    /\ _routingEngine e'
       = routedMidi PortUsbMidi (_usbMidi e) (routedMidi PortMidi (_midi e) (_routingEngine e))
    /\ _midi e' = [] /\ _usbMidi e' = []
    /\ besidesMidi e' = besidesMidi e
    /\ enginesReady (_trackEngines e')).
Proof.
  intros Hready. unfold receiveMidi, recvMidi, recvUsbMidi. do 3 run_step.
  eapply post_mono.
  { apply (recvLoop_spec PortMidi set_midi _midi _usbMidi); [| |exact Hready].
    - intros q e1. repeat split.
    - intros e1 e2 Heq. injection Heq as -> ->. split; reflexivity. }
  cbv beta. intros _ e1 (Hcalls1 & Hroute1 & Hq1 & Ho1 & Hrest1 & Hready1).
  do 2 run_step. eapply post_mono.
  { apply (recvLoop_spec PortUsbMidi set_usbMidi _usbMidi _midi); [| |exact Hready1].
    - intros q e2. repeat split.
    - intros e2 e3 Heq. injection Heq as -> ->. split; reflexivity. }
  cbv beta. intros _ e2 (Hcalls2 & Hroute2 & Hq2 & Ho2 & Hrest2 & Hready2).
  assert (Hhandler : _midiReceiveHandler e1 = _midiReceiveHandler e)
    by (unfold besidesMidi in Hrest1; congruence).
  split; [rewrite Hcalls2, Hcalls1, Hhandler, Ho1, <- app_assoc; reflexivity|].
  split; [rewrite Hroute2, Hroute1, Ho1; reflexivity|].
  split; [rewrite Ho2, Hq1; destruct (_midi e); reflexivity|].
  split; [rewrite Hq2; destruct (_usbMidi e1); reflexivity|].
  split; [congruence | exact Hready2].
Qed.

End MidiIngress.
Section SetupClaims.
Context {cfg : Config} {col : Collaborators}.

(** X1. Track set-up from empty slots.  When no track is in the [Last] mode
    and every link points to a lower track, [updateTrackSetups] runs to
    its end from any content of the slots, the null pointers the
    constructor leaves included, and leaves an engine in every slot; the
    model is not written. *)
Theorem X1_setups_build_engines (e : Engine) :
  covers (_trackEngines e) ->
  ProjectOk (_model e) ->
  (forall i t, 0 <= i < CONFIG_TRACK_COUNT -> at_ (tracks (_model e)) i = Some t ->
     trackMode t <> TrackModeLast /\ linkTrack t < i) ->
  exists e',
    updateTrackSetups e = Ok (tt, e')
    /\ enginesReady (_trackEngines e')
    /\ _model e' = _model e.
Proof.
  intros Hcov Hok Htracks.
  destruct (returns_Ok _ _ _ (updateTrackSetups_builds e Hcov Hok Htracks))
    as ([] & e' & Hrun & HW & Hmodel).
  exists e'. split; [exact Hrun|]. split; [exact (proj1 HW) | exact Hmodel].
Qed.

(** X2. Track set-up with nothing to set up.  When every slot holds an
    engine of the mode of its track, [updateTrackSetups] constructs no
    engine and sends no mute, fill or pattern: its calls are [setSwing]
    with the swing of the project on every engine, in slot order, and
    nothing else changes. *)
Theorem X2_setups_settled (e : Engine) :
  WF e ->
  modesMatch e ->
  exists e',
    updateTrackSetups e = Ok (tt, e')
    /\ calls e' = calls e ++ swingCalls (swing (_model e)) CONFIG_TRACK_COUNT
    /\ _model e' = _model e
    /\ (forall i te, 0 <= i < CONFIG_TRACK_COUNT ->
          at_ (_trackEngines e) i = Some (Some te) ->
          at_ (_trackEngines e') i
          = Some (Some (te_call (TEsetSwing (swing (_model e))) te)))
    /\ (forall i, CONFIG_TRACK_COUNT <= i ->
          at_ (_trackEngines e') i = at_ (_trackEngines e) i).
Proof.
  intros HW Hmatch.
  destruct (returns_Ok _ _ _ (updateTrackSetups_settled e HW Hmatch))
    as ([] & e' & Hrun & Hmodel & Hcalls & Hrest & Hdone).
  exists e'. split; [exact Hrun|]. split; [exact Hcalls|]. split; [exact Hmodel|].
  split; assumption.
Qed.

(** X3. What [init] hands to [update].  Under the conditions of X1 the
    set-up block of [init] (lines 36-39) runs to its end from the engine
    of the constructor: it leaves an engine in every slot, ends with the
    pattern of its track state given to every engine and then a reset of
    every engine, and does not write the model; the engine it leaves is
    well formed, so that the cycles that follow run to their end. *)
Theorem X3_init_track_engines (e : Engine) :
  covers (_trackEngines e) ->
  ProjectOk (_model e) ->
  (forall i t, 0 <= i < CONFIG_TRACK_COUNT -> at_ (tracks (_model e)) i = Some t ->
     trackMode t <> TrackModeLast /\ linkTrack t < i) ->
  exists e' setup,
    initTrackEngines e = Ok (tt, e')
    /\ WF e'
    /\ _model e' = _model e
    /\ calls e' = calls e ++ setup
                  ++ sequenceCalls (ps_trackStates (playState (_model e))) CONFIG_TRACK_COUNT
                  ++ resetCalls CONFIG_TRACK_COUNT
    /\ (routingKeepsProjectOk ->
        forall systemTicks, exists e'', update systemTicks e' = Ok (tt, e'')).
Proof.
  intros Hcov Hok Htracks.
  destruct (returns_Ok _ _ _ (initTrackEngines_spec e Hcov Hok Htracks))
    as ([] & e' & Hrun & HW & Hmodel & setup & Hcalls).
  exists e', setup. split; [exact Hrun|]. split; [exact HW|]. split; [exact Hmodel|].
  split; [exact Hcalls|]. intros Hrouting systemTicks.
  apply update_returns; assumption.
Qed.

End SetupClaims.

Section IngressClaims.
Context {cfg : Config} {col : Collaborators}.

(** X8. The transport events of a cycle (lines 76-97).  With an engine in
    every slot the event loop runs to its end and empties the event
    queue; [_running] is what the last event makes it (set by Start and
    Continue, cleared by Stop and Reset) and is left alone when there is
    no event; every engine is reset once for each Start and each Reset,
    in the order of the events, and nothing else is called. *)
Theorem X8_clock_events (e : Engine) :
  enginesReady (_trackEngines e) ->
  exists e',
    processClockEvents e = Ok (tt, e')
    /\ _running e' = runningAfter (clk_events (_clock e)) (_running e)
    /\ clk_events (_clock e') = []
    /\ calls e' = calls e ++ eventCalls (clk_events (_clock e))
    /\ besidesEvents e' = besidesEvents e
    /\ enginesReady (_trackEngines e').
Proof.
  intros Hready. unfold processClockEvents, mbind, M_bind, gets.
  destruct (returns_Ok _ _ _ (eventLoop_spec (clk_events (_clock e)) e Hready))
    as ([] & e' & Hrun & Hrunning & Hcalls & Hevents & Hrest & Hready').
  exists e'. split; [exact Hrun|]. split; [exact Hrunning|].
  split; [rewrite Hevents; destruct (clk_events (_clock e)); reflexivity|].
  split; [exact Hcalls|]. split; assumption.
Qed.

(** X9. MIDI ingress (lines 497-519).  With an engine in every slot
    [receiveMidi] runs to its end and empties both receive queues: the
    messages of the MIDI port are dispatched first, in arrival order,
    then those of the USB port; each message goes to MIDI learn, to the
    routing engine, to the receive handler if one is installed, then to
    every track engine in slot order, with the channel of the message. *)
Theorem X9_midi_ingress (e : Engine) :
  enginesReady (_trackEngines e) ->
  exists e',
    receiveMidi e = Ok (tt, e')
    /\ calls e' = calls e
                  ++ concat (midiCalls (_midiReceiveHandler e) PortMidi <$> _midi e)
                  ++ concat (midiCalls (_midiReceiveHandler e) PortUsbMidi <$> _usbMidi e)
    /\ _routingEngine e'
       = routedMidi PortUsbMidi (_usbMidi e)
           (routedMidi PortMidi (_midi e) (_routingEngine e))
    /\ _midi e' = [] /\ _usbMidi e' = []
    /\ besidesMidi e' = besidesMidi e.
Proof.
  intros Hready.
  destruct (returns_Ok _ _ _ (receiveMidi_spec e Hready))
    as ([] & e' & Hrun & Hcalls & Hroute & Hmidi & Husb & Hrest & _).
  exists e'. split; [exact Hrun|]. split; [exact Hcalls|]. split; [exact Hroute|].
  split; [exact Hmidi|]. split; assumption.
Qed.

End IngressClaims.
Section ClockSetupOnce.
Context {cfg : Config} {col : Collaborators}.

Lemma updateClockSetup_clean e :
  cs_dirty (clockSetup (_model e)) = false -> updateClockSetup e = Ok (tt, e).
Proof.
  intros Hclean. unfold updateClockSetup, mbind, M_bind, gets. cbn. rewrite Hclean.
  reflexivity.
Qed.

Lemma onClockOutput_setup state e0 e :
  steady (fun e => (cleanModel (_model e), besidesClock e))
         (fun c => isSetupCall c = true) e0 e ->
  returns (onClockOutput state) e (fun _ e' =>
    steady (fun e => (cleanModel (_model e), besidesClock e))
           (fun c => isSetupCall c = true) e0 e').
Proof. intros HS. unfold onClockOutput. steady_run. Qed.

Lemma updateClockSetup_setup e :
  returns updateClockSetup e (fun _ e' =>
    steady (fun e => (cleanModel (_model e), besidesClock e))
           (fun c => isSetupCall c = true) e e'
    /\ cs_dirty (clockSetup (_model e')) = false).
Proof.
  pose proof (steady_refl (fun e => (cleanModel (_model e), besidesClock e))
                (fun c => isSetupCall c = true) e) as HS.
  unfold updateClockSetup. do 2 run_step. cbv zeta.
  destruct (cs_dirty (clockSetup (_model e))) eqn:Hdirty; cbn [negb].
  - steady_run_with ltac:(first
      [ steady_call (@onClockOutput) onClockOutput_setup
      | split; [|reflexivity] ]).
  - run_step. split; [exact HS | exact Hdirty].
Qed.

(** X10. The clock set-up is applied once per change: [updateClockSetup]
    always returns, leaves the set-up clean, so that a second call sends
    nothing; a clean set-up is left alone; all it calls is the
    configuration of the Clock, a transport command for the External
    source and the clock output pins; the model changes in the dirty flag
    only. *)
Theorem X10_clock_setup_once (e : Engine) :
  exists e',
    updateClockSetup e = Ok (tt, e')
    /\ cs_dirty (clockSetup (_model e')) = false
    /\ updateClockSetup e' = Ok (tt, e')
    /\ (cs_dirty (clockSetup (_model e)) = false -> e' = e)
    /\ cleanModel (_model e') = cleanModel (_model e)
    /\ besidesClock e' = besidesClock e
    /\ exists new,
         calls e' = calls e ++ new /\ Forall (fun c => isSetupCall c = true) new.
Proof.
  destruct (returns_Ok _ _ _ (updateClockSetup_setup e))
    as ([] & e' & Hrun & [Hp Hlog] & Hclean).
  exists e'. split; [exact Hrun|]. split; [exact Hclean|].
  split; [apply updateClockSetup_clean, Hclean|].
  split; [intros Hwas; rewrite (updateClockSetup_clean e Hwas) in Hrun; congruence|].
  split; [exact (f_equal fst Hp)|]. split; [exact (f_equal snd Hp) | exact Hlog].
Qed.

End ClockSetupOnce.
(** ** The input handlers *)

Section InputHandlers.
Context {cfg : Config} {col : Collaborators}.

(** X17. The handlers of the clock and reset inputs, which run in
    interrupt context, touch nothing but the Clock, and address it as the
    External slave only.  The clock input forwards a pulse ([value] true)
    as one [slaveTick], after a [slaveStart] when the condition of line
    531 holds, and it never stops or resets the Clock; outside that
    condition a call with [value] false changes nothing.  The reset input
    sends transport commands only, never a tick, and in mode [Last] it
    changes nothing. *)
Theorem X17_input_handlers (value : bool) (e : Engine) :
  (exists e' new,
     clockInputHandler value e = Ok (tt, e')
     /\ besidesTheClock e' = besidesTheClock e
     /\ calls e' = calls e ++ new
     /\ new = (if startsOnPulse e then [CallClock (slaveStart ClockSourceExternal)] else [])
              ++ (if value then [CallClock (slaveTick ClockSourceExternal)] else [])
     /\ (startsOnPulse e = false -> value = false -> e' = e))
  /\ (exists e' new,
        resetInputHandler value e = Ok (tt, e')
        /\ besidesTheClock e' = besidesTheClock e
        /\ calls e' = calls e ++ new
        /\ Forall (fun c => isExternalTransport c = true) new
        /\ (cs_clockInputMode (clockSetup (_model e)) = InputLast -> e' = e)).
Proof.
  split.
  - unfold clockInputHandler, startsOnPulse, clockDo, emit, modify, when, mbind, M_bind, gets,
      mret, M_ret.
    destruct (cs_clockInputMode (clockSetup (_model e))), (clk_isRunning (_clock e)),
      (_resetInput e), value; cbn;
      eexists; eexists;
      (split; [reflexivity|]); (split; [reflexivity|]);
      (split; [|split; [reflexivity|]]);
      first [ cbn; rewrite <- ?app_assoc, ?app_nil_r; reflexivity
            | intros; first [discriminate | reflexivity] ].
  - unfold resetInputHandler, clockDo, emit, modify, mbind, M_bind, gets, mret, M_ret.
    destruct (cs_clockInputMode (clockSetup (_model e))), value; cbn;
      eexists; eexists;
      (split; [reflexivity|]); (split; [reflexivity|]);
      (split; [cbn; rewrite <- ?app_assoc; first [reflexivity | symmetry; apply app_nil_r]|]);
      (split; [repeat constructor|]); first [discriminate | reflexivity].
Qed.

End InputHandlers.
Section LockLoops.
Context {cfg : Config} {col : Collaborators}.

(** The lock fields after the lock transition of lines 50-58. *)
Lemma transition_fields e :
  let e1 := afterUnlock (afterLock e) in
  _requestLock e1 = 0 /\ _requestUnlock e1 = 0
  /\ _locked e1 = (if negb (_requestUnlock e =? 0) then 0
                   else if negb (_requestLock e =? 0) then 1 else _locked e).
Proof.
  unfold afterUnlock, afterLock.
  destruct (Z.eqb_spec (_requestLock e) 0) as [Hl|Hl]; cbn;
    destruct (Z.eqb_spec (_requestUnlock e) 0) as [Hu|Hu]; cbn; auto.
Qed.

Lemma update_cycle systemTicks e :
  routingKeepsProjectOk -> WF e ->
  exists e',
    update systemTicks e = Ok (tt, e')
    /\ WF e'
    /\ (_locked e', _requestLock e', _requestUnlock e')
       = (_locked (afterUnlock (afterLock e)), 0, 0)
    /\ exists new,
         calls e' = calls e ++ lockCalls e ++ new
         /\ Forall (fun c => isMasterStop c = false) new.
Proof.
  intros Hrouting HW. rewrite update_unfold. cbv zeta.
  set (e0 := set_lastSystemTicks systemTicks e).
  pose proof (afterLock_facts e0) as (Hlc & _).
  pose proof (afterUnlock_facts (afterLock e0)) as (Huc & _).
  pose proof (transition_fields e0) as (Hrl & Hru & Hlk).
  assert (Hsame : _locked (afterUnlock (afterLock e0)) = _locked (afterUnlock (afterLock e))).
  { destruct (transition_fields e) as (_ & _ & ->). rewrite Hlk. reflexivity. }
  set (e1 := afterUnlock (afterLock e0)) in *.
  assert (HW1 : WF e1) by (apply WF_afterUnlock, WF_afterLock; exact HW).
  assert (Hcalls1 : calls e1 = calls e ++ lockCalls e) by (rewrite Huc, Hlc; reflexivity).
  destruct (negb (_locked e1 =? 0)).
  - destruct (returns_Ok _ _ _ (updateLocked_spec e1))
      as ([] & e' & Hrun & Hcalls & Hrest & _).
    exists e'. split; [exact Hrun|]. unfold restOf, frameOf in Hrest.
    split; [split; [|]; [replace (_trackEngines e') with (_trackEngines e1) by congruence;
                         exact (proj1 HW1)
                        | replace (_model e') with (_model e1) by congruence;
                          exact (proj2 HW1)]|].
    assert (Hfields : (_locked e', _requestLock e', _requestUnlock e')
                      = (_locked e1, _requestLock e1, _requestUnlock e1)) by congruence.
    split; [rewrite Hfields, Hrl, Hru, Hsame; reflexivity|].
    exists (overrideCalls e1 ++ [CallCvOutputUpdate]).
    split; [rewrite Hcalls, Hcalls1, <- !app_assoc; reflexivity|].
    apply Forall_app. split; [|repeat constructor].
    eapply Forall_impl; [apply overrideCalls_quiet|]. cbv beta. tauto.
  - destruct (returns_Ok _ _ _
                (post_conj _ _ _ _
                   (updateUnlocked_wf (u32 (systemTicks - _lastSystemTicks e)) Hrouting e1 HW1)
                   (updateUnlocked_shape (u32 (systemTicks - _lastSystemTicks e)) e1)))
      as ([] & e' & Hrun & HW' & Hframe & _ & mid & Hcalls & Hquiet).
    exists e'. split; [exact Hrun|]. split; [exact HW'|]. unfold frameOf in Hframe.
    assert (Hfields : (_locked e', _requestLock e', _requestUnlock e')
                      = (_locked e1, _requestLock e1, _requestUnlock e1)) by congruence.
    split; [rewrite Hfields, Hrl, Hru, Hsame; reflexivity|].
    exists (mid ++ overrideCalls e1 ++ [CallCvOutputUpdate]).
    split; [rewrite Hcalls, Hcalls1, <- !app_assoc; reflexivity|].
    apply Forall_app. split; [eapply quiet_masterStop, Hquiet|].
    apply Forall_app. split; [|repeat constructor].
    eapply Forall_impl; [apply overrideCalls_quiet|]. cbv beta. tauto.
Qed.

End LockLoops.
Section LockLoops2.
Context {cfg : Config} {col : Collaborators}.

Lemma lock_locked systemTicks e : isLocked e = true -> lock systemTicks e = Ok (true, e).
Proof.
  intros Hlocked. destruct systemTicks; simpl;
    unfold mbind, M_bind, gets; rewrite Hlocked; reflexivity.
Qed.

Lemma lock_cycle ticks systemTicks e :
  isLocked e = false ->
  lock (ticks :: systemTicks) e
  = match update ticks (set_requestLock 1 e) with
    | Ok (_, e') => lock systemTicks e'
    | Failed f => Failed f
    end.
Proof.
  intros Hlocked. simpl. unfold mbind, M_bind, gets, modify. rewrite Hlocked.
  destruct (update ticks (set_requestLock 1 e)) as [[[] e']|f]; reflexivity.
Qed.

Lemma unlock_unlocked systemTicks e : isLocked e = false -> unlock systemTicks e = Ok (true, e).
Proof.
  intros Hlocked. destruct systemTicks; simpl;
    unfold mbind, M_bind, gets; rewrite Hlocked; reflexivity.
Qed.

Lemma unlock_cycle ticks systemTicks e :
  isLocked e = true ->
  unlock (ticks :: systemTicks) e
  = match update ticks (set_requestUnlock 1 e) with
    | Ok (_, e') => unlock systemTicks e'
    | Failed f => Failed f
    end.
Proof.
  intros Hlocked. simpl. unfold mbind, M_bind, gets, modify. rewrite Hlocked.
  destruct (update ticks (set_requestUnlock 1 e)) as [[[] e']|f]; reflexivity.
Qed.

(** A cycle entered with a lock request pending. *)
Lemma update_lock_request ticks e :
  routingKeepsProjectOk -> WF e ->
  exists e',
    update ticks (set_requestLock 1 e) = Ok (tt, e')
    /\ WF e'
    /\ _locked e' = (if _requestUnlock e =? 0 then 1 else 0)
    /\ _requestLock e' = 0 /\ _requestUnlock e' = 0
    /\ In (CallClock masterStop) (calls e').
Proof.
  intros Hrouting HW.
  destruct (update_cycle ticks (set_requestLock 1 e) Hrouting HW)
    as (e' & Hrun & HW' & Hfields & new & Hcalls & _).
  exists e'. split; [exact Hrun|]. split; [exact HW'|].
  destruct (transition_fields (set_requestLock 1 e)) as (_ & _ & Hlocked).
  injection Hfields as Hl Hrl Hru.
  split; [rewrite Hl, Hlocked; cbn; destruct (_requestUnlock e =? 0); reflexivity|].
  split; [exact Hrl|]. split; [exact Hru|].
  rewrite Hcalls. apply in_or_app. right. apply in_or_app. left. left. reflexivity.
Qed.

(** A cycle entered with an unlock request pending. *)
Lemma update_unlock_request ticks e :
  routingKeepsProjectOk -> WF e ->
  exists e',
    update ticks (set_requestUnlock 1 e) = Ok (tt, e')
    /\ WF e'
    /\ _locked e' = 0 /\ _requestLock e' = 0 /\ _requestUnlock e' = 0.
Proof.
  intros Hrouting HW.
  destruct (update_cycle ticks (set_requestUnlock 1 e) Hrouting HW)
    as (e' & Hrun & HW' & Hfields & _).
  exists e'. split; [exact Hrun|]. split; [exact HW'|].
  destruct (transition_fields (set_requestUnlock 1 e)) as (_ & _ & Hlocked).
  injection Hfields as Hl Hrl Hru.
  split; [rewrite Hl, Hlocked; reflexivity|]. split; assumption.
Qed.

(** X13. [lock()] in the simulator build ends within two cycles, with the
    engine locked: one cycle when no unlock request is pending, two when
    one is (the first cycle then locks and unlocks again).  An engine that
    is locked already is left as it is.  Otherwise the master clock has
    been stopped and both request flags are clear. *)
Theorem X13_lock_terminates (systemTicks : list Z) (e : Engine) :
  routingKeepsProjectOk -> WF e ->
  (2 <= length systemTicks)%nat ->
  exists e',
    lock systemTicks e = Ok (true, e')
    /\ isLocked e' = true
    /\ WF e'
    /\ lock systemTicks e = lock (take 2 systemTicks) e
    /\ (isLocked e = true -> e' = e)
    /\ (isLocked e = false ->
        _requestLock e' = 0 /\ _requestUnlock e' = 0
        /\ In (CallClock masterStop) (calls e')
        /\ (_requestUnlock e = 0 -> lock systemTicks e = lock (take 1 systemTicks) e)).
Proof.
  intros Hrouting HW Hlen.
  destruct systemTicks as [|t1 [|t2 rest]]; [simpl in Hlen; lia | simpl in Hlen; lia|].
  clear Hlen. cbn [take].
  destruct (isLocked e) eqn:Hlocked.
  - exists e. rewrite !lock_locked by exact Hlocked.
    split; [reflexivity|]. split; [exact Hlocked|]. split; [exact HW|].
    split; [reflexivity|]. split; [reflexivity | discriminate].
  - rewrite !(lock_cycle t1) by exact Hlocked.
    destruct (update_lock_request t1 e Hrouting HW)
      as (e1 & Hrun1 & HW1 & Hl1 & Hrl1 & Hru1 & Hstop1).
    rewrite Hrun1. destruct (Z.eqb_spec (_requestUnlock e) 0) as [Hnone|Hpending].
    + assert (Hlocked1 : isLocked e1 = true) by (unfold isLocked; rewrite Hl1; reflexivity).
      exists e1. rewrite !lock_locked by exact Hlocked1.
      split; [reflexivity|]. split; [exact Hlocked1|]. split; [exact HW1|].
      split; [reflexivity|]. split; [discriminate|]. intros _.
      split; [exact Hrl1|]. split; [exact Hru1|]. split; [exact Hstop1 | reflexivity].
    + assert (Hlocked1 : isLocked e1 = false) by (unfold isLocked; rewrite Hl1; reflexivity).
      rewrite !(lock_cycle t2) by exact Hlocked1.
      destruct (update_lock_request t2 e1 Hrouting HW1)
        as (e2 & Hrun2 & HW2 & Hl2 & Hrl2 & Hru2 & Hstop2).
      rewrite Hrun2. rewrite Hru1 in Hl2. cbn in Hl2.
      assert (Hlocked2 : isLocked e2 = true) by (unfold isLocked; rewrite Hl2; reflexivity).
      exists e2. rewrite !lock_locked by exact Hlocked2.
      split; [reflexivity|]. split; [exact Hlocked2|]. split; [exact HW2|].
      split; [reflexivity|]. split; [discriminate|]. intros _.
      split; [exact Hrl2|]. split; [exact Hru2|]. split; [exact Hstop2|].
      intros Hnone. contradiction.
Qed.

(** X14. [unlock()] in the simulator build ends within one cycle, with the
    engine unlocked and both request flags clear; an engine that is not
    locked is left as it is. *)
Theorem X14_unlock_terminates (systemTicks : list Z) (e : Engine) :
  routingKeepsProjectOk -> WF e ->
  (1 <= length systemTicks)%nat ->
  exists e',
    unlock systemTicks e = Ok (true, e')
    /\ isLocked e' = false
    /\ WF e'
    /\ unlock systemTicks e = unlock (take 1 systemTicks) e
    /\ (isLocked e = false -> e' = e)
    /\ (isLocked e = true ->
        _locked e' = 0 /\ _requestLock e' = 0 /\ _requestUnlock e' = 0).
Proof.
  intros Hrouting HW Hlen.
  destruct systemTicks as [|t1 rest]; [simpl in Hlen; lia|].
  clear Hlen. cbn [take].
  destruct (isLocked e) eqn:Hlocked.
  - rewrite !(unlock_cycle t1) by exact Hlocked.
    destruct (update_unlock_request t1 e Hrouting HW)
      as (e1 & Hrun1 & HW1 & Hl1 & Hrl1 & Hru1).
    rewrite Hrun1.
    assert (Hlocked1 : isLocked e1 = false) by (unfold isLocked; rewrite Hl1; reflexivity).
    exists e1. rewrite !unlock_unlocked by exact Hlocked1.
    split; [reflexivity|]. split; [exact Hlocked1|]. split; [exact HW1|].
    split; [reflexivity|]. split; [discriminate|]. intros _. auto.
  - exists e. rewrite !unlock_unlocked by exact Hlocked.
    split; [reflexivity|]. split; [exact Hlocked|]. split; [exact HW|].
    split; [reflexivity|]. split; [reflexivity | discriminate].
Qed.

End LockLoops2.
Section TrackRequests.
Context {cfg : Config} {col : Collaborators}.

Lemma applyTrackRequests_applied muteMask patternMask changed t :
  applyTrackRequests muteMask patternMask changed t
  = (requestsApplied muteMask patternMask t,
     hasRequests (ts_state t) patternMask || changed).
Proof.
  unfold applyTrackRequests, requestsApplied.
  destruct (hasRequests (ts_state t) muteMask) eqn:Hm; cbn;
    destruct (hasRequests (ts_state t) patternMask) eqn:Hp; cbn; reflexivity.
Qed.

Lemma onlyTrackStates_refl e : onlyTrackStates e e.
Proof. destruct e as [[? ? ? ? ? ? [] ? ?]]. reflexivity. Qed.

Lemma onlyTrackStates_step e e1 states :
  onlyTrackStates e e1 ->
  onlyTrackStates e
    (set_model (set_playState (set_trackStates states (playState (_model e1))) (_model e1)) e1).
Proof. unfold onlyTrackStates. intros ->. reflexivity. Qed.

Lemma patternRequested_succ patternMask states i t :
  0 <= i -> at_ states i = Some t ->
  patternRequested patternMask states (i + 1)
  = hasRequests (ts_state t) patternMask || patternRequested patternMask states i.
Proof.
  intros Hi Hat. unfold patternRequested, at_ in *.
  destruct (decide (0 <= i)); [|lia].
  replace (Z.to_nat (i + 1)) with (S (Z.to_nat i)) by lia.
  rewrite (take_S_r _ _ _ Hat), existsb_app. cbn. rewrite orb_false_r. apply orb_comm.
Qed.

Lemma mapped_none {A} (l l' : list A) n :
  n <= 0 ->
  (forall j, 0 <= j -> at_ l' j = at_ l j) ->
  forall j, n <= j -> at_ l' j = at_ l j.
Proof.
  intros Hn Hrest j Hj. destruct (decide (0 <= j)) as [Hpos|Hneg]; [apply Hrest; lia|].
  rewrite !at_negative by lia. reflexivity.
Qed.

Lemma handleTrackRequests_spec muteMask patternMask e :
  covers (ps_trackStates (playState (_model e))) ->
  returns (handleTrackRequests muteMask patternMask) e (fun changed e' =>
    onlyTrackStates e e'
    /\ statesMapped (requestsApplied muteMask patternMask) CONFIG_TRACK_COUNT e e'
    /\ changed = patternRequested patternMask (ps_trackStates (playState (_model e)))
                   CONFIG_TRACK_COUNT).
Proof.
  intros Hcov. unfold handleTrackRequests. eapply post_mono.
  - apply (post_foldTracks _ (fun i changed e' =>
             onlyTrackStates e e'
             /\ statesMapped (requestsApplied muteMask patternMask) i e e'
             /\ changed = patternRequested patternMask
                            (ps_trackStates (playState (_model e))) i)).
    + split; [apply onlyTrackStates_refl|]. split; [|reflexivity].
      split; [reflexivity|]. split; [reflexivity|]. intros j t Hj. lia.
    + intros i changed e1 Hi (Honly & (Hlen & Hrest & Hdone) & Hchanged).
      destruct (at_covers _ i Hcov Hi) as (t & Ht).
      assert (Ht1 : at_ (ps_trackStates (playState (_model e1))) i = Some t)
        by (rewrite Hrest by lia; exact Ht).
      unfold getTrackState, modifyTrackState, getTrackState, getPlayState.
      do 4 run_step; [|rewrite Ht1 in *; discriminate].
      rewrite Ht1 in H. injection H as <-.
      cbv zeta. rewrite applyTrackRequests_applied. cbn [fst snd].
      do 5 run_step; [|rewrite Ht1 in *; discriminate].
      do 2 run_step.
      split; [apply onlyTrackStates_step, Honly|].
      unfold statesMapped. cbn [_model set_model playState set_playState ps_trackStates
                                set_trackStates].
      split; [split; [rewrite length_insert; exact Hlen|]; split|].
      * intros j Hj. rewrite at_insert_ne by lia. apply Hrest. lia.
      * intros j t' Hj Ht'. destruct (decide (j = i)) as [->|Hne].
        -- rewrite Ht in Ht'. injection Ht' as <-.
           apply at_insert_eq. eapply at_length, Ht1.
        -- rewrite at_insert_ne by lia. apply Hdone; [lia | exact Ht'].
      * rewrite (patternRequested_succ _ _ i t) by (lia || exact Ht). rewrite Hchanged.
        reflexivity.
  - cbv beta. intros changed e' (Honly & (Hlen & Hrest & Hdone) & Hchanged).
    unfold trackCount in *. split; [exact Honly|].
    destruct (Z.max_spec 0 CONFIG_TRACK_COUNT) as [[_ Hmax]|[Hle Hmax]]; rewrite Hmax in *.
    + split; [|exact Hchanged]. split; [exact Hlen|]. split; assumption.
    + split.
      * split; [exact Hlen|]. split; [apply mapped_none; [lia | exact Hrest]|].
        intros j t Hj. lia.
      * rewrite Hchanged. unfold patternRequested.
        replace (Z.to_nat CONFIG_TRACK_COUNT) with 0%nat by lia. reflexivity.
Qed.

End TrackRequests.
Section Push.
Context {cfg : Config} {col : Collaborators}.

Lemma pushCalls_succ states i t :
  0 <= i -> at_ states i = Some t ->
  pushCalls states (i + 1)
  = pushCalls states i ++ [ CallTrack i (TEsetMute (ts_mute t));
                            CallTrack i (TEsetFill (ts_fill t));
                            CallTrack i (TEsetPattern (ts_pattern t)) ].
Proof.
  intros Hi Hat. unfold pushCalls. rewrite seqZ_app by lia.
  rewrite fmap_app, concat_app. rewrite (seqZ_cons (0 + i) 1) by lia.
  rewrite (seqZ_nil (Z.succ (0 + i)) (Z.pred 1)) by lia.
  cbn [fmap list_fmap concat]. rewrite Z.add_0_l, Hat, app_nil_r.
  reflexivity.
Qed.

Lemma pushCalls_none states n : n <= 0 -> pushCalls states n = [].
Proof. intros Hn. unfold pushCalls. rewrite seqZ_nil by lia. reflexivity. Qed.

Lemma pushTrackStates_spec e :
  WF e ->
  returns pushTrackStates e (fun _ e' =>
    onlyEngines e e'
    /\ calls e' = calls e ++ pushCalls (ps_trackStates (playState (_model e))) CONFIG_TRACK_COUNT
    /\ enginesReady (_trackEngines e')).
Proof.
  intros HW. unfold pushTrackStates. eapply post_mono.
  - apply (post_forTracks _ (fun i e' =>
             onlyEngines e e'
             /\ calls e' = calls e ++ pushCalls (ps_trackStates (playState (_model e))) i
             /\ enginesReady (_trackEngines e'))).
    + split; [apply onlyEngines_refl|]. split; [cbn; rewrite app_nil_r; reflexivity|].
      exact (proj1 HW).
    + intros i e1 Hi (Honly & Hcalls & Hready).
      assert (Hmodel : _model e1 = _model e) by (rewrite Honly; reflexivity).
      unfold getTrackState, getPlayState. do 4 run_step.
      2:{ rewrite Hmodel in *.
          eapply at_None_covers; [apply (ok_trackStates _ (proj2 HW))| |eassumption]. exact Hi. }
      rename x into t. rename H into Ht. rewrite Hmodel in Ht.
      destruct (Hready i Hi) as (te & Hte).
      assert (Hlen : 0 <= i < Z.of_nat (length (_trackEngines e1))) by (eapply at_length, Hte).
      run_step. eapply post_callTrack_at; [exact Hte|].
      run_step. eapply post_callTrack_at; [apply at_insert_eq; exact Hlen|].
      eapply post_callTrack_at.
      { cbn [_trackEngines set_calls set_trackEngines]. apply at_insert_eq.
        rewrite length_insert. exact Hlen. }
      split; [do 3 apply onlyEngines_step; exact Honly|].
      cbn [_trackEngines _model calls set_calls set_trackEngines]. split.
      * rewrite Hcalls, (pushCalls_succ _ i t) by (lia || exact Ht).
        rewrite <- !app_assoc. reflexivity.
      * do 3 apply enginesReady_insert. exact Hready.
  - cbv beta. intros _ e' (Honly & Hcalls & Hready). unfold trackCount in *.
    split; [exact Honly|]. split; [|exact Hready].
    destruct (Z.max_spec 0 CONFIG_TRACK_COUNT) as [[_ Hmax]|[Hle Hmax]];
      rewrite Hmax in *; [exact Hcalls|].
    rewrite Hcalls, !pushCalls_none by lia. reflexivity.
Qed.

End Push.
Section SongPart.
Context {cfg : Config} {col : Collaborators}.

Abbreviation keepsBesidesPatterns m :=
  (keepsSteady besidesPatterns (fun c => isResetCall c = true) m).

Lemma setPattern_view (states : list TrackState) i t pattern :
  at_ states i = Some t ->
  trackView <$> <[Z.to_nat i := ts_setPattern pattern t]> states = trackView <$> states.
Proof.
  intros Hat. unfold at_ in Hat. destruct (decide (0 <= i)); [|discriminate].
  rewrite list_fmap_insert. apply list_insert_id. rewrite list_lookup_fmap, Hat. reflexivity.
Qed.

Lemma setPattern_besidesPatterns trackIndex pattern :
  keepsBesidesPatterns (modifyTrackState trackIndex (ts_setPattern pattern)).
Proof.
  intros e0 e HS. unfold modifyTrackState, getTrackState, getPlayState.
  do 4 run_step; [|exact I]. run_step.
  apply (steady_same _ _ _ _ _ HS); [|reflexivity].
  unfold besidesPatterns. cbn [_model set_model playState set_playState ps_trackStates
                               set_trackStates ps_hasImmediateRequests ps_hasSyncedRequests
                               ps_executeLatchedRequests].
  rewrite (setPattern_view _ _ _ _ H). reflexivity.
Qed.

Lemma applySlotPatterns_besidesPatterns slot reset :
  keepsBesidesPatterns (applySlotPatterns slot reset).
Proof.
  intros e0 e HS. unfold applySlotPatterns.
  apply post_forM; [exact HS|]. intros i e1 _ HS1.
  steady_run_with ltac:(steady_call (@modifyTrackState) setPattern_besidesPatterns).
Qed.

Lemma handlePlayRequest_besidesPatterns playMask switch :
  keepsBesidesPatterns (handlePlayRequest playMask switch).
Proof.
  intros e0 e HS. unfold handlePlayRequest.
  steady_run_with ltac:(steady_call (@applySlotPatterns) applySlotPatterns_besidesPatterns).
Qed.

Lemma songSlotChange_besidesPatterns : keepsBesidesPatterns songSlotChange.
Proof.
  intros e0 e HS. unfold songSlotChange.
  steady_run_with ltac:(steady_call (@applySlotPatterns) applySlotPatterns_besidesPatterns).
Qed.

End SongPart.
Section Requests.
Context {cfg : Config} {col : Collaborators}.

Lemma arbitrate_steps handleSynced handleLatched switch e changed e1 switch2 e2 :
  handleTrackRequests (muteRequests handleSynced handleLatched)
                      (patternRequests handleSynced handleLatched) e = Ok (changed, e1) ->
  handlePlayRequest (playRequests handleSynced handleLatched) switch e1 = Ok (switch2, e2) ->
  arbitrate true handleSynced handleLatched switch e
  = let e4 := afterSongRequests handleSynced handleLatched changed e2 in
    (when (ss_playing (ps_songState (playState (_model e4))) && switch2) songSlotChange;;
     pushTrackStates) e4.
Proof.
  intros Htracks Hplay. unfold arbitrate, mbind, M_bind. rewrite Htracks, Hplay.
  unfold handleStopRequest, afterSongRequests, modifySongState, modifyPlayState, getPlayState,
    modify, gets, when, mbind, M_bind, mret, M_ret.
  cbv zeta.
  destruct (changed || hasRequests (ss_state (ps_songState (playState (_model e2))))
                         (stopRequests handleSynced handleLatched)); reflexivity.
Qed.

Lemma WFsong_afterSongRequests s handleSynced handleLatched changed e :
  WFsong s e -> WFsong s (afterSongRequests handleSynced handleLatched changed e).
Proof.
  intros HS. unfold afterSongRequests. cbv zeta.
  apply (WFsong_playState _ _ _ HS).
  - exact (WFsong_covers _ _ HS).
  - pose proof (WFsong_slot _ _ HS) as Hslot.
    destruct (changed || hasRequests _ _); exact Hslot.
Qed.

End Requests.
Section Requests2.
Context {cfg : Config} {col : Collaborators}.

Lemma updatePlayState_arbitrate ticked e :
  measureDivisor (_model e) <> 0 ->
  updatePlayState ticked e
  = arbitrate (hasAnyRequests (playState (_model e)))
              (handleSyncedRequests (_tick e) (measureDivisor (_model e)))
              (ps_executeLatchedRequests (playState (_model e)))
              (switchToNextSlot ticked (_tick e) (measureDivisor (_model e))) e.
Proof.
  intros Hd. unfold updatePlayState, mbind, M_bind, gets. cbv zeta.
  destruct (decide (measureDivisor (_model e) = 0)) as [Hz|_]; [contradiction | reflexivity].
Qed.

Lemma view_at (states states' : list TrackState) i t :
  trackView <$> states' = trackView <$> states ->
  at_ states i = Some t ->
  exists t', at_ states' i = Some t' /\ trackView t' = trackView t.
Proof.
  intros Hview Hat. unfold at_ in *. destruct (decide (0 <= i)); [|discriminate].
  assert (Hl : (trackView <$> states') !! Z.to_nat i = Some (trackView t))
    by (rewrite Hview, list_lookup_fmap, Hat; reflexivity).
  rewrite list_lookup_fmap in Hl.
  destruct (states' !! Z.to_nat i) as [t'|]; [|discriminate].
  exists t'. split; [reflexivity|].
  change (Some (trackView t') = Some (trackView t)) in Hl. congruence.
Qed.

(** The run of [arbitrate] when a request bucket is set. *)
Lemma arbitrate_requests s handleSynced handleLatched switch e :
  WFsong s e ->
  exists changed e1 switch2 e2 e5 e',
    handleTrackRequests (muteRequests handleSynced handleLatched)
                        (patternRequests handleSynced handleLatched) e = Ok (changed, e1)
    /\ onlyTrackStates e e1
    /\ statesMapped (requestsApplied (muteRequests handleSynced handleLatched)
                                     (patternRequests handleSynced handleLatched))
                    CONFIG_TRACK_COUNT e e1
    /\ changed = patternRequested (patternRequests handleSynced handleLatched)
                   (ps_trackStates (playState (_model e))) CONFIG_TRACK_COUNT
    /\ handlePlayRequest (playRequests handleSynced handleLatched) switch e1 = Ok (switch2, e2)
    /\ WFsong s e2
    /\ steady besidesPatterns (fun c => isResetCall c = true) e1 e2
    /\ (let e4 := afterSongRequests handleSynced handleLatched changed e2 in
        (if ss_playing (ps_songState (playState (_model e4))) && switch2
         then songSlotChange e4 else Ok (tt, e4)) = Ok (tt, e5)
        /\ steady besidesPatterns (fun c => isResetCall c = true) e4 e5)
    /\ WFsong s e5
    /\ pushTrackStates e5 = Ok (tt, e')
    /\ onlyEngines e5 e'
    /\ enginesReady (_trackEngines e')
    /\ calls e' = calls e5 ++ pushCalls (ps_trackStates (playState (_model e5)))
                               CONFIG_TRACK_COUNT
    /\ arbitrate true handleSynced handleLatched switch e = Ok (tt, e').
Proof.
  intros HS.
  destruct (returns_Ok _ _ _
              (post_conj _ _ _ _
                 (handleTrackRequests_ws (muteRequests handleSynced handleLatched)
                    (patternRequests handleSynced handleLatched) s e HS)
                 (returns_ensures _ _ _
                    (handleTrackRequests_spec (muteRequests handleSynced handleLatched)
                       (patternRequests handleSynced handleLatched) e
                       (WFsong_covers _ _ HS)))))
    as (changed & e1 & Hrun1 & HS1 & Honly1 & Hmapped1 & Hchanged).
  destruct (returns_Ok _ _ _
              (post_conj _ _ _ _
                 (handlePlayRequest_ws (playRequests handleSynced handleLatched) switch s e1 HS1)
                 (handlePlayRequest_besidesPatterns _ _ e1 e1 (steady_refl _ _ e1))))
    as (switch2 & e2 & Hrun2 & HS2 & Hsteady2).
  pose proof (WFsong_afterSongRequests s handleSynced handleLatched changed e2 HS2) as HS4.
  set (e4 := afterSongRequests handleSynced handleLatched changed e2) in *.
  assert (Hchange : exists e5,
             (if ss_playing (ps_songState (playState (_model e4))) && switch2
              then songSlotChange e4 else Ok (tt, e4)) = Ok (tt, e5)
             /\ steady besidesPatterns (fun c => isResetCall c = true) e4 e5
             /\ WFsong s e5).
  { destruct (ss_playing (ps_songState (playState (_model e4))) && switch2).
    - destruct (returns_Ok _ _ _
                  (post_conj _ _ _ _ (songSlotChange_ws s e4 HS4)
                     (songSlotChange_besidesPatterns e4 e4 (steady_refl _ _ e4))))
        as ([] & e5 & Hrun5 & HS5 & Hsteady5).
      exists e5. auto.
    - exists e4. split; [reflexivity|]. split; [apply steady_refl | exact HS4]. }
  destruct Hchange as (e5 & Hrun5 & Hsteady5 & HS5).
  destruct (returns_Ok _ _ _ (pushTrackStates_spec e5 (WFsong_WF _ _ HS5)))
    as ([] & e' & Hrun6 & Honly6 & Hcalls6 & Hready6).
  exists changed, e1, switch2, e2, e5, e'.
  split; [exact Hrun1|]. split; [exact Honly1|]. split; [exact Hmapped1|].
  split; [exact Hchanged|]. split; [exact Hrun2|]. split; [exact HS2|].
  split; [exact Hsteady2|]. split; [split; assumption|]. split; [exact HS5|].
  split; [exact Hrun6|]. split; [exact Honly6|]. split; [exact Hready6|].
  split; [exact Hcalls6|].
  rewrite (arbitrate_steps _ _ _ _ _ _ _ _ Hrun1 Hrun2). cbv zeta. fold e4.
  unfold mbind, M_bind, when.
  destruct (ss_playing (ps_songState (playState (_model e4))) && switch2).
  - rewrite Hrun5. exact Hrun6.
  - unfold mret, M_ret. injection Hrun5 as <-. exact Hrun6.
Qed.

End Requests2.
Section Requests3.
Context {cfg : Config} {col : Collaborators}.

Lemma onlyTrackStates_calls e e' : onlyTrackStates e e' -> calls e' = calls e.
Proof. intros ->. reflexivity. Qed.

Lemma besidesPatterns_after handleSynced handleLatched changed e :
  fst (besidesPatterns (afterSongRequests handleSynced handleLatched changed e))
  = fst (besidesPatterns e)
  /\ snd (besidesPatterns (afterSongRequests handleSynced handleLatched changed e))
     = (false,
        if handleSynced then false else ps_hasSyncedRequests (playState (_model e)),
        if handleLatched then false else ps_executeLatchedRequests (playState (_model e)))
  /\ calls (afterSongRequests handleSynced handleLatched changed e) = calls e.
Proof. split; [reflexivity|]. split; reflexivity. Qed.

(** X4. Requests that fire reach the engines in the same call.  When a
    request bucket is set, [updatePlayState] of a well-formed engine
    returns; every track state has its mute request applied if it fires
    and its mute and pattern requests of the handled kinds cleared, the
    requested values and the fill being left alone; the handled buckets
    are cleared; and the last calls of the arbitration give every engine
    the mute, fill and pattern of its track state as the call leaves it.
    The only other calls are resets. *)
Theorem X4_requests_reach_engines (ticked : bool) (e : Engine) :
  let synced := handleSyncedRequests (_tick e) (measureDivisor (_model e)) in
  let latched := ps_executeLatchedRequests (playState (_model e)) in
  let muteMask := muteRequests synced latched in
  let patternMask := patternRequests synced latched in
  WF e ->
  hasAnyRequests (playState (_model e)) = true ->
  exists e' resets,
    updatePlayState ticked e = Ok (tt, e')
    /\ WF e'
    /\ (forall i t, 0 <= i < CONFIG_TRACK_COUNT ->
          at_ (ps_trackStates (playState (_model e))) i = Some t ->
          exists t',
            at_ (ps_trackStates (playState (_model e'))) i = Some t'
            /\ ts_mute t' = (if hasRequests (ts_state t) muteMask
                             then ts_requestedMute t else ts_mute t)
            /\ ts_state t' = clearRequests (ts_state t) (Z.lor muteMask patternMask)
            /\ (ts_requestedMute t', ts_fill t', ts_requestedPattern t')
               = (ts_requestedMute t, ts_fill t, ts_requestedPattern t))
    /\ ps_hasImmediateRequests (playState (_model e')) = false
    /\ ps_hasSyncedRequests (playState (_model e'))
       = (if synced then false else ps_hasSyncedRequests (playState (_model e)))
    /\ ps_executeLatchedRequests (playState (_model e')) = false
    /\ calls e' = calls e ++ resets
                  ++ pushCalls (ps_trackStates (playState (_model e'))) CONFIG_TRACK_COUNT
    /\ Forall (fun c => isResetCall c = true) resets.
Proof.
  intros synced latched muteMask patternMask HW Hany.
  rewrite (updatePlayState_arbitrate ticked e (ok_divisor _ (proj2 HW))), Hany.
  fold synced latched.
  destruct (arbitrate_requests (song (_model e)) synced latched
              (switchToNextSlot ticked (_tick e) (measureDivisor (_model e))) e
              (conj HW eq_refl))
    as (changed & e1 & switch2 & e2 & e5 & e' & Hrun1 & Honly1 & Hmapped1 & _ & Hrun2 & HS2
        & [Hview2 (new2 & Hcalls2 & Hresets2)] & (_ & [Hview5 (new5 & Hcalls5 & Hresets5)])
        & HS5 & Hrun6 & Honly6 & Hready6 & Hcalls6 & Hrun).
  destruct (besidesPatterns_after synced latched changed e2) as (Hview4 & Hbuckets4 & Hcalls4).
  set (e4 := afterSongRequests synced latched changed e2) in *.
  pose proof (onlyEngines_model _ _ Honly6) as Hmodel6.
  assert (Hviews : trackView <$> ps_trackStates (playState (_model e'))
                   = trackView <$> ps_trackStates (playState (_model e1))).
  { rewrite Hmodel6. change (fst (besidesPatterns e5) = fst (besidesPatterns e1)).
    rewrite Hview5, Hview4, Hview2. reflexivity. }
  assert (Hbuckets : snd (besidesPatterns e') = snd (besidesPatterns e4)).
  { unfold besidesPatterns at 1. rewrite Hmodel6.
    change (snd (besidesPatterns e5) = snd (besidesPatterns e4)). rewrite Hview5. reflexivity. }
  assert (Hbuckets1 : snd (besidesPatterns e2) = snd (besidesPatterns e)).
  { rewrite Hview2. rewrite Honly1. reflexivity. }
  exists e', (new2 ++ new5). split; [exact Hrun|].
  split; [split; [exact Hready6 | rewrite Hmodel6; exact (proj2 (proj1 HS5))]|].
  split.
  { intros i t Hi Ht. destruct Hmapped1 as (_ & _ & Hdone).
    destruct (view_at _ _ i _ Hviews (Hdone i t Hi Ht)) as (t' & Ht' & Hview).
    exists t'. split; [exact Ht'|]. unfold trackView, requestsApplied in Hview. cbn in Hview.
    injection Hview as Hstate Hmute Hrm Hfill Hrp.
    split; [exact Hmute|]. split; [exact Hstate|]. congruence. }
  rewrite Hbuckets4 in Hbuckets. unfold besidesPatterns in Hbuckets, Hbuckets1.
  cbn [snd] in Hbuckets, Hbuckets1. injection Hbuckets as Hi Hs Hl.
  injection Hbuckets1 as Hi1 Hs1 Hl1.
  split; [exact Hi|]. split; [rewrite Hs, Hs1; reflexivity|].
  split.
  { rewrite Hl, Hl1. unfold latched.
    destruct (ps_executeLatchedRequests (playState (_model e))); reflexivity. }
  split.
  { rewrite Hcalls6, Hcalls5, Hcalls4, Hcalls2, (onlyTrackStates_calls _ _ Honly1), Hmodel6.
    rewrite <- !app_assoc. reflexivity. }
  apply Forall_app. split; assumption.
Qed.

End Requests3.
Section SongRequests.
Context {cfg : Config} {col : Collaborators}.

Lemma handlePlayRequest_none playMask switch e :
  hasRequests (ss_state (ps_songState (playState (_model e)))) playMask = false ->
  handlePlayRequest playMask switch e = Ok (switch, e).
Proof.
  intros Hnone. unfold handlePlayRequest, mbind, M_bind, gets. cbv zeta. rewrite Hnone.
  reflexivity.
Qed.

Lemma handlePlayRequest_valid s playMask switch e slot :
  WFsong s e ->
  hasRequests (ss_state (ps_songState (playState (_model e)))) playMask = true ->
  0 <= ss_requestedSlot (ps_songState (playState (_model e))) < song_slotCount s ->
  at_ (song_slots s) (ss_requestedSlot (ps_songState (playState (_model e)))) = Some slot ->
  returns (handlePlayRequest playMask switch) e (fun switch2 e' =>
    switch2 = false
    /\ ps_songState (playState (_model e'))
       = ss_setPlaying true
           (ss_setCurrentRepeat 0
              (ss_setCurrentSlot (ss_requestedSlot (ps_songState (playState (_model e))))
                 (ps_songState (playState (_model e)))))
    /\ calls e' = calls e
    /\ patternsApplied slot CONFIG_TRACK_COUNT e').
Proof.
  intros HS Hfires Hvalid Hslot. pose proof (proj2 HS) as Hsong.
  unfold handlePlayRequest. do 2 run_step. cbv zeta. rewrite Hfires, Hsong.
  destruct (Z.leb_spec 0 (ss_requestedSlot (ps_songState (playState (_model e)))));
    [|lia].
  destruct (Z.ltb_spec (ss_requestedSlot (ps_songState (playState (_model e))))
              (song_slotCount s)); [|lia].
  cbn [andb]. do 2 run_step; [|rewrite Hslot in *; discriminate].
  rewrite Hslot in H1. injection H1 as <-. run_step.
  eapply post_mono.
  { apply (applySlotPatterns_spec s slot false e); [|exact HS].
    eapply songOk_slot; [apply (WFsong_slot _ _ HS) | exact Hslot]. }
  cbv beta. intros _ e1 (_ & _ & Hstate1 & Hcalls1 & Hpat1).
  do 6 run_step. split; [reflexivity|].
  split; [cbn; rewrite Hstate1; reflexivity|].
  split; [cbn; rewrite Hcalls1, app_nil_r; reflexivity | exact Hpat1].
Qed.

Lemma hasRequests_cleared_r state a b :
  hasRequests (clearRequests state (Z.lor a b)) b = false.
Proof. rewrite Z.lor_comm. apply hasRequests_cleared. Qed.

Lemma onlyTrackStates_songState e e' :
  onlyTrackStates e e' ->
  ps_songState (playState (_model e')) = ps_songState (playState (_model e))
  /\ song (_model e') = song (_model e).
Proof. intros ->. split; reflexivity. Qed.

End SongRequests.
Section SongRequests2.
Context {cfg : Config} {col : Collaborators}.

(** The run of [arbitrate] when the Play handling leaves no slot change
    to do: the Stop handling, the clearing of the buckets, the push. *)
Lemma arbitrate_no_change s handleSynced handleLatched switch e changed e1 switch2 e2 :
  handleTrackRequests (muteRequests handleSynced handleLatched)
                      (patternRequests handleSynced handleLatched) e = Ok (changed, e1) ->
  handlePlayRequest (playRequests handleSynced handleLatched) switch e1 = Ok (switch2, e2) ->
  WFsong s e2 ->
  ss_playing (ps_songState
                (playState (_model (afterSongRequests handleSynced handleLatched changed e2))))
  && switch2 = false ->
  exists e',
    arbitrate true handleSynced handleLatched switch e = Ok (tt, e')
    /\ _model e' = _model (afterSongRequests handleSynced handleLatched changed e2)
    /\ calls e' = calls e2 ++ pushCalls (ps_trackStates (playState (_model e')))
                               CONFIG_TRACK_COUNT
    /\ enginesReady (_trackEngines e').
Proof.
  intros Hrun1 Hrun2 HS2 Hquiet.
  pose proof (WFsong_afterSongRequests s handleSynced handleLatched changed e2 HS2) as HS4.
  destruct (returns_Ok _ _ _ (pushTrackStates_spec _ (WFsong_WF _ _ HS4)))
    as ([] & e' & Hrun6 & Honly6 & Hcalls6 & Hready6).
  exists e'. rewrite (arbitrate_steps _ _ _ _ _ _ _ _ Hrun1 Hrun2). cbv zeta.
  rewrite Hquiet. split; [exact Hrun6|].
  pose proof (onlyEngines_model _ _ Honly6) as Hmodel6.
  split; [exact Hmodel6|]. split; [|exact Hready6].
  rewrite Hcalls6, Hmodel6. reflexivity.
Qed.

(** X5. A Play request for a slot of the song.  The song is put on the
    requested slot, on its first repeat, the patterns of the slot are
    written to every track state, and the song plays unless a Stop
    request or a pattern request fires in the same call; the play and
    stop requests are cleared.  No slot change follows in this call, at
    a measure boundary either, and no engine is reset: the only calls
    are the push of the track states. *)
Theorem X5_play_request (ticked : bool) (e : Engine) (slot : SongSlot) :
  let st := ps_songState (playState (_model e)) in
  let synced := handleSyncedRequests (_tick e) (measureDivisor (_model e)) in
  let latched := ps_executeLatchedRequests (playState (_model e)) in
  let playMask := playRequests synced latched in
  let stopMask := stopRequests synced latched in
  WF e ->
  hasAnyRequests (playState (_model e)) = true ->
  hasRequests (ss_state st) playMask = true ->
  0 <= ss_requestedSlot st < song_slotCount (song (_model e)) ->
  at_ (song_slots (song (_model e))) (ss_requestedSlot st) = Some slot ->
  exists e',
    updatePlayState ticked e = Ok (tt, e')
    /\ ss_currentSlot (ps_songState (playState (_model e'))) = ss_requestedSlot st
    /\ ss_currentRepeat (ps_songState (playState (_model e'))) = 0
    /\ ss_playing (ps_songState (playState (_model e')))
       = negb (patternRequested (patternRequests synced latched)
                 (ps_trackStates (playState (_model e))) CONFIG_TRACK_COUNT
               || hasRequests (ss_state st) stopMask)
    /\ hasRequests (ss_state (ps_songState (playState (_model e')))) playMask = false
    /\ hasRequests (ss_state (ps_songState (playState (_model e')))) stopMask = false
    /\ patternsApplied slot CONFIG_TRACK_COUNT e'
    /\ calls e' = calls e ++ pushCalls (ps_trackStates (playState (_model e')))
                               CONFIG_TRACK_COUNT.
Proof.
  intros st synced latched playMask stopMask HW Hany Hfires Hvalid Hslot.
  rewrite (updatePlayState_arbitrate ticked e (ok_divisor _ (proj2 HW))), Hany.
  fold synced latched.
  set (switch := switchToNextSlot ticked (_tick e) (measureDivisor (_model e))).
  destruct (arbitrate_requests (song (_model e)) synced latched switch e (conj HW eq_refl))
    as (changed & e1 & switch2 & e2 & _ & _ & Hrun1 & Honly1 & _ & Hchanged & Hrun2 & HS2 & _).
  destruct (onlyTrackStates_songState _ _ Honly1) as [Hst1 Hsong1].
  assert (HS1 : WFsong (song (_model e)) e1).
  { destruct (returns_Ok _ _ _ (handleTrackRequests_ws (muteRequests synced latched)
                                  (patternRequests synced latched) (song (_model e)) e
                                  (conj HW eq_refl)))
      as (changed' & e1' & Hrun1' & HS1').
    rewrite Hrun1 in Hrun1'. injection Hrun1' as _ <-. exact HS1'. }
  destruct (returns_Ok _ _ _
              (handlePlayRequest_valid (song (_model e)) playMask switch e1 slot HS1
                 ltac:(rewrite Hst1; exact Hfires) ltac:(rewrite Hst1; exact Hvalid)
                 ltac:(rewrite Hst1; exact Hslot)))
    as (switch2' & e2' & Hrun2' & -> & Hst2 & Hcalls2 & Hpat2).
  unfold playMask in Hrun2'. rewrite Hrun2 in Hrun2'. injection Hrun2' as -> <-.
  destruct (arbitrate_no_change (song (_model e)) synced latched switch e changed e1 false e2
              Hrun1 Hrun2 HS2 (andb_false_r _))
    as (e' & Hrun & Hmodel & Hcalls & _).
  exists e'. split; [exact Hrun|]. rewrite Hmodel in Hcalls. rewrite Hmodel.
  unfold afterSongRequests. cbv zeta.
  cbn [_model set_model playState set_playState ps_songState set_songState clearPending
       ss_clearRequests ss_currentSlot ss_currentRepeat ss_playing ss_state].
  rewrite Hst2, Hst1. fold st. cbn [ss_setPlaying ss_state ss_currentSlot ss_currentRepeat
                                     ss_playing ss_setCurrentRepeat ss_setCurrentSlot].
  rewrite <- Hchanged. fold stopMask.
  split; [destruct (changed || hasRequests (ss_state st) stopMask); reflexivity|].
  split; [destruct (changed || hasRequests (ss_state st) stopMask); reflexivity|].
  split; [destruct (changed || hasRequests (ss_state st) stopMask); reflexivity|].
  split.
  { destruct (changed || hasRequests (ss_state st) stopMask); apply hasRequests_cleared. }
  split.
  { destruct (changed || hasRequests (ss_state st) stopMask); apply hasRequests_cleared_r. }
  split; [|rewrite Hcalls, Hcalls2, (onlyTrackStates_calls _ _ Honly1); reflexivity].
  intros i Hi. destruct (Hpat2 i Hi) as (t & p & Ht & Hp & Heq).
  exists t, p. rewrite Hmodel. split; [exact Ht|]. split; assumption.
Qed.

End SongRequests2.
Section SongRequests3.
Context {cfg : Config} {col : Collaborators}.

(** X6. A Stop request, or a pattern request on any track, stops the song.
    When a request bucket is set, no Play request fires, and a Stop
    request or a pattern request of a track fires, the song is not
    playing after the call and stays on its slot and repeat: no slot
    change follows in the same call, at the last tick of a measure
    either, and no engine is reset. *)
Theorem X6_stop_request (ticked : bool) (e : Engine) :
  let st := ps_songState (playState (_model e)) in
  let synced := handleSyncedRequests (_tick e) (measureDivisor (_model e)) in
  let latched := ps_executeLatchedRequests (playState (_model e)) in
  let playMask := playRequests synced latched in
  let stopMask := stopRequests synced latched in
  WF e ->
  hasAnyRequests (playState (_model e)) = true ->
  hasRequests (ss_state st) playMask = false ->
  patternRequested (patternRequests synced latched)
    (ps_trackStates (playState (_model e))) CONFIG_TRACK_COUNT
  || hasRequests (ss_state st) stopMask = true ->
  exists e',
    updatePlayState ticked e = Ok (tt, e')
    /\ ss_playing (ps_songState (playState (_model e'))) = false
    /\ ss_currentSlot (ps_songState (playState (_model e'))) = ss_currentSlot st
    /\ ss_currentRepeat (ps_songState (playState (_model e'))) = ss_currentRepeat st
    /\ hasRequests (ss_state (ps_songState (playState (_model e')))) stopMask = false
    /\ calls e' = calls e ++ pushCalls (ps_trackStates (playState (_model e')))
                               CONFIG_TRACK_COUNT.
Proof.
  intros st synced latched playMask stopMask HW Hany Hnone Hstops.
  rewrite (updatePlayState_arbitrate ticked e (ok_divisor _ (proj2 HW))), Hany.
  fold synced latched.
  set (switch := switchToNextSlot ticked (_tick e) (measureDivisor (_model e))).
  destruct (arbitrate_requests (song (_model e)) synced latched switch e (conj HW eq_refl))
    as (changed & e1 & switch2 & e2 & _ & _ & Hrun1 & Honly1 & _ & Hchanged & Hrun2 & HS2 & _).
  destruct (onlyTrackStates_songState _ _ Honly1) as [Hst1 Hsong1].
  rewrite handlePlayRequest_none in Hrun2 by (rewrite Hst1; exact Hnone).
  injection Hrun2 as <- <-.
  assert (Hrun2 : handlePlayRequest (playRequests synced latched) switch e1 = Ok (switch, e1))
    by (apply handlePlayRequest_none; rewrite Hst1; exact Hnone).
  assert (Hstopped : ss_playing (ps_songState
                        (playState (_model (afterSongRequests synced latched changed e1))))
                     = false).
  { unfold afterSongRequests. cbv zeta. rewrite Hst1. fold st stopMask.
    rewrite Hchanged, Hstops. reflexivity. }
  destruct (arbitrate_no_change (song (_model e)) synced latched switch e changed e1 switch e1
              Hrun1 Hrun2 HS2 ltac:(rewrite Hstopped; reflexivity))
    as (e' & Hrun & Hmodel & Hcalls & _).
  exists e'. split; [exact Hrun|]. rewrite Hmodel in Hcalls. rewrite Hmodel.
  split; [exact Hstopped|].
  unfold afterSongRequests. cbv zeta. rewrite Hst1. fold st stopMask.
  rewrite <- Hchanged in Hstops. rewrite Hstops.
  split; [reflexivity|]. split; [reflexivity|].
  split; [apply hasRequests_cleared_r|].
  rewrite Hcalls, (onlyTrackStates_calls _ _ Honly1). reflexivity.
Qed.

End SongRequests3.
Section IdleArbitration.
Context {cfg : Config} {col : Collaborators}.

(** X7. Arbitration with nothing requested.  With a zero measure divisor the
    call divides by zero.  Otherwise, when no request bucket is set and
    no slot change is due, the call leaves the model alone; it makes no
    call and changes nothing unless it is the ticked call of the last tick
    of a measure, where it still gives every engine the mute, fill and
    pattern of its track state. *)
Theorem X7_idle_arbitration (ticked : bool) (e : Engine) :
  let switch := switchToNextSlot ticked (_tick e) (measureDivisor (_model e)) in
  (measureDivisor (_model e) = 0 -> updatePlayState ticked e = Failed DivisionByZero)
  /\ (WF e ->
      hasAnyRequests (playState (_model e)) = false ->
      ss_playing (ps_songState (playState (_model e))) && switch = false ->
      exists e',
        updatePlayState ticked e = Ok (tt, e')
        /\ _model e' = _model e
        /\ calls e' = calls e
                      ++ (if switch
                          then pushCalls (ps_trackStates (playState (_model e)))
                                 CONFIG_TRACK_COUNT
                          else [])
        /\ (switch = false -> e' = e)).
Proof.
  intros switch. split.
  - intros Hzero. unfold updatePlayState, mbind, M_bind, gets. cbv zeta.
    destruct (decide (measureDivisor (_model e) = 0)); [reflexivity | contradiction].
  - intros HW Hany Hquiet.
    rewrite (updatePlayState_arbitrate ticked e (ok_divisor _ (proj2 HW))), Hany.
    fold switch. unfold arbitrate, getPlayState, gets, when, mbind, M_bind, mret, M_ret.
    rewrite Hquiet. cbn [orb]. destruct switch.
    + destruct (returns_Ok _ _ _ (pushTrackStates_spec e HW))
        as ([] & e' & Hrun & Honly & Hcalls & _).
      exists e'. rewrite Hrun. split; [reflexivity|].
      split; [exact (onlyEngines_model _ _ Honly)|]. split; [exact Hcalls | discriminate].
    + exists e. split; [reflexivity|]. split; [reflexivity|].
      split; [rewrite app_nil_r; reflexivity | reflexivity].
Qed.

End IdleArbitration.

Section Cycles.
Context {cfg : Config} {col : Collaborators}.

(** X15. Well-formedness is an invariant of the cycle: [update] of a
    well-formed engine runs to its end and leaves a well-formed engine
    with both lock requests cleared, so that any number of cycles can
    follow one another, whatever [os::ticks()] returns. *)
Theorem X15_cycles_run (systemTicks : list Z) (e : Engine) :
  routingKeepsProjectOk ->
  WF e ->
  exists e',
    forM systemTicks update e = Ok (tt, e')
    /\ WF e'
    /\ (systemTicks <> [] -> _requestLock e' = 0 /\ _requestUnlock e' = 0).
Proof.
  intros Hrouting. revert e.
  induction systemTicks as [|ticks systemTicks IH]; intros e HW.
  - exists e. split; [reflexivity|]. split; [exact HW | intros Hne; contradiction].
  - destruct (update_cycle ticks e Hrouting HW) as (e1 & Hrun1 & HW1 & Hfields & _).
    destruct (IH e1 HW1) as (e' & Hrun & HW' & Hflags).
    exists e'. unfold forM in *. cbn [foldM]. unfold mbind, M_bind at 1. rewrite Hrun1.
    split; [exact Hrun|]. split; [exact HW'|]. intros _.
    destruct systemTicks as [|ticks' systemTicks]; [|apply Hflags; discriminate].
    cbn in Hrun. injection Hrun as <-. injection Hfields as _ Hrl Hru. auto.
Qed.

End Cycles.
Section OutputValues.
Context {cfg : Config} {col : Collaborators}.

Lemma testbit_setGate chan value gates j :
  0 <= chan ->
  Z.testbit (setGate chan value gates) j
  = if decide (j = chan) then value else Z.testbit gates j.
Proof.
  intros Hchan. unfold setGate. destruct (decide (j = chan)) as [->|Hne]; destruct value.
  - apply Z.setbit_eq. exact Hchan.
  - apply Z.clearbit_eq.
  - apply Z.setbit_neq; [exact Hchan | congruence].
  - apply Z.clearbit_neq. congruence.
Qed.

Lemma clearedBelow_refl e : clearedBelow 0 e e.
Proof.
  split; [reflexivity|]. intros k te Hat.
  destruct (decide (k <> selectedTrackIndex (_model e) /\ k < 0)) as [[_ Hneg]|_];
    [|exact Hat].
  apply at_length in Hat. lia.
Qed.

End OutputValues.
Section OutputValues2.
Context {cfg : Config} {col : Collaborators}.

Lemma besidesOutputs_model e e' : besidesOutputs e' = besidesOutputs e -> _model e' = _model e.
Proof. unfold besidesOutputs. intros Heq. congruence. Qed.

Lemma besidesOutputs_overrides e e' :
  besidesOutputs e' = besidesOutputs e ->
  _gateOutputOverride e' = _gateOutputOverride e
  /\ _cvOutputOverride e' = _cvOutputOverride e
  /\ _clock e' = _clock e.
Proof. unfold besidesOutputs, frameOf. intros Heq. repeat split; congruence. Qed.

Lemma engineAtDraw_cleared selected chan src (te : TrackEngine) :
  (if decide (src <> selected /\ src < chan + 1) then te_call TEclearIdleOutput te else te)
  = engineAtDraw selected chan src te.
Proof.
  unfold engineAtDraw.
  destruct (decide (src <> selected /\ src < chan + 1)) as [[Hs Hlt]|Hn];
    destruct (decide (src <> selected /\ src <= chan)) as [[Hs' Hle]|Hn'];
    try reflexivity; exfalso.
  - apply Hn'. split; [exact Hs | lia].
  - apply Hn. split; [exact Hs' | lia].
Qed.

(** Lines 312-314 of a pass over [e]. *)
Lemma clear_values chan e e1 :
  WF e -> 0 <= chan < CONFIG_TRACK_COUNT ->
  besidesOutputs e1 = besidesOutputs e ->
  clearedBelow chan e e1 ->
  returns (when (negb (bool_decide (chan = selectedTrackIndex (_model e1))))
             (callTrack chan TEclearIdleOutput)) e1 (fun _ e2 =>
    besidesOutputs e2 = besidesOutputs e
    /\ clearedBelow (chan + 1) e e2
    /\ _gateOutput e2 = _gateOutput e1 /\ _cvOutput e2 = _cvOutput e1).
Proof.
  intros HW Hchan Hrest [Hlen Hcleared].
  rewrite (besidesOutputs_model _ _ Hrest).
  destruct (proj1 HW chan Hchan) as (te & Hte).
  pose proof (Hcleared chan te Hte) as Hslot.
  destruct (decide (chan <> selectedTrackIndex (_model e) /\ chan < chan)) as [[_ Hlt]|_];
    [lia|].
  run_step.
  - apply negb_true_iff, bool_decide_eq_false in H. rename H into Hsel.
    eapply post_callTrack_at; [exact Hslot|].
    split; [exact Hrest|]. split; [|split; reflexivity].
    split; [cbn [_trackEngines set_calls set_trackEngines]; rewrite length_insert; exact Hlen|].
    intros k te' Hte'. cbn [_trackEngines set_calls set_trackEngines].
    destruct (decide (k = chan)) as [->|Hne].
    + rewrite Hte in Hte'. injection Hte' as <-.
      rewrite at_insert_eq by (eapply at_length, Hslot).
      destruct (decide (chan <> selectedTrackIndex (_model e) /\ chan < chan + 1)) as [_|Hn];
        [reflexivity|].
      exfalso. apply Hn. split; [exact Hsel | lia].
    + rewrite at_insert_ne by lia. rewrite (Hcleared k te' Hte').
      destruct (decide (k <> selectedTrackIndex (_model e) /\ k < chan)) as [[Hs Hlt]|Hn];
        destruct (decide (k <> selectedTrackIndex (_model e) /\ k < chan + 1))
          as [[Hs' Hlt']|Hn']; try reflexivity; exfalso.
      * apply Hn'. split; [exact Hs | lia].
      * apply Hn. split; [exact Hs' | lia].
  - apply negb_false_iff, bool_decide_eq_true in H. rename H into Hsel.
    split; [exact Hrest|]. split; [|split; reflexivity].
    split; [exact Hlen|]. intros k te' Hte'. rewrite (Hcleared k te' Hte').
    destruct (decide (k <> selectedTrackIndex (_model e) /\ k < chan)) as [[Hs Hlt]|Hn];
      destruct (decide (k <> selectedTrackIndex (_model e) /\ k < chan + 1))
        as [[Hs' Hlt']|Hn']; try reflexivity; exfalso.
    + apply Hn'. split; [exact Hs | lia].
    + apply Hn. split; [exact Hs' | lia].
Qed.

End OutputValues2.
Section OutputValues3.
Context {cfg : Config} {col : Collaborators}.

(** The draw of output [chan] in a pass over [e] that has cleared the
    tracks up to [chan]. *)
Lemma drawOf_at table e e1 chan src sub counters :
  WF e -> routed table ->
  clearedBelow (chan + 1) e e1 ->
  at_ table chan = Some src ->
  at_ counters src = Some sub ->
  countersAt table false chan counters ->
  exists te,
    at_ (_trackEngines e1) src = Some (Some te)
    /\ drawOf table e chan = Some (te, sub).
Proof.
  intros HW Hrouted [_ Hcleared] Hsrc Hsub Hcounters.
  destruct (proj1 HW src (routed_at _ _ _ Hrouted Hsrc)) as (te0 & Hte0).
  exists (engineAtDraw (selectedTrackIndex (_model e)) chan src te0). split.
  - rewrite (Hcleared src te0 Hte0), engineAtDraw_cleared. reflexivity.
  - unfold drawOf. rewrite Hsrc. cbn. rewrite Hte0. cbn.
    rewrite (Hcounters eq_refl src sub Hsub). reflexivity.
Qed.

(** Lines 315-322 of a pass over [e]. *)
Lemma gate_values chan counters e e1 :
  WF e -> 0 <= chan < CONFIG_TRACK_COUNT ->
  besidesOutputs e1 = besidesOutputs e ->
  clearedBelow (chan + 1) e e1 ->
  gatesBelow chan e e1 ->
  countersAt (gateOutputTracks (_model e)) (_gateOutputOverride e) chan counters ->
  covers counters ->
  returns (updateGateOutput (clk_isIdle (_clock e)) chan counters) e1 (fun counters' e2 =>
    besidesOutputs e2 = besidesOutputs e
    /\ _trackEngines e2 = _trackEngines e1 /\ _cvOutput e2 = _cvOutput e1
    /\ gatesBelow (chan + 1) e e2
    /\ countersAt (gateOutputTracks (_model e)) (_gateOutputOverride e) (chan + 1) counters'
    /\ covers counters').
Proof.
  intros HW Hchan Hrest Hcleared (Hdrawn & Hsame & Hother) Hcounters Hcov.
  pose proof (besidesOutputs_model _ _ Hrest) as Hmodel.
  destruct (besidesOutputs_overrides _ _ Hrest) as (Hgate & _ & _).
  pose proof (ok_gates _ (proj2 HW)) as Hrouted.
  unfold updateGateOutput. do 2 run_step. rewrite Hmodel.
  do 2 run_step; [|eapply at_None_covers; [apply (proj1 Hrouted)| |eassumption]; exact Hchan].
  rename x into src. rename H into Hsrc.
  pose proof (routed_at _ _ _ Hrouted Hsrc) as Hsrc_range.
  do 2 run_step. rewrite Hgate.
  destruct (_gateOutputOverride e) eqn:Hoverride.
  - run_step. split; [exact Hrest|]. split; [reflexivity|]. split; [reflexivity|].
    split; [|split; [eapply countersAt_overridden; exact Hcounters | exact Hcov]].
    split; [intros Hoff; rewrite Hoverride in Hoff; discriminate|].
    split; [intros _; apply Hsame; reflexivity|].
    intros j _. rewrite (Hsame eq_refl). reflexivity.
  - destruct (at_covers _ src Hcov Hsrc_range) as (sub & Hsub).
    destruct (drawOf_at _ e e1 chan src sub counters HW Hrouted Hcleared Hsrc Hsub Hcounters)
      as (te & Hte & Hdraw).
    run_step. unfold trackEngineAt. do 4 run_step; [|rewrite Hte in *; discriminate].
    rewrite Hte in H. injection H as <-. run_step. do 2 run_step;
      [|rewrite Hsub in *; discriminate].
    rewrite Hsub in H. injection H as <-. cbv zeta. do 5 run_step.
    split; [exact Hrest|]. split; [reflexivity|]. split; [reflexivity|].
    split; [|split; [eapply countersAt_draw; eassumption | apply covers_insert, Hcov]].
    unfold gatesBelow. cbn [_gateOutput set_gateOutput set_calls].
    split; [|split; [intros Hon; rewrite Hoverride in Hon; discriminate|]].
    + intros _ j v Hj Hv. rewrite testbit_setGate by lia.
      destruct (decide (j = chan)) as [->|Hne]; [|apply (Hdrawn eq_refl); [lia | exact Hv]].
      unfold gateDrawn in Hv. rewrite Hdraw in Hv. cbn in Hv. injection Hv as <-.
      reflexivity.
    + intros j Hj. rewrite testbit_setGate by lia.
      destruct (decide (j = chan)) as [->|Hne]; [lia|]. apply Hother. lia.
Qed.

(** Lines 323-330 of a pass over [e]. *)
Lemma cv_values chan counters e e1 :
  WF e -> 0 <= chan < CONFIG_TRACK_COUNT ->
  besidesOutputs e1 = besidesOutputs e ->
  clearedBelow (chan + 1) e e1 ->
  cvsBelow chan e e1 ->
  countersAt (cvOutputTracks (_model e)) (_cvOutputOverride e) chan counters ->
  covers counters ->
  returns (updateCvOutput (clk_isIdle (_clock e)) chan counters) e1 (fun counters' e2 =>
    besidesOutputs e2 = besidesOutputs e
    /\ _trackEngines e2 = _trackEngines e1 /\ _gateOutput e2 = _gateOutput e1
    /\ cvsBelow (chan + 1) e e2
    /\ countersAt (cvOutputTracks (_model e)) (_cvOutputOverride e) (chan + 1) counters'
    /\ covers counters').
Proof.
  intros HW Hchan Hrest Hcleared (Hdrawn & Hsame & Hother) Hcounters Hcov.
  pose proof (besidesOutputs_model _ _ Hrest) as Hmodel.
  destruct (besidesOutputs_overrides _ _ Hrest) as (_ & Hcv & _).
  pose proof (ok_cvs _ (proj2 HW)) as Hrouted.
  unfold updateCvOutput. do 2 run_step. rewrite Hmodel.
  do 2 run_step; [|eapply at_None_covers; [apply (proj1 Hrouted)| |eassumption]; exact Hchan].
  rename x into src. rename H into Hsrc.
  pose proof (routed_at _ _ _ Hrouted Hsrc) as Hsrc_range.
  do 2 run_step. rewrite Hcv.
  destruct (_cvOutputOverride e) eqn:Hoverride.
  - run_step. split; [exact Hrest|]. split; [reflexivity|]. split; [reflexivity|].
    split; [|split; [eapply countersAt_overridden; exact Hcounters | exact Hcov]].
    split; [intros Hoff; rewrite Hoverride in Hoff; discriminate|].
    split; [intros _; apply Hsame; reflexivity|].
    intros j _. rewrite (Hsame eq_refl). reflexivity.
  - destruct (at_covers _ src Hcov Hsrc_range) as (sub & Hsub).
    destruct (drawOf_at _ e e1 chan src sub counters HW Hrouted Hcleared Hsrc Hsub Hcounters)
      as (te & Hte & Hdraw).
    run_step. unfold trackEngineAt. do 4 run_step; [|rewrite Hte in *; discriminate].
    rewrite Hte in H. injection H as <-. run_step. do 2 run_step;
      [|rewrite Hsub in *; discriminate].
    rewrite Hsub in H. injection H as <-. cbv zeta. do 5 run_step.
    split; [exact Hrest|]. split; [reflexivity|]. split; [reflexivity|].
    split; [|split; [eapply countersAt_draw; eassumption | apply covers_insert, Hcov]].
    unfold cvsBelow. cbn [_cvOutput set_cvOutput set_calls].
    split; [|split; [intros Hon; rewrite Hoverride in Hon; discriminate|]].
    + intros _ j v Hj Hv.
      destruct (decide (j = chan)) as [->|Hne].
      * rewrite lookup_insert_eq. unfold cvDrawn in Hv. rewrite Hdraw in Hv. cbn in Hv.
        exact Hv.
      * rewrite lookup_insert_ne by congruence. apply (Hdrawn eq_refl); [lia | exact Hv].
    + intros j Hj. rewrite lookup_insert_ne by lia. apply Hother. lia.
Qed.

End OutputValues3.
Section OutputValues4.
Context {cfg : Config} {col : Collaborators}.

Lemma countersAt_zero table override : countersAt table override 0 zeroCounters.
Proof.
  intros _ T sub Hat. unfold countBefore. cbn.
  unfold zeroCounters, at_ in Hat. destruct (decide (0 <= T)); [|discriminate].
  apply lookup_replicate in Hat as [-> _]. reflexivity.
Qed.

Lemma updateTrackOutputs_values e :
  WF e ->
  returns updateTrackOutputs e (fun _ e' =>
    besidesOutputs e' = besidesOutputs e
    /\ clearedBelow CONFIG_TRACK_COUNT e e'
    /\ gatesBelow CONFIG_TRACK_COUNT e e'
    /\ cvsBelow CONFIG_TRACK_COUNT e e').
Proof.
  intros HW. unfold updateTrackOutputs. do 3 run_step.
  eapply post_mono.
  - apply (post_foldTracks _ (fun chan counters e1 =>
             besidesOutputs e1 = besidesOutputs e
             /\ clearedBelow chan e e1
             /\ gatesBelow chan e e1
             /\ cvsBelow chan e e1
             /\ countersAt (gateOutputTracks (_model e)) (_gateOutputOverride e) chan
                           (fst counters)
             /\ countersAt (cvOutputTracks (_model e)) (_cvOutputOverride e) chan
                           (snd counters)
             /\ covers (fst counters) /\ covers (snd counters))).
    + split; [reflexivity|]. split; [apply clearedBelow_refl|].
      split; [split; [intros _ j v Hj; lia | split; reflexivity]|].
      split; [split; [intros _ j v Hj; lia | split; reflexivity]|].
      cbn [fst snd]. split; [apply countersAt_zero|]. split; [apply countersAt_zero|].
      split; apply covers_zeroCounters.
    + intros chan counters e1 Hchan (Hrest & Hcleared & Hgates & Hcvs & Hcg & Hcc & Hvg & Hvc).
      unfold updateTrackOutput. do 3 run_step.
      eapply post_mono; [apply (clear_values chan e e1); assumption|].
      cbv beta. intros _ e2 (Hrest2 & Hcleared2 & Hg2 & Hc2). run_step.
      eapply post_mono.
      { apply (gate_values chan (fst counters) e e2); try assumption.
        destruct Hgates as (Hd & Hs & Ho). rewrite <- Hg2 in Hd, Hs, Ho.
        split; [exact Hd|]. split; assumption. }
      cbv beta. intros gateCounters e3 (Hrest3 & Hengines3 & Hc3 & Hgates3 & Hcg3 & Hvg3).
      run_step. eapply post_mono.
      { apply (cv_values chan (snd counters) e e3); try assumption.
        - destruct Hcleared2 as [Hlen Hcl]. split; rewrite Hengines3; assumption.
        - destruct Hcvs as (Hd & Hs & Ho). rewrite <- Hc2, <- Hc3 in Hd, Hs, Ho.
          split; [exact Hd|]. split; assumption. }
      cbv beta. intros cvCounters e4 (Hrest4 & Hengines4 & Hg4 & Hcvs4 & Hcc4 & Hvc4).
      run_step. cbn [fst snd]. split; [exact Hrest4|].
      split; [destruct Hcleared2 as [Hlen Hcl]; split; rewrite Hengines4, Hengines3;
              assumption|].
      split.
      { destruct Hgates3 as (Hd & Hs & Ho). rewrite <- Hg4 in Hd, Hs, Ho.
        split; [exact Hd|]. split; assumption. }
      split; [exact Hcvs4|]. auto.
  - cbv beta. intros counters e' (Hrest & Hcleared & Hgates & Hcvs & _). run_step.
    unfold trackCount in *.
    destruct (Z.max_spec 0 CONFIG_TRACK_COUNT) as [[_ Hmax]|[Hle Hmax]];
      rewrite Hmax in *; [auto|].
    split; [exact Hrest|]. split; [|split].
    + destruct Hcleared as [Hlen Hcl]. split; [exact Hlen|].
      intros k te Hte. rewrite (Hcl k te Hte). pose proof (at_length _ _ _ Hte).
      destruct (decide (k <> selectedTrackIndex (_model e) /\ k < 0)) as [[_ Hlt]|_];
        destruct (decide (k <> selectedTrackIndex (_model e) /\ k < CONFIG_TRACK_COUNT))
          as [[_ Hlt']|_]; try reflexivity; lia.
    + destruct Hgates as (_ & Hs & Ho). split; [intros _ j v Hj; lia|].
      split; [exact Hs|]. intros j _. apply Ho. lia.
    + destruct Hcvs as (_ & Hs & Ho). split; [intros _ j v Hj; lia|].
      split; [exact Hs|]. intros j _. apply Ho. lia.
Qed.

End OutputValues4.
Section OutputValues5.
Context {cfg : Config} {col : Collaborators}.

Lemma drawOf_defined table e chan :
  WF e -> routed table -> 0 <= chan < CONFIG_TRACK_COUNT ->
  exists src te,
    at_ table chan = Some src
    /\ at_ (_trackEngines e) src = Some (Some te)
    /\ drawOf table e chan
       = Some (engineAtDraw (selectedTrackIndex (_model e)) chan src te,
               countBefore table chan src).
Proof.
  intros HW Hrouted Hchan.
  destruct (at_covers _ chan (proj1 Hrouted) Hchan) as (src & Hsrc).
  destruct (proj1 HW src (routed_at _ _ _ Hrouted Hsrc)) as (te & Hte).
  exists src, te. split; [exact Hsrc|]. split; [exact Hte|].
  unfold drawOf. rewrite Hsrc. cbn. rewrite Hte. reflexivity.
Qed.

(** X11. What an output pass writes.  The pass of a well-formed engine runs
    to its end.  Without the gate override, bit [chan] of the gate
    output is the gate of the engine of its source track, drawn with the
    number of lower outputs of that source as sub-index: the idle gate
    when the Clock is idle and the engine asks for it, the sequenced gate
    otherwise; the engine is asked after its idle output has been cleared
    when its track is not selected and is not above [chan].  The same
    holds for the CV channels.  Bits and channels outside the outputs are
    left alone, and so is an output kind that is overridden.  Beside the
    outputs, only the idle outputs of the engines and the call log change. *)
Theorem X11_output_values (e : Engine) :
  WF e ->
  exists e',
    updateTrackOutputs e = Ok (tt, e')
    /\ (forall chan, 0 <= chan < CONFIG_TRACK_COUNT ->
          is_Some (gateDrawn e chan) /\ is_Some (cvDrawn e chan))
    /\ (_gateOutputOverride e = false ->
        forall chan v, 0 <= chan < CONFIG_TRACK_COUNT ->
          gateDrawn e chan = Some v -> Z.testbit (_gateOutput e') chan = v)
    /\ (_cvOutputOverride e = false ->
        forall chan v, 0 <= chan < CONFIG_TRACK_COUNT ->
          cvDrawn e chan = Some v -> _cvOutput e' !! chan = Some v)
    /\ (forall k, ~ 0 <= k < CONFIG_TRACK_COUNT ->
          Z.testbit (_gateOutput e') k = Z.testbit (_gateOutput e) k
          /\ _cvOutput e' !! k = _cvOutput e !! k)
    /\ (_gateOutputOverride e = true -> _gateOutput e' = _gateOutput e)
    /\ (_cvOutputOverride e = true -> _cvOutput e' = _cvOutput e)
    /\ besidesOutputs e' = besidesOutputs e
    /\ (forall k te, at_ (_trackEngines e) k = Some (Some te) ->
          at_ (_trackEngines e') k
          = Some (Some (if decide (k <> selectedTrackIndex (_model e)
                                   /\ k < CONFIG_TRACK_COUNT)
                        then te_call TEclearIdleOutput te else te))).
Proof.
  intros HW.
  destruct (returns_Ok _ _ _ (updateTrackOutputs_values e HW))
    as ([] & e' & Hrun & Hrest & [_ Hcleared] & (Hgd & Hgs & Hgo) & (Hcd & Hcs & Hco)).
  exists e'. split; [exact Hrun|]. split.
  { intros chan Hchan.
    destruct (drawOf_defined _ e chan HW (ok_gates _ (proj2 HW)) Hchan)
      as (gsrc & gte & _ & _ & Hg).
    destruct (drawOf_defined _ e chan HW (ok_cvs _ (proj2 HW)) Hchan)
      as (csrc & cte & _ & _ & Hc).
    unfold gateDrawn, cvDrawn. rewrite Hg, Hc. split; eexists; reflexivity. }
  split; [exact Hgd|]. split; [exact Hcd|].
  split; [intros k Hk; split; [apply Hgo | apply Hco]; exact Hk|].
  split; [exact Hgs|]. split; [exact Hcs|]. split; [exact Hrest | exact Hcleared].
Qed.

(** X12. Where the idle preview is confined to the selected track.  If
    [clearIdleOutput] leaves an engine with no idle output to show, an
    output whose source track is not the selected one and is not above
    the output carries the sequenced gate and CV of its source after a
    pass, also when the Clock is idle. *)
Theorem X12_idle_preview_confined (e : Engine) (chan src : Z) (te : TrackEngine) :
  (forall te', te_idleOutput (te_call TEclearIdleOutput te') = false) ->
  WF e ->
  0 <= chan < CONFIG_TRACK_COUNT ->
  src <> selectedTrackIndex (_model e) ->
  src <= chan ->
  at_ (_trackEngines e) src = Some (Some te) ->
  exists e',
    updateTrackOutputs e = Ok (tt, e')
    /\ (_gateOutputOverride e = false ->
        at_ (gateOutputTracks (_model e)) chan = Some src ->
        Z.testbit (_gateOutput e') chan
        = te_gateOutput (te_call TEclearIdleOutput te)
            (countBefore (gateOutputTracks (_model e)) chan src))
    /\ (_cvOutputOverride e = false ->
        at_ (cvOutputTracks (_model e)) chan = Some src ->
        _cvOutput e' !! chan
        = Some (te_cvOutput (te_call TEclearIdleOutput te)
                  (countBefore (cvOutputTracks (_model e)) chan src))).
Proof.
  intros Hclears HW Hchan Hsel Hle Hte.
  destruct (returns_Ok _ _ _ (updateTrackOutputs_values e HW))
    as ([] & e' & Hrun & _ & _ & (Hgd & _) & (Hcd & _)).
  assert (Hdraw : engineAtDraw (selectedTrackIndex (_model e)) chan src te
                  = te_call TEclearIdleOutput te).
  { unfold engineAtDraw.
    destruct (decide (src <> selectedTrackIndex (_model e) /\ src <= chan)) as [_|Hn];
      [reflexivity|].
    exfalso. apply Hn. split; assumption. }
  exists e'. split; [exact Hrun|]. split.
  - intros Hoff Hsrc. apply (Hgd Hoff chan _ Hchan).
    unfold gateDrawn, drawOf. rewrite Hsrc. cbn. rewrite Hte. cbn.
    rewrite Hdraw, Hclears, andb_false_r. reflexivity.
  - intros Hoff Hsrc. apply (Hcd Hoff chan _ Hchan).
    unfold cvDrawn, drawOf. rewrite Hsrc. cbn. rewrite Hte. cbn.
    rewrite Hdraw, Hclears, andb_false_r. reflexivity.
Qed.

End OutputValues5.
Abbreviation keepsTick m :=
  (keepsSteady tickOf (fun c => isTickCall c = false) m).

Section TickFrame.
Context {cfg : Config} {col : Collaborators}.

Lemma callTrack_tick slot c :
  isTickCall (CallTrack slot c) = false -> keepsTick (callTrack slot c).
Proof. intros Hc e0 e HS. steady_run. Qed.

Lemma modifyTrackState_tick trackIndex f : keepsTick (modifyTrackState trackIndex f).
Proof. intros e0 e HS. unfold modifyTrackState, getTrackState. steady_run. Qed.

Lemma handleTrackRequests_tick muteMask patternMask :
  keepsTick (handleTrackRequests muteMask patternMask).
Proof.
  intros e0 e HS. unfold handleTrackRequests.
  apply (post_foldM _ (fun _ _ e' => steady tickOf (fun c => isTickCall c = false) e0 e'));
    [exact HS|].
  intros i rest changed e1 HS1. unfold getTrackState.
  steady_run_with ltac:(steady_call (@modifyTrackState) modifyTrackState_tick).
Qed.

Lemma applySlotPatterns_tick slot reset : keepsTick (applySlotPatterns slot reset).
Proof.
  intros e0 e HS. unfold applySlotPatterns.
  apply post_forM; [exact HS|]. intros i e1 _ HS1.
  steady_run_with ltac:(steady_call (@modifyTrackState) modifyTrackState_tick).
Qed.

Lemma handlePlayRequest_tick playMask switch : keepsTick (handlePlayRequest playMask switch).
Proof.
  intros e0 e HS. unfold handlePlayRequest.
  steady_run_with ltac:(steady_call (@applySlotPatterns) applySlotPatterns_tick).
Qed.

Lemma handleStopRequest_tick playMask stopMask changed :
  keepsTick (handleStopRequest playMask stopMask changed).
Proof. intros e0 e HS. unfold handleStopRequest. steady_run. Qed.

Lemma songSlotChange_tick : keepsTick songSlotChange.
Proof.
  intros e0 e HS. unfold songSlotChange.
  steady_run_with ltac:(steady_call (@applySlotPatterns) applySlotPatterns_tick).
Qed.

Lemma pushTrackStates_tick : keepsTick pushTrackStates.
Proof.
  intros e0 e HS. unfold pushTrackStates.
  apply post_forM; [exact HS|]. intros i e1 _ HS1. unfold getTrackState. steady_run.
Qed.

Lemma arbitrate_tick hasAny handleSynced handleLatched switch :
  keepsTick (arbitrate hasAny handleSynced handleLatched switch).
Proof.
  intros e0 e HS. unfold arbitrate.
  steady_run_with ltac:(first
    [ steady_call (@handleTrackRequests) handleTrackRequests_tick
    | steady_call (@handlePlayRequest) handlePlayRequest_tick
    | steady_call (@handleStopRequest) handleStopRequest_tick
    | steady_call (@songSlotChange) songSlotChange_tick
    | steady_call (@pushTrackStates) pushTrackStates_tick ]).
Qed.

Lemma updatePlayState_tick ticked : keepsTick (updatePlayState ticked).
Proof.
  intros e0 e HS. unfold updatePlayState.
  steady_run_with ltac:(steady_call (@arbitrate) arbitrate_tick).
Qed.

Lemma updateGateOutput_tick isIdle trackIndex counters :
  keepsTick (updateGateOutput isIdle trackIndex counters).
Proof. intros e0 e HS. unfold updateGateOutput. steady_run. Qed.

Lemma updateCvOutput_tick isIdle trackIndex counters :
  keepsTick (updateCvOutput isIdle trackIndex counters).
Proof. intros e0 e HS. unfold updateCvOutput. steady_run. Qed.

Lemma updateTrackOutput_tick isIdle trackIndex counters :
  keepsTick (updateTrackOutput isIdle trackIndex counters).
Proof.
  intros e0 e HS. unfold updateTrackOutput.
  steady_run_with ltac:(first [ steady_call (@updateGateOutput) updateGateOutput_tick
                              | steady_call (@updateCvOutput) updateCvOutput_tick ]).
Qed.

Lemma updateTrackOutputs_tick : keepsTick updateTrackOutputs.
Proof.
  intros e0 e HS. unfold updateTrackOutputs. do 3 run_step.
  eapply post_mono.
  - apply (post_foldM _ (fun _ _ e' => steady tickOf (fun c => isTickCall c = false) e0 e'));
      [exact HS|].
    intros i rest counters e1 HS1. apply updateTrackOutput_tick, HS1.
  - cbv beta. intros _ e' HS'. steady_run.
Qed.

End TickFrame.
Section TickLoop.
Context {cfg : Config} {col : Collaborators}.

Lemma tickCallsOf_app log1 log2 :
  tickCallsOf (log1 ++ log2) = tickCallsOf log1 ++ tickCallsOf log2.
Proof. apply filter_app. Qed.

Lemma tickCallsOf_none log :
  Forall (fun c => isTickCall c = false) log -> tickCallsOf log = [].
Proof.
  intros Hnone. apply filter_none. intros c Hc Htick.
  rewrite Forall_forall in Hnone. rewrite (Hnone c Hc) in Htick. discriminate.
Qed.

Lemma tickCallsOf_each tick n :
  tickCallsOf (eachTrack (TEtick tick) n) = eachTrack (TEtick tick) n.
Proof.
  unfold tickCallsOf, eachTrack. induction (seqZ 0 n) as [|i l IH]; [reflexivity|].
  cbn [fmap list_fmap]. rewrite filter_cons_True by reflexivity. f_equal. exact IH.
Qed.

Lemma default_last_cons {A} (d x : A) (l : list A) :
  default d (last (x :: l)) = default x (last l).
Proof.
  destruct l as [|y l]; [reflexivity|]. rewrite last_cons.
  destruct (last (y :: l)) eqn:Hlast; [reflexivity|].
  apply last_None in Hlast. discriminate.
Qed.

(** The body of the tick loop, lines 123-133. *)
Lemma onTick_spec tick e :
  WF e ->
  returns (onTick tick) e (fun _ e' =>
    WF e'
    /\ _clock e' = _clock e /\ _tick e' = tick /\ frameOf e' = frameOf e
    /\ exists new,
         calls e' = calls e ++ new
         /\ tickCallsOf new = eachTrack (TEtick tick) CONFIG_TRACK_COUNT).
Proof.
  intros HW. unfold onTick. do 3 run_step.
  set (e1 := set_tick tick e).
  assert (HW1 : WF e1) by exact HW.
  eapply post_mono.
  { apply post_conj; [apply (updatePlayState_wf true e1 HW1)|].
    apply (updatePlayState_tick true e1 e1), steady_refl. }
  cbv beta. intros _ e2 [HW2 [Hp2 (new2 & Hcalls2 & Hnone2)]]. run_step.
  eapply post_mono; [apply forEachTrackEngine_spec, (proj1 HW2)|].
  cbv beta. intros _ e3 (Honly3 & Hcalls3 & _ & Hready3).
  assert (HW3 : WF e3) by (split; [exact Hready3 | rewrite Honly3; exact (proj2 HW2)]).
  eapply post_mono.
  { apply post_conj; [apply (updateTrackOutputs_wf e3 HW3)|].
    apply (updateTrackOutputs_tick e3 e3), steady_refl. }
  cbv beta. intros _ e4 [HW4 [Hp4 (new4 & Hcalls4 & Hnone4)]].
  assert (Hp3 : tickOf e3 = tickOf e2) by (rewrite Honly3; reflexivity).
  assert (Hp : tickOf e4 = tickOf e1) by congruence.
  assert (Hclock : _clock e4 = _clock e) by exact (f_equal (fun p => fst (fst p)) Hp).
  assert (Htick : _tick e4 = tick) by exact (f_equal (fun p => snd (fst p)) Hp).
  assert (Hframe : frameOf e4 = frameOf e) by exact (f_equal snd Hp).
  split; [exact HW4|]. split; [exact Hclock|]. split; [exact Htick|].
  split; [exact Hframe|].
  exists (new2 ++ eachTrack (TEtick tick) CONFIG_TRACK_COUNT ++ new4). split.
  - rewrite Hcalls4, Hcalls3, Hcalls2, <- !app_assoc. reflexivity.
  - rewrite !tickCallsOf_app, (tickCallsOf_none _ Hnone2), (tickCallsOf_none _ Hnone4),
      tickCallsOf_each, app_nil_r. reflexivity.
Qed.

Lemma tickLoop_spec pending : forall updateOutputs e,
  WF e ->
  returns (tickLoop pending onTick updateOutputs) e (fun updateOutputs' e' =>
    WF e'
    /\ updateOutputs' = (if pending is [] then updateOutputs else false)
    /\ _tick e' = default (_tick e) (last pending)
    /\ clk_ticks (_clock e') = (if pending is [] then clk_ticks (_clock e) else [])
    /\ frameOf e' = frameOf e
    /\ exists new,
         calls e' = calls e ++ new /\ tickCallsOf new = tickCalls pending).
Proof.
  induction pending as [|tick pending IH]; intros updateOutputs e HW; simpl.
  - run_step. split; [exact HW|]. split; [reflexivity|]. split; [reflexivity|].
    split; [reflexivity|]. split; [reflexivity|]. exists []. split; [|reflexivity].
    rewrite app_nil_r. reflexivity.
  - do 3 run_step.
    set (e1 := set_clock (set_clk_ticks pending (_clock e)) e).
    assert (HW1 : WF e1) by exact HW.
    eapply post_mono; [apply (onTick_spec tick e1 HW1)|].
    cbv beta. intros _ e2 (HW2 & Hclock2 & Htick2 & Hframe2 & new2 & Hcalls2 & Hticks2).
    eapply post_mono; [apply (IH false e2 HW2)|].
    cbv beta. intros updateOutputs' e3
      (HW3 & Hflag & Htick3 & Hqueue3 & Hframe3 & new3 & Hcalls3 & Hticks3).
    split; [exact HW3|]. split; [destruct pending; exact Hflag|].
    split.
    { rewrite Htick3, Htick2. symmetry. apply default_last_cons. }
    split; [rewrite Hqueue3, Hclock2; destruct pending; reflexivity|].
    split; [rewrite Hframe3, Hframe2; reflexivity|].
    exists (new2 ++ new3). split.
    + rewrite Hcalls3, Hcalls2, <- app_assoc. reflexivity.
    + rewrite tickCallsOf_app, Hticks2, Hticks3. reflexivity.
Qed.

(** X16. The tick loop of the cycle, lines 120-133.  From a well-formed
    engine the loop runs to its end and empties the tick queue; every
    pending tick is given to every track engine once, in the order of the
    queue and, for each tick, in slot order, and no other [tick] call is
    made; [_tick] ends as the last tick of the queue; the loop reports
    that the outputs are still to be updated exactly when the queue was
    empty. *)
Theorem X16_tick_loop (e : Engine) :
  WF e ->
  exists updateOutputs e' new,
    whileCheckTick onTick e = Ok (updateOutputs, e')
    /\ WF e'
    /\ updateOutputs = bool_decide (clk_ticks (_clock e) = [])
    /\ clk_ticks (_clock e') = []
    /\ _tick e' = default (_tick e) (last (clk_ticks (_clock e)))
    /\ calls e' = calls e ++ new
    /\ tickCallsOf new = tickCalls (clk_ticks (_clock e)).
Proof.
  intros HW. unfold whileCheckTick, mbind, M_bind, gets.
  destruct (returns_Ok _ _ _ (tickLoop_spec (clk_ticks (_clock e)) true e HW))
    as (updateOutputs & e' & Hrun & HW' & Hflag & Htick & Hqueue & _ & new & Hcalls & Hticks).
  exists updateOutputs, e', new. split; [exact Hrun|]. split; [exact HW'|].
  split; [rewrite Hflag; destruct (clk_ticks (_clock e)); reflexivity|].
  split; [rewrite Hqueue; destruct (clk_ticks (_clock e)); reflexivity|].
  split; [exact Htick|]. split; assumption.
Qed.

End TickLoop.
(** ** Elapsed time *)

Abbreviation keepsTime m :=
  (keepsSteady timeOf (fun c => isUpdateCall c = false) m).

Section TimeFrame.
Context {cfg : Config} {col : Collaborators}.

Lemma forEachTrackEngine_time c :
  (forall slot, isUpdateCall (CallTrack slot c) = false) -> keepsTime (forEachTrackEngine c).
Proof.
  intros Hc e0 e HS. unfold forEachTrackEngine.
  apply post_forM; [exact HS|]. intros slot e1 _ HS1. pose proof (Hc slot). steady_run.
Qed.

Lemma updateTrackSetup_time trackIndex : keepsTime (updateTrackSetup trackIndex).
Proof.
  intros e0 e HS. unfold updateTrackSetup, linkedTrackEngine, createTrackEngine.
  steady_run.
Qed.

Lemma updateTrackSetups_time : keepsTime updateTrackSetups.
Proof.
  intros e0 e HS. unfold updateTrackSetups.
  apply post_forM; [exact HS|]. intros i e1 _ HS1. apply updateTrackSetup_time, HS1.
Qed.

Lemma updateGateOutput_time isIdle trackIndex counters :
  keepsTime (updateGateOutput isIdle trackIndex counters).
Proof. intros e0 e HS. unfold updateGateOutput. steady_run. Qed.

Lemma updateCvOutput_time isIdle trackIndex counters :
  keepsTime (updateCvOutput isIdle trackIndex counters).
Proof. intros e0 e HS. unfold updateCvOutput. steady_run. Qed.

Lemma updateTrackOutput_time isIdle trackIndex counters :
  keepsTime (updateTrackOutput isIdle trackIndex counters).
Proof.
  intros e0 e HS. unfold updateTrackOutput.
  steady_run_with ltac:(first [ steady_call (@updateGateOutput) updateGateOutput_time
                              | steady_call (@updateCvOutput) updateCvOutput_time ]).
Qed.

Lemma updateTrackOutputs_time : keepsTime updateTrackOutputs.
Proof.
  intros e0 e HS. unfold updateTrackOutputs. do 3 run_step.
  eapply post_mono.
  - apply (post_foldM _ (fun _ _ e' => steady timeOf (fun c => isUpdateCall c = false) e0 e'));
      [exact HS|].
    intros i rest counters e1 HS1. apply updateTrackOutput_time, HS1.
  - cbv beta. intros _ e' HS'. steady_run.
Qed.

Lemma setOverrideChannels_time values : forall i, keepsTime (setOverrideChannels i values).
Proof.
  induction values as [|v values IH]; intros i e0 e HS; simpl; [steady_run|].
  steady_run_with ltac:(steady_call (@setOverrideChannels) IH).
Qed.

Lemma updateOverrides_time : keepsTime updateOverrides.
Proof.
  intros e0 e HS. unfold updateOverrides.
  steady_run_with ltac:(steady_call (@setOverrideChannels) setOverrideChannels_time).
Qed.

Lemma modifyTrackState_time trackIndex f : keepsTime (modifyTrackState trackIndex f).
Proof. intros e0 e HS. unfold modifyTrackState, getTrackState. steady_run. Qed.

Lemma handleTrackRequests_time muteMask patternMask :
  keepsTime (handleTrackRequests muteMask patternMask).
Proof.
  intros e0 e HS. unfold handleTrackRequests.
  apply (post_foldM _ (fun _ _ e' => steady timeOf (fun c => isUpdateCall c = false) e0 e'));
    [exact HS|].
  intros i rest changed e1 HS1. unfold getTrackState.
  steady_run_with ltac:(steady_call (@modifyTrackState) modifyTrackState_time).
Qed.

Lemma applySlotPatterns_time slot reset : keepsTime (applySlotPatterns slot reset).
Proof.
  intros e0 e HS. unfold applySlotPatterns.
  apply post_forM; [exact HS|]. intros i e1 _ HS1.
  steady_run_with ltac:(steady_call (@modifyTrackState) modifyTrackState_time).
Qed.

Lemma handlePlayRequest_time playMask switch : keepsTime (handlePlayRequest playMask switch).
Proof.
  intros e0 e HS. unfold handlePlayRequest.
  steady_run_with ltac:(steady_call (@applySlotPatterns) applySlotPatterns_time).
Qed.

Lemma handleStopRequest_time playMask stopMask changed :
  keepsTime (handleStopRequest playMask stopMask changed).
Proof. intros e0 e HS. unfold handleStopRequest. steady_run. Qed.

Lemma songSlotChange_time : keepsTime songSlotChange.
Proof.
  intros e0 e HS. unfold songSlotChange.
  steady_run_with ltac:(steady_call (@applySlotPatterns) applySlotPatterns_time).
Qed.

Lemma pushTrackStates_time : keepsTime pushTrackStates.
Proof.
  intros e0 e HS. unfold pushTrackStates.
  apply post_forM; [exact HS|]. intros i e1 _ HS1. unfold getTrackState. steady_run.
Qed.

Lemma arbitrate_time hasAny handleSynced handleLatched switch :
  keepsTime (arbitrate hasAny handleSynced handleLatched switch).
Proof.
  intros e0 e HS. unfold arbitrate.
  steady_run_with ltac:(first
    [ steady_call (@handleTrackRequests) handleTrackRequests_time
    | steady_call (@handlePlayRequest) handlePlayRequest_time
    | steady_call (@handleStopRequest) handleStopRequest_time
    | steady_call (@songSlotChange) songSlotChange_time
    | steady_call (@pushTrackStates) pushTrackStates_time ]).
Qed.

Lemma updatePlayState_time ticked : keepsTime (updatePlayState ticked).
Proof.
  intros e0 e HS. unfold updatePlayState.
  steady_run_with ltac:(steady_call (@arbitrate) arbitrate_time).
Qed.

Lemma receiveMidiMessage_time port message : keepsTime (receiveMidiMessage port message).
Proof.
  intros e0 e HS. unfold receiveMidiMessage.
  steady_run_with ltac:(steady_call (@forEachTrackEngine)
                          (forEachTrackEngine_time
                             (TEreceiveMidi port (channel message) message)
                             (fun _ => eq_refl))).
Qed.

Lemma recvLoop_time setQueue pending body :
  (forall q e, timeOf (setQueue q e) = timeOf e /\ calls (setQueue q e) = calls e) ->
  (forall message, keepsTime (body message)) ->
  keepsTime (recvLoop setQueue pending body).
Proof.
  intros Hset Hbody. induction pending as [|message pending IH]; intros e0 e HS; simpl.
  - steady_run.
  - do 2 run_step.
    assert (HS1 : steady timeOf (fun c => isUpdateCall c = false) e0 (setQueue pending e))
      by (apply (steady_same _ _ _ _ _ HS); apply Hset).
    clear HS. run_step. eapply post_mono; [apply Hbody, HS1|].
    cbv beta. intros _ e2 HS2. apply IH, HS2.
Qed.

Lemma receiveMidi_time : keepsTime receiveMidi.
Proof.
  intros e0 e HS. unfold receiveMidi, recvMidi, recvUsbMidi.
  do 3 run_step. eapply post_mono.
  { apply recvLoop_time; [split; reflexivity | apply receiveMidiMessage_time | exact HS]. }
  cbv beta. intros _ e1 HS1. do 2 run_step.
  apply recvLoop_time; [split; reflexivity | apply receiveMidiMessage_time | exact HS1].
Qed.

Lemma onClockOutput_time state : keepsTime (onClockOutput state).
Proof. intros e0 e HS. unfold onClockOutput. steady_run. Qed.

Lemma updateClockSetup_time : keepsTime updateClockSetup.
Proof.
  intros e0 e HS. unfold updateClockSetup.
  steady_run_with ltac:(steady_call (@onClockOutput) onClockOutput_time).
Qed.

Lemma resetTrackEngines_time : keepsTime resetTrackEngines.
Proof. apply forEachTrackEngine_time. reflexivity. Qed.

Lemma eventLoop_time pending : keepsTime (eventLoop pending).
Proof.
  induction pending as [|event pending IH]; intros e0 e HS; simpl.
  - steady_run.
  - steady_run_with ltac:(first
      [ steady_call (@resetTrackEngines) resetTrackEngines_time
      | steady_call (@eventLoop) IH ]).
Qed.

Lemma processClockEvents_time : keepsTime processClockEvents.
Proof.
  intros e0 e HS. unfold processClockEvents. do 2 run_step. apply eventLoop_time, HS.
Qed.

Lemma updateRouting_time : keepsTime updateRouting.
Proof. intros e0 e HS. unfold updateRouting. steady_run. Qed.

Lemma tickLoop_time pending body updateOutputs :
  (forall tick, keepsTime (body tick)) ->
  keepsTime (tickLoop pending body updateOutputs).
Proof.
  intros Hbody. revert updateOutputs.
  induction pending as [|tick pending IH]; intros updateOutputs e0 e HS; simpl.
  - steady_run.
  - do 2 run_step. steady_advance. run_step.
    eapply post_mono; [apply Hbody; eassumption|].
    cbv beta. intros _ e2 HS2. apply IH, HS2.
Qed.

Lemma onTick_time tick : keepsTime (onTick tick).
Proof.
  intros e0 e HS. unfold onTick.
  steady_run_with ltac:(first
    [ steady_call (@updatePlayState) updatePlayState_time
    | steady_call (@forEachTrackEngine)
        (forEachTrackEngine_time (TEtick tick) (fun _ => eq_refl))
    | steady_call (@updateTrackOutputs) updateTrackOutputs_time ]).
Qed.

Lemma whileCheckTick_time body :
  (forall tick, keepsTime (body tick)) -> keepsTime (whileCheckTick body).
Proof.
  intros Hbody e0 e HS. unfold whileCheckTick. do 2 run_step.
  apply tickLoop_time; assumption.
Qed.

Lemma updateLocked_time : keepsTime updateLocked.
Proof.
  intros e0 e HS. unfold updateLocked, recvMidi, recvUsbMidi. run_step.
  eapply post_mono;
    [apply whileCheckTick_time; [intros tick e1 e2 HS2; steady_run | exact HS]|].
  cbv beta. intros _ e1 HS1. do 3 run_step. eapply post_mono.
  { apply recvLoop_time;
      [split; reflexivity | intros message e2 e3 HS3; steady_run | exact HS1]. }
  cbv beta. intros _ e2 HS2. do 3 run_step. eapply post_mono.
  { apply recvLoop_time;
      [split; reflexivity | intros message e3 e4 HS4; steady_run | exact HS2]. }
  cbv beta. intros _ e3 HS3.
  steady_run_with ltac:(steady_call (@updateOverrides) updateOverrides_time).
Qed.

(** What a loop over the track engines logs, when it returns. *)
Lemma forEachTrackEngine_calls c e :
  ensures (forEachTrackEngine c) e (fun _ e' =>
    timeOf e' = timeOf e /\ calls e' = calls e ++ eachTrack c CONFIG_TRACK_COUNT).
Proof.
  unfold forEachTrackEngine. eapply post_mono.
  - apply (post_forTracks (fun slot => callTrack slot c) (fun i e' =>
             timeOf e' = timeOf e /\ calls e' = calls e ++ eachTrack c i)).
    + split; [reflexivity|]. cbn. rewrite app_nil_r. reflexivity.
    + intros i e1 Hi [Htime Hcalls]. run_step; [|exact I|exact I].
      split; [exact Htime|]. cbn [calls set_calls set_trackEngines].
      rewrite Hcalls, eachTrack_succ by lia. rewrite app_assoc. reflexivity.
  - cbv beta. intros _ e' [Htime Hcalls]. split; [exact Htime|]. unfold trackCount in Hcalls.
    destruct (Z.max_spec 0 CONFIG_TRACK_COUNT) as [[_ Hmax]|[Hle Hmax]];
      rewrite Hmax in Hcalls; [exact Hcalls|].
    rewrite Hcalls, !eachTrack_none by lia. reflexivity.
Qed.

(** The cycle when not locked, up to the overrides: calls that are no
    [update(dt)], then [update(dt)] on every engine. *)
Lemma updateEngines_time elapsed e0 e :
  steady timeOf (fun c => isUpdateCall c = false) e0 e ->
  ensures (updateEngines elapsed) e (fun _ e' =>
    timeOf e' = timeOf e0
    /\ exists before,
         calls e' = calls e0 ++ before ++ eachTrack (TEupdate elapsed) CONFIG_TRACK_COUNT
         /\ Forall (fun c => isUpdateCall c = false) before).
Proof.
  intros HS. unfold updateEngines.
  steady_call (@processClockEvents) processClockEvents_time.
  steady_call (@receiveMidi) receiveMidi_time.
  do 2 run_step. steady_advance. do 2 run_step. steady_advance.
  steady_call (@updateClockSetup) updateClockSetup_time.
  steady_call (@updateTrackSetups) updateTrackSetups_time.
  steady_call (@updatePlayState) updatePlayState_time.
  do 2 run_step. steady_advance.
  steady_call (@updateRouting) updateRouting_time.
  run_step.
  lazymatch goal with
  | HS : steady _ _ _ _ |- _ =>
      eapply post_mono;
      [ apply whileCheckTick_time; [apply onTick_time | exact HS]
      | clear HS; cbv beta; intros updateOutputs e8 HS ]
  end.
  run_step.
  eapply (post_mono _ _
            (fun _ e' => steady timeOf (fun c => isUpdateCall c = false) e0 e')).
  { destruct updateOutputs; [apply updateTrackOutputs_time | apply post_ret]; assumption. }
  cbv beta. intros _ e9 [Htime (before & Hcalls & Hbefore)].
  eapply post_mono; [apply forEachTrackEngine_calls|].
  cbv beta. intros _ e10 [Htime' Hcalls']. split; [congruence|].
  exists before. split; [|exact Hbefore].
  rewrite Hcalls', Hcalls, <- app_assoc. reflexivity.
Qed.

End TimeFrame.
Section ElapsedTime.
Context {cfg : Config} {col : Collaborators}.

Lemma transition_time systemTicks e :
  let e1 := afterUnlock (afterLock (set_lastSystemTicks systemTicks e)) in
  _lastSystemTicks e1 = systemTicks
  /\ calls e1 = calls e ++ lockCalls e
  /\ overrideCalls e1 = overrideCalls e.
Proof.
  unfold afterUnlock, afterLock, lockCalls, overrideCalls.
  cbn [_requestLock set_lastSystemTicks].
  destruct (_requestLock e =? 0); cbn;
    destruct (_requestUnlock e =? 0); cbn; rewrite ?app_nil_r; auto.
Qed.

(** X18. The time between two cycles reaches the engines once, or not
    at all.  A cycle of a well-formed engine records its reading of the
    system ticks as the time of the last cycle.  When it ends unlocked,
    every track engine gets one [update(dt)], in slot order, for the ticks
    elapsed since the cycle before (modulo 2^32), after every other call
    on the engines and before the overrides and the flush of the CV
    outputs.  When it ends locked no engine gets an [update(dt)], and as
    the reading is recorded all the same, the time spent locked is in no
    later [dt]. *)
Theorem X18_elapsed_time (systemTicks : Z) (e : Engine) :
  let elapsed := u32 (systemTicks - _lastSystemTicks e) in
  routingKeepsProjectOk -> WF e ->
  exists e' new,
    update systemTicks e = Ok (tt, e')
    /\ _lastSystemTicks e' = systemTicks
    /\ calls e' = calls e ++ lockCalls e ++ new
    /\ if _locked e' =? 0
       then exists before,
              new = before ++ eachTrack (TEupdate elapsed) CONFIG_TRACK_COUNT
                      ++ overrideCalls e ++ [CallCvOutputUpdate]
              /\ Forall (fun c => isUpdateCall c = false) before
       else Forall (fun c => isUpdateCall c = false) new.
Proof.
  intros elapsed Hrouting HW. rewrite update_unfold. cbv zeta.
  destruct (transition_time systemTicks e) as (Hlast & Hcalls1 & Hover).
  set (e1 := afterUnlock (afterLock (set_lastSystemTicks systemTicks e))) in *.
  assert (HW1 : WF e1) by (apply WF_afterUnlock, WF_afterLock; exact HW).
  pose proof (steady_refl timeOf (fun c => isUpdateCall c = false) e1) as HS1.
  destruct (_locked e1 =? 0) eqn:Hlocked; cbn [negb].
  - assert (Hshape : ensures (updateUnlocked elapsed) e1 (fun _ e' =>
        timeOf e' = timeOf e1
        /\ exists before,
             calls e' = calls e1 ++ before ++ eachTrack (TEupdate elapsed) CONFIG_TRACK_COUNT
                          ++ overrideCalls e1 ++ [CallCvOutputUpdate]
             /\ Forall (fun c => isUpdateCall c = false) before)).
    { unfold updateUnlocked. run_step.
      eapply post_mono; [apply updateEngines_time, HS1|].
      cbv beta. intros _ e2 (Htime2 & before & Hcalls2 & Hbefore). run_step.
      eapply post_mono;
        [apply returns_ensures, post_conj;
           [apply updateOverrides_spec | apply (updateOverrides_time e2 e2), steady_refl]|].
      cbv beta. intros _ e3 [(Hcalls3 & _) (Htime3 & _)]. run_step.
      assert (Hover2 : overrideCalls e2 = overrideCalls e1).
      { apply overrideCalls_frame. unfold timeOf in Htime2. congruence. }
      split.
      - change (timeOf e3 = timeOf e1). congruence.
      - exists before. split; [|exact Hbefore].
        change (calls e3 ++ [CallCvOutputUpdate]
                = calls e1 ++ before ++ eachTrack (TEupdate elapsed) CONFIG_TRACK_COUNT
                    ++ overrideCalls e1 ++ [CallCvOutputUpdate]).
        rewrite Hcalls3, Hcalls2, Hover2, <- !app_assoc. reflexivity. }
    destruct (returns_Ok _ _ _
                (post_conj _ _ _ _ (updateUnlocked_wf elapsed Hrouting e1 HW1) Hshape))
      as ([] & e' & Hrun & _ & Htime & before & Hcalls & Hbefore).
    exists e', (before ++ eachTrack (TEupdate elapsed) CONFIG_TRACK_COUNT
                  ++ overrideCalls e ++ [CallCvOutputUpdate]).
    split; [exact Hrun|].
    assert (Hfields : (_lastSystemTicks e', _locked e') = (_lastSystemTicks e1, _locked e1))
      by (unfold timeOf, frameOf in Htime; congruence).
    split; [congruence|].
    split; [rewrite Hcalls, Hcalls1, Hover, <- !app_assoc; reflexivity|].
    replace (_locked e') with (_locked e1) by congruence. rewrite Hlocked.
    exists before. split; [reflexivity | exact Hbefore].
  - destruct (returns_Ok _ _ _
                (post_conj _ _ _ _ (updateLocked_spec e1) (updateLocked_time e1 e1 HS1)))
      as ([] & e' & Hrun & (Hcalls & _) & Htime & _).
    exists e', (overrideCalls e ++ [CallCvOutputUpdate]).
    split; [exact Hrun|].
    assert (Hfields : (_lastSystemTicks e', _locked e') = (_lastSystemTicks e1, _locked e1))
      by (unfold timeOf, frameOf in Htime; congruence).
    split; [congruence|].
    split; [rewrite Hcalls, Hcalls1, Hover, <- !app_assoc; reflexivity|].
    replace (_locked e') with (_locked e1) by congruence. rewrite Hlocked.
    apply Forall_app. split; [|repeat constructor].
    eapply Forall_impl; [apply overrideCalls_quiet|].
    cbv beta. intros c (Htrack & _). destruct c; try reflexivity; discriminate.
Qed.

End ElapsedTime.

(** ** The locked cycle, field by field *)

Section LockedCycle.
Context {cfg : Config} {col : Collaborators}.

Lemma drained_besides e :
  besidesQueues (drainedUsbMidi (drainedMidi (drainedTicks e))) = besidesQueues e.
Proof.
  unfold drainedUsbMidi, drainedMidi, drainedTicks.
  destruct (clk_ticks (_clock e)) eqn:Hticks; cbn;
    destruct (_midi e) eqn:Hmidi; cbn;
    destruct (_usbMidi e) eqn:Husb; cbn; reflexivity.
Qed.

Lemma setOverrideChannels_besides values :
  forall i, keepsSteady besidesQueues (fun _ : Call => True) (setOverrideChannels i values).
Proof.
  induction values as [|v values IH]; intros i e0 e HS; simpl; [steady_run|].
  steady_run_with ltac:(steady_call (@setOverrideChannels) IH).
Qed.

Lemma updateOverrides_besides :
  keepsSteady besidesQueues (fun _ : Call => True) updateOverrides.
Proof.
  intros e0 e HS. unfold updateOverrides.
  steady_run_with ltac:(steady_call (@setOverrideChannels) setOverrideChannels_besides).
Qed.

(** Lines 60-73 write the queues, the outputs and the call log only. *)
Lemma updateLocked_besides e :
  ensures updateLocked e (fun _ e' => besidesQueues e' = besidesQueues e).
Proof.
  pose proof (drain_spec e) as Hdrain. pose proof (drained_besides e) as Hq.
  set (q := drainedUsbMidi (drainedMidi (drainedTicks e))) in *.
  assert (Hsplit : updateLocked e = (updateOverrides;; emit CallCvOutputUpdate) q).
  { change (updateLocked e) with
      ((_ ← whileCheckTick (fun _ => mret tt);
        recvMidi (fun _ => mret tt);;
        recvUsbMidi (fun _ => mret tt);;
        updateOverrides;; emit CallCvOutputUpdate) e).
    revert Hdrain. unfold mbind, M_bind.
    destruct (whileCheckTick (fun _ => mret tt) e) as [[b e1]|f]; [|discriminate].
    destruct (recvMidi (fun _ => mret tt) e1) as [[[] e2]|f]; [|discriminate].
    destruct (recvUsbMidi (fun _ => mret tt) e2) as [[[] e3]|f]; [|discriminate].
    intros [= ->]. reflexivity. }
  unfold ensures, post. rewrite Hsplit.
  change (post True (updateOverrides;; emit CallCvOutputUpdate) q
            (fun _ e' => besidesQueues e' = besidesQueues e)).
  run_step.
  eapply post_mono; [apply (updateOverrides_besides q q), steady_refl|].
  cbv beta. intros _ e2 [Hkept _]. run_step.
  change (besidesQueues e2 = besidesQueues e). congruence.
Qed.

(** C4 (amended). A cycle entered locked and left locked calls no track
    engine and runs no arbitration.  It records the reading of the system
    ticks; when a lock request is pending at entry it stops the master
    clock and clears the request (lines 50-54), and it does so only then;
    it empties the tick queue and both MIDI queues, applies the overrides
    and flushes the CV outputs.  Nothing else is written: the model (so
    every track state, with its pending requests), the track engines,
    the routing engine, [_tick], [_running] and, but for what
    [masterStop] does to it, the Clock beside its tick queue are what
    they were.  Such a cycle always runs to its end. *)
Theorem C4_locked_cycle (systemTicks : Z) (e : Engine) :
  _locked e <> 0 ->
  (_requestUnlock e = 0 ->
   exists e', update systemTicks e = Ok (tt, e') /\ _locked e' <> 0)
  /\ forall e',
       update systemTicks e = Ok (tt, e') ->
       _locked e' <> 0 ->
       _requestUnlock e = 0
       /\ calls e' = calls e ++ lockCalls e ++ overrideCalls e ++ [CallCvOutputUpdate]
       /\ Forall (fun c => isTrackCall c = false)
                 (lockCalls e ++ overrideCalls e ++ [CallCvOutputUpdate])
       /\ (_requestLock e = 0 -> lockCalls e = [])
       /\ besidesQueues e' = besidesQueues (afterLock (set_lastSystemTicks systemTicks e))
       /\ (_requestLock e = 0 ->
           besidesQueues e' = besidesQueues (set_lastSystemTicks systemTicks e))
       /\ _lastSystemTicks e' = systemTicks
       /\ _requestLock e' = 0
       /\ _model e' = _model e
       /\ _trackEngines e' = _trackEngines e
       /\ (_tick e', _running e', _routingEngine e') = (_tick e, _running e, _routingEngine e)
       /\ clk_ticks (_clock e') = [] /\ _midi e' = [] /\ _usbMidi e' = []
       /\ overridesApplied e e'
       /\ forall i t,
            at_ (ps_trackStates (playState (_model e))) i = Some t ->
            hasRequests (ts_state t) ImmediateMuteRequest = true ->
            exists t',
              at_ (ps_trackStates (playState (_model e'))) i = Some t'
              /\ hasRequests (ts_state t') ImmediateMuteRequest = true
              /\ t' = t.
Proof.
  intros Hlocked.
  set (e0 := set_lastSystemTicks systemTicks e).
  pose proof (afterLock_facts e0) as (Hlc & Hlm & Hlo & Hlu & Hlout & Hll & Hlr).
  pose proof (afterUnlock_facts (afterLock e0)) as (Huc & Hum & Huo & Hur & Huout & Hul & Huu).
  set (e1 := afterUnlock (afterLock e0)) in *.
  assert (Hrun : forall e', update systemTicks e = Ok (tt, e') -> _locked e' <> 0 ->
            _requestUnlock e = 0
            /\ updateLocked e1 = Ok (tt, e')).
  { intros e' Hupdate Hexit. rewrite update_unfold in Hupdate. cbv zeta in Hupdate.
    fold e0 in Hupdate. fold e1 in Hupdate.
    change (_requestUnlock e0) with (_requestUnlock e) in *.
    destruct (Z.eqb_spec (_requestUnlock (afterLock e0)) 0) as [Hz|Hnz]; cbn in Hul.
    - rewrite Hlu in Hz. split; [exact Hz|].
      destruct (Z.eqb_spec (_locked e1) 0) as [Hzero|_]; [|exact Hupdate].
      exfalso. cbn in Hupdate.
      pose proof (ensures_Ok _ _ _ _ _ (updateUnlocked_shape _ e1) Hupdate) as (Hframe & _).
      unfold frameOf in Hframe. injection Hframe as Hl _. congruence.
    - exfalso. rewrite Hul in Hupdate. cbn in Hupdate.
      pose proof (ensures_Ok _ _ _ _ _ (updateUnlocked_shape _ e1) Hupdate) as (Hframe & _).
      unfold frameOf in Hframe. injection Hframe as Hl _. congruence. }
  split.
  - intros Hno. rewrite update_unfold. cbv zeta. fold e0. fold e1.
    assert (Hl1 : _locked e1 <> 0).
    { change (_requestUnlock e0) with (_requestUnlock e) in *.
      destruct (Z.eqb_spec (_requestUnlock (afterLock e0)) 0) as [Hz|Hnz]; cbn in Hul.
      - rewrite Hul. destruct (negb (_requestLock e0 =? 0));
          [rewrite Hll; discriminate | rewrite Hll; exact Hlocked].
      - rewrite Hlu in Hnz. contradiction. }
    destruct (Z.eqb_spec (_locked e1) 0) as [Hzero|_]; [contradiction|]. cbn.
    destruct (returns_Ok _ _ _ (updateLocked_spec e1)) as ([] & e' & Hrun' & _ & Hrest & _).
    exists e'. split; [exact Hrun'|].
    unfold restOf, frameOf in Hrest. injection Hrest as _ _ _ _ Hl _. congruence.
  - intros e' Hupdate Hexit. destruct (Hrun e' Hupdate Hexit) as [Hno Hlockedrun].
    pose proof (ensures_Ok _ _ _ _ _ (returns_ensures _ _ _ (updateLocked_spec e1)) Hlockedrun)
      as (Hcalls & Hrest & Hticks & Hmidi & Husb & Happlied).
    pose proof (ensures_Ok _ _ _ _ _ (updateLocked_besides e1) Hlockedrun) as Hbesides.
    assert (He1 : e1 = afterLock e0).
    { unfold e1, afterUnlock. change (_requestUnlock e0) with (_requestUnlock e) in Hlu.
      rewrite Hlu, Hno. reflexivity. }
    injection Hlm as Hlmodel Hlengines. injection Hum as Humodel Huengines.
    injection Hlo as Hl1 Hl2 Hl3 Hl4. injection Huo as Hu1 Hu2 Hu3 Hu4.
    injection Hlout as Hlg Hlcv. injection Huout as Hug Hucv.
    assert (Hoc : overrideCalls e1 = overrideCalls e).
    { unfold overrideCalls. rewrite Hu1, Hu2, Hu3, Hu4, Hl1, Hl2, Hl3, Hl4. reflexivity. }
    assert (Hmodel : _model e' = _model e).
    { unfold restOf in Hrest. injection Hrest as Hm _. rewrite Hm, Humodel, Hlmodel. reflexivity. }
    assert (Hfields : (_tick e', _running e', _routingEngine e', _lastSystemTicks e')
                      = (_tick e, _running e, _routingEngine e, systemTicks)).
    { rewrite He1 in Hbesides. unfold besidesQueues in Hbesides.
      injection Hbesides as _ _ Hr _ _ Ht Hlast Hrunning _ _ _ _ _.
      rewrite Hr, Ht, Hlast, Hrunning. unfold afterLock.
      destruct (negb (_requestLock e0 =? 0)); reflexivity. }
    split; [exact Hno|].
    split; [rewrite Hcalls, Hoc, Huc, Hlc, <- app_assoc; reflexivity|].
    split.
    { apply Forall_app. split.
      - eapply Forall_impl; [apply lockCalls_quiet|]. cbv beta. tauto.
      - apply Forall_app. split; [|repeat constructor].
        eapply Forall_impl; [apply overrideCalls_quiet|]. cbv beta. tauto. }
    split; [intros Hnone; unfold lockCalls; rewrite Hnone; reflexivity|].
    split; [rewrite Hbesides, He1; reflexivity|].
    split.
    { intros Hnone. rewrite Hbesides, He1. unfold afterLock.
      change (_requestLock e0) with (_requestLock e). rewrite Hnone. reflexivity. }
    split; [congruence|].
    split.
    { unfold restOf, frameOf in Hrest. injection Hrest as _ _ _ _ _ Hrl _ _.
      rewrite Hrl, Hur. exact Hlr. }
    split; [exact Hmodel|].
    split.
    { unfold restOf in Hrest. injection Hrest as _ He _. rewrite He, Huengines, Hlengines.
      reflexivity. }
    split; [congruence|].
    split; [exact Hticks|]. split; [exact Hmidi|]. split; [exact Husb|].
    split.
    { unfold overridesApplied in *.
      rewrite Hu1, Hu2, Hu3, Hu4, Hl1, Hl2, Hl3, Hl4, Hug, Hucv, Hlg, Hlcv in Happlied.
      exact Happlied. }
    intros i t Hat Hreq. exists t. rewrite Hmodel. auto.
Qed.

End LockedCycle.

(** ** The song slot change in the arbitration call *)

Section SongAdvance.
Context {cfg : Config} {col : Collaborators}.

Lemma advanceSong_fields s slot st :
  ss_currentRepeat (advanceSong s slot st)
  = (if ss_currentRepeat st + 1 <? slot_repeats slot then ss_currentRepeat st + 1 else 0)
  /\ ss_currentSlot (advanceSong s slot st)
     = (if ss_currentRepeat st + 1 <? slot_repeats slot then ss_currentSlot st
        else if ss_currentSlot st + 1 <? song_slotCount s then ss_currentSlot st + 1 else 0).
Proof.
  unfold advanceSong. destruct (ss_currentRepeat st + 1 <? slot_repeats slot); split; reflexivity.
Qed.

(** The slot change and the push that follows it, from a state [e4]
    where the song plays. *)
Lemma slotChange_then_push s e4 :
  WFsong s e4 ->
  exists slot slot' e5 e',
    at_ (song_slots s) (ss_currentSlot (ps_songState (playState (_model e4)))) = Some slot
    /\ songSlotChange e4 = Ok (tt, e5)
    /\ pushTrackStates e5 = Ok (tt, e')
    /\ ps_songState (playState (_model e'))
       = advanceSong s slot (ps_songState (playState (_model e4)))
    /\ at_ (song_slots s) (ss_currentSlot (ps_songState (playState (_model e')))) = Some slot'
    /\ patternsApplied slot' CONFIG_TRACK_COUNT e'
    /\ calls e' = calls e4 ++ resetCalls CONFIG_TRACK_COUNT
                  ++ pushCalls (ps_trackStates (playState (_model e'))) CONFIG_TRACK_COUNT.
Proof.
  intros HS4.
  destruct (at_in_range (song_slots s)
              (ss_currentSlot (ps_songState (playState (_model e4)))))
    as (slot & Hslot); [exact (proj2 (proj2 (WFsong_slot _ _ HS4)))|].
  destruct (returns_Ok _ _ _ (songSlotChange_spec s e4 slot HS4 Hslot))
    as ([] & e5 & Hrun5 & HS5 & _ & Hst5 & Hcalls5 & Hpat5).
  destruct (at_in_range (song_slots s)
              (ss_currentSlot (ps_songState (playState (_model e5)))))
    as (slot' & Hslot'); [exact (proj2 (proj2 (WFsong_slot _ _ HS5)))|].
  destruct (returns_Ok _ _ _ (pushTrackStates_spec e5 (WFsong_WF _ _ HS5)))
    as ([] & e' & Hrun6 & Honly6 & Hcalls6 & _).
  pose proof (onlyEngines_model _ _ Honly6) as Hmodel6.
  exists slot, slot', e5, e'. split; [exact Hslot|]. split; [exact Hrun5|].
  split; [exact Hrun6|]. unfold patternsApplied. rewrite Hmodel6.
  split; [exact Hst5|]. split; [exact Hslot'|].
  split; [rewrite Hst5 in Hslot'; exact (Hpat5 slot' Hslot')|].
  rewrite Hcalls6, Hcalls5, <- app_assoc. reflexivity.
Qed.

Lemma pushCalls_quiet states n : Forall (fun c => isResetCall c = false) (pushCalls states n).
Proof.
  unfold pushCalls. apply Forall_concat, Forall_fmap, Forall_forall. intros i _.
  unfold compose. destruct (at_ states i); repeat constructor.
Qed.

(** A call of [arbitrate] with a request bucket set in which the slot
    change does not run resets no engine. *)
Lemma arbitrate_quiet s synced latched switch e :
  WFsong s e ->
  switch = false
  \/ ss_playing (ps_songState (playState (_model e))) = false
  \/ patternRequested (patternRequests synced latched)
       (ps_trackStates (playState (_model e))) CONFIG_TRACK_COUNT = true
  \/ hasRequests (ss_state (ps_songState (playState (_model e)))) (stopRequests synced latched)
     = true
  \/ (hasRequests (ss_state (ps_songState (playState (_model e)))) (playRequests synced latched)
      = true
      /\ 0 <= ss_requestedSlot (ps_songState (playState (_model e))) < song_slotCount s) ->
  exists e',
    arbitrate true synced latched switch e = Ok (tt, e')
    /\ calls e' = calls e ++ pushCalls (ps_trackStates (playState (_model e')))
                              CONFIG_TRACK_COUNT.
Proof.
  intros HS Hwhy. set (st := ps_songState (playState (_model e))) in *.
  destruct (arbitrate_requests s synced latched switch e HS)
    as (changed & e1 & switch2 & e2 & _ & _ & Hrun1 & Honly1 & _ & Hchanged & Hrun2
        & HS2 & _).
  destruct (onlyTrackStates_songState _ _ Honly1) as [Hst1 Hsong1].
  pose proof (onlyTrackStates_calls _ _ Honly1) as Hcalls1.
  assert (HS1 : WFsong s e1).
  { destruct (returns_Ok _ _ _ (handleTrackRequests_ws (muteRequests synced latched)
                                  (patternRequests synced latched) s e HS))
      as (changed' & e1' & Hrun1' & HS1').
    rewrite Hrun1 in Hrun1'. injection Hrun1' as _ <-. exact HS1'. }
  assert (Hquiet : ss_playing (ps_songState
                      (playState (_model (afterSongRequests synced latched changed e2))))
                   && switch2 = false
                   /\ calls e2 = calls e1).
  { destruct (hasRequests (ss_state st) (playRequests synced latched)) eqn:Hfires.
    - destruct (decide (0 <= ss_requestedSlot st < song_slotCount s)) as [Hvalid|Hinvalid].
      + destruct (at_in_range (song_slots s) (ss_requestedSlot st)) as (slot & Hslot).
        { pose proof (WFsong_slot _ _ HS) as (_ & Hcount & _). lia. }
        destruct (returns_Ok _ _ _
                    (handlePlayRequest_valid s (playRequests synced latched) switch e1 slot HS1
                       ltac:(rewrite Hst1; exact Hfires) ltac:(rewrite Hst1; exact Hvalid)
                       ltac:(rewrite Hst1; exact Hslot)))
          as (switch2' & e2' & Hrun2' & -> & _ & Hcalls2 & _).
        rewrite Hrun2 in Hrun2'. injection Hrun2' as -> <-.
        split; [apply andb_false_r | exact Hcalls2].
      + rewrite handlePlayRequest_ignored in Hrun2
          by (rewrite Hst1, (proj2 HS1); exact Hinvalid).
        injection Hrun2 as <- <-. split; [|reflexivity].
        unfold afterSongRequests. cbv zeta. rewrite Hst1. fold st.
        destruct Hwhy as [->|[Hstopped|[Hpattern|[Hstop|[_ Hvalid]]]]];
          [apply andb_false_r | | | | contradiction].
        * destruct (changed || hasRequests (ss_state st) (stopRequests synced latched));
            cbn; [reflexivity | rewrite Hstopped; reflexivity].
        * rewrite Hchanged, Hpattern. reflexivity.
        * rewrite Hstop, orb_true_r. reflexivity.
    - rewrite handlePlayRequest_none in Hrun2 by (rewrite Hst1; exact Hfires).
      injection Hrun2 as <- <-. split; [|reflexivity].
      unfold afterSongRequests. cbv zeta. rewrite Hst1. fold st.
      destruct Hwhy as [->|[Hstopped|[Hpattern|[Hstop|[Hplay _]]]]];
        [apply andb_false_r | | | | congruence].
      * destruct (changed || hasRequests (ss_state st) (stopRequests synced latched));
          cbn; [reflexivity | rewrite Hstopped; reflexivity].
      * rewrite Hchanged, Hpattern. reflexivity.
      * rewrite Hstop, orb_true_r. reflexivity. }
  destruct Hquiet as [Hquiet Hcalls2].
  destruct (arbitrate_no_change s synced latched switch e changed e1 switch2 e2
              Hrun1 Hrun2 HS2 Hquiet) as (e' & Hrun & _ & Hcalls & _).
  exists e'. split; [exact Hrun|]. rewrite Hcalls, Hcalls2, Hcalls1. reflexivity.
Qed.

(** C2 (amended). The slot change of lines 433-459 runs in a ticked
    arbitration call at the last tick of a measure when the song is
    playing at entry and no request of the call stops or restarts it: no
    Stop request and no track pattern request fires, and no Play request
    for a slot of the song.  Other requests, mutes for one, may fire in
    the same call.  The repeat counter is then incremented while
    [currentRepeat + 1] is below the repeat count of the current slot;
    otherwise it is reset to 0 and the song advances to the next slot,
    the first one after the last.  In both cases the song goes on
    playing, the patterns of the slot now current are written to every
    track state, every track engine is reset, and the track states are
    then given to the engines.  In every other arbitration call no track
    engine is reset.  With two slots played once each and no request
    pending, a song that plays from slot 0 is on slot [k mod 2] after the
    ticks of [k] measures: 0, 1, 0, 1 for the first three. *)
Theorem C2_song_slot_change :
  (forall e,
     let p := playState (_model e) in
     let st := ps_songState p in
     let s := song (_model e) in
     let synced := handleSyncedRequests (_tick e) (measureDivisor (_model e)) in
     let latched := ps_executeLatchedRequests p in
     WF e ->
     switchToNextSlot true (_tick e) (measureDivisor (_model e)) = true ->
     ss_playing st = true ->
     (hasAnyRequests p = true ->
      patternRequested (patternRequests synced latched) (ps_trackStates p) CONFIG_TRACK_COUNT
      = false
      /\ hasRequests (ss_state st) (stopRequests synced latched) = false
      /\ (hasRequests (ss_state st) (playRequests synced latched) = true ->
          ~ 0 <= ss_requestedSlot st < song_slotCount s)) ->
     exists slot slot' e',
       at_ (song_slots s) (ss_currentSlot st) = Some slot
       /\ updatePlayState true e = Ok (tt, e')
       /\ ss_currentRepeat (ps_songState (playState (_model e')))
          = (if ss_currentRepeat st + 1 <? slot_repeats slot
             then ss_currentRepeat st + 1 else 0)
       /\ ss_currentSlot (ps_songState (playState (_model e')))
          = (if ss_currentRepeat st + 1 <? slot_repeats slot then ss_currentSlot st
             else if ss_currentSlot st + 1 <? song_slotCount s
                  then ss_currentSlot st + 1 else 0)
       /\ ss_playing (ps_songState (playState (_model e'))) = true
       /\ at_ (song_slots s) (ss_currentSlot (ps_songState (playState (_model e'))))
          = Some slot'
       /\ patternsApplied slot' CONFIG_TRACK_COUNT e'
       /\ calls e' = calls e ++ resetCalls CONFIG_TRACK_COUNT
                     ++ pushCalls (ps_trackStates (playState (_model e')))
                          CONFIG_TRACK_COUNT)
  /\ (forall ticked e,
        let p := playState (_model e) in
        let st := ps_songState p in
        let s := song (_model e) in
        let synced := handleSyncedRequests (_tick e) (measureDivisor (_model e)) in
        let latched := ps_executeLatchedRequests p in
        WF e ->
        switchToNextSlot ticked (_tick e) (measureDivisor (_model e)) = false
        \/ ss_playing st = false
        \/ (hasAnyRequests p = true
            /\ (patternRequested (patternRequests synced latched) (ps_trackStates p)
                  CONFIG_TRACK_COUNT = true
                \/ hasRequests (ss_state st) (stopRequests synced latched) = true
                \/ (hasRequests (ss_state st) (playRequests synced latched) = true
                    /\ 0 <= ss_requestedSlot st < song_slotCount s))) ->
        exists e' new,
          updatePlayState ticked e = Ok (tt, e')
          /\ calls e' = calls e ++ new
          /\ Forall (fun c => isResetCall c = false) new)
  /\ (forall s divisor e (k : nat),
        twoSlotSong s ->
        songPlays s divisor e ->
        ss_currentRepeat (ps_songState (playState (_model e))) = 0 ->
        ss_currentSlot (ps_songState (playState (_model e))) = 0 ->
        exists updateOutputs e',
          tickLoop (seqZ 0 (Z.of_nat k * divisor)) onTick true e = Ok (updateOutputs, e')
          /\ ss_currentSlot (ps_songState (playState (_model e'))) = Z.of_nat k mod 2).
Proof.
  split; [|split].
  - intros e p st s synced latched HW Hswitch Hplaying Hquiet.
    assert (HS : WFsong s e) by (split; [exact HW | reflexivity]).
    rewrite (updatePlayState_arbitrate true e (ok_divisor _ (proj2 HW))), Hswitch.
    fold p synced latched.
    assert (Hgoal : exists e4,
               WFsong s e4
               /\ calls e4 = calls e
               /\ (ss_currentSlot (ps_songState (playState (_model e4))),
                   ss_currentRepeat (ps_songState (playState (_model e4))),
                   ss_playing (ps_songState (playState (_model e4))))
                  = (ss_currentSlot st, ss_currentRepeat st, true)
               /\ arbitrate (hasAnyRequests p) synced latched true e
                  = (songSlotChange;; pushTrackStates) e4).
    { destruct (hasAnyRequests p) eqn:Hany.
      - destruct (Hquiet eq_refl) as (Hpattern & Hstop & Hplay).
        destruct (arbitrate_requests s synced latched true e HS)
          as (changed & e1 & switch2 & e2 & _ & _ & Hrun1 & Honly1 & _ & Hchanged & Hrun2
              & HS2 & _).
        destruct (onlyTrackStates_songState _ _ Honly1) as [Hst1 Hsong1].
        assert (Hsame : handlePlayRequest (playRequests synced latched) true e1
                        = Ok (true, e1)).
        { destruct (hasRequests (ss_state st) (playRequests synced latched)) eqn:Hfires.
          - apply handlePlayRequest_ignored. rewrite Hst1, Hsong1. exact (Hplay eq_refl).
          - apply handlePlayRequest_none. rewrite Hst1. exact Hfires. }
        rewrite Hsame in Hrun2. injection Hrun2 as <- <-.
        exists (afterSongRequests synced latched changed e1).
        split; [apply WFsong_afterSongRequests, HS2|].
        split; [rewrite <- (onlyTrackStates_calls _ _ Honly1); reflexivity|].
        assert (Hkeeps : changed || hasRequests (ss_state (ps_songState (playState (_model e1))))
                                      (stopRequests synced latched) = false).
        { rewrite Hst1, Hchanged. fold p st. rewrite Hpattern, Hstop. reflexivity. }
        split.
        { unfold afterSongRequests. cbv zeta. rewrite Hkeeps. cbn. rewrite Hst1.
          fold p st. rewrite Hplaying. reflexivity. }
        rewrite (arbitrate_steps synced latched true e changed e1 true e1 Hrun1 Hsame).
        cbv zeta.
        assert (Hplays4 : ss_playing (ps_songState (playState
                            (_model (afterSongRequests synced latched changed e1)))) = true).
        { unfold afterSongRequests. cbv zeta. rewrite Hkeeps. cbn. rewrite Hst1.
          exact Hplaying. }
        rewrite Hplays4. reflexivity.
      - exists e. split; [exact HS|]. split; [reflexivity|].
        split; [fold p st; rewrite Hplaying; reflexivity|].
        unfold arbitrate, when, mbind, M_bind, mret, M_ret, getPlayState, gets.
        cbv beta iota. fold p st. rewrite Hplaying. reflexivity. }
    destruct Hgoal as (e4 & HS4 & Hcalls4 & Hfields4 & ->).
    destruct (slotChange_then_push s e4 HS4)
      as (slot & slot' & e5 & e' & Hslot & Hrun5 & Hrun6 & Hst' & Hslot' & Hpat & Hcalls).
    injection Hfields4 as Hcur4 Hrep4 Hplay4.
    destruct (advanceSong_fields s slot (ps_songState (playState (_model e4))))
      as [Hrep' Hcur'].
    exists slot, slot', e'.
    split; [rewrite <- Hcur4; exact Hslot|].
    split; [unfold mbind, M_bind; rewrite Hrun5; exact Hrun6|].
    split; [rewrite Hst', Hrep', Hrep4; reflexivity|].
    split; [rewrite Hst', Hcur', Hrep4, Hcur4; reflexivity|].
    split; [rewrite Hst', advanceSong_playing; exact Hplay4|].
    split; [exact Hslot'|]. split; [exact Hpat|].
    rewrite Hcalls, Hcalls4. reflexivity.
  - intros ticked e p st s synced latched HW Hwhy.
    assert (HS : WFsong s e) by (split; [exact HW | reflexivity]).
    rewrite (updatePlayState_arbitrate ticked e (ok_divisor _ (proj2 HW))).
    fold p synced latched.
    set (switch := switchToNextSlot ticked (_tick e) (measureDivisor (_model e))) in *.
    destruct (hasAnyRequests p) eqn:Hany.
    + destruct (arbitrate_quiet s synced latched switch e HS) as (e' & Hrun & Hcalls).
      { fold p st. destruct Hwhy as [Hoff|[Hstopped|[_ [Hpattern|[Hstop|Hplay]]]]]; auto. }
      exists e', (pushCalls (ps_trackStates (playState (_model e'))) CONFIG_TRACK_COUNT).
      split; [exact Hrun|]. split; [exact Hcalls | apply pushCalls_quiet].
    + assert (Hquiet : ss_playing st && switch = false).
      { destruct Hwhy as [->|[->|[Hyes _]]];
          [apply andb_false_r | reflexivity | discriminate]. }
      unfold arbitrate, getPlayState, gets, when, mbind, M_bind, mret, M_ret.
      fold p st. rewrite Hquiet. cbn [orb]. destruct switch.
      * destruct (returns_Ok _ _ _ (pushTrackStates_spec e HW))
          as ([] & e' & Hrun & _ & Hcalls & _).
        exists e', (pushCalls (ps_trackStates (playState (_model e))) CONFIG_TRACK_COUNT).
        split; [exact Hrun|]. split; [exact Hcalls | apply pushCalls_quiet].
      * exists e, []. split; [reflexivity|].
        split; [rewrite app_nil_r; reflexivity | constructor].
  - intros s divisor e k Htwo Hplays Hrep Hcur.
    pose proof (songPlays_divisor _ _ _ Hplays) as Hd.
    destruct (returns_Ok _ _ _
                (tickLoop_slots s divisor (seqZ 0 (Z.of_nat k * divisor)) true e
                   Htwo Hplays Hrep ltac:(lia)))
      as (b & e' & Hrun & _ & _ & Hslot).
    exists b, e'. split; [exact Hrun|].
    rewrite Hslot, Hcur, boundaryTicks_measures by lia. reflexivity.
Qed.

End SongAdvance.

(** ** Examples: the theorems at concrete engines *)

Import Fixture.
#[local] Existing Instance toyCollaborators.
#[local] Existing Instance twoTracks.

Lemma twoTracks_ready (t0 t1 : ToyEngine) : enginesReady [Some t0; Some t1].
Proof.
  intros i Hi. change CONFIG_TRACK_COUNT with 2 in Hi.
  assert (Hcases : i = 0 \/ i = 1) by lia.
  destruct Hcases as [-> | ->]; eexists; reflexivity.
Qed.

(** Well-formedness of a concrete engine of two tracks, by evaluation. *)
Ltac fixture_wf :=
  split; [apply twoTracks_ready|];
  constructor; cbn; unfold routed, songOk, covers; cbn;
  repeat first [apply Forall_nil_2 | apply Forall_cons_2 | apply conj];
  cbn; first [lia | vm_compute; discriminate].

Lemma songStart_WF : WF songStart.
Proof. fixture_wf. Qed.

Lemma firstRepeat_WF : WF firstRepeat.
Proof. fixture_wf. Qed.

Lemma staleRequest_WF : WF staleRequest.
Proof. fixture_wf. Qed.

Lemma lockedEngine_WF : WF lockedEngine.
Proof. fixture_wf. Qed.

Lemma doubled_WF : WF doubled.
Proof. fixture_wf. Qed.

Lemma idlePreview_WF : WF idlePreview.
Proof. fixture_wf. Qed.

Lemma overridden_WF : WF overridden.
Proof. fixture_wf. Qed.

Lemma lockAndUnlock_WF : WF lockAndUnlock.
Proof. fixture_wf. Qed.

Lemma toyRouting_ok : routingKeepsProjectOk.
Proof. intros r p Hok. exact Hok. Qed.

Lemma songStart_plays : songPlays (song (_model songStart)) 768 songStart.
Proof.
  split; [split; [apply songStart_WF | reflexivity]|].
  split; [|split]; vm_compute; reflexivity.
Qed.

Lemma songStart_twoSlots : twoSlotSong (song (_model songStart)).
Proof.
  split; [reflexivity|]. intros i slot Hat Hi.
  assert (Hcases : i = 0 \/ i = 1) by lia.
  destruct Hcases as [-> | ->]; injection Hat as <-; reflexivity.
Qed.

(** C1 at [firstRepeat]: tick 767 of a measure of 768 ticks is in the
    second window, and the slot advances there. *)
Lemma C1_witness :
  0 < syncMeasure (_model firstRepeat) * CONFIG_PPQN * 4 < 2 ^ 32
  /\ updatePlayState true firstRepeat = arbitrate false true false true firstRepeat
  /\ handleSyncedRequests 767 768 = true
  /\ switchToNextSlot true 767 768 = true.
Proof.
  assert (Hmeasure : 0 < syncMeasure (_model firstRepeat) * CONFIG_PPQN * 4 < 2 ^ 32)
    by (vm_compute; split; reflexivity).
  split; [exact Hmeasure|].
  destruct (C1_synced_windows true firstRepeat Hmeasure) as (Hrun & Hsynced & Hswitch & _).
  split; [exact Hrun|]. split.
  - apply Hsynced. right. reflexivity.
  - apply Hswitch. split; reflexivity.
Defined.

(** C3 at [staleRequest]: the request for slot 5 changes nothing, and the
    call clears its bit. *)
Lemma C3_witness :
  WF staleRequest
  /\ (forall switch, handlePlayRequest (playRequests true false) switch staleRequest
                     = Ok (switch, staleRequest))
  /\ exists e',
       updatePlayState false staleRequest = Ok (tt, e')
       /\ hasRequests (ss_state (ps_songState (playState (_model e'))))
                      (playRequests true false) = false.
Proof.
  split; [apply staleRequest_WF|].
  apply (C3_invalid_slot_request false staleRequest staleRequest_WF).
  - vm_compute. reflexivity.
  - vm_compute. reflexivity.
  - vm_compute. intros [_ Hlt]. discriminate Hlt.
Defined.

(** C5 at [overridden]: the gate bits are 2 and the CV channels hold 10
    and 20 at the end of the cycle, and no per-track write was made. *)
Lemma C5_witness :
  routingKeepsProjectOk /\ WF overridden
  /\ exists e' new,
       update 5 overridden = Ok (tt, e')
       /\ _gateOutput e' = 2
       /\ _cvOutput e' !! 0 = Some 10
       /\ _cvOutput e' !! 1 = Some 20
       /\ calls e' = calls overridden ++ new
       /\ Forall (fun c => isSetGate c = false /\ isSetCv c = false) new.
Proof.
  split; [exact toyRouting_ok|]. split; [exact overridden_WF|].
  destruct (C5_override_precedence 5 overridden) as [Hcycle Hruns].
  destruct (Hruns toyRouting_ok overridden_WF) as (e' & Hrun).
  destruct (Hcycle e' Hrun) as ((Hgate & Hcv) & before & Hcalls & Hnogate & Hnocv).
  exists e', ((before ++ overrideCalls overridden) ++ [CallCvOutputUpdate]).
  split; [exact Hrun|]. split; [exact (Hgate eq_refl)|].
  split; [exact (Hcv eq_refl 0%nat 10 eq_refl)|].
  split; [exact (Hcv eq_refl 1%nat 20 eq_refl)|].
  split; [rewrite Hcalls, <- !app_assoc; reflexivity|].
  apply Forall_app. split; [|repeat constructor].
  pose proof (Hnogate eq_refl) as Hg. pose proof (Hnocv eq_refl) as Hc.
  rewrite Forall_forall in Hg, Hc. apply Forall_forall. intros c Hin. split; auto.
Defined.

(** C10 at [lockAndUnlock]: the cycle stops the master clock first and
    ends unlocked, both requests cleared. *)
Lemma C10_witness :
  _requestLock lockAndUnlock <> 0 /\ _requestUnlock lockAndUnlock <> 0
  /\ exists e' rest,
       update 5 lockAndUnlock = Ok (tt, e')
       /\ _locked e' = 0 /\ _requestLock e' = 0 /\ _requestUnlock e' = 0
       /\ calls e' = CallClock masterStop :: rest
       /\ Forall (fun c => isMasterStop c = false) rest.
Proof.
  assert (Hlock : _requestLock lockAndUnlock <> 0) by (vm_compute; discriminate).
  assert (Hunlock : _requestUnlock lockAndUnlock <> 0) by (vm_compute; discriminate).
  split; [exact Hlock|]. split; [exact Hunlock|].
  destruct (C10_lock_and_unlock 5 lockAndUnlock Hlock Hunlock)
    as (_ & _ & _ & _ & Hcycle & Hruns).
  destruct (Hruns toyRouting_ok lockAndUnlock_WF) as (e' & Hrun).
  destruct (Hcycle e' Hrun) as (Hl & Hrl & Hru & rest & Hcalls & Hrest).
  exists e', rest. repeat (split; [assumption|]). exact Hrest.
Defined.

(** C8 at the engine its constructor leaves, with track 0 in mode
    [Last]: the set-up of track 0 calls through the null pointer. *)
Lemma C8_witness :
  updateTrackSetup 0 (constructed (project2 TrackModeLast Note [0; 1] stoppedSong 1))
  = Failed (NullTrackEngine 0).
Proof.
  apply (C8_last_mode_empty_slot 0 {| trackMode := TrackModeLast; linkTrack := -1 |}
           idleTrackState);
    first [reflexivity | vm_compute; reflexivity].
Defined.

(** The same through the loop over the tracks, as [init] runs it. *)
Example updateTrackSetups_last_constructed :
  updateTrackSetups (constructed (project2 TrackModeLast Note [0; 1] stoppedSong 1))
  = Failed (NullTrackEngine 0).
Proof. vm_compute. reflexivity. Qed.

(** C9 at [songStart], whose Clock is stopped. *)
Lemma C9_witness :
  (exists e',
     clockInputHandler true songStart = Ok (tt, e')
     /\ calls e' = [ CallClock (slaveStart ClockSourceExternal);
                     CallClock (slaveTick ClockSourceExternal) ])
  /\ exists e',
       clockInputHandler false songStart = Ok (tt, e')
       /\ calls e' = [ CallClock (slaveStart ClockSourceExternal) ].
Proof.
  destruct (C9_clock_input_reset_mode songStart eq_refl eq_refl eq_refl)
    as [(e1 & Hrun1 & Hcalls1 & _) (e2 & Hrun2 & Hcalls2 & _)].
  split; [exists e1 | exists e2]; split; assumption.
Defined.

(** C6 at [doubled]: output 1 is the second output of track 0 and draws
    sub-index 1, above what output 0 draws. *)
Lemma C6_witness :
  WF doubled
  /\ exists e' new,
       updateTrackOutputs doubled = Ok (tt, e')
       /\ calls e' = calls doubled ++ new
       /\ (forall subi subj idlei idlej,
             In (CallSetGate 0 0 subi idlei) new ->
             In (CallSetGate 1 0 subj idlej) new ->
             subi < subj)
       /\ exists src sub idle, In (CallSetCv 1 src sub idle) new /\ src = 0 /\ sub = 1.
Proof.
  split; [exact doubled_WF|].
  destruct (C6_sub_indices doubled) as [Hruns Hpass].
  destruct (Hruns doubled_WF) as (e' & Hrun).
  destruct (Hpass e' Hrun) as (new & Hcalls & _ & Hcv & Hgates & _ & _ & Hall).
  exists e', new. split; [exact Hrun|]. split; [exact Hcalls|]. split.
  - intros subi subj idlei idlej Hi Hj.
    apply (Hgates 0 1 0 subi subj idlei idlej); [lia | exact Hi | exact Hj].
  - destruct (Hall eq_refl 1) as (src & sub & idle & Hin);
      [vm_compute; split; [discriminate | reflexivity]|].
    exists src, sub, idle. split; [exact Hin|].
    destruct (Hcv 1 src sub idle Hin) as [Hsrc Hsub].
    injection Hsrc as <-. split; [reflexivity | exact Hsub].
Defined.

(** C7 as stated fails at [idlePreview]: output 0 is drawn from track 1
    before the idle output of track 1 is cleared, so the idle values of a
    track that is not selected (gate high, CV 99) are what output 0
    holds after the pass. *)
Lemma C7_counterexample :
  exists e' new,
    updateTrackOutputs idlePreview = Ok (tt, e')
    /\ calls e' = calls idlePreview ++ new
    /\ new = [ CallSetGate 0 1 0 true; CallSetCv 0 1 0 true;
               CallTrack 1 TEclearIdleOutput;
               CallSetGate 1 0 0 false; CallSetCv 1 0 0 false ]
    /\ selectedTrackIndex (_model idlePreview) = 0
    /\ ~ clearsPrecedeDraws (selectedTrackIndex (_model idlePreview)) new
    /\ Z.testbit (_gateOutput e') 0 = true
    /\ _cvOutput e' !! 0 = Some 99.
Proof.
  eexists. eexists. split; [vm_compute; reflexivity|].
  split; [reflexivity|]. split; [reflexivity|]. split; [reflexivity|].
  split; [|split; vm_compute; reflexivity].
  intros Hclears.
  specialize (Hclears [] (CallSetGate 0 1 0 true)
                [CallSetCv 0 1 0 true; CallTrack 1 TEclearIdleOutput;
                 CallSetGate 1 0 0 false; CallSetCv 1 0 0 false]
                eq_refl (mk_is_Some _ _ eq_refl) 1).
  apply Hclears; [vm_compute; split; [discriminate | reflexivity] | discriminate].
Qed.

(** C7 (amended) at [idlePreview]: track 1 is cleared, after the draws
    of output 0 and before those of output 1. *)
Lemma C7_witness :
  WF idlePreview
  /\ exists e' new,
       updateTrackOutputs idlePreview = Ok (tt, e')
       /\ calls e' = calls idlePreview ++ new
       /\ In (CallTrack 1 TEclearIdleOutput) new
       /\ ~ In (CallTrack 0 TEclearIdleOutput) new
       /\ forall before after,
            new = before ++ CallTrack 1 TEclearIdleOutput :: after ->
            Forall (fun c => forall chan, drawChannel c = Some chan -> chan < 1) before
            /\ Forall (fun c => forall chan, drawChannel c = Some chan -> 1 <= chan) after.
Proof.
  split; [exact idlePreview_WF|].
  destruct (C7_idle_clear_order idlePreview) as [Hruns Hpass].
  destruct (Hruns idlePreview_WF) as (e' & Hrun).
  destruct (Hpass e' Hrun) as (new & Hcalls & _ & Hclears & Honly & Horder).
  exists e', new. split; [exact Hrun|]. split; [exact Hcalls|]. split; [|split].
  - apply Hclears; [vm_compute; split; [discriminate | reflexivity] | discriminate].
  - intros Hin. destruct (Honly 0 Hin) as [_ Hselected]. apply Hselected. reflexivity.
  - intros before after Hsplit. exact (Horder before 1 after Hsplit).
Defined.

(** ** Examples: the further properties at concrete engines *)

Import Fixture2.

Lemma muteRequest_WF : WF muteRequest.
Proof. fixture_wf. Qed.

Lemma playRequest_WF : WF playRequest.
Proof. fixture_wf. Qed.

Lemma stopRequest_WF : WF stopRequest.
Proof. fixture_wf. Qed.

Lemma twoTicks_WF : WF twoTicks.
Proof. fixture_wf. Qed.

Lemma idleStraight_WF : WF idleStraight.
Proof. fixture_wf. Qed.

Lemma fresh_ok :
  covers (_trackEngines fresh)
  /\ ProjectOk (_model fresh)
  /\ forall i t, 0 <= i < CONFIG_TRACK_COUNT -> at_ (tracks (_model fresh)) i = Some t ->
       trackMode t <> TrackModeLast /\ linkTrack t < i.
Proof.
  split; [unfold covers; cbn; lia|]. split.
  { constructor; cbn; unfold routed, songOk, covers; cbn;
    repeat first [apply Forall_nil_2 | apply Forall_cons_2 | apply conj]; cbn;
    first [lia | vm_compute; discriminate]. }
  intros i t Hi Hat. change CONFIG_TRACK_COUNT with 2 in Hi.
  assert (Hcases : i = 0 \/ i = 1) by lia.
  destruct Hcases as [-> | ->]; injection Hat as <-; (split; [discriminate | cbn; lia]).
Qed.

(** X1 at the engine of the constructor. *)
Lemma X1_witness :
  exists e',
    updateTrackSetups fresh = Ok (tt, e')
    /\ enginesReady (_trackEngines e')
    /\ _model e' = _model fresh.
Proof.
  destruct fresh_ok as (Hcov & Hok & Htracks).
  exact (X1_setups_build_engines fresh Hcov Hok Htracks).
Defined.

Lemma songStart_modes : modesMatch songStart.
Proof.
  intros i t te Hi Ht Hte. change CONFIG_TRACK_COUNT with 2 in Hi.
  assert (Hcases : i = 0 \/ i = 1) by lia.
  destruct Hcases as [-> | ->]; injection Ht as <-; injection Hte as <-; reflexivity.
Qed.

(** X2 at [songStart]: the pass gives the swing to both engines. *)
Lemma X2_witness :
  exists e',
    updateTrackSetups songStart = Ok (tt, e')
    /\ calls e' = [CallTrack 0 (TEsetSwing 50); CallTrack 1 (TEsetSwing 50)].
Proof.
  destruct (X2_setups_settled songStart songStart_WF songStart_modes)
    as (e' & Hrun & Hcalls & _).
  exists e'. split; [exact Hrun | exact Hcalls].
Defined.

(** X3 at the engine of the constructor. *)
Lemma X3_witness :
  exists e' e'',
    initTrackEngines fresh = Ok (tt, e')
    /\ WF e'
    /\ update 5 e' = Ok (tt, e'').
Proof.
  destruct fresh_ok as (Hcov & Hok & Htracks).
  destruct (X3_init_track_engines fresh Hcov Hok Htracks)
    as (e' & setup & Hrun & HW & _ & _ & Hcycles).
  destruct (Hcycles toyRouting_ok 5) as (e'' & Hupdate).
  exists e', e''. split; [exact Hrun|]. split; [exact HW | exact Hupdate].
Defined.

(** X4 at [muteRequest]: track 0 is muted, its request is cleared, and
    its engine is told. *)
Lemma X4_witness :
  exists e' t',
    updatePlayState false muteRequest = Ok (tt, e')
    /\ at_ (ps_trackStates (playState (_model e'))) 0 = Some t'
    /\ ts_mute t' = true
    /\ ts_state t' = 0
    /\ ps_hasImmediateRequests (playState (_model e')) = false.
Proof.
  destruct (X4_requests_reach_engines false muteRequest muteRequest_WF eq_refl)
    as (e' & resets & Hrun & _ & Htracks & Hbucket & _).
  destruct (Htracks 0 {| ts_state := 1; ts_mute := false; ts_requestedMute := true;
                         ts_fill := false; ts_pattern := 0; ts_requestedPattern := 0 |})
    as (t' & Hat & Hmute & Hstate & _); [split; [lia | reflexivity] | reflexivity|].
  exists e', t'. split; [exact Hrun|]. split; [exact Hat|].
  split; [exact Hmute|]. split; [exact Hstate | exact Hbucket].
Defined.

(** X5 at [playRequest]: the song plays slot 1 and no engine is reset. *)
Lemma X5_witness :
  exists e',
    updatePlayState false playRequest = Ok (tt, e')
    /\ ss_currentSlot (ps_songState (playState (_model e'))) = 1
    /\ ss_currentRepeat (ps_songState (playState (_model e'))) = 0
    /\ ss_playing (ps_songState (playState (_model e'))) = true
    /\ calls e' = pushCalls (ps_trackStates (playState (_model e'))) CONFIG_TRACK_COUNT.
Proof.
  destruct (X5_play_request false playRequest {| slot_patterns := [5; 6]; slot_repeats := 1 |}
              playRequest_WF eq_refl eq_refl)
    as (e' & Hrun & Hslot & Hrepeat & Hplaying & _ & _ & _ & Hcalls);
    [vm_compute; split; [discriminate | reflexivity] | reflexivity|].
  exists e'. split; [exact Hrun|]. split; [exact Hslot|]. split; [exact Hrepeat|].
  split; [exact Hplaying | exact Hcalls].
Defined.

(** X6 at [stopRequest]: the song stops on slot 1, at the last tick of a
    measure, in a ticked call. *)
Lemma X6_witness :
  exists e',
    updatePlayState true stopRequest = Ok (tt, e')
    /\ ss_playing (ps_songState (playState (_model e'))) = false
    /\ ss_currentSlot (ps_songState (playState (_model e'))) = 1.
Proof.
  destruct (X6_stop_request true stopRequest stopRequest_WF eq_refl eq_refl eq_refl)
    as (e' & Hrun & Hplaying & Hslot & _).
  exists e'. split; [exact Hrun|]. split; [exact Hplaying | exact Hslot].
Defined.

(** X7 at [songStart], outside the tick loop: nothing happens. *)
Lemma X7_witness : updatePlayState false songStart = Ok (tt, songStart).
Proof.
  destruct (X7_idle_arbitration false songStart) as [_ Hidle].
  destruct (Hidle songStart_WF eq_refl eq_refl) as (e' & Hrun & _ & _ & Hsame).
  rewrite Hrun, (Hsame eq_refl). reflexivity.
Defined.

(** X8 at [startStop]: the engines are reset for the Start, and the
    engine is not running after the Stop. *)
Lemma X8_witness :
  exists e',
    processClockEvents startStop = Ok (tt, e')
    /\ _running e' = false
    /\ calls e' = [CallTrack 0 TEreset; CallTrack 1 TEreset].
Proof.
  destruct (X8_clock_events startStop (twoTracks_ready _ _))
    as (e' & Hrun & Hrunning & _ & Hcalls & _).
  exists e'. split; [exact Hrun|]. split; [exact Hrunning | exact Hcalls].
Defined.

(** X9 at [midiWaiting]. *)
Lemma X9_witness :
  exists e',
    receiveMidi midiWaiting = Ok (tt, e')
    /\ _midi e' = [] /\ _usbMidi e' = []
    /\ calls e'
       = [ CallMidiLearn PortMidi 144; CallRoutingMidi PortMidi 144;
           CallTrack 0 (TEreceiveMidi PortMidi 0 144);
           CallTrack 1 (TEreceiveMidi PortMidi 0 144);
           CallMidiLearn PortMidi 145; CallRoutingMidi PortMidi 145;
           CallTrack 0 (TEreceiveMidi PortMidi 1 145);
           CallTrack 1 (TEreceiveMidi PortMidi 1 145);
           CallMidiLearn PortUsbMidi 130; CallRoutingMidi PortUsbMidi 130;
           CallTrack 0 (TEreceiveMidi PortUsbMidi 2 130);
           CallTrack 1 (TEreceiveMidi PortUsbMidi 2 130) ].
Proof.
  destruct (X9_midi_ingress midiWaiting (twoTracks_ready _ _))
    as (e' & Hrun & Hcalls & _ & Hmidi & Husb & _).
  exists e'. split; [exact Hrun|]. split; [exact Hmidi|]. split; [exact Husb | exact Hcalls].
Defined.

(** X11 at [idleStraight]: both outputs carry sequenced values. *)
Lemma X11_witness :
  exists e',
    updateTrackOutputs idleStraight = Ok (tt, e')
    /\ Z.testbit (_gateOutput e') 1 = true
    /\ _cvOutput e' !! 1 = Some 7.
Proof.
  destruct (X11_output_values idleStraight idleStraight_WF)
    as (e' & Hrun & _ & Hgates & Hcvs & _).
  exists e'. split; [exact Hrun|]. split.
  - apply (Hgates eq_refl 1 true); [split; [lia | reflexivity] | reflexivity].
  - apply (Hcvs eq_refl 1 7); [split; [lia | reflexivity] | reflexivity].
Defined.

(** X12 at [idleStraight]: track 1 is not selected and has raised its
    idle output, yet output 1 carries its sequenced CV, 7, not the idle
    value. *)
Lemma X12_witness :
  exists e',
    updateTrackOutputs idleStraight = Ok (tt, e')
    /\ _cvOutput e' !! 1 = Some 7.
Proof.
  destruct (X12_idle_preview_confined idleStraight 1 1
              {| toy_mode := Note; toy_mute := false; toy_fill := false; toy_pattern := 7;
                 toy_idle := true; toy_resets := 0; toy_ticks := [] |})
    as (e' & Hrun & _ & Hcv).
  - intros te'. reflexivity.
  - exact idleStraight_WF.
  - split; [lia | reflexivity].
  - discriminate.
  - lia.
  - reflexivity.
  - exists e'. split; [exact Hrun|]. exact (Hcv eq_refl eq_refl).
Defined.

(** X13 at [songStart]: one cycle locks the engine. *)
Lemma X13_witness :
  exists e', lock [1; 2] songStart = Ok (true, e') /\ _locked e' = 1.
Proof.
  destruct (X13_lock_terminates [1; 2] songStart toyRouting_ok songStart_WF)
    as (e' & Hrun & Hlocked & _); [cbn; lia|].
  exists e'. split; [exact Hrun|]. unfold isLocked in Hlocked. lia.
Defined.

(** X14 at [lockedEngine]: one cycle unlocks the engine. *)
Lemma X14_witness :
  exists e', unlock [1] lockedEngine = Ok (true, e') /\ _locked e' = 0.
Proof.
  destruct (X14_unlock_terminates [1] lockedEngine toyRouting_ok lockedEngine_WF)
    as (e' & Hrun & _ & _ & _ & _ & Hunlocked); [cbn; lia|].
  exists e'. split; [exact Hrun|]. exact (proj1 (Hunlocked eq_refl)).
Defined.

(** X15 at [twoTicks]: three cycles in a row. *)
Lemma X15_witness :
  exists e', forM [1; 2; 3] update twoTicks = Ok (tt, e') /\ WF e'.
Proof.
  destruct (X15_cycles_run [1; 2; 3] twoTicks toyRouting_ok twoTicks_WF)
    as (e' & Hrun & HW & _).
  exists e'. split; [exact Hrun | exact HW].
Defined.

(** X16 at [twoTicks]: ticks 5 and 6 reach both engines, in order. *)
Lemma X16_witness :
  exists updateOutputs e' new,
    whileCheckTick onTick twoTicks = Ok (updateOutputs, e')
    /\ updateOutputs = false
    /\ _tick e' = 6
    /\ calls e' = calls twoTicks ++ new
    /\ tickCallsOf new = [ CallTrack 0 (TEtick 5); CallTrack 1 (TEtick 5);
                           CallTrack 0 (TEtick 6); CallTrack 1 (TEtick 6) ].
Proof.
  destruct (X16_tick_loop twoTicks twoTicks_WF)
    as (updateOutputs & e' & new & Hrun & _ & Hflag & _ & Htick & Hcalls & Hticks).
  exists updateOutputs, e', new. split; [exact Hrun|]. split; [exact Hflag|].
  split; [exact Htick|]. split; [exact Hcalls | exact Hticks].
Defined.

(** X18 at [songStart]: a cycle at system tick 7 records the reading. *)
Lemma X18_witness :
  exists e', update 7 songStart = Ok (tt, e') /\ _lastSystemTicks e' = 7.
Proof.
  destruct (X18_elapsed_time 7 songStart toyRouting_ok songStart_WF)
    as (e' & new & Hrun & Hlast & _).
  exists e'. split; [exact Hrun | exact Hlast].
Defined.

Lemma muteAtBoundary_WF : WF muteAtBoundary.
Proof. fixture_wf. Qed.

(** C2 as stated fails at [firstRepeat]: the repeat target is not reached
    and the song stays on slot 0, yet the patterns of slot 0 are written
    to the track states (3 and 4, from 0 and 0) and both track engines
    are reset. *)
Lemma C2_counterexample :
  exists e',
    updatePlayState true firstRepeat = Ok (tt, e')
    /\ ss_playing (ps_songState (playState (_model firstRepeat))) = true
    /\ switchToNextSlot true (_tick firstRepeat) (measureDivisor (_model firstRepeat)) = true
    /\ ss_currentRepeat (ps_songState (playState (_model firstRepeat))) + 1 < 2
    /\ ss_currentSlot (ps_songState (playState (_model e'))) = 0
    /\ ss_currentRepeat (ps_songState (playState (_model e'))) = 1
    /\ ts_pattern <$> ps_trackStates (playState (_model firstRepeat)) = [0; 0]
    /\ ts_pattern <$> ps_trackStates (playState (_model e')) = [3; 4]
    /\ calls e' = [ CallTrack 0 TEreset; CallTrack 1 TEreset;
                    CallTrack 0 (TEsetMute false); CallTrack 0 (TEsetFill false);
                    CallTrack 0 (TEsetPattern 3);
                    CallTrack 1 (TEsetMute false); CallTrack 1 (TEsetFill false);
                    CallTrack 1 (TEsetPattern 4) ].
Proof.
  eexists. split; [vm_compute; reflexivity|].
  repeat split; vm_compute; reflexivity.
Qed.

(** C2 (amended) at [muteAtBoundary], where a mute request fires in the
    call and the song advances to slot 1; at [firstRepeat], where it
    stays on slot 0 for its second repeat, both engines being reset in
    the two calls; at [stopRequest], where a Stop request fires at the
    last tick of the measure and no engine is reset; and, for the
    scenario, at [songStart]: after the ticks of three measures the song
    is on slot 1. *)
Lemma C2_witness :
  (exists e' rest,
     updatePlayState true muteAtBoundary = Ok (tt, e')
     /\ ss_currentSlot (ps_songState (playState (_model e'))) = 1
     /\ ss_currentRepeat (ps_songState (playState (_model e'))) = 0
     /\ ss_playing (ps_songState (playState (_model e'))) = true
     /\ calls e' = [CallTrack 0 TEreset; CallTrack 1 TEreset] ++ rest)
  /\ (exists e' rest,
        updatePlayState true firstRepeat = Ok (tt, e')
        /\ ss_currentSlot (ps_songState (playState (_model e'))) = 0
        /\ ss_currentRepeat (ps_songState (playState (_model e'))) = 1
        /\ calls e' = [CallTrack 0 TEreset; CallTrack 1 TEreset] ++ rest)
  /\ (exists e' new,
        updatePlayState true stopRequest = Ok (tt, e')
        /\ calls e' = new
        /\ Forall (fun c => isResetCall c = false) new)
  /\ exists updateOutputs e',
       tickLoop (seqZ 0 (Z.of_nat 3 * 768)) onTick true songStart = Ok (updateOutputs, e')
       /\ ss_currentSlot (ps_songState (playState (_model e'))) = 1.
Proof.
  destruct C2_song_slot_change as (Hchange & Hquiet & Hscenario).
  split; [|split; [|split]].
  - destruct (Hchange muteAtBoundary muteAtBoundary_WF eq_refl eq_refl)
      as (slot & slot' & e' & Hslot & Hrun & Hrepeat & Hcurrent & Hplaying & _ & _ & Hcalls).
    { intros _. split; [reflexivity|]. split; [reflexivity|].
      intros Hfires. vm_compute in Hfires. discriminate Hfires. }
    vm_compute in Hslot. injection Hslot as <-.
    exists e', (pushCalls (ps_trackStates (playState (_model e'))) CONFIG_TRACK_COUNT).
    split; [exact Hrun|]. split; [exact Hcurrent|]. split; [exact Hrepeat|].
    split; [exact Hplaying | exact Hcalls].
  - destruct (Hchange firstRepeat firstRepeat_WF eq_refl eq_refl)
      as (slot & slot' & e' & Hslot & Hrun & Hrepeat & Hcurrent & _ & _ & _ & Hcalls).
    { intros Hany. vm_compute in Hany. discriminate Hany. }
    vm_compute in Hslot. injection Hslot as <-.
    exists e', (pushCalls (ps_trackStates (playState (_model e'))) CONFIG_TRACK_COUNT).
    split; [exact Hrun|]. split; [exact Hcurrent|]. split; [exact Hrepeat | exact Hcalls].
  - destruct (Hquiet true stopRequest stopRequest_WF) as (e' & new & Hrun & Hcalls & Hnone).
    { right. right. split; [reflexivity|]. right. left. reflexivity. }
    exists e', new. split; [exact Hrun|]. split; [exact Hcalls | exact Hnone].
  - destruct (Hscenario (song (_model songStart)) 768 songStart 3%nat
                songStart_twoSlots songStart_plays eq_refl eq_refl)
      as (updateOutputs & e' & Hrun & Hslot).
    exists updateOutputs, e'. split; [exact Hrun|]. rewrite Hslot. reflexivity.
Defined.

(** C4 as stated fails at [lockRequested]: the cycle is entered locked
    and left locked, yet it stops the master clock before it drains the
    queues, and clears the lock request. *)
Lemma C4_counterexample :
  exists e',
    update 5 lockRequested = Ok (tt, e')
    /\ _locked lockRequested <> 0
    /\ _locked e' <> 0
    /\ _requestLock lockRequested = 1
    /\ _requestLock e' = 0
    /\ calls lockRequested = []
    /\ calls e' = [CallClock masterStop; CallCvOutputUpdate]
    /\ _clock e' = set_clk_ticks [] (clock_command masterStop (_clock lockRequested)).
Proof.
  eexists. split; [vm_compute; reflexivity|].
  repeat split; vm_compute; first [reflexivity | discriminate].
Qed.

(** C4 (amended) at [lockedEngine] (scenario S3): the cycle flushes the
    CV outputs and calls nothing else, empties the queues, keeps the
    tick, and the mute request of track 0 is still pending.  At
    [lockRequested] its first call is the [masterStop] of the lock
    request. *)
Lemma C4_witness :
  _locked lockedEngine <> 0
  /\ (exists e',
        update 5 lockedEngine = Ok (tt, e')
        /\ _locked e' <> 0
        /\ calls e' = [CallCvOutputUpdate]
        /\ _model e' = _model lockedEngine
        /\ _trackEngines e' = _trackEngines lockedEngine
        /\ (_tick e', _running e', _routingEngine e') = (0, false, tt)
        /\ _lastSystemTicks e' = 5
        /\ clk_ticks (_clock e') = [] /\ _midi e' = [] /\ _usbMidi e' = []
        /\ exists t',
             at_ (ps_trackStates (playState (_model e'))) 0 = Some t'
             /\ hasRequests (ts_state t') ImmediateMuteRequest = true)
  /\ exists e',
       update 5 lockRequested = Ok (tt, e')
       /\ _locked e' <> 0
       /\ calls e' = [CallClock masterStop; CallCvOutputUpdate].
Proof.
  assert (Hlocked : _locked lockedEngine <> 0) by (vm_compute; discriminate).
  split; [exact Hlocked|]. split.
  - destruct (C4_locked_cycle 5 lockedEngine Hlocked) as [Hruns Hcycle].
    destruct (Hruns eq_refl) as (e' & Hrun & Hstill).
    destruct (Hcycle e' Hrun Hstill)
      as (_ & Hcalls & _ & _ & _ & _ & Hlast & _ & Hmodel & Hengines & Hfields & Hticks
          & Hmidi & Husb & _ & Hpending).
    exists e'. split; [exact Hrun|]. split; [exact Hstill|].
    split; [exact Hcalls|]. split; [exact Hmodel|]. split; [exact Hengines|].
    split; [exact Hfields|]. split; [exact Hlast|].
    split; [exact Hticks|]. split; [exact Hmidi|]. split; [exact Husb|].
    destruct (Hpending 0 {| ts_state := 1; ts_mute := false; ts_requestedMute := true;
                            ts_fill := false; ts_pattern := 0; ts_requestedPattern := 0 |}
                eq_refl eq_refl) as (t' & Hat & Hrequest & _).
    exists t'. split; assumption.
  - assert (Hlocked' : _locked lockRequested <> 0) by (vm_compute; discriminate).
    destruct (C4_locked_cycle 5 lockRequested Hlocked') as [Hruns Hcycle].
    destruct (Hruns eq_refl) as (e' & Hrun & Hstill).
    destruct (Hcycle e' Hrun Hstill) as (_ & Hcalls & _).
    exists e'. split; [exact Hrun|]. split; [exact Hstill | exact Hcalls].
Defined.
